(** * A shallow embedding of the hashing visualiser's table engine

    The development follows the auto-resizing engine of [script.js]
    (the second of the two closures of that file): key normalisation,
    the FNV-1a hash, the bounded prime search, the separate-chaining
    strategy and the open-addressing family (linear, quadratic and
    double hashing), each with its resize policy.

    JavaScript numbers that the engine uses as table sizes, counters,
    indices and hashes are integers, modelled in [Z].  Strings are
    sequences of UTF-16 code units, modelled as [list Z]. *)

From Stdlib Require Import ZArith List Bool Lia String Ascii.
From stdpp Require Import base decidable option list.

Open Scope Z_scope.

(** ** JavaScript strings *)

Definition jsstring := list Z.

(** Code units of a literal, for writing concrete keys. *)
Definition str (s : string) : jsstring :=
  map (fun c => Z.of_nat (nat_of_ascii c)) (list_ascii_of_string s).

Definition jsstring_eqb (a b : jsstring) : bool := bool_decide (a = b).

(** ** Key normalisation (BaseStrategy.normaliseKey) *)

(** [String.prototype.trim] removes WhiteSpace and LineTerminator code
    points from both ends. *)
Definition is_js_space (c : Z) : bool :=
  (c =? 9) || (c =? 10) || (c =? 11) || (c =? 12) || (c =? 13) || (c =? 32)
  || (c =? 160) || (c =? 5760) || ((8192 <=? c) && (c <=? 8202))
  || (c =? 8232) || (c =? 8233) || (c =? 8239) || (c =? 8287)
  || (c =? 12288) || (c =? 65279).

Fixpoint trim_start (s : jsstring) : jsstring :=
  match s with
  | c :: s' => if is_js_space c then trim_start s' else s
  | [] => []
  end.

Definition trim (s : jsstring) : jsstring :=
  rev (trim_start (rev (trim_start s))).

Definition is_digit (c : Z) : bool := (48 <=? c) && (c <=? 57).

(** The test [/^-?\d+$/]: an optional minus sign, then one or more
    decimal digits, and nothing else. *)
Definition all_digits (s : jsstring) : bool :=
  match s with
  | [] => false
  | _ => forallb is_digit s
  end.

Definition is_integer_literal (s : jsstring) : bool :=
  match s with
  | c :: rest => if c =? 45 then all_digits rest else all_digits s
  | [] => false
  end.

(** The mathematical value of a digit sequence. *)
Definition digits_value (s : jsstring) : Z :=
  fold_left (fun acc c => 10 * acc + (c - 48)) s 0.

(** *** Numbers

    [parseInt] yields a Number: the double nearest to the mathematical
    value (ties to even), or an infinity when the value is out of range.
    Only integral magnitudes occur here, so a Number is a sign and
    either an integer that a double represents or an infinity; the sign
    matters for [-0], which prints as ["0"]. *)

Inductive number :=
| Finite (negative : bool) (magnitude : Z)
| Infinite (negative : bool).

(** Round a non-negative integer to the nearest double: 53 significant
    bits, ties to even, overflow from [2^1024 - 2^970] on. *)
Definition round_double (m : Z) : option Z :=
  if m <? 2 ^ 53 then Some m
  else
    let e := Z.log2 m - 52 in
    let q := Z.shiftr m e in
    let r := m - Z.shiftl q e in
    let half := Z.shiftl 1 (e - 1) in
    let q' := if (half <? r) || ((half =? r) && Z.odd q) then q + 1 else q in
    let v := Z.shiftl q' e in
    if 2 ^ 1024 <=? v then None else Some v.

Definition to_number (negative : bool) (magnitude : Z) : number :=
  match round_double magnitude with
  | Some m => Finite negative m
  | None => Infinite negative
  end.

(** [parseInt(s, 10)] on a string that passed the test above. *)
Definition parseInt (s : jsstring) : number :=
  match s with
  | c :: rest =>
      if c =? 45 then to_number true (digits_value rest)
      else to_number false (digits_value s)
  | [] => to_number false 0
  end.

(** Decimal digits of a non-negative integer, most significant first. *)
Fixpoint digits_fuel (fuel : nat) (n : Z) (acc : jsstring) : jsstring :=
  match fuel with
  | O => acc
  | S fuel' =>
      let acc' := (48 + n mod 10) :: acc in
      if n <? 10 then acc' else digits_fuel fuel' (n / 10) acc'
  end.

Definition digits (n : Z) : jsstring :=
  digits_fuel (S (Z.to_nat (Z.log2 n))) n [].

Definition num_digits (n : Z) : Z := Z.of_nat (length (digits n)).

(** [Number::toString] prints the shortest digit string [s] (of length
    [k]) such that [s * 10^(n-k)] still rounds to the number, taking
    the candidate closest to it.  [shortest_fuel] tries [k = 1, 2, ...]
    and returns that value [s * 10^(n-k)]. *)
Definition rounds_to (x v : Z) : bool :=
  match round_double v with
  | Some y => y =? x
  | None => false
  end.

Fixpoint shortest_fuel (fuel : nat) (x : Z) (e : Z) : Z :=
  match fuel with
  | O => x
  | S fuel' =>
      let p := 10 ^ e in
      let lo := (x / p) * p in
      let hi := lo + p in
      let lo_ok := rounds_to x lo in
      let hi_ok := rounds_to x hi in
      if lo_ok && hi_ok then
        (if x - lo <? hi - x then lo
         else if hi - x <? x - lo then hi
         else if Z.even (x / p) then lo else hi)
      else if lo_ok then lo
      else if hi_ok then hi
      else shortest_fuel fuel' x (e - 1)
  end.

Definition shortest (x : Z) : Z :=
  let d := num_digits x in
  shortest_fuel (Z.to_nat d) x (d - 1).

Fixpoint strip_trailing_zeros_fuel (fuel : nat) (n : Z) : Z :=
  match fuel with
  | O => n
  | S fuel' =>
      if (n mod 10 =? 0) && (0 <? n) then strip_trailing_zeros_fuel fuel' (n / 10)
      else n
  end.

Definition significand (v : Z) : Z :=
  strip_trailing_zeros_fuel (Z.to_nat (num_digits v)) v.

(** Decimal notation up to 21 digits, exponent notation beyond. *)
Definition magnitude_to_string (x : Z) : jsstring :=
  if x =? 0 then str "0"
  else
    let v := shortest x in
    let n := num_digits v in
    if n <=? 21 then digits v
    else
      match digits (significand v) with
      | [] => []
      | d :: [] => d :: str "e+" ++ digits (n - 1)
      | d :: ds => d :: str "." ++ ds ++ str "e+" ++ digits (n - 1)
      end.

Definition number_to_string (x : number) : jsstring :=
  match x with
  | Finite neg m =>
      if neg && negb (m =? 0) then 45 :: magnitude_to_string m
      else magnitude_to_string m
  | Infinite neg =>
      if neg then str "-Infinity" else str "Infinity"
  end.

(** [normaliseKey] on text input (the engine's callers pass text). *)
Definition normaliseKey (rawKey : jsstring) : jsstring :=
  let key := trim rawKey in
  if is_integer_literal key then number_to_string (parseInt key)
  else key.

(** ** The hash function (BaseStrategy.hashCode)

    [hash ^= c] and [Math.imul] work on 32-bit two's-complement
    integers; [>>> 0] reads the result as unsigned. *)

Definition to_int32 (x : Z) : Z := (x + 2 ^ 31) mod 2 ^ 32 - 2 ^ 31.
Definition to_uint32 (x : Z) : Z := x mod 2 ^ 32.

Definition imul (a b : Z) : Z := to_int32 (to_int32 a * to_int32 b).

Definition hash_step (hash c : Z) : Z :=
  imul (Z.lxor (to_int32 hash) (to_int32 c)) 16777619.

Definition hashCode (rawKey : jsstring) : Z :=
  let key := normaliseKey rawKey in
  to_uint32 (fold_left hash_step key 2166136261).

(** Table sizes are positive and hashes non-negative, where JavaScript's
    [%] is [Z.modulo]. *)
Definition primaryIndex (size : Z) (rawKey : jsstring) : Z :=
  hashCode rawKey mod size.

Definition secondaryStep (size : Z) (rawKey : jsstring) : Z :=
  if size <=? 1 then 1
  else
    let hash := hashCode rawKey in
    let m := if size - 1 =? 0 then 1 else size - 1 in
    let step := 1 + hash mod m in
    if step =? 0 then 1 else step.

(** ** Bounded prime search *)

Definition MIN_TABLE_SIZE : Z := 3.
Definition MAX_TABLE_SIZE : Z := 199.

Definition clampTableSize (value : Z) : Z :=
  Z.min (Z.max value MIN_TABLE_SIZE) MAX_TABLE_SIZE.

Fixpoint isPrime_loop (fuel : nat) (i n : Z) : bool :=
  match fuel with
  | O => true
  | S fuel' =>
      if i * i <=? n then
        if (n mod i =? 0) || (n mod (i + 2) =? 0) then false
        else isPrime_loop fuel' (i + 6) n
      else true
  end.

Definition isPrime (n : Z) : bool :=
  if n <=? 1 then false
  else if n <=? 3 then true
  else if (n mod 2 =? 0) || (n mod 3 =? 0) then false
  else isPrime_loop (Z.to_nat n) 5 n.

Fixpoint nextPrime_loop (fuel : nat) (candidate : Z) : Z :=
  match fuel with
  | O => MAX_TABLE_SIZE
  | S fuel' =>
      if candidate <=? MAX_TABLE_SIZE then
        if isPrime candidate then candidate
        else nextPrime_loop fuel' (candidate + 2)
      else MAX_TABLE_SIZE
  end.

Definition nextPrime (value : Z) : Z :=
  let candidate := clampTableSize value in
  let candidate := if candidate mod 2 =? 0 then candidate + 1 else candidate in
  nextPrime_loop 100 candidate.

Fixpoint previousPrime_loop (fuel : nat) (candidate : Z) : Z :=
  match fuel with
  | O => MIN_TABLE_SIZE
  | S fuel' =>
      if MIN_TABLE_SIZE <=? candidate then
        if isPrime candidate then candidate
        else previousPrime_loop fuel' (candidate - 2)
      else MIN_TABLE_SIZE
  end.

Definition previousPrime (value : Z) : Z :=
  let candidate := clampTableSize value in
  if candidate <=? MIN_TABLE_SIZE then MIN_TABLE_SIZE
  else
    let candidate := if candidate mod 2 =? 0 then candidate - 1 else candidate in
    previousPrime_loop 100 candidate.

(** ** Resize arithmetic

    The engine computes its thresholds on doubles.  For sizes between 1
    and 199 and counters up to a few hundred those computations agree
    with exact rational arithmetic, which is what is written here:
    [Math.ceil(size * 1.6)], [Math.ceil(size * 1.35)],
    [Math.floor(size / 1.6)], [Math.floor(size / 1.5)], and comparisons
    of a quotient [a / b] (with [b > 0]) or of an integer against a
    decimal constant [p / q].  The one exception in that range,
    [Math.ceil(180 * 1.35)] being 244 where the exact value is 243, is not
    observable: the result only feeds [nextPrime], which clamps both to
    199. *)

Definition ceil_mul_1_6 (size : Z) : Z := - ((- (8 * size)) / 5).
Definition ceil_mul_1_35 (size : Z) : Z := - ((- (27 * size)) / 20).
Definition floor_div_1_6 (size : Z) : Z := (5 * size) / 8.
Definition floor_div_1_5 (size : Z) : Z := (2 * size) / 3.

(** [a / b > p / q] and [a / b < p / q], for [b > 0] and [q > 0]. *)
Definition ratio_gt (a b p q : Z) : bool := p * b <? q * a.
Definition ratio_lt (a b p q : Z) : bool := q * a <? p * b.

(** ** Results of an operation

    An operation returns its status, the slots it visited (for the
    renderer) and its log.  A log line is modelled by its kind and the
    values it mentions; the wording of the line is presentation. *)

Inductive status := inserted | duplicate | found | missing | removed | full.

Inductive highlight_type := probe | hit_found | placed.

Inductive log :=
| LHash (key : jsstring) (index : Z)
| LStep (key : jsstring) (step : Z)
| LProbe (attempt index : Z)
| LBucketDuplicate (key : jsstring) (index : Z)
| LBucketInserted (key : jsstring) (index len : Z)
| LBucketMissing (key : jsstring) (index : Z)
| LBucketFound (key : jsstring) (index position : Z)
| LBucketNothingToDelete (key : jsstring) (index : Z)
| LBucketDeleted (key : jsstring) (index : Z)
| LAlreadyStored (key : jsstring) (index : Z)
| LReusedTombstone (target : Z) (key : jsstring)
| LPlaced (key : jsstring) (target : Z)
| LWrappedIntoTombstone (key : jsstring) (target : Z)
| LFound (key : jsstring) (index : Z)
| LEmptyNotPresent
| LCycleNoMatch
| LMarkedTombstone (index : Z)
| LEmptyNothingRemoved
| LCycleNoDeletion
| LChainGrowth (count size maxChain target : Z)
| LShrunk (count size target : Z)
| LPreemptiveGrowth (count size target : Z)
| LTombstonesBuildingUp
| LPostInsertGrowth (count size target : Z)
| LHighTombstoneRatio
| LManyTombstones
| LSaturated.

Record result := mkResult {
  logs : list log;
  highlights : list (Z * highlight_type);
  res_status : status
}.

Definition is_rehash_notice (l : log) : bool :=
  match l with
  | LChainGrowth _ _ _ _ | LShrunk _ _ _ | LPreemptiveGrowth _ _ _
  | LTombstonesBuildingUp | LPostInsertGrowth _ _ _ | LHighTombstoneRatio
  | LManyTombstones | LSaturated => true
  | _ => false
  end.

(** ** State and exceptions

    The strategies are objects mutated in place; a method is a function
    from the object's state to an outcome and the state it leaves.  A
    thrown exception leaves the object as it was at the throw. *)

Inductive error := RehashFailed | TypeError.

Inductive outcome (A : Type) :=
| Ret (a : A)
| Throw (e : error).
Arguments Ret {A} a.
Arguments Throw {A} e.

Definition M (S A : Type) : Type := S -> outcome A * S.

Definition ret {S A} (a : A) : M S A := fun s => (Ret a, s).
Definition throw {S A} (e : error) : M S A := fun s => (Throw e, s).
Definition bind {S A B} (m : M S A) (k : A -> M S B) : M S B :=
  fun s => match m s with
           | (Ret a, s') => k a s'
           | (Throw e, s') => (Throw e, s')
           end.
Definition get {S} : M S S := fun s => (Ret s, s).
Definition modify {S} (f : S -> S) : M S unit := fun s => (Ret tt, f s).

Declare Scope js_scope.
Delimit Scope js_scope with js.
Notation "x <- m ;; k" := (bind m (fun x => k))
  (at level 100, m at next level, right associativity) : js_scope.
Notation "m ;;; k" := (bind m (fun _ => k))
  (at level 100, right associativity) : js_scope.
Open Scope js_scope.

Fixpoint forEach {S A} (l : list A) (f : A -> M S unit) : M S unit :=
  match l with
  | [] => ret tt
  | x :: l' => f x ;;; forEach l' f
  end.

(** Array element read: [None] is [undefined] (index out of range). *)
Definition arr_lookup {A} (l : list A) (i : Z) : option A :=
  if i <? 0 then None else l !! Z.to_nat i.

(** ** Separate chaining *)

Module Chaining.

Record state := mkState {
  size : Z;
  table : list (list jsstring);
  count : Z
}.

Definition set_table (t : list (list jsstring)) (st : state) : state :=
  mkState (size st) t (count st).
Definition set_count (c : Z) (st : state) : state :=
  mkState (size st) (table st) c.

(** The constructor: [clear] on a table of [size] empty chains. *)
Definition init (sz : Z) : state :=
  mkState sz (replicate (Z.to_nat sz) []) 0.

(** [bucket.push(key)] on the chain at [index]; the chain is shared with
    the table, so the table sees the push.  Pushing onto [undefined]
    is a TypeError. *)
Definition push_at (index : Z) (key : jsstring) : M state Z :=
  st <- get ;;
  match arr_lookup (table st) index with
  | Some bucket =>
      modify (set_table (<[Z.to_nat index := bucket ++ [key]]> (table st))) ;;;
      ret (Z.of_nat (length bucket) + 1)
  | None => throw TypeError
  end.

Definition insertInternal (key : jsstring) : M state unit :=
  st <- get ;;
  let index := primaryIndex (size st) key in
  _ <- push_at index key ;;
  modify (fun st => set_count (count st + 1) st).

Definition rehash (newSize : Z) (message : log) : M state (list log) :=
  st <- get ;;
  let entries := concat (table st) in
  modify (fun _ => mkState newSize (replicate (Z.to_nat newSize) []) 0) ;;;
  forEach entries insertInternal ;;;
  ret [message].

Definition maxChain (t : list (list jsstring)) : Z :=
  fold_left (fun m bucket => if m <? Z.of_nat (length bucket)
                             then Z.of_nat (length bucket) else m) t 0.

(** [load > 1.15 || maxChain > 4] *)
Definition growth_due (st : state) : bool :=
  ratio_gt (count st) (size st) 115 100 || (4 <? maxChain (table st)).

Definition maintainAfterInsert : M state (list log) :=
  st <- get ;;
  if growth_due st then
    let targetSize := nextPrime (ceil_mul_1_6 (size st)) in
    if negb (targetSize =? size st) then
      rehash targetSize
        (LChainGrowth (count st) (size st) (maxChain (table st)) targetSize)
    else ret []
  else ret [].

Definition maintainAfterRemoval : M state (list log) :=
  st <- get ;;
  if (MIN_TABLE_SIZE <? size st) && ratio_lt (count st) (size st) 45 100 then
    let target := previousPrime (Z.max MIN_TABLE_SIZE (floor_div_1_5 (size st))) in
    if target <? size st then
      rehash target (LShrunk (count st) (size st) target)
    else ret []
  else ret [].

(** [bucket.indexOf(key)], [-1] when absent. *)
Fixpoint indexOf (bucket : list jsstring) (key : jsstring) (from : Z) : Z :=
  match bucket with
  | [] => -1
  | k :: bucket' => if jsstring_eqb k key then from else indexOf bucket' key (from + 1)
  end.

Definition includes (bucket : list jsstring) (key : jsstring) : bool :=
  existsb (fun k => jsstring_eqb k key) bucket.

Definition insert (rawKey : jsstring) : M state result :=
  let key := normaliseKey rawKey in
  st <- get ;;
  let index := primaryIndex (size st) key in
  match arr_lookup (table st) index with
  | None => throw TypeError
  | Some bucket =>
      if includes bucket key then
        ret (mkResult [LHash key index; LBucketDuplicate key index]
                      [(index, probe); (index, hit_found)] duplicate)
      else
        len <- push_at index key ;;
        modify (fun st => set_count (count st + 1) st) ;;;
        more <- maintainAfterInsert ;;
        ret (mkResult ([LHash key index; LBucketInserted key index len] ++ more)
                      [(index, probe); (index, placed)] inserted)
  end.

Definition search (rawKey : jsstring) : M state result :=
  let key := normaliseKey rawKey in
  st <- get ;;
  let index := primaryIndex (size st) key in
  match arr_lookup (table st) index with
  | None => throw TypeError
  | Some bucket =>
      let position := indexOf bucket key 0 in
      if position =? -1 then
        ret (mkResult [LHash key index; LBucketMissing key index]
                      [(index, probe)] missing)
      else
        ret (mkResult [LHash key index; LBucketFound key index position]
                      [(index, probe); (index, hit_found)] found)
  end.

(** [bucket.splice(position, 1)] *)
Definition splice1 (bucket : list jsstring) (position : Z) : list jsstring :=
  take (Z.to_nat position) bucket ++ drop (S (Z.to_nat position)) bucket.

Definition remove (rawKey : jsstring) : M state result :=
  let key := normaliseKey rawKey in
  st <- get ;;
  let index := primaryIndex (size st) key in
  match arr_lookup (table st) index with
  | None => throw TypeError
  | Some bucket =>
      let position := indexOf bucket key 0 in
      if position =? -1 then
        ret (mkResult [LHash key index; LBucketNothingToDelete key index]
                      [(index, probe)] missing)
      else
        modify (set_table (<[Z.to_nat index := splice1 bucket position]> (table st))) ;;;
        modify (fun st => set_count (count st - 1) st) ;;;
        more <- maintainAfterRemoval ;;
        ret (mkResult ([LHash key index; LBucketDeleted key index] ++ more)
                      [(index, probe); (index, placed)] removed)
  end.

End Chaining.

(** ** Open addressing *)

Module Open.

Inductive variant := Linear | Quadratic | DoubleHashing.

(** What a slot of the table array can hold; [Undefined] is what a read
    outside the array yields. *)
Inductive entry :=
| Null
| TOMBSTONE
| Key (key : jsstring)
| Undefined.

Record state := mkState {
  size : Z;
  table : list entry;
  count : Z;
  tombstones : Z
}.

Definition set_table (t : list entry) (st : state) : state :=
  mkState (size st) t (count st) (tombstones st).
Definition set_count (c : Z) (st : state) : state :=
  mkState (size st) (table st) c (tombstones st).
Definition set_tombstones (t : Z) (st : state) : state :=
  mkState (size st) (table st) (count st) t.

Definition init (sz : Z) : state :=
  mkState sz (replicate (Z.to_nat sz) Null) 0 0.

(** [table[index]] *)
Definition arr_get (t : list entry) (index : Z) : entry :=
  default Undefined (arr_lookup t index).

(** [table[index] = v]: in range it overwrites; past the end a
    JavaScript array grows, leaving holes. *)
Definition arr_set (t : list entry) (index : Z) (v : entry) : list entry :=
  if index <? 0 then t
  else if (Z.to_nat index <? length t)%nat then <[Z.to_nat index := v]> t
  else t ++ replicate (Z.to_nat index - length t) Undefined ++ [v].

Definition is_key (e : entry) (key : jsstring) : bool :=
  match e with
  | Key k => jsstring_eqb k key
  | _ => false
  end.

(** [loadFactor() > p/q], [loadFactor() < p/q], [occupancy() > p/q] *)
Definition load_gt (st : state) (p q : Z) : bool :=
  if size st =? 0 then false else ratio_gt (count st) (size st) p q.
Definition load_lt (st : state) (p q : Z) : bool :=
  if size st =? 0 then true else ratio_lt (count st) (size st) p q.
Definition occupancy_gt (st : state) (p q : Z) : bool :=
  if size st =? 0 then false
  else ratio_gt (count st + tombstones st) (size st) p q.

(** [tombstones > size * (p/q)] *)
Definition tombstones_gt (st : state) (p q : Z) : bool :=
  p * size st <? q * tombstones st.

(** *** Probe sequences *)

Record context := mkContext { base : Z; step : Z }.

(** Linear and quadratic contexts have no [step]; it is left at 0 and
    never read. *)
Definition createContext (v : variant) (st : state) (key : jsstring) : context :=
  match v with
  | DoubleHashing => mkContext (primaryIndex (size st) key) (secondaryStep (size st) key)
  | _ => mkContext (primaryIndex (size st) key) 0
  end.

Definition logContext (v : variant) (ctx : context) (key : jsstring) : list log :=
  match v with
  | DoubleHashing => [LHash key (base ctx); LStep key (step ctx)]
  | _ => [LHash key (base ctx)]
  end.

Definition probeInfo (v : variant) (st : state) (ctx : context) (attempt : Z) : Z :=
  match v with
  | Linear => (base ctx + attempt) mod size st
  | Quadratic => (base ctx + attempt * attempt) mod size st
  | DoubleHashing => (base ctx + attempt * step ctx) mod size st
  end.

(** *** Rehashing *)

Fixpoint directInsert_loop (v : variant) (key : jsstring) (ctx : context)
    (fuel : nat) (attempt : Z) : M state unit :=
  match fuel with
  | O => throw RehashFailed
  | S fuel' =>
      st <- get ;;
      let index := probeInfo v st ctx attempt in
      match arr_get (table st) index with
      | Null =>
          modify (set_table (arr_set (table st) index (Key key))) ;;;
          modify (fun st => set_count (count st + 1) st)
      | TOMBSTONE =>
          modify (set_table (arr_set (table st) index (Key key))) ;;;
          modify (fun st => set_count (count st + 1) st) ;;;
          modify (fun st => set_tombstones (tombstones st - 1) st)
      | _ => directInsert_loop v key ctx fuel' (attempt + 1)
      end
  end.

Definition directInsert (v : variant) (key : jsstring) : M state unit :=
  st <- get ;;
  directInsert_loop v key (createContext v st key) (Z.to_nat (size st)) 0.

(** [directInsert(undefined)]: what rehash calls for a slot that read
    as [undefined].  [normaliseKey] makes the text ["undefined"] of it,
    so the probe starts from the hash of that text; the free slot
    receives [undefined] itself, and is counted. *)
Fixpoint directInsert_undefined_loop (v : variant) (ctx : context)
    (fuel : nat) (attempt : Z) : M state unit :=
  match fuel with
  | O => throw RehashFailed
  | S fuel' =>
      st <- get ;;
      let index := probeInfo v st ctx attempt in
      match arr_get (table st) index with
      | Null =>
          modify (set_table (arr_set (table st) index Undefined)) ;;;
          modify (fun st => set_count (count st + 1) st)
      | TOMBSTONE =>
          modify (set_table (arr_set (table st) index Undefined)) ;;;
          modify (fun st => set_count (count st + 1) st) ;;;
          modify (fun st => set_tombstones (tombstones st - 1) st)
      | _ => directInsert_undefined_loop v ctx fuel' (attempt + 1)
      end
  end.

Definition directInsert_undefined (v : variant) : M state unit :=
  st <- get ;;
  directInsert_undefined_loop v (createContext v st (str "undefined"))
    (Z.to_nat (size st)) 0.

(** The keys that a table holds. *)
Definition live_keys (t : list entry) : list jsstring :=
  omap (fun e => match e with Key k => Some k | _ => None end) t.

(** The entries that rehash collects: those that are neither [null] nor
    the tombstone, in slot order. *)
Definition collected (t : list entry) : list entry :=
  List.filter (fun e => match e with Null | TOMBSTONE => false | _ => true end) t.

(** [directInsert(entry)] on a collected entry, which is a key or
    [undefined]. *)
Definition reinsert (v : variant) (e : entry) : M state unit :=
  match e with
  | Key k => directInsert v k
  | _ => directInsert_undefined v
  end.

(** [rehash(newSize, message)]: collect the entries, install an empty
    table of [newSize] slots with both counters at 0, and re-insert the
    entries in slot order. *)
Definition rehash (v : variant) (newSize : Z) (message : log) : M state (list log) :=
  st <- get ;;
  let entries := collected (table st) in
  modify (fun _ => mkState newSize (replicate (Z.to_nat newSize) Null) 0 0) ;;;
  forEach entries (reinsert v) ;;;
  ret [message].

(** *** Resize policy *)

Definition ensureCapacityBeforeInsert (v : variant) : M state (list log) :=
  st <- get ;;
  if load_gt st 68 100 then
    let target := nextPrime (ceil_mul_1_6 (size st)) in
    if negb (target =? size st) then
      rehash v target (LPreemptiveGrowth (count st) (size st) target)
    else ret []
  else
    if occupancy_gt st 85 100 && tombstones_gt st 15 100 then
      rehash v (size st) LTombstonesBuildingUp
    else ret [].

Definition compactAfterInsert (v : variant) : M state (list log) :=
  st <- get ;;
  if occupancy_gt st 88 100 && tombstones_gt st 18 100 then
    rehash v (size st) LHighTombstoneRatio
  else ret [].

Definition maintainAfterInsert (v : variant) : M state (list log) :=
  st <- get ;;
  if load_gt st 72 100 then
    let target := nextPrime (ceil_mul_1_35 (size st)) in
    if negb (target =? size st) then
      rehash v target (LPostInsertGrowth (count st) (size st) target)
    else compactAfterInsert v
  else compactAfterInsert v.

Definition compactAfterRemoval (v : variant) : M state (list log) :=
  st <- get ;;
  if tombstones_gt st 25 100 && (count st <? tombstones st) then
    rehash v (size st) LManyTombstones
  else ret [].

Definition maintainAfterRemoval (v : variant) : M state (list log) :=
  st <- get ;;
  if MIN_TABLE_SIZE <? size st then
    if (0 <? count st) && load_lt st 3 10 then
      let target := previousPrime (Z.max MIN_TABLE_SIZE (floor_div_1_6 (size st))) in
      if target <? size st then
        rehash v target (LShrunk (count st) (size st) target)
      else compactAfterRemoval v
    else compactAfterRemoval v
  else ret [].

(** *** insert *)

(** The five lines that store [key] at [target]; the returned flag is
    [previous === TOMBSTONE]. *)
Definition place (target : Z) (key : jsstring) : M state bool :=
  st <- get ;;
  let previous := arr_get (table st) target in
  modify (set_table (arr_set (table st) target (Key key))) ;;;
  modify (fun st => set_count (count st + 1) st) ;;;
  match previous with
  | TOMBSTONE => modify (fun st => set_tombstones (tombstones st - 1) st) ;;; ret true
  | _ => ret false
  end.

(** How the probe loop of [insert] ends: by returning a result, or by
    running out of attempts with the first tombstone it saw ([-1] for
    none). *)
Inductive loop_exit :=
| Returned (r : result)
| Exhausted (firstTombstone : Z) (lg : list log) (hl : list (Z * highlight_type)).

Fixpoint insert_loop (v : variant) (key : jsstring) (ctx : context)
    (fuel : nat) (attempt firstTombstone : Z)
    (lg : list log) (hl : list (Z * highlight_type)) : M state loop_exit :=
  match fuel with
  | O => ret (Exhausted firstTombstone lg hl)
  | S fuel' =>
      st <- get ;;
      let index := probeInfo v st ctx attempt in
      let lg := lg ++ [LProbe attempt index] in
      let hl := hl ++ [(index, probe)] in
      let entry := arr_get (table st) index in
      if is_key entry key then
        ret (Returned (mkResult (lg ++ [LAlreadyStored key index])
                                (hl ++ [(index, hit_found)]) duplicate))
      else
        match entry with
        | Null =>
            let target := if negb (firstTombstone =? -1) then firstTombstone else index in
            reused <- place target key ;;
            more <- maintainAfterInsert v ;;
            ret (Returned (mkResult
                   (lg ++ [if reused : bool then LReusedTombstone target key
                           else LPlaced key target] ++ more)
                   (hl ++ [(target, placed)]) inserted))
        | TOMBSTONE =>
            insert_loop v key ctx fuel' (attempt + 1)
              (if firstTombstone =? -1 then index else firstTombstone) lg hl
        | _ => insert_loop v key ctx fuel' (attempt + 1) firstTombstone lg hl
        end
  end.

(** One activation of [insert] up to the saturated branch: [inl] is a
    returned result, [inr] the log so far when the table turned out to
    be saturated. *)
Definition insert_attempt (v : variant) (key : jsstring) : M state (result + list log) :=
  pre <- ensureCapacityBeforeInsert v ;;
  st <- get ;;
  let ctx := createContext v st key in
  let lg := pre ++ logContext v ctx key in
  exit <- insert_loop v key ctx (Z.to_nat (size st)) 0 (-1) lg [] ;;
  match exit with
  | Returned r => ret (inl r)
  | Exhausted firstTombstone lg hl =>
      if negb (firstTombstone =? -1) then
        _ <- place firstTombstone key ;;
        more <- maintainAfterInsert v ;;
        ret (inl (mkResult (lg ++ [LWrappedIntoTombstone key firstTombstone] ++ more)
                           (hl ++ [(firstTombstone, placed)]) inserted))
      else ret (inr lg)
  end.

(** [insert] calls itself after the saturated-table rehash.  [fuel]
    bounds the depth of that recursion; [None] means the bound was
    reached with the call still pending. *)
Fixpoint insert (v : variant) (fuel : nat) (rawKey : jsstring) (st : state)
    : option (outcome result * state) :=
  match fuel with
  | O => None
  | S fuel' =>
      let key := normaliseKey rawKey in
      match insert_attempt v key st with
      | (Throw e, st1) => Some (Throw e, st1)
      | (Ret (inl r), st1) => Some (Ret r, st1)
      | (Ret (inr lg), st1) =>
          match rehash v (nextPrime (ceil_mul_1_6 (size st1))) LSaturated st1 with
          | (Throw e, st2) => Some (Throw e, st2)
          | (Ret growthLogs, st2) =>
              match insert v fuel' key st2 with
              | None => None
              | Some (Throw e, st3) => Some (Throw e, st3)
              | Some (Ret r, st3) =>
                  Some (Ret (mkResult (lg ++ growthLogs ++ logs r)
                                      (highlights r) (res_status r)), st3)
              end
          end
      end
  end.

(** *** search *)

Fixpoint search_loop (v : variant) (key : jsstring) (ctx : context)
    (fuel : nat) (attempt : Z)
    (lg : list log) (hl : list (Z * highlight_type)) : M state result :=
  match fuel with
  | O => ret (mkResult (lg ++ [LCycleNoMatch]) hl missing)
  | S fuel' =>
      st <- get ;;
      let index := probeInfo v st ctx attempt in
      let lg := lg ++ [LProbe attempt index] in
      let hl := hl ++ [(index, probe)] in
      let entry := arr_get (table st) index in
      if is_key entry key then
        ret (mkResult (lg ++ [LFound key index]) (hl ++ [(index, hit_found)]) found)
      else
        match entry with
        | Null => ret (mkResult (lg ++ [LEmptyNotPresent]) hl missing)
        | _ => search_loop v key ctx fuel' (attempt + 1) lg hl
        end
  end.

Definition search (v : variant) (rawKey : jsstring) : M state result :=
  let key := normaliseKey rawKey in
  st <- get ;;
  let ctx := createContext v st key in
  search_loop v key ctx (Z.to_nat (size st)) 0 (logContext v ctx key) [].

(** *** remove *)

Fixpoint remove_loop (v : variant) (key : jsstring) (ctx : context)
    (fuel : nat) (attempt : Z)
    (lg : list log) (hl : list (Z * highlight_type)) : M state result :=
  match fuel with
  | O => ret (mkResult (lg ++ [LCycleNoDeletion]) hl missing)
  | S fuel' =>
      st <- get ;;
      let index := probeInfo v st ctx attempt in
      let lg := lg ++ [LProbe attempt index] in
      let hl := hl ++ [(index, probe)] in
      let entry := arr_get (table st) index in
      if is_key entry key then
        modify (set_table (arr_set (table st) index TOMBSTONE)) ;;;
        modify (fun st => set_count (count st - 1) st) ;;;
        modify (fun st => set_tombstones (tombstones st + 1) st) ;;;
        more <- maintainAfterRemoval v ;;
        ret (mkResult (lg ++ [LMarkedTombstone index] ++ more)
                      (hl ++ [(index, placed)]) removed)
      else
        match entry with
        | Null => ret (mkResult (lg ++ [LEmptyNothingRemoved]) hl missing)
        | _ => remove_loop v key ctx fuel' (attempt + 1) lg hl
        end
  end.

Definition remove (v : variant) (rawKey : jsstring) : M state result :=
  let key := normaliseKey rawKey in
  st <- get ;;
  let ctx := createContext v st key in
  remove_loop v key ctx (Z.to_nat (size st)) 0 (logContext v ctx key) [].

End Open.

(** ** The controller's use of a strategy

    The controller builds a strategy at a normalised size and then
    feeds it the trimmed, non-empty text of the key field.  An uncaught
    exception ends the event handler and leaves the strategy object in
    place for the next action. *)

Definition normaliseSizeForOpen (sz : Z) : Z := nextPrime (clampTableSize sz).
Definition normaliseSizeForChaining (sz : Z) : Z := clampTableSize sz.

Inductive action := Insert (rawKey : jsstring) | Search (rawKey : jsstring) | Remove (rawKey : jsstring).

Definition action_key (a : action) : jsstring :=
  match a with Insert k | Search k | Remove k => trim k end.

Module OpenController.
Import Open.

(** [handleAction]; [None] when an insert needs more than [fuel]
    nested activations. *)
Definition handleAction (v : variant) (fuel : nat) (a : action) (st : state)
    : option (outcome result * state) :=
  match a with
  | Insert k => insert v fuel (trim k) st
  | Search k => Some (search v (trim k) st)
  | Remove k => Some (remove v (trim k) st)
  end.

Fixpoint run (v : variant) (fuel : nat) (acts : list action) (st : state) : option state :=
  match acts with
  | [] => Some st
  | a :: acts' =>
      if bool_decide (action_key a = []) then run v fuel acts' st
      else
        match handleAction v fuel a st with
        | Some (_, st') => run v fuel acts' st'
        | None => None
        end
  end.

(** States the controller can bring a strategy to. *)
Definition reachable (v : variant) (st : state) : Prop :=
  exists (sz : Z) (fuel : nat) (acts : list action),
    run v fuel acts (init (normaliseSizeForOpen sz)) = Some st.

End OpenController.

Module ChainingController.
Import Chaining.

Definition handleAction (a : action) (st : state) : outcome result * state :=
  match a with
  | Insert k => insert (trim k) st
  | Search k => search (trim k) st
  | Remove k => remove (trim k) st
  end.

Fixpoint run (acts : list action) (st : state) : state :=
  match acts with
  | [] => st
  | a :: acts' =>
      if bool_decide (action_key a = []) then run acts' st
      else run acts' (snd (handleAction a st))
  end.

Definition reachable (st : state) : Prop :=
  exists (sz : Z) (acts : list action),
    run acts (init (normaliseSizeForChaining sz)) = st.

End ChainingController.

(** * Vocabulary for the statements *)

(** Every step below [n] is coprime to [n]. *)
Definition all_coprime (n : Z) : bool :=
  forallb (fun s => Z.gcd (Z.of_nat s) n =? 1) (seq 1 (Z.to_nat n - 1)).

(** The sizes the engine rehashes to: the primes between 3
    and 199. *)
Definition table_prime (n : Z) : Prop :=
  MIN_TABLE_SIZE <= n <= MAX_TABLE_SIZE /\ isPrime n = true.


Module OpenSpec.
Import Open.

(** The index that attempt [a] of the probe for [key] visits, and the
    entry it finds there. *)
Definition probe_index (v : variant) (st : state) (key : jsstring) (a : Z) : Z :=
  probeInfo v st (createContext v st key) a.

Definition slot (v : variant) (st : state) (key : jsstring) (a : Z) : entry :=
  arr_get (table st) (probe_index v st key a).

(** The slots visited by attempts [0 .. n-1], in order. *)
Definition probe_path (v : variant) (st : state) (key : jsstring) (n : nat) : list Z :=
  map (fun a => probe_index v st key (Z.of_nat a)) (seq 0 n).

(** The probe goes past an entry that is neither the key nor empty. *)
Definition passes (e : entry) (key : jsstring) : Prop :=
  e <> Null /\ is_key e key = false.

Definition as_probes (path : list Z) : list (Z * highlight_type) :=
  map (fun i => (i, probe)) path.

(** Slots visited, and probe notes logged, by [n] attempts starting at
    attempt [attempt] under a given context. *)
Definition path_from (v : variant) (st : state) (ctx : context) (attempt : Z) (n : nat)
    : list Z :=
  map (fun j => probeInfo v st ctx (attempt + Z.of_nat j)) (seq 0 n).

Definition notes_from (v : variant) (st : state) (ctx : context) (attempt : Z) (n : nat)
    : list log :=
  map (fun j => LProbe (attempt + Z.of_nat j) (probeInfo v st ctx (attempt + Z.of_nat j)))
      (seq 0 n).

Definition is_tombstone (e : entry) : bool :=
  match e with TOMBSTONE => true | _ => false end.

(** The first slot of a path that holds a tombstone. *)
Definition first_tombstone (t : list entry) (path : list Z) : option Z :=
  List.find (fun i => is_tombstone (arr_get t i)) path.

(** The loop variable [firstTombstone] after a stretch of the probe in
    which the first tombstone seen, if any, was [seen]. *)
Definition track (firstTombstone : Z) (seen : option Z) : Z :=
  if firstTombstone =? -1 then match seen with Some t => t | None => -1 end
  else firstTombstone.

(** Where insert stores the key on reaching the empty slot [index]. *)
Definition reuse_target (seen : option Z) (index : Z) : Z :=
  match seen with Some t => t | None => index end.

Definition was_seen (seen : option Z) : bool :=
  match seen with Some _ => true | None => false end.

(** The state once [key] has been stored at [target], before the
    post-insert maintenance runs. *)
Definition placed_at (st : state) (target : Z) (key : jsstring) (reused : bool) : state :=
  mkState (size st) (arr_set (table st) target (Key key)) (count st + 1)
          (if reused then tombstones st - 1 else tombstones st).

(** The state once the key found at [index] has been replaced by a
    tombstone, before the shrink policy runs. *)
Definition tombstoned (st : state) (index : Z) : state :=
  mkState (size st) (arr_set (table st) index TOMBSTONE) (count st - 1) (tombstones st + 1).

Definition shrink_target (st : state) : Z :=
  previousPrime (Z.max MIN_TABLE_SIZE (floor_div_1_6 (size st))).

(** The shrink policy as the specification words it: shrink when
    [size > 3], [count > 0] and the load is below 0.3; otherwise compact
    when the two tombstone conditions hold. *)
Definition shrink_policy_as_specified (v : variant) : M state (list log) :=
  fun st =>
    if (3 <? size st) && (0 <? count st) && load_lt st 3 10 then
      rehash v (shrink_target st) (LShrunk (count st) (size st) (shrink_target st)) st
    else if tombstones_gt st 25 100 && (count st <? tombstones st) then
      rehash v (size st) LManyTombstones st
    else (Ret [], st).

(** The same with compaction, too, reserved to tables of more than 3
    slots. *)
Definition shrink_policy (v : variant) : M state (list log) :=
  fun st =>
    if (3 <? size st) && (0 <? count st) && load_lt st 3 10 then
      rehash v (shrink_target st) (LShrunk (count st) (size st) (shrink_target st)) st
    else if (3 <? size st) && tombstones_gt st 25 100 && (count st <? tombstones st) then
      rehash v (size st) LManyTombstones st
    else (Ret [], st).

(** A slot that [directInsert] may take. *)
Definition is_free (e : entry) : bool :=
  match e with Null | TOMBSTONE => true | _ => false end.

(** A table as a rehash builds it: [size] slots, each empty or holding
    a key. *)
Definition clean (st : state) : Prop :=
  0 < size st
  /\ length (table st) = Z.to_nat (size st)
  /\ Forall (fun e => e = Null \/ exists k, e = Key k) (table st).

(** The state once [key] has been stored in the empty slot [index]. *)
Definition filled (st : state) (index : Z) (key : jsstring) : state :=
  mkState (size st) (arr_set (table st) index (Key key)) (count st + 1) (tombstones st).

(** A probe sequence covers a table of [n] slots when its first [n]
    attempts reach every slot. *)
Definition covers (v : variant) (n : Z) : Prop :=
  forall st key j, size st = n -> 0 <= j < n ->
    exists a : nat, Z.of_nat a < n /\ probe_index v st key (Z.of_nat a) = j.

(** [key] is findable when its probe meets it before any empty slot. *)
Definition findable (v : variant) (st : state) (key : jsstring) : Prop :=
  exists a : nat,
    Z.of_nat a < size st
    /\ (forall j : nat, (j < a)%nat -> slot v st key (Z.of_nat j) <> Null)
    /\ is_key (slot v st key (Z.of_nat a)) key = true.

(** A table of the maximum size in which every slot holds a key other
    than [key]. *)
Definition saturated (st : state) (key : jsstring) : Prop :=
  size st = MAX_TABLE_SIZE
  /\ length (table st) = Z.to_nat MAX_TABLE_SIZE
  /\ count st = MAX_TABLE_SIZE
  /\ Forall (fun e => exists k, e = Key k /\ k <> key) (table st).

Definition saturated_b (st : state) (key : jsstring) : bool :=
  (size st =? MAX_TABLE_SIZE)
  && (Z.of_nat (length (table st)) =? MAX_TABLE_SIZE)
  && (count st =? MAX_TABLE_SIZE)
  && forallb (fun e => match e with
                       | Key k => negb (jsstring_eqb k key)
                       | _ => false
                       end) (table st).


End OpenSpec.

Module ChainingSpec.
Import Chaining.

(** A key is stored when some chain holds it. *)
Definition stored (st : state) (key : jsstring) : Prop := In key (concat (table st)).

(** Well-formed chaining tables: [size] chains, every key in the chain
    its hash selects, and [count] the number of keys. *)
Definition wf (st : state) : Prop :=
  0 < size st
  /\ length (table st) = Z.to_nat (size st)
  /\ (forall (i : nat) bucket k,
        table st !! i = Some bucket -> In k bucket ->
        primaryIndex (size st) k = Z.of_nat i)
  /\ count st = Z.of_nat (length (concat (table st))).

(** The state once [key] has been pushed onto its chain and counted,
    before the growth policy runs. *)
Definition appended (st : state) (key : jsstring) : state :=
  let index := primaryIndex (size st) key in
  match arr_lookup (table st) index with
  | Some bucket =>
      mkState (size st) (<[Z.to_nat index := bucket ++ [key]]> (table st)) (count st + 1)
  | None => st
  end.

Definition growth_target (st : state) : Z := nextPrime (ceil_mul_1_6 (size st)).

(** The trigger of the growth policy, as the specification words it:
    [count / size > 1.15], in exact arithmetic, or the longest chain
    holds more than four keys. *)
Definition overloaded (st : state) : Prop := 115 * size st < 100 * count st.

Definition longest_chain (st : state) : nat := list_max (map (@length jsstring) (table st)).

Definition chain_too_long (st : state) : Prop := (4 < longest_chain st)%nat.

Definition growth_trigger (st : state) : Prop := overloaded st \/ chain_too_long st.

Definition rehash_notices (lg : list log) : nat :=
  length (List.filter is_rehash_notice lg).

Definition status_of (o : outcome result) : option status :=
  match o with Ret r => Some (res_status r) | Throw _ => None end.

End ChainingSpec.

(** * Concrete tables used as test inputs

    Each state below is what the controller obtains from a fresh
    strategy by the listed actions. *)

Module Scenario.
Import Open OpenController.

Definition inserts (keys : list string) : list action := map (fun s => Insert (str s)) keys.
Definition removes (keys : list string) : list action := map (fun s => Remove (str s)) keys.

Definition run_from (v : variant) (sz : Z) (acts : list action) : state :=
  default (init 0) (run v 2 acts (init (normaliseSizeForOpen sz))).

(** Linear probing, 11 slots: "16" and "24" both hash to slot 0. *)
Definition linear11_acts : list action := inserts ["16"; "24"]%string.
Definition linear11 : state := Eval vm_compute in run_from Linear 11 linear11_acts.

(** Linear probing, 3 slots, holding the single key "a". *)
Definition linear3_acts : list action := inserts ["a"]%string.
Definition linear3 : state := Eval vm_compute in run_from Linear 3 linear3_acts.

(** Linear probing, 7 slots, five keys: load 5/7 is above 0.68 and not
    above 0.72. *)
Definition linear7_acts : list action := inserts ["1"; "2"; "3"; "4"; "5"]%string.
Definition linear7 : state := Eval vm_compute in run_from Linear 7 linear7_acts.

(** Quadratic probing, 11 slots: six live keys in slots 0, 1, 3, 4, 5
    and 9 (five of them hashing to slot 0), tombstones in slots 2, 6
    and 8. *)
Definition quadratic11_acts : list action :=
  inserts ["16"; "24"; "29"; "35"; "5"; "1"; "3"]%string
  ++ removes ["5"; "1"; "3"]%string
  ++ inserts ["54"; "75"]%string.
Definition quadratic11 : state := Eval vm_compute in run_from Quadratic 11 quadratic11_acts.

(** Linear probing at the maximum size: 199 slots filled by the keys
    "0" .. "198". *)
Definition linear199_acts : list action :=
  map (fun i => Insert (digits (Z.of_nat i))) (seq 0 199).
Definition linear199 : state := Eval vm_compute in run_from Linear 199 linear199_acts.

End Scenario.

(** * Key normalisation, as the specification words it *)

Module KeySpec.

(** The integer that an integer literal denotes. *)
Definition literal_value (s : jsstring) : Z :=
  match s with
  | c :: rest => if c =? 45 then - digits_value rest else digits_value s
  | [] => 0
  end.

(** The canonical base-10 string of an integer: a minus sign for a
    negative value, then its decimal digits without leading zeros. *)
Definition canonical_decimal (z : Z) : jsstring :=
  if z <? 0 then 45 :: digits (- z) else digits z.

(** The normaliser the specification describes. *)
Definition normalize (raw : jsstring) : jsstring :=
  let t := trim raw in
  if is_integer_literal t then canonical_decimal (literal_value t) else t.

End KeySpec.

(** * Vocabulary for the invariants of open addressing *)

Module OpenInv.
Import Open OpenSpec.

Definition count_tombstones (t : list entry) : nat :=
  length (List.filter is_tombstone t).

(** What every open-addressing table the controller reaches satisfies:
    a prime number of slots, none of them a hole; counters that agree
    with the table; no key stored twice; every stored key met by its
    probe before any empty slot. *)
Record inv (v : variant) (st : state) : Prop := mkInv {
  inv_prime : table_prime (size st);
  inv_length : length (table st) = Z.to_nat (size st);
  inv_defined : Forall (fun e => e <> Undefined) (table st);
  inv_count : count st = Z.of_nat (length (live_keys (table st)));
  inv_tombstones : tombstones st = Z.of_nat (count_tombstones (table st));
  inv_nodup : NoDup (live_keys (table st));
  inv_findable : forall k, In k (live_keys (table st)) -> findable v st k
}.

(** The live keys of [st'] are among those of [st]. *)
Definition keys_within (st' st : state) : Prop :=
  forall k, In k (live_keys (table st')) -> In k (live_keys (table st)).

Definition same_keys (st' st : state) : Prop :=
  forall k, In k (live_keys (table st')) <-> In k (live_keys (table st)).

Definition returned {A} (o : outcome A) : bool :=
  match o with Ret _ => true | Throw _ => false end.

(** A step keeps the table sound when, from a table satisfying the
    invariant, it leaves one that satisfies it and holds no new key, and
    holds the same keys whenever it returns. *)
Definition sound_step (v : variant) (m : M state (list log)) : Prop :=
  forall st, inv v st ->
    exists o st',
      m st = (o, st') /\ inv v st' /\ keys_within st' st
      /\ (returned o = true -> same_keys st' st).

(** The load that the resize policy of open addressing keeps: at most
    0.72, except in a table of the maximum size. *)
Definition load_bounded (st : state) : Prop :=
  100 * count st <= 72 * size st \/ size st = MAX_TABLE_SIZE.

(** A variant whose probe sequence reaches every slot of every table
    size the engine uses. *)
Definition covering (v : variant) : Prop :=
  forall n, table_prime n -> covers v n.

(** A step that always returns, keeping the invariant, the keys and
    their number. *)
Definition sure_step (v : variant) (m : M state (list log)) : Prop :=
  forall st, inv v st ->
    exists lg st',
      m st = (Ret lg, st') /\ inv v st' /\ same_keys st' st /\ count st' = count st.

End OpenInv.

(** * Vocabulary for the invariant of separate chaining *)

Module ChainingInv.
Import Chaining ChainingSpec.

(** What every chaining table the controller reaches satisfies: it is
    well formed, no key is stored twice, and its size is one the engine
    allows. *)
Definition sound (st : state) : Prop :=
  wf st
  /\ NoDup (concat (table st))
  /\ MIN_TABLE_SIZE <= size st <= MAX_TABLE_SIZE.

(** The load that the resize policy of chaining keeps: at most 1.15,
    except in a table of the maximum size. *)
Definition load_bounded (st : state) : Prop :=
  100 * count st <= 115 * size st \/ size st = MAX_TABLE_SIZE.

End ChainingInv.

(** * The hash as FNV-1a *)

Module HashSpec.

(** A UTF-16 code unit. *)
Definition code_unit (c : Z) : Prop := 0 <= c < 65536.

(** FNV-1a on 32 bits, written with unsigned arithmetic: offset basis
    2166136261, prime 16777619. *)
Definition fnv1a_step (hash c : Z) : Z := (Z.lxor hash c * 16777619) mod 2 ^ 32.
Definition fnv1a (key : jsstring) : Z := fold_left fnv1a_step key 2166136261.

End HashSpec.

(** * What the renderer reads from an open-addressing strategy *)

Module OpenView.
Import Open.

Inductive cell :=
| EmptyCell
| TombstoneCell
| ValueCell (label : option jsstring).

(** A slot that reads as [undefined] passes neither test of snapshot()
    and is shown as a value without a label. *)
Definition cell_of (e : entry) : cell :=
  match e with
  | Null => EmptyCell
  | TOMBSTONE => TombstoneCell
  | Key k => ValueCell (Some k)
  | Undefined => ValueCell None
  end.

(** [snapshot()]: one cell per slot, with its index. *)
Definition snapshot (st : state) : list (Z * cell) :=
  imap (fun i e => (Z.of_nat i, cell_of e)) (table st).

(** The counters of [stats()]; its [loadFactor] and [occupancy] are the
    quotients [keys / size] and [(keys + tombstones) / size]. *)
Record stats_record := mkStats { stat_size : Z; stat_keys : Z; stat_tombstones : Z }.

Definition stats (st : state) : stats_record :=
  mkStats (size st) (count st) (tombstones st).

Definition labels (cells : list (Z * cell)) : list jsstring :=
  omap (fun c => match snd c with ValueCell (Some k) => Some k | _ => None end) cells.

Definition is_tombstone_cell (c : Z * cell) : bool :=
  match snd c with TombstoneCell => true | _ => false end.

End OpenView.

(** * What the renderer reads from the chaining strategy *)

Module ChainingView.
Import Chaining.

Inductive chain_state := EmptyChain | Chain.

Record bucket_view := mkBucket {
  bucket_index : Z;
  bucket_state : chain_state;
  items : list jsstring
}.

(** [snapshot()] *)
Definition snapshot (st : state) : list bucket_view :=
  imap (fun i bucket =>
          mkBucket (Z.of_nat i)
                   (if (Z.of_nat (length bucket) =? 0) then EmptyChain else Chain)
                   bucket)
       (table st).

(** The loop of [stats()] over the chains: the longest chain, the
    number of keys in non-empty chains, and the number of those
    chains. *)
Record tally := mkTally { longest : Z; chainTotal : Z; nonEmpty : Z }.

Definition tally_step (t : tally) (bucket : list jsstring) : tally :=
  let len := Z.of_nat (length bucket) in
  let longest' := if longest t <? len then len else longest t in
  if 0 <? len then mkTally longest' (chainTotal t + len) (nonEmpty t + 1)
  else mkTally longest' (chainTotal t) (nonEmpty t).

(** The counters of [stats()]; its [loadFactor] is [keys / size] and its
    [averageChain] is [chainTotal / nonEmpty]. *)
Record stats_record := mkStats {
  stat_size : Z;
  stat_keys : Z;
  stat_tally : tally
}.

Definition stats (st : state) : stats_record :=
  mkStats (size st) (count st) (fold_left tally_step (table st) (mkTally 0 0 0)).

End ChainingView.

(** * The first closure of [script.js]: its table sizes

    [clampTableSize] and [isPrime] are, on integers, the functions of
    the second closure; [nextPrime] searches upwards without a bound. *)

Module Legacy.

Fixpoint nextPrime_loop (fuel : nat) (candidate : Z) : option Z :=
  match fuel with
  | O => None
  | S fuel' =>
      if isPrime candidate then Some candidate
      else nextPrime_loop fuel' (candidate + 1)
  end.

(** [fuel] bounds the number of candidates tried; [None] means the
    bound was reached. *)
Definition nextPrime (fuel : nat) (n : Z) : option Z :=
  nextPrime_loop fuel (Z.max 2 n).

Definition normaliseSizeForStrategy (fuel : nat) (size : Z) (doubleHashing : bool)
    : option Z :=
  let clamped := clampTableSize size in
  if doubleHashing then nextPrime fuel clamped else Some clamped.

End Legacy.

(** * More concrete tables *)

Module Tables.

(** Double hashing, 11 slots, three keys that hash to slot 0. *)
Definition double11_acts : list action := Scenario.inserts ["16"; "24"; "29"]%string.
Definition double11 : Open.state :=
  Eval vm_compute in Scenario.run_from Open.DoubleHashing 11 double11_acts.

(** Quadratic probing, 5 slots holding "1", "16" and "9": slots 2 and 3
    are empty, and the five probes of "12" (slots 0, 1, 4, 4, 1) never
    reach them. *)
Definition quadratic5_acts : list action := Scenario.inserts ["1"; "16"; "9"]%string.
Definition quadratic5 : Open.state :=
  Eval vm_compute in Scenario.run_from Open.Quadratic 5 quadratic5_acts.

(** Chaining, 5 chains, three keys. *)
Definition chaining5_acts : list action :=
  [Insert (str "10"); Insert (str "15"); Insert (str "25")].
Definition chaining5 : Chaining.state :=
  Eval vm_compute in
    ChainingController.run chaining5_acts (Chaining.init (normaliseSizeForChaining 5)).

(** Chaining, 11 chains: "16", "24", "29" and "35" all hash to chain 0,
    as does "54". *)
Definition chaining11_acts : list action :=
  [Insert (str "16"); Insert (str "24"); Insert (str "29"); Insert (str "35")].
Definition chaining11 : Chaining.state :=
  Eval vm_compute in
    ChainingController.run chaining11_acts (Chaining.init (normaliseSizeForChaining 11)).

End Tables.

(** * Sanity checks of the model on concrete inputs *)

(** Evaluate the pair that a hypothesis matches on. *)
Ltac compute_scrutinee H :=
  match type of H with
  | context [match ?X with (_, _) => _ end] =>
      let E := fresh "E" in
      eassert (E : X = _) by (vm_compute; reflexivity);
      rewrite E in H; clear E
  end.

Example normaliseKey_007 : normaliseKey (str " 007 ") = str "7".
Proof. vm_compute. reflexivity. Qed.
Example normaliseKey_neg : normaliseKey (str "-0042") = str "-42".
Proof. vm_compute. reflexivity. Qed.
Example normaliseKey_negzero : normaliseKey (str "-0") = str "0".
Proof. vm_compute. reflexivity. Qed.
Example normaliseKey_text : normaliseKey (str "  apple pie ") = str "apple pie".
Proof. vm_compute. reflexivity. Qed.
Example normaliseKey_big : normaliseKey (str "1000000000000000000000") = str "1e+21".
Proof. vm_compute. reflexivity. Qed.
Example normaliseKey_2p53 : normaliseKey (str "9007199254740993") = str "9007199254740992".
Proof. vm_compute. reflexivity. Qed.
Example normaliseKey_2p60 : normaliseKey (str "1152921504606846976") = str "1152921504606847000".
Proof. vm_compute. reflexivity. Qed.
Example normaliseKey_1e23 : normaliseKey (str "100000000000000000000000") = str "1e+23".
Proof. vm_compute. reflexivity. Qed.
Example normaliseKey_e21b : normaliseKey (str "1234567890123456789012") = str "1.2345678901234568e+21".
Proof. vm_compute. reflexivity. Qed.
Example hashCode_empty : hashCode [] = 2166136261.
Proof. vm_compute. reflexivity. Qed.
Example hashCode_a : hashCode (str "a") = 3826002220.
Proof. vm_compute. reflexivity. Qed.
Example nextPrime_12 : nextPrime 12 = 13. Proof. reflexivity. Qed.
Example nextPrime_319 : nextPrime (ceil_mul_1_6 199) = 199. Proof. reflexivity. Qed.
Example previousPrime_124 : previousPrime (floor_div_1_6 199) = 113. Proof. reflexivity. Qed.

(** The test tables are reachable. *)
Lemma linear11_reachable : OpenController.reachable Open.Linear Scenario.linear11.
Proof. exists 11, 2%nat, Scenario.linear11_acts. vm_compute. reflexivity. Qed.

Lemma linear3_reachable : OpenController.reachable Open.Linear Scenario.linear3.
Proof. exists 3, 2%nat, Scenario.linear3_acts. vm_compute. reflexivity. Qed.

Lemma linear7_reachable : OpenController.reachable Open.Linear Scenario.linear7.
Proof. exists 7, 2%nat, Scenario.linear7_acts. vm_compute. reflexivity. Qed.

Lemma quadratic11_reachable : OpenController.reachable Open.Quadratic Scenario.quadratic11.
Proof. exists 11, 2%nat, Scenario.quadratic11_acts. vm_compute. reflexivity. Qed.

Lemma linear199_reachable : OpenController.reachable Open.Linear Scenario.linear199.
Proof. exists 199, 2%nat, Scenario.linear199_acts. vm_compute. reflexivity. Qed.

(** Scenario B of the specification, with keys that collide under this
    hash: "16" and "24" both hash to slot 0 of 11; "24" lands in slot 1
    and is still found through the tombstone left by removing "16"
    (the removal also shrinks the table, which keeps "24" findable). *)
Example linear11_layout :
  Open.table Scenario.linear11
  = [Open.Key (str "16"); Open.Key (str "24")] ++ replicate 9 Open.Null.
Proof. vm_compute. reflexivity. Qed.

Example linear11_remove_then_search :
  let st := snd (Open.remove Open.Linear (str "16") Scenario.linear11) in
  option_map res_status
    (match Open.search Open.Linear (str "24") st with
     | (Ret r, _) => Some r
     | _ => None
     end) = Some found.
Proof. vm_compute. reflexivity. Qed.

(** Scenario A of the specification: chaining with 5 chains. *)
Example chaining5_layout :
  Chaining.table
    (ChainingController.run
       [Insert (str "10"); Insert (str "15"); Insert (str "25")] (Chaining.init 5))
  = [[str "15"]; []; [str "10"]; [str "25"]; []].
Proof. vm_compute. reflexivity. Qed.

(** * Facts about the hash functions *)

Lemma hashCode_nonneg rawKey : 0 <= hashCode rawKey < 2 ^ 32.
Proof. unfold hashCode, to_uint32. apply Z.mod_pos_bound. lia. Qed.

Lemma primaryIndex_range size rawKey :
  0 < size -> 0 <= primaryIndex size rawKey < size.
Proof. intros H. unfold primaryIndex. apply Z.mod_pos_bound. lia. Qed.

(** C8: for every key and every table size of at least 2, the step of
    double hashing lies between 1 and size - 1 (so it is never 0); at
    size 7 it lies between 1 and 6. *)
Theorem C8_secondaryStep_range :
  (forall size rawKey, 2 <= size ->
     1 <= secondaryStep size rawKey <= size - 1 /\ secondaryStep size rawKey <> 0)
  /\ (forall rawKey, 1 <= secondaryStep 7 rawKey <= 6).
Proof.
  assert (G : forall size rawKey, 2 <= size ->
                1 <= secondaryStep size rawKey <= size - 1).
  { intros size rawKey Hsize. unfold secondaryStep.
    destruct (Z.leb_spec size 1) as [Hle|_]; [lia|].
    destruct (Z.eqb_spec (size - 1) 0) as [H0|_]; [lia|].
    pose proof (Z.mod_pos_bound (hashCode rawKey) (size - 1) ltac:(lia)) as Hm.
    destruct (Z.eqb_spec (1 + hashCode rawKey mod (size - 1)) 0); lia. }
  split.
  - intros size rawKey Hsize. specialize (G size rawKey Hsize). lia.
  - intros rawKey. specialize (G 7 rawKey). lia.
Qed.

Lemma C8_secondaryStep_range_witness :
  1 <= secondaryStep 7 (str "apple") <= 7 - 1 /\ secondaryStep 7 (str "apple") <> 0.
Proof. apply (proj1 C8_secondaryStep_range 7 (str "apple")). lia. Defined.

(** * Facts about the prime search *)

Lemma nextPrime_loop_range fuel : forall c,
  3 <= c -> 3 <= nextPrime_loop fuel c <= 199.
Proof.
  induction fuel as [|fuel IH]; intros c Hc; simpl; unfold MAX_TABLE_SIZE; [lia|].
  destruct (Z.leb_spec c 199); [|lia].
  destruct (isPrime c); [lia|].
  apply IH. lia.
Qed.

Lemma nextPrime_range x : 3 <= nextPrime x <= 199.
Proof.
  unfold nextPrime. apply nextPrime_loop_range.
  unfold clampTableSize, MIN_TABLE_SIZE, MAX_TABLE_SIZE.
  destruct (_ =? 0); lia.
Qed.

(** The sizes the engine rehashes to are primes between 3 and 199. *)
Lemma nextPrime_table_prime x : table_prime (nextPrime x).
Proof.
  assert (Hall : forallb (fun c => isPrime (nextPrime (Z.of_nat c))) (seq 3 197) = true)
    by (vm_compute; reflexivity).
  rewrite forallb_forall in Hall.
  assert (Hclamp : nextPrime x = nextPrime (clampTableSize x)).
  { unfold nextPrime. f_equal.
    unfold clampTableSize, MIN_TABLE_SIZE, MAX_TABLE_SIZE.
    replace (Z.min (Z.max (Z.min (Z.max x 3) 199) 3) 199) with (Z.min (Z.max x 3) 199) by lia.
    reflexivity. }
  split; [apply nextPrime_range|].
  rewrite Hclamp.
  assert (Hc : 3 <= clampTableSize x <= 199)
    by (unfold clampTableSize, MIN_TABLE_SIZE, MAX_TABLE_SIZE; lia).
  specialize (Hall (Z.to_nat (clampTableSize x))). rewrite Z2Nat.id in Hall by lia.
  apply Hall. apply in_seq. lia.
Qed.

Lemma previousPrime_table_prime x : table_prime (previousPrime x).
Proof.
  assert (Hall : forallb (fun c => isPrime (previousPrime (Z.of_nat c))
                                   && (3 <=? previousPrime (Z.of_nat c))
                                   && (previousPrime (Z.of_nat c) <=? 199))
                   (seq 3 197) = true)
    by (vm_compute; reflexivity).
  rewrite forallb_forall in Hall.
  assert (Hclamp : previousPrime x = previousPrime (clampTableSize x)).
  { unfold previousPrime.
    unfold clampTableSize, MIN_TABLE_SIZE, MAX_TABLE_SIZE.
    replace (Z.min (Z.max (Z.min (Z.max x 3) 199) 3) 199) with (Z.min (Z.max x 3) 199) by lia.
    reflexivity. }
  assert (Hc : 3 <= clampTableSize x <= 199)
    by (unfold clampTableSize, MIN_TABLE_SIZE, MAX_TABLE_SIZE; lia).
  specialize (Hall (Z.to_nat (clampTableSize x))). rewrite Z2Nat.id in Hall by lia.
  rewrite Hclamp.
  assert (Hin : In (Z.to_nat (clampTableSize x)) (seq 3 197)) by (apply in_seq; lia).
  specialize (Hall Hin).
  apply andb_prop in Hall. destruct Hall as [Hall Hhi].
  apply andb_prop in Hall. destruct Hall as [Hp Hlo].
  apply Z.leb_le in Hlo, Hhi.
  split; [unfold MIN_TABLE_SIZE, MAX_TABLE_SIZE; lia|exact Hp].
Qed.


(** * Open addressing: results of the operations *)

Section OpenResults.
Import Open.

Ltac munfold := unfold bind, get, modify, ret, throw in *.

Lemma insert_loop_status v key ctx fuel : forall attempt ft lg hl st r st',
  insert_loop v key ctx fuel attempt ft lg hl st = (Ret (Returned r), st') ->
  res_status r = inserted \/ res_status r = duplicate.
Proof.
  induction fuel as [|fuel IH]; intros attempt ft lg hl st r st' H; simpl in H.
  - munfold. discriminate.
  - munfold. simpl in H.
    destruct (is_key _ key).
    + inversion H; subst. right. reflexivity.
    + destruct (arr_get (table st) (probeInfo v st ctx attempt)) eqn:E;
        try (eapply IH; eassumption).
      destruct (place _ key st) as [[reused|e] st1]; [|discriminate].
      destruct (maintainAfterInsert v st1) as [[more|e] st2]; [|discriminate].
      inversion H; subst. left. reflexivity.
Qed.

Lemma insert_attempt_status v key st r st' :
  insert_attempt v key st = (Ret (inl r), st') ->
  res_status r = inserted \/ res_status r = duplicate.
Proof.
  unfold insert_attempt. munfold.
  destruct (ensureCapacityBeforeInsert v st) as [[pre|e] st0]; [|discriminate].
  destruct (insert_loop _ _ _ _ _ _ _ _ st0) as [[[r0|ft lg hl]|e] st1] eqn:E;
    [| |discriminate].
  - intros H. inversion H; subst. eapply insert_loop_status; eassumption.
  - destruct (negb (ft =? -1)); [|discriminate].
    destruct (place ft key st1) as [[reused|e] st2]; [|discriminate].
    destruct (maintainAfterInsert v st2) as [[more|e] st3]; [|discriminate].
    intros H. inversion H; subst. left. reflexivity.
Qed.

(** C10: whenever insert returns, its status is 'inserted' or
    'duplicate'; in particular it is never 'full'.  The saturated branch
    rehashes and retries, and hands back the status of the retry. *)
Theorem C10_insert_never_full v fuel : forall rawKey st r st',
  insert v fuel rawKey st = Some (Ret r, st') ->
  (res_status r = inserted \/ res_status r = duplicate) /\ res_status r <> full.
Proof.
  induction fuel as [|fuel IH]; intros rawKey st r st' H; simpl in H; [discriminate|].
  assert (G : res_status r = inserted \/ res_status r = duplicate).
  { destruct (insert_attempt v (normaliseKey rawKey) st) as [[[r0|lg]|e] st1] eqn:E.
    - inversion H; subst. eapply insert_attempt_status; eassumption.
    - destruct (rehash v _ LSaturated st1) as [[growthLogs|e] st2]; [|discriminate].
      destruct (insert v fuel (normaliseKey rawKey) st2) as [[[r1|e] st3]|] eqn:E2;
        try discriminate.
      inversion H; subst. simpl. eapply IH. eassumption.
    - discriminate. }
  split; [exact G|]. destruct G as [G|G]; rewrite G; discriminate.
Qed.

End OpenResults.

(** Quadratic probing at 5 slots with "1", "16" and "9" stored: every
    probe of "12" meets a live key, so the attempt ends in the saturated
    branch with the table untouched; insert then grows the table to 11
    slots and retries, and the retry stores the key. *)
Lemma C10_insert_never_full_witness :
  exists lg r st',
    Open.insert_attempt Open.Quadratic (normaliseKey (str "12")) Tables.quadratic5
    = (Ret (inr lg), Tables.quadratic5)
    /\ Open.insert Open.Quadratic 1 (str "12") Tables.quadratic5 = None
    /\ Open.insert Open.Quadratic 2 (str "12") Tables.quadratic5 = Some (Ret r, st')
    /\ Open.size st' = 11
    /\ Open.count st' = 4
    /\ In (str "12") (Open.live_keys (Open.table st'))
    /\ res_status r = inserted
    /\ (res_status r = inserted \/ res_status r = duplicate) /\ res_status r <> full.
Proof.
  eassert (E : Open.insert Open.Quadratic 2 (str "12") Tables.quadratic5 = Some (Ret _, _))
    by (vm_compute; reflexivity).
  eexists. eexists. eexists.
  split; [vm_compute; reflexivity|].
  split; [vm_compute; reflexivity|].
  split; [exact E|].
  split; [reflexivity|].
  split; [reflexivity|].
  split; [vm_compute; tauto|].
  split; [reflexivity|].
  exact (C10_insert_never_full Open.Quadratic 2 (str "12") Tables.quadratic5 _ _ E).
Defined.

(** * Open addressing: the probe loops *)

Section OpenProbing.
Import Open OpenSpec.

Ltac munfold := unfold bind, get, modify, ret, throw in *.

Variable v : variant.
Variable key : jsstring.
Variable ctx : context.
Variable st : state.

Let slot_at (a : Z) : entry := arr_get (table st) (probeInfo v st ctx a).
Local Abbreviation path_from := (OpenSpec.path_from v st ctx).
Local Abbreviation notes_from := (OpenSpec.notes_from v st ctx).

Lemma path_from_S attempt n :
  path_from attempt (S n) = probeInfo v st ctx attempt :: path_from (attempt + 1) n.
Proof.
  unfold OpenSpec.path_from. simpl. rewrite Z.add_0_r. f_equal.
  rewrite <- seq_shift, map_map. apply map_ext. intros j. f_equal. lia.
Qed.

Lemma notes_from_S attempt n :
  notes_from attempt (S n)
  = LProbe attempt (probeInfo v st ctx attempt) :: notes_from (attempt + 1) n.
Proof.
  unfold OpenSpec.notes_from. simpl. rewrite Z.add_0_r. f_equal.
  rewrite <- seq_shift, map_map. apply map_ext. intros j.
  replace (attempt + 1 + Z.of_nat j) with (attempt + Z.of_nat (S j)) by lia. reflexivity.
Qed.

Lemma search_loop_found fuel : forall (a : nat) attempt lg hl,
  (a < fuel)%nat ->
  (forall j : nat, (j < a)%nat -> passes (slot_at (attempt + Z.of_nat j)) key) ->
  is_key (slot_at (attempt + Z.of_nat a)) key = true ->
  search_loop v key ctx fuel attempt lg hl st
  = (Ret (mkResult
            (lg ++ notes_from attempt (S a)
               ++ [LFound key (probeInfo v st ctx (attempt + Z.of_nat a))])
            (hl ++ as_probes (path_from attempt (S a))
               ++ [(probeInfo v st ctx (attempt + Z.of_nat a), hit_found)])
            found), st).
Proof.
  induction fuel as [|fuel IH]; intros a attempt lg hl Ha Hpass Hkey; [lia|].
  simpl. munfold. fold (slot_at attempt).
  destruct a as [|a].
  - rewrite Z.add_0_r in Hkey. rewrite Hkey. simpl. rewrite !Z.add_0_r.
    rewrite <- !app_assoc. reflexivity.
  - destruct (Hpass O ltac:(lia)) as [Hnn Hnk]. rewrite Z.add_0_r in Hnn, Hnk.
    rewrite Hnk.
    assert (Hgo : search_loop v key ctx fuel (attempt + 1)
              (lg ++ [LProbe attempt (probeInfo v st ctx attempt)])
              (hl ++ [(probeInfo v st ctx attempt, probe)]) st
            = (Ret (mkResult
                (lg ++ notes_from attempt (S (S a))
                   ++ [LFound key (probeInfo v st ctx (attempt + Z.of_nat (S a)))])
                (hl ++ as_probes (path_from attempt (S (S a)))
                   ++ [(probeInfo v st ctx (attempt + Z.of_nat (S a)), hit_found)])
                found), st)).
    { rewrite (IH a (attempt + 1)); [| lia | |].
      - rewrite (notes_from_S attempt (S a)), (path_from_S attempt (S a)).
        replace (attempt + 1 + Z.of_nat a) with (attempt + Z.of_nat (S a)) by lia.
        simpl. rewrite <- !app_assoc. reflexivity.
      - intros j Hj. replace (attempt + 1 + Z.of_nat j) with (attempt + Z.of_nat (S j)) by lia.
        apply Hpass. lia.
      - replace (attempt + 1 + Z.of_nat a) with (attempt + Z.of_nat (S a)) by lia. exact Hkey. }
    destruct (slot_at attempt); try exact Hgo. congruence.
Qed.




Lemma probeInfo_range attempt :
  0 < size st -> 0 <= probeInfo v st ctx attempt < size st.
Proof. intros H. unfold probeInfo. destruct v; apply Z.mod_pos_bound; lia. Qed.

(** remove: at the first visited slot that holds the key, the slot
    becomes a tombstone, the counters move, and the shrink policy runs. *)
Lemma remove_loop_found fuel : forall (a : nat) attempt lg hl,
  (a < fuel)%nat ->
  (forall j : nat, (j < a)%nat -> passes (slot_at (attempt + Z.of_nat j)) key) ->
  is_key (slot_at (attempt + Z.of_nat a)) key = true ->
  remove_loop v key ctx fuel attempt lg hl st
  = let index := probeInfo v st ctx (attempt + Z.of_nat a) in
    match maintainAfterRemoval v (tombstoned st index) with
    | (Ret more, st') =>
        (Ret (mkResult (lg ++ notes_from attempt (S a) ++ [LMarkedTombstone index] ++ more)
                       (hl ++ as_probes (path_from attempt (S a)) ++ [(index, placed)])
                       removed), st')
    | (Throw e, st') => (Throw e, st')
    end.
Proof.
  induction fuel as [|fuel IH]; intros a attempt lg hl Ha Hpass Hkey; [lia|].
  cbn [remove_loop]. munfold. fold (slot_at attempt).
  destruct a as [|a].
  - rewrite Z.add_0_r in Hkey. rewrite Hkey. cbv zeta. rewrite !Z.add_0_r.
    rewrite (notes_from_S attempt 0), (path_from_S attempt 0).
    unfold tombstoned, set_table, set_count, set_tombstones. simpl.
    destruct (maintainAfterRemoval v _) as [[more|e] st']; [|reflexivity].
    rewrite <- !app_assoc. reflexivity.
  - destruct (Hpass O ltac:(lia)) as [Hnn Hnk]. rewrite Z.add_0_r in Hnn, Hnk.
    rewrite Hnk.
    assert (Hgo : remove_loop v key ctx fuel (attempt + 1)
              (lg ++ [LProbe attempt (probeInfo v st ctx attempt)])
              (hl ++ [(probeInfo v st ctx attempt, probe)]) st
            = let index := probeInfo v st ctx (attempt + Z.of_nat (S a)) in
              match maintainAfterRemoval v (tombstoned st index) with
              | (Ret more, st') =>
                  (Ret (mkResult
                     (lg ++ notes_from attempt (S (S a)) ++ [LMarkedTombstone index] ++ more)
                     (hl ++ as_probes (path_from attempt (S (S a))) ++ [(index, placed)])
                     removed), st')
              | (Throw e, st') => (Throw e, st')
              end).
    { rewrite (IH a (attempt + 1)); [| lia | |].
      - cbv zeta.
        replace (attempt + 1 + Z.of_nat a) with (attempt + Z.of_nat (S a)) by lia.
        destruct (maintainAfterRemoval v _) as [[more|e] st']; [|reflexivity].
        rewrite (notes_from_S attempt (S a)), (path_from_S attempt (S a)).
        simpl. rewrite <- !app_assoc. reflexivity.
      - intros j Hj. replace (attempt + 1 + Z.of_nat j) with (attempt + Z.of_nat (S j)) by lia.
        apply Hpass. lia.
      - replace (attempt + 1 + Z.of_nat a) with (attempt + Z.of_nat (S a)) by lia. exact Hkey. }
    destruct (slot_at attempt); try exact Hgo. congruence.
Qed.

Lemma place_eq target (s : state) :
  place target key s
  = (Ret (is_tombstone (arr_get (table s) target)),
     placed_at s target key (is_tombstone (arr_get (table s) target))).
Proof.
  unfold place, placed_at. munfold.
  destruct (arr_get (table s) target); reflexivity.
Qed.

Lemma track_none ft : track ft None = ft.
Proof. unfold track. destruct (Z.eqb_spec ft (-1)); simpl; congruence. Qed.

(** insert: a visited slot holding the key ends the probe with
    'duplicate' and the state untouched. *)
Lemma insert_loop_duplicate fuel : forall (a : nat) attempt ft lg hl,
  (a < fuel)%nat ->
  (forall j : nat, (j < a)%nat -> passes (slot_at (attempt + Z.of_nat j)) key) ->
  is_key (slot_at (attempt + Z.of_nat a)) key = true ->
  insert_loop v key ctx fuel attempt ft lg hl st
  = (Ret (Returned (mkResult
            (lg ++ notes_from attempt (S a)
               ++ [LAlreadyStored key (probeInfo v st ctx (attempt + Z.of_nat a))])
            (hl ++ as_probes (path_from attempt (S a))
               ++ [(probeInfo v st ctx (attempt + Z.of_nat a), hit_found)])
            duplicate)), st).
Proof.
  induction fuel as [|fuel IH]; intros a attempt ft lg hl Ha Hpass Hkey; [lia|].
  cbn [insert_loop]. munfold. fold (slot_at attempt).
  destruct a as [|a].
  - rewrite Z.add_0_r in Hkey. rewrite Hkey. rewrite !Z.add_0_r.
    rewrite (notes_from_S attempt 0), (path_from_S attempt 0). simpl.
    rewrite <- !app_assoc. reflexivity.
  - destruct (Hpass O ltac:(lia)) as [Hnn Hnk]. rewrite Z.add_0_r in Hnn, Hnk.
    rewrite Hnk.
    assert (Hgo : forall ft', insert_loop v key ctx fuel (attempt + 1) ft'
              (lg ++ [LProbe attempt (probeInfo v st ctx attempt)])
              (hl ++ [(probeInfo v st ctx attempt, probe)]) st
            = (Ret (Returned (mkResult
                (lg ++ notes_from attempt (S (S a))
                   ++ [LAlreadyStored key (probeInfo v st ctx (attempt + Z.of_nat (S a)))])
                (hl ++ as_probes (path_from attempt (S (S a)))
                   ++ [(probeInfo v st ctx (attempt + Z.of_nat (S a)), hit_found)])
                duplicate)), st)).
    { intros ft'. rewrite (IH a (attempt + 1)); [| lia | |].
      - rewrite (notes_from_S attempt (S a)), (path_from_S attempt (S a)).
        replace (attempt + 1 + Z.of_nat a) with (attempt + Z.of_nat (S a)) by lia.
        simpl. rewrite <- !app_assoc. reflexivity.
      - intros j Hj. replace (attempt + 1 + Z.of_nat j) with (attempt + Z.of_nat (S j)) by lia.
        apply Hpass. lia.
      - replace (attempt + 1 + Z.of_nat a) with (attempt + Z.of_nat (S a)) by lia. exact Hkey. }
    destruct (slot_at attempt); try apply Hgo. congruence.
Qed.

(** insert: at the first empty slot the key goes to the first tombstone
    seen on the way, if any, else to that empty slot. *)
Lemma insert_loop_place fuel : forall (a : nat) attempt ft lg hl,
  (a < fuel)%nat ->
  0 < size st ->
  (forall j : nat, (j < a)%nat -> passes (slot_at (attempt + Z.of_nat j)) key) ->
  slot_at (attempt + Z.of_nat a) = Null ->
  insert_loop v key ctx fuel attempt ft lg hl st
  = let ft' := track ft (first_tombstone (table st) (path_from attempt a)) in
    let index := probeInfo v st ctx (attempt + Z.of_nat a) in
    let target := if negb (ft' =? -1) then ft' else index in
    let reused := is_tombstone (arr_get (table st) target) in
    match maintainAfterInsert v (placed_at st target key reused) with
    | (Ret more, st') =>
        (Ret (Returned (mkResult
           (lg ++ notes_from attempt (S a)
              ++ [if reused then LReusedTombstone target key else LPlaced key target]
              ++ more)
           (hl ++ as_probes (path_from attempt (S a)) ++ [(target, placed)])
           inserted)), st')
    | (Throw e, st') => (Throw e, st')
    end.
Proof.
  induction fuel as [|fuel IH]; intros a attempt ft lg hl Ha Hsz Hpass Hnull; [lia|].
  cbn [insert_loop]. munfold. fold (slot_at attempt).
  destruct a as [|a].
  - rewrite Z.add_0_r in Hnull. rewrite Hnull. cbn [is_key]. cbv zeta.
    change (path_from attempt 0) with (@nil Z). unfold first_tombstone. cbn [List.find].
    rewrite track_none, !Z.add_0_r.
    rewrite place_eq.
    rewrite (notes_from_S attempt 0), (path_from_S attempt 0).
    destruct (maintainAfterInsert v _) as [[more|e] st']; [|reflexivity].
    simpl. rewrite <- !app_assoc. reflexivity.
  - destruct (Hpass O ltac:(lia)) as [Hnn Hnk]. rewrite Z.add_0_r in Hnn, Hnk.
    rewrite Hnk.
    pose proof (probeInfo_range attempt Hsz) as Hrange.
    set (index0 := probeInfo v st ctx attempt) in *.
    assert (Hgo : forall ft0,
              track ft0 (first_tombstone (table st) (path_from (attempt + 1) a))
              = track ft (first_tombstone (table st) (path_from attempt (S a))) ->
              insert_loop v key ctx fuel (attempt + 1) ft0
                (lg ++ [LProbe attempt index0]) (hl ++ [(index0, probe)]) st
              = let ft' := track ft (first_tombstone (table st) (path_from attempt (S a))) in
                let index := probeInfo v st ctx (attempt + Z.of_nat (S a)) in
                let target := if negb (ft' =? -1) then ft' else index in
                let reused := is_tombstone (arr_get (table st) target) in
                match maintainAfterInsert v (placed_at st target key reused) with
                | (Ret more, st') =>
                    (Ret (Returned (mkResult
                       (lg ++ notes_from attempt (S (S a))
                          ++ [if reused then LReusedTombstone target key
                              else LPlaced key target] ++ more)
                       (hl ++ as_probes (path_from attempt (S (S a))) ++ [(target, placed)])
                       inserted)), st')
                | (Throw e, st') => (Throw e, st')
                end).
    { intros ft0 Htrack. rewrite (IH a (attempt + 1) ft0); [| lia | exact Hsz | |].
      - cbv zeta. rewrite Htrack.
        replace (attempt + 1 + Z.of_nat a) with (attempt + Z.of_nat (S a)) by lia.
        destruct (maintainAfterInsert v _) as [[more|e] st']; [|reflexivity].
        rewrite (notes_from_S attempt (S a)), (path_from_S attempt (S a)).
        fold index0. simpl. rewrite <- !app_assoc. reflexivity.
      - intros j Hj. replace (attempt + 1 + Z.of_nat j) with (attempt + Z.of_nat (S j)) by lia.
        apply Hpass. lia.
      - replace (attempt + 1 + Z.of_nat a) with (attempt + Z.of_nat (S a)) by lia.
        exact Hnull. }
    assert (Hskip : is_tombstone (slot_at attempt) = false ->
              track ft (first_tombstone (table st) (path_from (attempt + 1) a))
              = track ft (first_tombstone (table st) (path_from attempt (S a)))).
    { intros Hnt. rewrite (path_from_S attempt a). unfold first_tombstone. cbn [List.find].
      fold index0. unfold slot_at in Hnt. fold index0 in Hnt. rewrite Hnt. reflexivity. }
    destruct (slot_at attempt) eqn:E; try (apply Hgo, Hskip; reflexivity).
    + congruence.
    + apply Hgo. rewrite (path_from_S attempt a). unfold first_tombstone. cbn [List.find].
      fold index0. unfold slot_at in E. fold index0 in E. rewrite E. cbn [is_tombstone].
      unfold track. destruct (Z.eqb_spec ft (-1)) as [->|Hft].
      * destruct (Z.eqb_spec index0 (-1)); [lia|]. reflexivity.
      * destruct (Z.eqb_spec ft (-1)); [congruence|]. reflexivity.
Qed.

(** insert: a probe that meets only other keys runs out of attempts
    without a tombstone to fall back on. *)
Lemma insert_loop_exhausted fuel : forall attempt ft lg hl,
  (forall j : nat, (j < fuel)%nat ->
     passes (slot_at (attempt + Z.of_nat j)) key
     /\ slot_at (attempt + Z.of_nat j) <> TOMBSTONE) ->
  insert_loop v key ctx fuel attempt ft lg hl st
  = (Ret (Exhausted ft (lg ++ notes_from attempt fuel)
                       (hl ++ as_probes (path_from attempt fuel))), st).
Proof.
  induction fuel as [|fuel IH]; intros attempt ft lg hl Hpass.
  - simpl. munfold. rewrite !app_nil_r. reflexivity.
  - cbn [insert_loop]. munfold. fold (slot_at attempt).
    destruct (Hpass O ltac:(lia)) as [[Hnn Hnk] Hnt]. rewrite Z.add_0_r in Hnn, Hnk, Hnt.
    rewrite Hnk.
    assert (Hgo : insert_loop v key ctx fuel (attempt + 1) ft
              (lg ++ [LProbe attempt (probeInfo v st ctx attempt)])
              (hl ++ [(probeInfo v st ctx attempt, probe)]) st
            = (Ret (Exhausted ft (lg ++ notes_from attempt (S fuel))
                                 (hl ++ as_probes (path_from attempt (S fuel)))), st)).
    { rewrite (IH (attempt + 1)).
      - rewrite (notes_from_S attempt fuel), (path_from_S attempt fuel).
        simpl. rewrite <- !app_assoc. reflexivity.
      - intros j Hj. replace (attempt + 1 + Z.of_nat j) with (attempt + Z.of_nat (S j)) by lia.
        apply Hpass. lia. }
    destruct (slot_at attempt); try exact Hgo; congruence.
Qed.

(** directInsert takes the first free slot of the probe. *)
Lemma directInsert_loop_fill fuel : forall (a : nat) attempt,
  (a < fuel)%nat ->
  (forall j : nat, (j < a)%nat -> is_free (slot_at (attempt + Z.of_nat j)) = false) ->
  slot_at (attempt + Z.of_nat a) = Null ->
  directInsert_loop v key ctx fuel attempt st
  = (Ret tt, filled st (probeInfo v st ctx (attempt + Z.of_nat a)) key).
Proof.
  induction fuel as [|fuel IH]; intros a attempt Ha Hbusy Hnull; [lia|].
  cbn [directInsert_loop]. munfold. fold (slot_at attempt).
  destruct a as [|a].
  - rewrite Z.add_0_r in Hnull |- *. rewrite Hnull. reflexivity.
  - pose proof (Hbusy O ltac:(lia)) as H0. rewrite Z.add_0_r in H0.
    assert (Hgo : directInsert_loop v key ctx fuel (attempt + 1) st
                  = (Ret tt, filled st (probeInfo v st ctx (attempt + Z.of_nat (S a))) key)).
    { rewrite (IH a (attempt + 1)); [| lia | |].
      - replace (attempt + 1 + Z.of_nat a) with (attempt + Z.of_nat (S a)) by lia. reflexivity.
      - intros j Hj. replace (attempt + 1 + Z.of_nat j) with (attempt + Z.of_nat (S j)) by lia.
        apply Hbusy. lia.
      - replace (attempt + 1 + Z.of_nat a) with (attempt + Z.of_nat (S a)) by lia.
        exact Hnull. }
    destruct (slot_at attempt); try exact Hgo; discriminate.
Qed.

(** directInsert throws when none of its attempts meets a free slot. *)
Lemma directInsert_loop_throw fuel : forall attempt,
  (forall j : nat, (j < fuel)%nat -> is_free (slot_at (attempt + Z.of_nat j)) = false) ->
  directInsert_loop v key ctx fuel attempt st = (Throw RehashFailed, st).
Proof.
  induction fuel as [|fuel IH]; intros attempt Hbusy; [reflexivity|].
  cbn [directInsert_loop]. munfold. fold (slot_at attempt).
  pose proof (Hbusy O ltac:(lia)) as H0. rewrite Z.add_0_r in H0.
  assert (Hgo : directInsert_loop v key ctx fuel (attempt + 1) st = (Throw RehashFailed, st)).
  { apply IH. intros j Hj.
    replace (attempt + 1 + Z.of_nat j) with (attempt + Z.of_nat (S j)) by lia.
    apply Hbusy. lia. }
  destruct (slot_at attempt); try exact Hgo; discriminate.
Qed.

End OpenProbing.

(** * Open addressing: search *)



(** * Key normalisation *)

Section KeyNormalisation.
Import KeySpec.

Lemma round_double_small m : m < 2 ^ 53 -> round_double m = Some m.
Proof.
  intros H. unfold round_double.
  destruct (Z.ltb_spec m (2 ^ 53)); [reflexivity | lia].
Qed.

Lemma round_double_large m y :
  2 ^ 53 <= m -> round_double m = Some y -> 2 ^ 53 <= y.
Proof.
  intros Hm. unfold round_double.
  destruct (Z.ltb_spec m (2 ^ 53)) as [Hlt|_]; [lia|].
  set (L := Z.log2 m). set (e := L - 52).
  assert (HL : 53 <= L).
  { unfold L. rewrite <- (Z.log2_pow2 53) by lia. apply Z.log2_le_mono. exact Hm. }
  assert (Hpow : 2 ^ L <= m) by (apply Z.log2_spec; lia).
  assert (He : 1 <= e) by (unfold e; lia).
  assert (H2e : 2 <= 2 ^ e).
  { change 2 with (2 ^ 1) at 1. apply Z.pow_le_mono_r; lia. }
  assert (Hq : 2 ^ 52 <= Z.shiftr m e).
  { rewrite Z.shiftr_div_pow2 by lia.
    replace (2 ^ 52) with ((2 ^ 52 * 2 ^ e) / 2 ^ e) by (apply Z.div_mul; lia).
    apply Z.div_le_mono; [lia|].
    rewrite <- Z.pow_add_r by lia. replace (52 + e) with L by (unfold e; lia). exact Hpow. }
  set (q := Z.shiftr m e) in *.
  cbv zeta.
  match goal with |- context [Z.shiftl ?qq e] => set (q' := qq) end.
  assert (Hq' : 2 ^ 52 <= q').
  { unfold q'. match goal with |- context [if ?b then _ else _] => destruct b end; lia. }
  destruct (Z.leb_spec (2 ^ 1024) (Z.shiftl q' e)); [discriminate|].
  intros Hy. inversion Hy; subst y.
  rewrite Z.shiftl_mul_pow2 by lia.
  change (2 ^ 53) with (2 ^ 52 * 2).
  apply Z.mul_le_mono_nonneg; lia.
Qed.

Lemma rounds_to_safe x v : 0 <= x < 2 ^ 53 -> rounds_to x v = true -> v = x.
Proof.
  intros Hx. unfold rounds_to.
  destruct (round_double v) as [y|] eqn:E; [|discriminate].
  intros Heq. apply Z.eqb_eq in Heq. subst y.
  destruct (Z.lt_ge_cases v (2 ^ 53)) as [Hv|Hv].
  - rewrite round_double_small in E by exact Hv. congruence.
  - pose proof (round_double_large v x Hv E). lia.
Qed.

Lemma shortest_fuel_sound fuel : forall x e,
  shortest_fuel fuel x e = x \/ rounds_to x (shortest_fuel fuel x e) = true.
Proof.
  induction fuel as [|fuel IH]; intros x e; simpl; [left; reflexivity|].
  destruct (rounds_to x (x / 10 ^ e * 10 ^ e)) eqn:Elo;
    destruct (rounds_to x (x / 10 ^ e * 10 ^ e + 10 ^ e)) eqn:Ehi; simpl.
  - repeat match goal with |- context [if ?b then _ else _] => destruct b end;
      right; assumption.
  - right; assumption.
  - right; assumption.
  - apply IH.
Qed.

Lemma shortest_safe x : 0 <= x < 2 ^ 53 -> shortest x = x.
Proof.
  intros Hx. unfold shortest.
  destruct (shortest_fuel_sound (Z.to_nat (num_digits x)) x (num_digits x - 1)) as [H|H].
  - exact H.
  - apply rounds_to_safe; assumption.
Qed.

(** Decimal digits *)

Lemma digits_value_snoc l d : digits_value (l ++ [d]) = 10 * digits_value l + (d - 48).
Proof. unfold digits_value. rewrite fold_left_app. reflexivity. Qed.

Lemma digits_fuel_S fuel n acc :
  digits_fuel (S fuel) n acc
  = if n <? 10 then (48 + n mod 10) :: acc
    else digits_fuel fuel (n / 10) ((48 + n mod 10) :: acc).
Proof. reflexivity. Qed.

Lemma digits_fuel_spec fuel : forall n acc,
  0 <= n < 2 ^ Z.of_nat (S fuel) ->
  exists l,
    digits_fuel (S fuel) n acc = l ++ acc
    /\ digits_value l = n
    /\ forallb is_digit l = true
    /\ l <> []
    /\ (0 < n -> hd 0 l <> 48)
    /\ (forall k : nat, n < 10 ^ Z.of_nat (S k) -> (length l <= S k)%nat).
Proof.
  induction fuel as [|fuel IH]; intros n acc Hn;
    rewrite digits_fuel_S; destruct (Z.ltb_spec n 10) as [Hlt|Hge].
  1, 3: exists [48 + n mod 10]; rewrite Z.mod_small by lia;
        repeat split; simpl;
        [ unfold digits_value; simpl; lia
        | unfold is_digit; rewrite andb_true_r;
          apply andb_true_intro; split; apply Z.leb_le; lia
        | discriminate
        | lia
        | intros; lia ].
  - change (2 ^ Z.of_nat 1) with 2 in Hn. lia.
  - assert (Hdiv : 0 <= n / 10 < 2 ^ Z.of_nat (S fuel)).
    { split; [apply Z.div_pos; lia|].
      apply Z.div_lt_upper_bound; [lia|].
      rewrite (Nat2Z.inj_succ (S fuel)), Z.pow_succ_r in Hn by lia. lia. }
    destruct (IH (n / 10) ((48 + n mod 10) :: acc) Hdiv)
      as (l & Hl & Hval & Hdig & Hne & Hhd & Hlen).
    exists (l ++ [48 + n mod 10]). repeat split.
    + rewrite Hl, <- app_assoc. reflexivity.
    + rewrite digits_value_snoc, Hval.
      pose proof (Z.div_mod n 10 ltac:(lia)). lia.
    + rewrite forallb_app, Hdig. simpl. unfold is_digit.
      pose proof (Z.mod_pos_bound n 10 ltac:(lia)).
      rewrite andb_true_r. apply andb_true_intro.
      split; apply Z.leb_le; lia.
    + destruct l; discriminate.
    + intros _. destruct l as [|d l']; [congruence|]. simpl.
      simpl in Hhd. apply Hhd.
      apply Z.div_str_pos. lia.
    + intros k Hk. rewrite length_app. simpl.
      destruct k as [|k].
      { simpl in Hk. lia. }
      assert (length l <= S k)%nat; [|lia].
      apply Hlen. apply Z.div_lt_upper_bound; [lia|].
      rewrite (Nat2Z.inj_succ (S k)), Z.pow_succ_r in Hk by lia. lia.
Qed.

Lemma digits_spec n :
  0 <= n ->
  digits_value (digits n) = n
  /\ forallb is_digit (digits n) = true
  /\ digits n <> []
  /\ (0 < n -> hd 0 (digits n) <> 48)
  /\ (forall k : nat, n < 10 ^ Z.of_nat (S k) -> (length (digits n) <= S k)%nat).
Proof.
  intros Hn. unfold digits.
  destruct (digits_fuel_spec (Z.to_nat (Z.log2 n)) n []) as (l & Hl & H).
  - split; [exact Hn|].
    rewrite Nat2Z.inj_succ, Z2Nat.id by apply Z.log2_nonneg.
    destruct (Z.eq_dec n 0) as [->|Hnz]; [reflexivity|].
    apply Z.log2_spec. lia.
  - rewrite Hl, app_nil_r. exact H.
Qed.

Lemma num_digits_safe m : 0 <= m < 2 ^ 53 -> num_digits m <= 21.
Proof.
  intros Hm. unfold num_digits.
  destruct (digits_spec m ltac:(lia)) as (_ & _ & _ & _ & Hlen).
  specialize (Hlen 15%nat). change (10 ^ Z.of_nat 16) with 10000000000000000 in Hlen.
  change (2 ^ 53) with 9007199254740992 in Hm.
  assert (length (digits m) <= 16)%nat by (apply Hlen; lia). lia.
Qed.

Lemma magnitude_to_string_safe m :
  0 <= m < 2 ^ 53 -> magnitude_to_string m = digits m.
Proof.
  intros Hm. unfold magnitude_to_string.
  destruct (Z.eqb_spec m 0) as [->|Hnz]; [reflexivity|].
  rewrite shortest_safe by exact Hm.
  destruct (Z.leb_spec (num_digits m) 21) as [_|Hgt]; [reflexivity|].
  pose proof (num_digits_safe m Hm). lia.
Qed.

Lemma digits_value_nonneg l : forallb is_digit l = true -> 0 <= digits_value l.
Proof.
  unfold digits_value.
  assert (G : forall acc, 0 <= acc -> forallb is_digit l = true ->
                0 <= fold_left (fun acc c => 10 * acc + (c - 48)) l acc).
  { induction l as [|c l IH]; intros acc Hacc Hd; simpl in *; [exact Hacc|].
    apply andb_prop in Hd. destruct Hd as [Hc Hd].
    apply IH; [|exact Hd].
    unfold is_digit in Hc. apply andb_prop in Hc. destruct Hc as [Hc _].
    apply Z.leb_le in Hc. lia. }
  apply G. lia.
Qed.

Lemma all_digits_forallb s : all_digits s = true -> forallb is_digit s = true.
Proof. destruct s; [discriminate|]. intros H. exact H. Qed.

Lemma to_number_safe neg m : m < 2 ^ 53 -> to_number neg m = Finite neg m.
Proof. intros H. unfold to_number. rewrite round_double_small by exact H. reflexivity. Qed.

Lemma trim_start_spaces s : forallb is_js_space s = true -> trim_start s = [].
Proof.
  induction s as [|c s IH]; simpl; [reflexivity|].
  intros H. apply andb_prop in H. destruct H as [Hc Hs]. rewrite Hc. apply IH, Hs.
Qed.

(** The canonical string denotes the integer it was made from, is an
    integer literal, and has no insignificant leading zero. *)
Lemma canonical_decimal_spec z :
  literal_value (canonical_decimal z) = z
  /\ is_integer_literal (canonical_decimal z) = true
  /\ (z <> 0 -> hd 0 (digits (Z.abs z)) <> 48).
Proof.
  unfold canonical_decimal.
  destruct (Z.ltb_spec z 0) as [Hneg|Hpos].
  - destruct (digits_spec (- z) ltac:(lia)) as (Hval & Hdig & Hne & Hhd & _).
    repeat split.
    + unfold literal_value. simpl. rewrite Hval. lia.
    + unfold is_integer_literal. simpl. unfold all_digits.
      destruct (digits (- z)); [congruence|exact Hdig].
    + intros _. rewrite Z.abs_neq by lia. apply Hhd. lia.
  - destruct (digits_spec z Hpos) as (Hval & Hdig & Hne & Hhd & _).
    assert (Hfirst : forall c rest, digits z = c :: rest -> (c =? 45) = false).
    { intros c rest E. rewrite E in Hdig. simpl in Hdig.
      apply andb_prop in Hdig. destruct Hdig as [Hc _].
      unfold is_digit in Hc. apply andb_prop in Hc. destruct Hc as [Hc _].
      apply Z.leb_le in Hc. apply Z.eqb_neq. lia. }
    repeat split.
    + unfold literal_value. destruct (digits z) as [|c rest] eqn:E; [congruence|].
      rewrite (Hfirst c rest eq_refl). exact Hval.
    + unfold is_integer_literal. destruct (digits z) as [|c rest] eqn:E; [congruence|].
      rewrite (Hfirst c rest eq_refl). exact Hdig.
    + intros Hz. rewrite Z.abs_eq by lia. apply Hhd. lia.
Qed.

(** C9 (amended): normalisation trims its input; text that is not an
    integer literal is returned trimmed and otherwise unchanged, so
    blank input gives the empty string; an integer literal whose
    magnitude is below 2^53 becomes the canonical base-10 string of its
    value.  Larger literals go through a double and are not covered. *)
Theorem C9_normaliseKey_in_safe_range (raw : jsstring) :
  let t := trim raw in
  (is_integer_literal t = false -> normaliseKey raw = t)
  /\ (is_integer_literal t = true -> Z.abs (literal_value t) < 2 ^ 53 ->
      normaliseKey raw = canonical_decimal (literal_value t))
  /\ (is_integer_literal t = false \/ Z.abs (literal_value t) < 2 ^ 53 ->
      normaliseKey raw = normalize raw)
  /\ (forallb is_js_space raw = true -> normaliseKey raw = []).
Proof.
  intros t.
  assert (Htext : is_integer_literal t = false -> normaliseKey raw = t).
  { intros H. unfold normaliseKey. fold t. rewrite H. reflexivity. }
  assert (Hint : is_integer_literal t = true -> Z.abs (literal_value t) < 2 ^ 53 ->
                 normaliseKey raw = canonical_decimal (literal_value t)).
  { intros Hlit Hsafe. unfold normaliseKey. fold t. rewrite Hlit.
    unfold parseInt, literal_value, is_integer_literal, canonical_decimal in *.
    destruct t as [|c rest]; [discriminate|].
    destruct (c =? 45).
    - apply all_digits_forallb in Hlit.
      pose proof (digits_value_nonneg rest Hlit) as Hnn.
      set (m := digits_value rest) in *.
      rewrite to_number_safe by lia. simpl.
      destruct (Z.eqb_spec m 0) as [Hz|Hnz]; simpl.
      + rewrite Hz. reflexivity.
      + destruct (Z.ltb_spec (- m) 0); [|lia].
        rewrite Z.opp_involutive, magnitude_to_string_safe by lia. reflexivity.
    - apply all_digits_forallb in Hlit.
      pose proof (digits_value_nonneg (c :: rest) Hlit) as Hnn.
      set (m := digits_value (c :: rest)) in *.
      rewrite to_number_safe by lia. simpl.
      destruct (Z.ltb_spec m 0); [lia|].
      apply magnitude_to_string_safe. lia. }
  split; [exact Htext|]. split; [exact Hint|]. split.
  - intros [H|H].
    + rewrite (Htext H). unfold normalize. fold t. rewrite H. reflexivity.
    + unfold normalize. fold t.
      destruct (is_integer_literal t) eqn:E; [apply Hint; auto | apply Htext; reflexivity].
  - intros Hblank.
    assert (Ht : t = []).
    { unfold t, trim. rewrite (trim_start_spaces raw Hblank). reflexivity. }
    rewrite Htext; rewrite Ht; reflexivity.
Qed.

Lemma C9_normaliseKey_in_safe_range_witness :
  normaliseKey (str "  -007 ") = str "-7"
  /\ normaliseKey (str " apple ") = str "apple"
  /\ normaliseKey (str "   ") = [].
Proof.
  split; [|split].
  - destruct (C9_normaliseKey_in_safe_range (str "  -007 ")) as (_ & H & _).
    rewrite H; vm_compute; reflexivity.
  - destruct (C9_normaliseKey_in_safe_range (str " apple ")) as (H & _).
    rewrite H; vm_compute; reflexivity.
  - destruct (C9_normaliseKey_in_safe_range (str "   ")) as (_ & _ & _ & H).
    apply H. vm_compute. reflexivity.
Defined.

(** C9 fails as stated: a literal of 22 digits comes back in exponent
    notation, not as the canonical base-10 string of its value. *)
Lemma C9_counterexample :
  let raw := str "1000000000000000000000" in
  is_integer_literal (trim raw) = true
  /\ normaliseKey raw = str "1e+21"
  /\ canonical_decimal (literal_value (trim raw)) = str "1000000000000000000000"
  /\ normaliseKey raw <> normalize raw.
Proof.
  vm_compute. repeat split; try reflexivity. discriminate.
Qed.

End KeyNormalisation.

(** * Open addressing: remove and the shrink policy *)

Section OpenRemove.
Import Open OpenSpec.

Lemma previousPrime_loop_le fuel : forall c, previousPrime_loop fuel c <= Z.max 3 c.
Proof.
  induction fuel as [|fuel IH]; intros c; simpl; unfold MIN_TABLE_SIZE; [lia|].
  destruct (Z.leb_spec 3 c); [|lia].
  destruct (isPrime c); [lia|].
  specialize (IH (c - 2)). unfold MIN_TABLE_SIZE in IH. lia.
Qed.

Lemma previousPrime_le x : previousPrime x <= Z.max 3 x.
Proof.
  unfold previousPrime, clampTableSize, MIN_TABLE_SIZE, MAX_TABLE_SIZE.
  set (c := Z.min (Z.max x 3) 199).
  assert (Hc : c <= Z.max 3 x) by (unfold c; lia).
  destruct (Z.leb_spec c 3); [lia|].
  match goal with |- previousPrime_loop _ ?c' <= _ =>
    pose proof (previousPrime_loop_le 100 c') as Hl; assert (c' <= c) end.
  { destruct (_ =? 0); lia. }
  lia.
Qed.

Lemma shrink_target_lt st : 3 < size st -> shrink_target st < size st.
Proof.
  intros Hsz. unfold shrink_target, floor_div_1_6, MIN_TABLE_SIZE.
  pose proof (previousPrime_le (Z.max 3 (5 * size st / 8))) as Hle.
  assert (5 * size st / 8 < size st) by (apply Z.div_lt_upper_bound; lia).
  lia.
Qed.

(** The method and the amended policy agree on every state: the guard
    [target < size] of the method never fails when [size > 3]. *)
Lemma maintainAfterRemoval_policy v st :
  maintainAfterRemoval v st = shrink_policy v st.
Proof.
  unfold maintainAfterRemoval, shrink_policy, compactAfterRemoval, bind, get, ret.
  unfold MIN_TABLE_SIZE at 1.
  destruct (Z.ltb_spec 3 (size st)) as [Hsz|Hsz]; simpl; [|reflexivity].
  destruct ((0 <? count st) && load_lt st 3 10); simpl.
  - fold (shrink_target st).
    pose proof (shrink_target_lt st Hsz) as Hlt.
    destruct (Z.ltb_spec (shrink_target st) (size st)); [reflexivity | lia].
  - destruct (tombstones_gt st 25 100 && (count st <? tombstones st)); reflexivity.
Qed.

(** C6 (amended): after a successful remove (the key found at the first
    slot of its probe that holds it, that slot turned into a tombstone,
    count decremented, tombstones incremented) the shrink policy applies:
    with size > 3, count > 0 and load below 0.3 the table is rehashed to
    previousPrime(max(3, floor(size/1.6))); otherwise, with size > 3,
    tombstones > 0.25 size and tombstones > count, it is rehashed at the
    same size; a table of 3 slots is left alone. *)
Theorem C6_remove_applies_shrink_policy (v : variant) (rawKey : jsstring) (st : state)
    (a : nat) :
  let key := normaliseKey rawKey in
  Z.of_nat a < size st ->
  (forall j : nat, (j < a)%nat -> passes (slot v st key (Z.of_nat j)) key) ->
  is_key (slot v st key (Z.of_nat a)) key = true ->
  match shrink_policy v (tombstoned st (probe_index v st key (Z.of_nat a))) with
  | (Ret more, st') =>
      exists r, remove v rawKey st = (Ret r, st') /\ res_status r = removed
  | (Throw e, st') => remove v rawKey st = (Throw e, st')
  end.
Proof.
  intros key Ha Hpass Hkey.
  set (ctx := createContext v st key).
  assert (Hrun : remove v rawKey st
                 = remove_loop v key ctx (Z.to_nat (size st)) 0
                     (logContext v ctx key) [] st) by reflexivity.
  rewrite Hrun.
  rewrite (remove_loop_found v key ctx st (Z.to_nat (size st)) a 0
             (logContext v ctx key) [] ltac:(lia) Hpass Hkey).
  cbv zeta. rewrite maintainAfterRemoval_policy.
  change (probeInfo v st ctx (0 + Z.of_nat a)) with (probe_index v st key (Z.of_nat a)).
  destruct (shrink_policy v _) as [[more|e] st']; [|reflexivity].
  eexists. split; reflexivity.
Qed.

End OpenRemove.

Lemma C6_remove_applies_shrink_policy_witness :
  exists r st',
    Open.remove Open.Linear (str "24") Scenario.linear11 = (Ret r, st')
    /\ res_status r = removed
    /\ Open.tombstones st' = 0 /\ Open.count st' = 1 /\ Open.size st' = 5.
Proof.
  pose proof (C6_remove_applies_shrink_policy Open.Linear (str "24") Scenario.linear11 1%nat)
    as H.
  cbv zeta in H.
  assert (H1 : Z.of_nat 1 < Open.size Scenario.linear11) by (vm_compute; reflexivity).
  assert (H2 : forall j : nat, (j < 1)%nat ->
            OpenSpec.passes
              (OpenSpec.slot Open.Linear Scenario.linear11 (normaliseKey (str "24"))
                 (Z.of_nat j)) (normaliseKey (str "24"))).
  { intros j Hj. assert (j = O) by lia. subst j.
    split; vm_compute; [discriminate|reflexivity]. }
  assert (H3 : Open.is_key
            (OpenSpec.slot Open.Linear Scenario.linear11 (normaliseKey (str "24"))
               (Z.of_nat 1)) (normaliseKey (str "24")) = true) by (vm_compute; reflexivity).
  specialize (H H1 H2 H3).
  compute_scrutinee H.
  destruct H as (r & Hr & Hs). exists r. eexists.
  split; [exact Hr|]. split; [exact Hs|]. repeat split; reflexivity.
Defined.

(** C6 fails as stated: in a table of 3 slots whose only key is removed,
    both tombstone conditions hold afterwards, yet no compaction takes
    place; the policy as specified would have cleared the tombstone. *)
Lemma C6_counterexample :
  OpenController.run Open.Linear 2 Scenario.linear3_acts
    (Open.init (normaliseSizeForOpen 3)) = Some Scenario.linear3
  /\ exists r st',
       Open.remove Open.Linear (str "a") Scenario.linear3 = (Ret r, st')
       /\ res_status r = removed
       /\ Open.tombstones_gt st' 25 100 = true
       /\ (Open.count st' <? Open.tombstones st') = true
       /\ Open.tombstones st' = 1
       /\ In Open.TOMBSTONE (Open.table st')
       /\ exists more st'',
            OpenSpec.shrink_policy_as_specified Open.Linear
              (OpenSpec.tombstoned Scenario.linear3
                 (OpenSpec.probe_index Open.Linear Scenario.linear3 (str "a") 0))
            = (Ret more, st'')
            /\ Open.tombstones st'' = 0
            /\ st'' <> st'.
Proof.
  split; [vm_compute; reflexivity|].
  eexists. eexists. split; [vm_compute; reflexivity|].
  split; [reflexivity|]. split; [reflexivity|]. split; [reflexivity|].
  split; [reflexivity|]. split; [vm_compute; tauto|].
  eexists. eexists. split; [vm_compute; reflexivity|].
  split; [reflexivity|]. discriminate.
Qed.

(** * Open addressing: insert *)

Section OpenInsert.
Import Open OpenSpec.

Lemma insert_attempt_after_capacity_check v key st0 pre st :
  ensureCapacityBeforeInsert v st0 = (Ret pre, st) ->
  insert_attempt v key st0
  = (let ctx := createContext v st key in
     match insert_loop v key ctx (Z.to_nat (size st)) 0 (-1)
             (pre ++ logContext v ctx key) [] st with
     | (Ret (Returned r), st1) => (Ret (inl r), st1)
     | (Ret (Exhausted firstTombstone lg hl), st1) =>
         (if negb (firstTombstone =? -1) then
            bind (place firstTombstone key) (fun _ =>
            bind (maintainAfterInsert v) (fun more =>
            ret (inl (mkResult (lg ++ [LWrappedIntoTombstone key firstTombstone] ++ more)
                               (hl ++ [(firstTombstone, placed)]) inserted))))
          else ret (inr lg)) st1
     | (Throw e, st1) => (Throw e, st1)
     end).
Proof.
  intros H. unfold insert_attempt. unfold bind at 1. rewrite H.
  unfold bind at 1. unfold get. unfold bind at 1.
  destruct (insert_loop _ _ _ _ _ _ _ _ st) as [[[r|ft lg hl]|e] st1]; reflexivity.
Qed.

Lemma first_tombstone_some v st ctx attempt n t :
  0 < size st ->
  first_tombstone (table st) (path_from v st ctx attempt n) = Some t ->
  is_tombstone (arr_get (table st) t) = true /\ 0 <= t < size st.
Proof.
  intros Hsz H. unfold first_tombstone in H. apply find_some in H.
  destruct H as [Hin Ht]. split; [exact Ht|].
  unfold path_from in Hin. apply in_map_iff in Hin. destruct Hin as (j & <- & _).
  apply probeInfo_range. exact Hsz.
Qed.

(** C4 (amended): the probe of insert works on the table that the
    pre-insert capacity check leaves, which may already be a rehashed
    one.  On that table: if a visited slot holds the key, insert returns
    'duplicate' and changes nothing further; otherwise, at the first
    empty slot, the key is stored at the first tombstone seen earlier in
    the probe if there was one, else at that empty slot, count grows by
    one and tombstones shrinks by one exactly when a tombstone was
    reused.  Post-insert maintenance then runs on the result. *)
Theorem C4_insert_probe_stage (v : variant) (fuel : nat) (rawKey : jsstring)
    (st0 st : state) (pre : list log) (a : nat) :
  let key := normaliseKey rawKey in
  ensureCapacityBeforeInsert v st0 = (Ret pre, st) ->
  Z.of_nat a < size st ->
  (forall j : nat, (j < a)%nat -> passes (slot v st key (Z.of_nat j)) key) ->
  (is_key (slot v st key (Z.of_nat a)) key = true ->
     exists r, insert v (S fuel) rawKey st0 = Some (Ret r, st)
               /\ res_status r = duplicate)
  /\ (slot v st key (Z.of_nat a) = Null ->
      let seen := first_tombstone (table st) (probe_path v st key a) in
      let target := reuse_target seen (probe_index v st key (Z.of_nat a)) in
      let reused := was_seen seen in
      arr_get (table st) target = (if reused then TOMBSTONE else Null)
      /\ match maintainAfterInsert v (placed_at st target key reused) with
         | (Ret more, st') =>
             exists r, insert v (S fuel) rawKey st0 = Some (Ret r, st')
                       /\ res_status r = inserted
                       /\ In (target, placed) (highlights r)
         | (Throw e, st') => insert v (S fuel) rawKey st0 = Some (Throw e, st')
         end).
Proof.
  intros key Hpre Ha Hpass.
  set (ctx := createContext v st key).
  assert (Hsz : 0 < size st) by lia.
  split.
  - intros Hkey. cbn [insert]. fold key.
    rewrite (insert_attempt_after_capacity_check v key st0 pre st Hpre). cbv zeta.
    rewrite (insert_loop_duplicate v key ctx st (Z.to_nat (size st)) a 0 (-1)
               _ [] ltac:(lia) Hpass Hkey).
    eexists. split; reflexivity.
  - intros Hnull seen target reused.
    pose proof (insert_loop_place v key ctx st (Z.to_nat (size st)) a 0 (-1)
                  (pre ++ logContext v ctx key) [] ltac:(lia) Hsz Hpass Hnull) as Hloop.
    cbv zeta in Hloop.
    change (path_from v st ctx 0 a) with (probe_path v st key a) in Hloop.
    fold seen in Hloop.
    change (probeInfo v st ctx (0 + Z.of_nat a)) with (probe_index v st key (Z.of_nat a))
      in Hloop.
    assert (Htarget : (if negb (track (-1) seen =? -1) then track (-1) seen
                       else probe_index v st key (Z.of_nat a)) = target
                      /\ is_tombstone (arr_get (table st) target) = reused
                      /\ arr_get (table st) target = (if reused then TOMBSTONE else Null)).
    { unfold target, reused, track, reuse_target, was_seen. cbn [Z.eqb Pos.eqb].
      destruct seen as [t|] eqn:Eseen.
      - destruct (first_tombstone_some v st ctx 0 a t Hsz Eseen) as [Htomb Hrange].
        destruct (Z.eqb_spec t (-1)); [lia|]. cbn [negb].
        split; [reflexivity|]. split; [exact Htomb|].
        destruct (arr_get (table st) t); try discriminate. reflexivity.
      - cbn [Z.eqb Pos.eqb negb].
        unfold slot in Hnull. rewrite Hnull. repeat split. }
    destruct Htarget as (Ht1 & Ht2 & Ht3).
    rewrite Ht1, Ht2 in Hloop.
    split; [exact Ht3|].
    cbn [insert]. fold key.
    rewrite (insert_attempt_after_capacity_check v key st0 pre st Hpre). cbv zeta.
    fold ctx. rewrite Hloop.
    destruct (maintainAfterInsert v (placed_at st target key reused)) as [[more|e] st'];
      [|reflexivity].
    eexists. split; [reflexivity|]. split; [reflexivity|].
    cbn [highlights]. apply in_or_app. right. apply in_or_app. right. left. reflexivity.
Qed.

End OpenInsert.

Lemma C4_insert_probe_stage_witness :
  exists r st',
    Open.insert Open.Quadratic 1 (str "5") Scenario.quadratic11 = Some (Ret r, st')
    /\ res_status r = inserted
    /\ Open.arr_get (Open.table Scenario.quadratic11) 2 = Open.TOMBSTONE
    /\ Open.arr_get (Open.table st') 2 = Open.Key (str "5")
    /\ Open.count st' = Open.count Scenario.quadratic11 + 1
    /\ Open.tombstones st' = Open.tombstones Scenario.quadratic11 - 1.
Proof.
  pose proof (C4_insert_probe_stage Open.Quadratic 0 (str "5")
                Scenario.quadratic11 Scenario.quadratic11 [] 4%nat) as H.
  cbv zeta in H.
  assert (H1 : Open.ensureCapacityBeforeInsert Open.Quadratic Scenario.quadratic11
               = (Ret [], Scenario.quadratic11)) by (vm_compute; reflexivity).
  assert (H2 : Z.of_nat 4 < Open.size Scenario.quadratic11) by (vm_compute; reflexivity).
  assert (H3 : forall j : nat, (j < 4)%nat ->
            OpenSpec.passes
              (OpenSpec.slot Open.Quadratic Scenario.quadratic11 (normaliseKey (str "5"))
                 (Z.of_nat j)) (normaliseKey (str "5"))).
  { intros j Hj.
    destruct j as [|[|[|[|j]]]]; [| | | |lia];
      (split; vm_compute; [discriminate|reflexivity]). }
  destruct (H H1 H2 H3) as [_ Hplace].
  assert (H4 : OpenSpec.slot Open.Quadratic Scenario.quadratic11 (normaliseKey (str "5"))
                 (Z.of_nat 4) = Open.Null) by (vm_compute; reflexivity).
  destruct (Hplace H4) as [_ Hins].
  compute_scrutinee Hins.
  destruct Hins as (r & Hr & Hs & _). exists r. eexists.
  split; [exact Hr|]. split; [exact Hs|]. repeat split; reflexivity.
Defined.

(** C4 fails as stated: with five keys in seven slots the load is above
    0.68, so inserting a key that is already stored first grows the
    table to 13 slots and only then reports 'duplicate'. *)
Lemma C4_counterexample :
  OpenController.run Open.Linear 2 Scenario.linear7_acts
    (Open.init (normaliseSizeForOpen 7)) = Some Scenario.linear7
  /\ In (Open.Key (str "3")) (Open.table Scenario.linear7)
  /\ exists r st',
       Open.insert Open.Linear 1 (str "3") Scenario.linear7 = Some (Ret r, st')
       /\ res_status r = duplicate
       /\ Open.size Scenario.linear7 = 7
       /\ Open.size st' = 13
       /\ Open.table st' <> Open.table Scenario.linear7.
Proof.
  split; [vm_compute; reflexivity|].
  split; [vm_compute; tauto|].
  eexists. eexists. split; [vm_compute; reflexivity|].
  split; [reflexivity|]. split; [reflexivity|]. split; [reflexivity|].
  vm_compute. discriminate.
Qed.

(** * Separate chaining *)

Section ChainingFacts.
Import Chaining ChainingSpec.

Ltac munfold := unfold bind, get, modify, ret, throw in *.

Lemma arr_lookup_nat {A} (l : list A) (i : Z) :
  0 <= i -> arr_lookup l i = l !! Z.to_nat i.
Proof. intros H. unfold arr_lookup. destruct (Z.ltb_spec i 0); [lia|reflexivity]. Qed.

Lemma wf_bucket st k :
  wf st ->
  exists bucket,
    arr_lookup (table st) (primaryIndex (size st) k) = Some bucket
    /\ table st !! Z.to_nat (primaryIndex (size st) k) = Some bucket.
Proof.
  intros (Hsz & Hlen & _ & _).
  pose proof (primaryIndex_range (size st) k Hsz) as Hr.
  rewrite arr_lookup_nat by lia.
  destruct (lookup_lt_is_Some_2 (table st) (Z.to_nat (primaryIndex (size st) k)))
    as [bucket Hb]; [lia|].
  exists bucket. split; exact Hb.
Qed.

Lemma stored_bucket st k bucket :
  wf st ->
  table st !! Z.to_nat (primaryIndex (size st) k) = Some bucket ->
  stored st k <-> In k bucket.
Proof.
  intros (Hsz & Hlen & Hhome & _) Hb. unfold stored. rewrite in_concat. split.
  - intros (b & Hin & Hk).
    apply list_elem_of_In, list_elem_of_lookup in Hin. destruct Hin as [i Hi].
    pose proof (Hhome i b k Hi Hk) as Hidx. rewrite Hidx, Nat2Z.id in Hb. congruence.
  - intros Hk. exists bucket. split; [|exact Hk].
    apply list_elem_of_In, list_elem_of_lookup. eauto.
Qed.

Lemma includes_In bucket key : includes bucket key = true <-> In key bucket.
Proof.
  unfold includes. rewrite existsb_exists. split.
  - intros (k & Hin & Heq). unfold jsstring_eqb in Heq.
    apply bool_decide_eq_true in Heq. subst. exact Hin.
  - intros Hin. exists key. split; [exact Hin|].
    unfold jsstring_eqb. apply bool_decide_eq_true. reflexivity.
Qed.

Lemma indexOf_In bucket key : forall from,
  0 <= from -> (indexOf bucket key from = -1 <-> ~ In key bucket).
Proof.
  induction bucket as [|k bucket IH]; intros from Hfrom; simpl.
  - tauto.
  - unfold jsstring_eqb. destruct (bool_decide_reflect (k = key)) as [->|Hne].
    + split; [lia|]. intros H. exfalso. apply H. left. reflexivity.
    + rewrite IH by lia. tauto.
Qed.

Lemma concat_insert_app (t : list (list jsstring)) (i : nat) bucket key :
  t !! i = Some bucket ->
  concat t = concat (take i t) ++ bucket ++ concat (drop (S i) t)
  /\ concat (<[i := bucket ++ [key]]> t)
     = concat (take i t) ++ (bucket ++ [key]) ++ concat (drop (S i) t).
Proof.
  intros Hb. split.
  - rewrite <- (take_drop_middle t i bucket Hb) at 1.
    rewrite concat_app. reflexivity.
  - rewrite insert_take_drop by (eapply lookup_lt_Some; eassumption).
    rewrite concat_app. reflexivity.
Qed.

Lemma appended_eq st key bucket :
  wf st ->
  table st !! Z.to_nat (primaryIndex (size st) key) = Some bucket ->
  appended st key
  = mkState (size st)
            (<[Z.to_nat (primaryIndex (size st) key) := bucket ++ [key]]> (table st))
            (count st + 1).
Proof.
  intros Hwf Hb. unfold appended.
  destruct Hwf as (Hsz & _).
  pose proof (primaryIndex_range (size st) key Hsz).
  rewrite arr_lookup_nat by lia. rewrite Hb. reflexivity.
Qed.

Lemma appended_wf st key :
  wf st ->
  wf (appended st key)
  /\ size (appended st key) = size st
  /\ count (appended st key) = count st + 1
  /\ (forall k, stored (appended st key) k <-> k = key \/ stored st k).
Proof.
  intros Hwf. destruct (wf_bucket st key Hwf) as (bucket & _ & Hb).
  rewrite (appended_eq st key bucket Hwf Hb).
  destruct (concat_insert_app (table st) _ bucket key Hb) as [Hold Hnew].
  destruct Hwf as (Hsz & Hlen & Hhome & Hcount).
  split; [|split; [reflexivity|split; [reflexivity|]]].
  - split; [exact Hsz|]. cbn [size table count]. split; [|split].
    + rewrite length_insert. exact Hlen.
    + intros i b k Hi Hk.
      destruct (decide (i = Z.to_nat (primaryIndex (size st) key))) as [->|Hne].
      * rewrite list_lookup_insert_eq in Hi by (eapply lookup_lt_Some; eassumption).
        inversion Hi; subst b. apply in_app_or in Hk. destruct Hk as [Hk|[<-|[]]].
        -- eapply Hhome; eassumption.
        -- pose proof (primaryIndex_range (size st) key Hsz). lia.
      * rewrite list_lookup_insert_ne in Hi by congruence.
        eapply Hhome; eassumption.
    + rewrite Hnew, Hcount, Hold. rewrite !length_app. simpl. lia.
  - intros k. unfold stored. cbn [table]. rewrite Hnew, Hold.
    rewrite !in_app_iff. simpl. intuition congruence.
Qed.

Lemma push_at_eq st key bucket :
  wf st ->
  table st !! Z.to_nat (primaryIndex (size st) key) = Some bucket ->
  push_at (primaryIndex (size st) key) key st
  = (Ret (Z.of_nat (length bucket) + 1),
     set_table (<[Z.to_nat (primaryIndex (size st) key) := bucket ++ [key]]> (table st)) st).
Proof.
  intros (Hsz & _) Hb. unfold push_at. munfold.
  pose proof (primaryIndex_range (size st) key Hsz).
  rewrite arr_lookup_nat by lia. rewrite Hb. reflexivity.
Qed.

Lemma insertInternal_eq st key :
  wf st -> insertInternal key st = (Ret tt, appended st key).
Proof.
  intros Hwf. destruct (wf_bucket st key Hwf) as (bucket & _ & Hb).
  rewrite (appended_eq st key bucket Hwf Hb).
  unfold insertInternal. unfold bind at 1. unfold get. unfold bind at 1.
  rewrite (push_at_eq st key bucket Hwf Hb). reflexivity.
Qed.

Lemma forEach_insertInternal entries : forall st,
  wf st ->
  exists st',
    forEach entries insertInternal st = (Ret tt, st')
    /\ wf st' /\ size st' = size st
    /\ count st' = count st + Z.of_nat (length entries)
    /\ (forall k, stored st' k <-> In k entries \/ stored st k).
Proof.
  induction entries as [|e entries IH]; intros st Hwf.
  - exists st. simpl. split; [reflexivity|]. split; [exact Hwf|].
    split; [reflexivity|]. split; [lia|]. intros k. tauto.
  - cbn [forEach]. unfold bind. rewrite (insertInternal_eq st e Hwf).
    destruct (appended_wf st e Hwf) as (Hwf1 & Hsz1 & Hc1 & Hs1).
    destruct (IH (appended st e) Hwf1) as (st' & Hrun & Hwf' & Hsz' & Hc' & Hs').
    exists st'. rewrite Hrun. split; [reflexivity|]. split; [exact Hwf'|].
    split; [congruence|]. split.
    + rewrite Hc', Hc1. cbn [length]. lia.
    + intros k. rewrite Hs', Hs1. simpl. intuition congruence.
Qed.

Lemma init_wf sz : 0 < sz -> wf (init sz) /\ forall k, ~ stored (init sz) k.
Proof.
  intros Hsz.
  assert (Hempty : forall n, concat (replicate n (@nil jsstring)) = []).
  { induction n; simpl; [reflexivity|exact IHn]. }
  split.
  - split; [exact Hsz|]. cbn [init size table count]. split; [|split].
    + apply length_replicate.
    + intros i b k Hi Hk. apply lookup_replicate in Hi. destruct Hi as [-> _]. destruct Hk.
    + rewrite Hempty. reflexivity.
  - intros k. unfold stored. cbn [init table]. rewrite Hempty. intros [].
Qed.

(** A chaining rehash to a positive size succeeds, leaves a well-formed
    table of that size, and keeps exactly the stored keys. *)
Lemma rehash_spec st newSize message :
  0 < newSize ->
  exists st',
    rehash newSize message st = (Ret [message], st')
    /\ wf st' /\ size st' = newSize
    /\ count st' = Z.of_nat (length (concat (table st)))
    /\ (forall k, stored st' k <-> stored st k).
Proof.
  intros Hsz. unfold rehash. munfold.
  destruct (init_wf newSize Hsz) as [Hwf0 Hnone].
  destruct (forEach_insertInternal (concat (table st)) (init newSize) Hwf0)
    as (st' & Hrun & Hwf' & Hsz' & Hc' & Hs').
  exists st'. unfold init in Hrun. rewrite Hrun.
  split; [reflexivity|]. split; [exact Hwf'|]. split; [exact Hsz'|]. split.
  - rewrite Hc'. cbn [init count]. lia.
  - intros k. rewrite Hs'. unfold stored at 2. split; [|tauto].
    intros [H|H]; [exact H|]. exfalso. eapply Hnone. exact H.
Qed.

Lemma maxChain_le_count t : 0 <= maxChain t <= Z.of_nat (length (concat t)).
Proof.
  unfold maxChain.
  assert (G : forall (t' : list (list jsstring)) m, 0 <= m ->
            m <= fold_left (fun m (bucket : list jsstring) =>
                              if m <? Z.of_nat (length bucket)
                              then Z.of_nat (length bucket) else m) t' m
              <= m + Z.of_nat (length (concat t'))).
  { induction t' as [|b t' IH]; intros m Hm; simpl; [lia|].
    rewrite length_app.
    destruct (Z.ltb_spec m (Z.of_nat (length b))).
    - specialize (IH (Z.of_nat (length b)) ltac:(lia)). lia.
    - specialize (IH m Hm). lia. }
  specialize (G t 0 ltac:(lia)). lia.
Qed.

(** The loop of maintainAfterInsert computes the length of the longest
    chain. *)
Lemma maxChain_longest st : maxChain (table st) = Z.of_nat (longest_chain st).
Proof.
  unfold maxChain, longest_chain.
  assert (G : forall (t : list (list jsstring)) m, 0 <= m ->
            fold_left (fun m (bucket : list jsstring) =>
                         if m <? Z.of_nat (length bucket)
                         then Z.of_nat (length bucket) else m) t m
            = Z.max m (Z.of_nat (list_max (map (@length jsstring) t)))).
  { induction t as [|b t IH]; intros m Hm; cbn [fold_left map list_max fold_right]; [lia|].
    fold (list_max (map (@length jsstring) t)).
    destruct (Z.ltb_spec m (Z.of_nat (length b))).
    - rewrite IH by lia. lia.
    - rewrite IH by lia. lia. }
  rewrite G by lia. lia.
Qed.

(** The test of maintainAfterInsert is the trigger of the
    specification. *)
Lemma growth_due_trigger st : growth_due st = true <-> growth_trigger st.
Proof.
  unfold growth_due, growth_trigger, overloaded, chain_too_long, ratio_gt.
  rewrite orb_true_iff, !Z.ltb_lt, maxChain_longest. lia.
Qed.

(** search finds exactly the stored keys, and changes nothing. *)
Lemma search_spec st rawKey :
  wf st ->
  exists r,
    search rawKey st = (Ret r, st)
    /\ (stored st (normaliseKey rawKey) -> res_status r = found)
    /\ (~ stored st (normaliseKey rawKey) -> res_status r = missing).
Proof.
  intros Hwf. set (key := normaliseKey rawKey).
  destruct (wf_bucket st key Hwf) as (bucket & Hb & Hb').
  pose proof (stored_bucket st key bucket Hwf Hb') as Hst.
  unfold search. fold key. munfold. rewrite Hb.
  pose proof (indexOf_In bucket key 0 ltac:(lia)) as Hidx.
  destruct (Z.eqb_spec (indexOf bucket key 0) (-1)) as [Heq|Hne].
  - eexists. split; [reflexivity|]. simpl. split; [|reflexivity].
    intros H. exfalso. apply Hidx; [exact Heq|]. apply Hst, H.
  - eexists. split; [reflexivity|]. simpl. split; [reflexivity|].
    intros H. exfalso. apply Hne. apply Hidx. intros Hin. apply H, Hst, Hin.
Qed.

Lemma insert_fresh_eq st rawKey :
  wf st ->
  ~ stored st (normaliseKey rawKey) ->
  exists lg hl,
    rehash_notices lg = O
    /\ insert rawKey st
       = match maintainAfterInsert (appended st (normaliseKey rawKey)) with
         | (Ret more, st') => (Ret (mkResult (lg ++ more) hl inserted), st')
         | (Throw e, st') => (Throw e, st')
         end.
Proof.
  intros Hwf Hfresh. set (key := normaliseKey rawKey) in *.
  destruct (wf_bucket st key Hwf) as (bucket & Hb & Hb').
  pose proof (stored_bucket st key bucket Hwf Hb') as Hst.
  rewrite (appended_eq st key bucket Hwf Hb').
  unfold insert. fold key. unfold bind at 1. unfold get. rewrite Hb.
  destruct (includes bucket key) eqn:Einc.
  { exfalso. apply Hfresh, Hst, includes_In, Einc. }
  unfold bind at 1. rewrite (push_at_eq st key bucket Hwf Hb').
  munfold. cbn [set_table set_count size table count].
  eexists. eexists. split; [|reflexivity]. reflexivity.
Qed.

Lemma maintainAfterInsert_spec st1 :
  wf st1 ->
  if growth_due st1 && negb (growth_target st1 =? size st1) then
    exists message st',
      maintainAfterInsert st1 = (Ret [message], st')
      /\ is_rehash_notice message = true
      /\ rehash (growth_target st1) message st1 = (Ret [message], st')
      /\ wf st' /\ size st' = growth_target st1
      /\ (forall k, stored st' k <-> stored st1 k)
  else maintainAfterInsert st1 = (Ret [], st1).
Proof.
  intros Hwf. unfold maintainAfterInsert, growth_target. munfold.
  destruct (growth_due st1); simpl; [|reflexivity].
  destruct (negb (nextPrime (ceil_mul_1_6 (size st1)) =? size st1)); [|reflexivity].
  pose proof (nextPrime_range (ceil_mul_1_6 (size st1))) as Hr.
  destruct (rehash_spec st1 (nextPrime (ceil_mul_1_6 (size st1)))
              (LChainGrowth (count st1) (size st1) (maxChain (table st1))
                 (nextPrime (ceil_mul_1_6 (size st1)))) ltac:(lia))
    as (st' & Hrun & Hwf' & Hsz' & _ & Hs').
  eexists. exists st'. split; [exact Hrun|]. split; [reflexivity|].
  split; [exact Hrun|]. split; [exact Hwf'|]. split; [exact Hsz'|]. exact Hs'.
Qed.

(** The growth policy after a successful insert. *)
Lemma insert_fresh_spec st rawKey :
  wf st ->
  ~ stored st (normaliseKey rawKey) ->
  let key := normaliseKey rawKey in
  let st1 := appended st key in
  exists r st',
    insert rawKey st = (Ret r, st')
    /\ res_status r = inserted
    /\ wf st'
    /\ (forall k, stored st' k <-> k = key \/ stored st k)
    /\ (if growth_due st1 && negb (growth_target st1 =? size st1) then
          size st' = growth_target st1
          /\ (exists message, rehash (growth_target st1) message st1 = (Ret [message], st'))
          /\ rehash_notices (logs r) = 1%nat
        else st' = st1 /\ rehash_notices (logs r) = O).
Proof.
  intros Hwf Hfresh key st1.
  destruct (insert_fresh_eq st rawKey Hwf Hfresh) as (lg & hl & Hlg & Hins).
  fold key in Hins. fold st1 in Hins.
  destruct (appended_wf st key Hwf) as (Hwf1 & Hsz1 & Hc1 & Hs1). fold st1 in Hwf1, Hs1.
  pose proof (maintainAfterInsert_spec st1 Hwf1) as Hm.
  assert (Hnotices : forall more, rehash_notices (lg ++ more)
                                  = rehash_notices more).
  { intros more. unfold rehash_notices in *. rewrite List.filter_app, length_app. lia. }
  destruct (growth_due st1 && negb (growth_target st1 =? size st1)).
  - destruct Hm as (message & st' & Hrun & Hmsg & Hre & Hwf' & Hsz' & Hs').
    rewrite Hrun in Hins. eexists. exists st'. split; [exact Hins|].
    split; [reflexivity|]. split; [exact Hwf'|]. split.
    { intros k. rewrite Hs'. apply Hs1. }
    split; [exact Hsz'|]. split; [exists message; exact Hre|].
    cbn [logs]. rewrite Hnotices. unfold rehash_notices. cbn [List.filter].
    rewrite Hmsg. reflexivity.
  - rewrite Hm in Hins. eexists. exists st1. split; [exact Hins|].
    split; [reflexivity|]. split; [exact Hwf1|]. split; [exact Hs1|].
    split; [reflexivity|]. cbn [logs]. rewrite Hnotices. reflexivity.
Qed.

Lemma growth_due_small st1 :
  wf st1 -> size st1 = 3 -> 0 <= count st1 <= 4 ->
  growth_due st1 = (345 <? 100 * count st1).
Proof.
  intros Hwf Hsz Hc. unfold growth_due, ratio_gt. rewrite Hsz.
  destruct Hwf as (_ & _ & _ & Hcount).
  pose proof (maxChain_le_count (table st1)) as Hmax.
  destruct (Z.ltb_spec 4 (maxChain (table st1))); [lia|].
  rewrite orb_false_r. reflexivity.
Qed.

Lemma insert_below_threshold st rawKey :
  wf st -> size st = 3 -> 0 <= count st < 3 ->
  ~ stored st (normaliseKey rawKey) ->
  exists r st',
    insert rawKey st = (Ret r, st')
    /\ res_status r = inserted
    /\ wf st' /\ size st' = 3 /\ count st' = count st + 1
    /\ (forall k, stored st' k <-> k = normaliseKey rawKey \/ stored st k)
    /\ rehash_notices (logs r) = O
    /\ ratio_gt (count st') (size st') 115 100 = false.
Proof.
  intros Hwf Hsz Hc Hfresh.
  destruct (insert_fresh_spec st rawKey Hwf Hfresh) as (r & st' & Hins & Hst & Hwf' & Hs' & Hif).
  destruct (appended_wf st (normaliseKey rawKey) Hwf) as (Hwf1 & Hsz1 & Hc1 & _).
  cbv zeta in Hif.
  set (st1 := appended st (normaliseKey rawKey)) in *.
  assert (Hcond : growth_due st1 && negb (growth_target st1 =? size st1) = false).
  { rewrite (growth_due_small st1 Hwf1) by lia. rewrite Hc1.
    destruct (Z.ltb_spec 345 (100 * (count st + 1))); [lia|reflexivity]. }
  rewrite Hcond in Hif. destruct Hif as [Heq Hn]. subst st'.
  exists r, st1. split; [exact Hins|]. split; [exact Hst|]. split; [exact Hwf'|].
  split; [lia|]. split; [exact Hc1|]. split; [exact Hs'|]. split; [exact Hn|].
  unfold ratio_gt. rewrite Hsz1, Hc1, Hsz. apply Z.ltb_ge. lia.
Qed.

Lemma insert_crossing_threshold st rawKey :
  wf st -> size st = 3 -> count st = 3 ->
  ~ stored st (normaliseKey rawKey) ->
  exists r st',
    insert rawKey st = (Ret r, st')
    /\ res_status r = inserted
    /\ wf st' /\ size st' = 5
    /\ (forall k, stored st' k <-> k = normaliseKey rawKey \/ stored st k)
    /\ rehash_notices (logs r) = 1%nat
    /\ ratio_gt (count (appended st (normaliseKey rawKey)))
                (size (appended st (normaliseKey rawKey))) 115 100 = true
    /\ count (appended st (normaliseKey rawKey)) = 4
    /\ count st' = 4.
Proof.
  intros Hwf Hsz Hc Hfresh.
  destruct (insert_fresh_spec st rawKey Hwf Hfresh) as (r & st' & Hins & Hst & Hwf' & Hs' & Hif).
  destruct (appended_wf st (normaliseKey rawKey) Hwf) as (Hwf1 & Hsz1 & Hc1 & _).
  cbv zeta in Hif.
  set (st1 := appended st (normaliseKey rawKey)) in *.
  assert (Htarget : growth_target st1 = 5).
  { unfold growth_target. rewrite Hsz1, Hsz. vm_compute. reflexivity. }
  assert (Hcond : growth_due st1 && negb (growth_target st1 =? size st1) = true).
  { rewrite (growth_due_small st1 Hwf1) by lia. rewrite Htarget, Hsz1, Hc1, Hsz, Hc.
    reflexivity. }
  rewrite Hcond in Hif. destruct Hif as (Hsz' & (message & Hre) & Hn).
  exists r, st'. split; [exact Hins|]. split; [exact Hst|]. split; [exact Hwf'|].
  split; [congruence|]. split; [exact Hs'|]. split; [exact Hn|].
  split; [unfold ratio_gt; rewrite Hsz1, Hc1, Hsz, Hc; reflexivity|].
  split; [lia|].
  destruct (rehash_spec st1 (growth_target st1) message ltac:(lia))
    as (st'' & Hre' & _ & _ & Hc'' & _).
  rewrite Hre in Hre'. inversion Hre'; subst st''.
  rewrite Hc''. destruct Hwf1 as (_ & _ & _ & Hcount1). rewrite <- Hcount1. lia.
Qed.

(** A chaining rehash keeps every stored key findable. *)
Lemma chaining_rehash_keeps_keys_findable st newSize message :
  0 < newSize ->
  exists st',
    rehash newSize message st = (Ret [message], st')
    /\ size st' = newSize
    /\ forall rawKey,
         stored st (normaliseKey rawKey) ->
         exists r, search rawKey st' = (Ret r, st') /\ res_status r = found.
Proof.
  intros Hsz.
  destruct (rehash_spec st newSize message Hsz) as (st' & Hrun & Hwf' & Hsz' & _ & Hs').
  exists st'. split; [exact Hrun|]. split; [exact Hsz'|].
  intros rawKey Hk. destruct (search_spec st' rawKey Hwf') as (r & Hr & Hfound & _).
  exists r. split; [exact Hr|]. apply Hfound, Hs', Hk.
Qed.

(** *** Every state the controller reaches is well-formed *)

Lemma indexOf_range bucket key : forall from,
  indexOf bucket key from <> -1 -> 0 <= from ->
  from <= indexOf bucket key from < from + Z.of_nat (length bucket).
Proof.
  induction bucket as [|k bucket IH]; intros from Hne Hfrom; simpl in *; [congruence|].
  destruct (jsstring_eqb k key); [lia|].
  specialize (IH (from + 1) Hne ltac:(lia)). lia.
Qed.

Lemma splice1_spec (bucket : list jsstring) position :
  0 <= position < Z.of_nat (length bucket) ->
  S (length (splice1 bucket position)) = length bucket
  /\ (forall k, In k (splice1 bucket position) -> In k bucket).
Proof.
  intros Hp. unfold splice1. split.
  - rewrite length_app, length_take, length_drop. lia.
  - intros k Hk. apply in_app_or in Hk. destruct Hk as [Hk|Hk].
    + rewrite <- (take_drop (Z.to_nat position) bucket). apply in_or_app. left. exact Hk.
    + rewrite <- (take_drop (S (Z.to_nat position)) bucket). apply in_or_app. right. exact Hk.
Qed.

Lemma maintainAfterRemoval_wf s :
  wf s -> exists more s', maintainAfterRemoval s = (Ret more, s') /\ wf s'.
Proof.
  intros Hwf. unfold maintainAfterRemoval. munfold.
  destruct (_ && _); [|eauto].
  destruct (_ <? size s); [|eauto].
  pose proof (previousPrime_table_prime
                (Z.max MIN_TABLE_SIZE (floor_div_1_5 (size s)))) as [Hrange _].
  unfold MIN_TABLE_SIZE in Hrange at 1.
  match goal with |- context [rehash ?n ?m s] =>
    destruct (rehash_spec s n m ltac:(lia)) as (s' & Hrun & Hwf' & _)
  end.
  eauto.
Qed.

Lemma remove_wf st rawKey : wf st -> wf (snd (remove rawKey st)).
Proof.
  intros Hwf. set (key := normaliseKey rawKey).
  destruct (wf_bucket st key Hwf) as (bucket & Hb & Hb').
  unfold remove. fold key. unfold bind at 1. unfold get. rewrite Hb.
  destruct (Z.eqb_spec (indexOf bucket key 0) (-1)) as [Heq|Hne]; [exact Hwf|].
  pose proof (indexOf_range bucket key 0 Hne ltac:(lia)) as Hr.
  destruct (splice1_spec bucket (indexOf bucket key 0) ltac:(lia)) as [Hlen Hsub].
  set (bucket' := splice1 bucket (indexOf bucket key 0)) in *.
  set (idx := Z.to_nat (primaryIndex (size st) key)) in *.
  assert (Hwf1 : wf (mkState (size st) (<[idx := bucket']> (table st)) (count st - 1))).
  { destruct Hwf as (Hsz & Hl & Hhome & Hcount).
    split; [exact Hsz|]. cbn [size table count]. split; [|split].
    - rewrite length_insert. exact Hl.
    - intros i b k Hi Hk. destruct (decide (i = idx)) as [->|Hni].
      + rewrite list_lookup_insert_eq in Hi by (eapply lookup_lt_Some; eassumption).
        inversion Hi; subst b. eapply Hhome; [exact Hb'|]. apply Hsub, Hk.
      + rewrite list_lookup_insert_ne in Hi by congruence. eapply Hhome; eassumption.
    - rewrite insert_take_drop by (eapply lookup_lt_Some; eassumption).
      rewrite Hcount. rewrite <- (take_drop_middle (table st) idx bucket Hb') at 1.
      rewrite !concat_app. cbn [concat]. rewrite !length_app. lia. }
  munfold. unfold set_table, set_count. cbn [size table count].
  destruct (maintainAfterRemoval_wf _ Hwf1) as (more & s' & Hm & Hwf').
  rewrite Hm. exact Hwf'.
Qed.

Lemma insert_wf st rawKey : wf st -> wf (snd (insert rawKey st)).
Proof.
  intros Hwf. set (key := normaliseKey rawKey).
  destruct (wf_bucket st key Hwf) as (bucket & Hb & Hb').
  destruct (includes bucket key) eqn:Einc.
  - unfold insert. fold key. unfold bind at 1. unfold get. rewrite Hb, Einc. exact Hwf.
  - assert (Hfresh : ~ stored st (normaliseKey rawKey)).
    { intros H. apply (stored_bucket st key bucket Hwf Hb'), includes_In in H. congruence. }
    destruct (insert_fresh_spec st rawKey Hwf Hfresh) as (r & st' & Hins & _ & Hwf' & _).
    rewrite Hins. exact Hwf'.
Qed.

Lemma reachable_wf st : ChainingController.reachable st -> wf st.
Proof.
  intros (sz & acts & <-).
  assert (Hinit : wf (init (normaliseSizeForChaining sz))).
  { apply init_wf. unfold normaliseSizeForChaining, clampTableSize,
      MIN_TABLE_SIZE, MAX_TABLE_SIZE. lia. }
  revert Hinit. generalize (init (normaliseSizeForChaining sz)).
  induction acts as [|a acts IH]; intros s Hs; [exact Hs|].
  cbn [ChainingController.run]. destruct (bool_decide _); [apply IH, Hs|].
  apply IH. destruct a as [k|k|k]; cbn [ChainingController.handleAction].
  - apply insert_wf, Hs.
  - destruct (search_spec s (trim k) Hs) as (r & Hr & _). rewrite Hr. exact Hs.
  - apply remove_wf, Hs.
Qed.

End ChainingFacts.

(** C7: after every successful chaining insert the growth policy runs:
    when count/size > 1.15 or the longest chain holds more than 4 keys
    (both read off the table that has just gained the key), and
    nextPrime(ceil(size * 1.6)) differs from the current size, the table
    is rehashed to that size, every stored key going to the chain its
    primaryIndex selects at the new size; when neither holds, or the
    target is the current size, the table only gains the key.
    Inserting four distinct keys into a table of 3 chains: the first
    three inserts bring the count to 1, 2 and 3, at or below load 1.15,
    and rehash nothing; the fourth brings it to 4, above 1.15, and
    rehashes once, to 5 chains, and all four keys are found
    afterwards. *)
Theorem C7_chaining_growth_policy :
  (forall (st : Chaining.state) (rawKey : jsstring),
     ChainingSpec.wf st ->
     ~ ChainingSpec.stored st (normaliseKey rawKey) ->
     let key := normaliseKey rawKey in
     let st1 := ChainingSpec.appended st key in
     exists r st',
       Chaining.insert rawKey st = (Ret r, st')
       /\ res_status r = inserted
       /\ ChainingSpec.wf st'
       /\ (forall k, ChainingSpec.stored st' k <-> k = key \/ ChainingSpec.stored st k)
       /\ (ChainingSpec.overloaded st1 \/ ChainingSpec.chain_too_long st1 ->
           ChainingSpec.growth_target st1 <> Chaining.size st1 ->
           Chaining.size st' = ChainingSpec.growth_target st1
           /\ (exists message,
                 Chaining.rehash (ChainingSpec.growth_target st1) message st1
                 = (Ret [message], st'))
           /\ ChainingSpec.rehash_notices (logs r) = 1%nat)
       /\ (~ (ChainingSpec.overloaded st1 \/ ChainingSpec.chain_too_long st1)
           \/ ChainingSpec.growth_target st1 = Chaining.size st1 ->
           st' = st1 /\ ChainingSpec.rehash_notices (logs r) = O))
  /\ (forall k1 k2 k3 k4 : jsstring,
        NoDup [normaliseKey k1; normaliseKey k2; normaliseKey k3; normaliseKey k4] ->
        exists r1 s1 r2 s2 r3 s3 r4 s4,
          Chaining.insert k1 (Chaining.init 3) = (Ret r1, s1)
          /\ Chaining.insert k2 s1 = (Ret r2, s2)
          /\ Chaining.insert k3 s2 = (Ret r3, s3)
          /\ Chaining.insert k4 s3 = (Ret r4, s4)
          /\ map res_status [r1; r2; r3; r4] = [inserted; inserted; inserted; inserted]
          /\ map Chaining.size [s1; s2; s3; s4] = [3; 3; 3; 5]
          /\ map Chaining.count [s1; s2; s3; ChainingSpec.appended s3 (normaliseKey k4); s4]
             = [1; 2; 3; 4; 4]
          /\ map (fun s => ratio_gt (Chaining.count s) (Chaining.size s) 115 100)
                 [s1; s2; s3; ChainingSpec.appended s3 (normaliseKey k4)]
             = [false; false; false; true]
          /\ map (fun r => ChainingSpec.rehash_notices (logs r)) [r1; r2; r3; r4]
             = [O; O; O; 1%nat]
          /\ (forall k, In k [k1; k2; k3; k4] ->
                exists r, Chaining.search k s4 = (Ret r, s4) /\ res_status r = found)).
Proof.
  split.
  - intros st rawKey Hwf Hfresh key st1.
    destruct (insert_fresh_spec st rawKey Hwf Hfresh)
      as (r & st' & Hins & Hst & Hwf' & Hs' & Hif).
    fold key in Hs', Hif. fold st1 in Hif.
    exists r, st'. split; [exact Hins|]. split; [exact Hst|]. split; [exact Hwf'|].
    split; [exact Hs'|].
    pose proof (growth_due_trigger st1) as Hdue. unfold ChainingSpec.growth_trigger in Hdue.
    destruct (Chaining.growth_due st1);
      destruct (Z.eqb_spec (ChainingSpec.growth_target st1) (Chaining.size st1)) as [Heq|Hne];
      cbn [andb negb] in Hif.
    + split; [intros _ Hne; contradiction|]. intros _. exact Hif.
    + split; [intros _ _; exact Hif|].
      intros [Hno|Heq]; [|contradiction]. exfalso. apply Hno, Hdue. reflexivity.
    + split; [intros _ Hne; contradiction|]. intros _. exact Hif.
    + split; [|intros _; exact Hif].
      intros Htrig _. apply Hdue in Htrig. discriminate.
  - intros k1 k2 k3 k4 Hnd.
    apply NoDup_cons in Hnd. destruct Hnd as [H1 Hnd].
    apply NoDup_cons in Hnd. destruct Hnd as [H2 Hnd].
    apply NoDup_cons in Hnd. destruct Hnd as [H3 _].
    assert (H12 : normaliseKey k1 <> normaliseKey k2)
      by (intros E; apply H1; rewrite E; repeat constructor).
    assert (H13 : normaliseKey k1 <> normaliseKey k3)
      by (intros E; apply H1; rewrite E; repeat constructor).
    assert (H14 : normaliseKey k1 <> normaliseKey k4)
      by (intros E; apply H1; rewrite E; repeat constructor).
    assert (H23 : normaliseKey k2 <> normaliseKey k3)
      by (intros E; apply H2; rewrite E; repeat constructor).
    assert (H24 : normaliseKey k2 <> normaliseKey k4)
      by (intros E; apply H2; rewrite E; repeat constructor).
    assert (H34 : normaliseKey k3 <> normaliseKey k4)
      by (intros E; apply H3; rewrite E; repeat constructor).
    destruct (init_wf 3 ltac:(lia)) as [Hwf0 Hnone].
    destruct (insert_below_threshold (Chaining.init 3) k1 Hwf0 eq_refl
                ltac:(simpl; lia) (Hnone _))
      as (r1 & s1 & E1 & T1 & Hwf1 & Hsz1 & Hc1 & Hs1 & N1 & L1).
    simpl in Hc1.
    destruct (insert_below_threshold s1 k2 Hwf1 Hsz1 ltac:(lia))
      as (r2 & s2 & E2 & T2 & Hwf2 & Hsz2 & Hc2 & Hs2 & N2 & L2).
    { rewrite Hs1. intros [H|H]; [|exact (Hnone _ H)]. congruence. }
    destruct (insert_below_threshold s2 k3 Hwf2 Hsz2 ltac:(lia))
      as (r3 & s3 & E3 & T3 & Hwf3 & Hsz3 & Hc3 & Hs3 & N3 & L3).
    { rewrite Hs2, Hs1. intros [H|[H|H]]; [| |exact (Hnone _ H)]; congruence. }
    destruct (insert_crossing_threshold s3 k4 Hwf3 Hsz3 ltac:(lia))
      as (r4 & s4 & E4 & T4 & Hwf4 & Hsz4 & Hs4 & N4 & L4 & Hc4 & Hc4').
    { rewrite Hs3, Hs2, Hs1. intros [H|[H|[H|H]]]; [| | |exact (Hnone _ H)]; congruence. }
    exists r1, s1, r2, s2, r3, s3, r4, s4.
    split; [exact E1|]. split; [exact E2|]. split; [exact E3|]. split; [exact E4|].
    split; [simpl; congruence|]. split; [simpl; congruence|].
    split; [simpl; repeat f_equal; lia|].
    split; [simpl; congruence|]. split; [simpl; congruence|].
    intros k Hk.
    destruct (search_spec s4 k Hwf4) as (r & Hr & Hfound & _).
    exists r. split; [exact Hr|]. apply Hfound.
    rewrite Hs4, Hs3, Hs2, Hs1.
    destruct Hk as [<-|[<-|[<-|[<-|[]]]]]; tauto.
Qed.

(** Two runs.  The chain trigger alone: with "16", "24", "29" and "35"
    in chain 0 of 11 chains, inserting "54" makes that chain 5 long at
    load 5/11, and the table is rehashed once, to 19 chains.  The load
    trigger alone: the four inserts into 3 chains. *)
Lemma C7_chaining_growth_policy_witness :
  (exists r st',
     Chaining.insert (str "54") Tables.chaining11 = (Ret r, st')
     /\ ~ ChainingSpec.overloaded (ChainingSpec.appended Tables.chaining11 (str "54"))
     /\ ChainingSpec.longest_chain (ChainingSpec.appended Tables.chaining11 (str "54"))
        = 5%nat
     /\ Chaining.size st' = 19
     /\ ChainingSpec.rehash_notices (logs r) = 1%nat
     /\ (forall k, ChainingSpec.stored st' k
                   <-> k = str "54" \/ In k [str "16"; str "24"; str "29"; str "35"]))
  /\ exists r1 s1 r2 s2 r3 s3 r4 s4,
       Chaining.insert (str "10") (Chaining.init 3) = (Ret r1, s1)
       /\ Chaining.insert (str "15") s1 = (Ret r2, s2)
       /\ Chaining.insert (str "25") s2 = (Ret r3, s3)
       /\ Chaining.insert (str "apple") s3 = (Ret r4, s4)
       /\ map Chaining.size [s1; s2; s3; s4] = [3; 3; 3; 5]
       /\ map (fun r => ChainingSpec.rehash_notices (logs r)) [r1; r2; r3; r4]
          = [O; O; O; 1%nat]
       /\ (forall k, In k [str "10"; str "15"; str "25"; str "apple"] ->
             exists r, Chaining.search k s4 = (Ret r, s4) /\ res_status r = found).
Proof.
  split.
  - assert (Hwf : ChainingSpec.wf Tables.chaining11).
    { apply reachable_wf. exists 11, Tables.chaining11_acts. vm_compute. reflexivity. }
    assert (Hfresh : ~ ChainingSpec.stored Tables.chaining11 (normaliseKey (str "54"))).
    { unfold ChainingSpec.stored. rewrite <- list_elem_of_In.
      apply (bool_decide_unpack _). vm_compute. exact I. }
    pose proof (proj1 C7_chaining_growth_policy Tables.chaining11 (str "54") Hwf Hfresh) as H.
    cbv zeta in H.
    assert (Ek : normaliseKey (str "54") = str "54") by (vm_compute; reflexivity).
    rewrite Ek in H.
    destruct H as (r & st' & Hins & _ & _ & Hs' & Hgrow & _).
    assert (Hlong : ChainingSpec.longest_chain
                      (ChainingSpec.appended Tables.chaining11 (str "54")) = 5%nat)
      by (vm_compute; reflexivity).
    assert (Htarget : ChainingSpec.growth_target
                        (ChainingSpec.appended Tables.chaining11 (str "54")) = 19)
      by (vm_compute; reflexivity).
    destruct Hgrow as (Hsz & _ & Hn).
    { right. unfold ChainingSpec.chain_too_long. rewrite Hlong. lia. }
    { rewrite Htarget. vm_compute. discriminate. }
    exists r, st'. split; [exact Hins|].
    split; [unfold ChainingSpec.overloaded; vm_compute; discriminate|].
    split; [exact Hlong|].
    split; [rewrite Hsz; exact Htarget|].
    split; [exact Hn|].
    intros k. rewrite Hs'. unfold ChainingSpec.stored.
    change (concat (Chaining.table Tables.chaining11))
      with [str "16"; str "24"; str "29"; str "35"].
    reflexivity.
  - destruct (proj2 C7_chaining_growth_policy (str "10") (str "15") (str "25") (str "apple"))
      as (r1 & s1 & r2 & s2 & r3 & s3 & r4 & s4 & E1 & E2 & E3 & E4 & _ & Hsz & _ & _ & Hn & Hf).
    + apply (bool_decide_unpack _). vm_compute. exact I.
    + exists r1, s1, r2, s2, r3, s3, r4, s4. repeat (split; [assumption|]). exact Hf.
Defined.

(** * Open addressing: rehashing *)

Section OpenArrays.
Import Open OpenSpec.

Lemma arr_get_lookup t i e :
  0 <= i -> t !! Z.to_nat i = Some e -> arr_get t i = e.
Proof.
  intros Hi He. unfold arr_get, arr_lookup.
  destruct (Z.ltb_spec i 0); [lia|]. rewrite He. reflexivity.
Qed.

Lemma arr_get_in_range t i :
  0 <= i < Z.of_nat (length t) -> t !! Z.to_nat i = Some (arr_get t i).
Proof.
  intros Hi. destruct (lookup_lt_is_Some_2 t (Z.to_nat i)) as [e He]; [lia|].
  rewrite (arr_get_lookup t i e) by (lia || exact He). exact He.
Qed.

Lemma arr_set_in_range t i e :
  0 <= i < Z.of_nat (length t) -> arr_set t i e = <[Z.to_nat i := e]> t.
Proof.
  intros Hi. unfold arr_set. destruct (Z.ltb_spec i 0); [lia|].
  destruct (Nat.ltb_spec (Z.to_nat i) (length t)); [reflexivity|lia].
Qed.

Lemma arr_get_set_eq t i e :
  0 <= i < Z.of_nat (length t) -> arr_get (arr_set t i e) i = e.
Proof.
  intros Hi. rewrite arr_set_in_range by exact Hi.
  apply arr_get_lookup; [lia|]. apply list_lookup_insert_eq. lia.
Qed.

Lemma arr_get_set_ne t i j e :
  0 <= i < Z.of_nat (length t) -> 0 <= j -> i <> j ->
  arr_get (arr_set t i e) j = arr_get t j.
Proof.
  intros Hi Hj Hne. rewrite arr_set_in_range by exact Hi.
  unfold arr_get, arr_lookup. destruct (Z.ltb_spec j 0); [lia|].
  rewrite list_lookup_insert_ne by lia. reflexivity.
Qed.

Lemma live_keys_app t1 t2 : live_keys (t1 ++ t2) = live_keys t1 ++ live_keys t2.
Proof. unfold live_keys. apply omap_app. Qed.

(** Storing a key in an empty slot adds that key to the live keys. *)
Lemma live_keys_fill t i k :
  0 <= i < Z.of_nat (length t) -> arr_get t i = Null ->
  exists l1 l2,
    live_keys t = l1 ++ l2 /\ live_keys (arr_set t i (Key k)) = l1 ++ k :: l2.
Proof.
  intros Hi Hnull. pose proof (arr_get_in_range t i Hi) as Hl. rewrite Hnull in Hl.
  rewrite arr_set_in_range by exact Hi.
  exists (live_keys (take (Z.to_nat i) t)), (live_keys (drop (S (Z.to_nat i)) t)). split.
  - rewrite <- (take_drop_middle t (Z.to_nat i) Null Hl) at 1.
    rewrite live_keys_app. reflexivity.
  - rewrite insert_take_drop by lia. rewrite live_keys_app. reflexivity.
Qed.

Lemma live_keys_cons e t :
  live_keys (e :: t) = match e with Key k => k :: live_keys t | _ => live_keys t end.
Proof. destruct e; reflexivity. Qed.

Lemma live_keys_length_le t : (length (live_keys t) <= length t)%nat.
Proof.
  induction t as [|e t IH]; [simpl; lia|].
  rewrite live_keys_cons. destruct e; simpl; lia.
Qed.

Lemma clean_table_has_null (t : list entry) :
  Forall (fun e => e = Null \/ exists k, e = Key k) t ->
  (length (live_keys t) < length t)%nat ->
  In Null t.
Proof.
  induction 1 as [|e t He Ht IH]; [simpl; lia|].
  destruct He as [->|[k ->]]; [left; reflexivity|].
  rewrite live_keys_cons. simpl. intros Hlen. right. apply IH. lia.
Qed.

Lemma clean_table_all_keys (t : list entry) :
  Forall (fun e => e = Null \/ exists k, e = Key k) t ->
  length (live_keys t) = length t ->
  Forall (fun e => exists k, e = Key k /\ In k (live_keys t)) t.
Proof.
  induction 1 as [|e t He Ht IH]; intros Hlen; [constructor|].
  pose proof (live_keys_length_le t) as Hle.
  rewrite live_keys_cons in Hlen |- *.
  destruct He as [->|[k ->]]; simpl in Hlen; [lia|].
  constructor.
  - exists k. split; [reflexivity|]. left. reflexivity.
  - eapply Forall_impl; [apply IH; lia|].
    intros e (k' & -> & Hin). exists k'. split; [reflexivity|]. right. exact Hin.
Qed.

Lemma In_arr_get t e :
  In e t -> exists i, 0 <= i < Z.of_nat (length t) /\ arr_get t i = e.
Proof.
  intros Hin. apply list_elem_of_In, list_elem_of_lookup in Hin. destruct Hin as [i Hi].
  pose proof (lookup_lt_Some _ _ _ Hi). exists (Z.of_nat i). split; [lia|].
  apply arr_get_lookup; [lia|]. rewrite Nat2Z.id. exact Hi.
Qed.

End OpenArrays.

Section OpenRehash.
Import Open OpenSpec.

Ltac munfold := unfold bind, get, modify, ret, throw in *.

Lemma bounded_search (P : nat -> bool) n :
  (exists a, (a < n)%nat /\ P a = true) \/ (forall j, (j < n)%nat -> P j = false).
Proof.
  induction n as [|n [(a & Ha & HP)|Hnone]].
  - right. intros j Hj. lia.
  - left. exists a. split; [lia|exact HP].
  - destruct (P n) eqn:E.
    + left. exists n. split; [lia|exact E].
    + right. intros j Hj. destruct (Nat.eq_dec j n) as [->|Hne]; [exact E|].
      apply Hnone. lia.
Qed.

Lemma first_such (P : nat -> bool) n :
  (exists a, (a < n)%nat /\ P a = true) ->
  exists a0, (a0 < n)%nat /\ P a0 = true /\ forall j, (j < a0)%nat -> P j = false.
Proof.
  induction n as [|n IH]; intros (a & Ha & HP); [lia|].
  destruct (bounded_search P n) as [Hsome|Hnone].
  - destruct (IH Hsome) as (a1 & H1 & H2 & H3).
    exists a1. split; [lia|]. split; assumption.
  - exists n. split; [lia|]. assert (a = n).
    { destruct (Nat.eq_dec a n); [assumption|]. exfalso.
      rewrite (Hnone a) in HP by lia. discriminate. }
    subst a. split; [exact HP|]. exact Hnone.
Qed.

Lemma probe_index_size v st st' key a :
  size st' = size st -> probe_index v st' key a = probe_index v st key a.
Proof.
  intros H. unfold probe_index, probeInfo, createContext. rewrite H.
  destruct v; reflexivity.
Qed.

Lemma probe_index_range v st key a :
  0 < size st -> 0 <= probe_index v st key a < size st.
Proof. intros H. unfold probe_index. apply probeInfo_range. exact H. Qed.

Lemma clean_entry st i :
  clean st -> 0 <= i < size st ->
  arr_get (table st) i = Null \/ exists k, arr_get (table st) i = Key k.
Proof.
  intros (Hsz & Hlen & Hall) Hi.
  pose proof (arr_get_in_range (table st) i ltac:(lia)) as Hl.
  rewrite Forall_forall in Hall. apply Hall.
  apply list_elem_of_lookup. eauto.
Qed.

(** On a clean table with an empty slot, a covering probe lets
    directInsert succeed: the key lands in the first empty slot of its
    probe. *)
Lemma directInsert_ok v st key :
  clean st -> covers v (size st) -> In Null (table st) ->
  exists a : nat,
    Z.of_nat a < size st
    /\ (forall j : nat, (j < a)%nat -> is_free (slot v st key (Z.of_nat j)) = false)
    /\ slot v st key (Z.of_nat a) = Null
    /\ directInsert v key st = (Ret tt, filled st (probe_index v st key (Z.of_nat a)) key).
Proof.
  intros Hclean Hcov Hnull.
  destruct Hclean as (Hsz & Hlen & Hall).
  destruct (In_arr_get _ _ Hnull) as (i & Hi & Hget).
  destruct (Hcov st key i eq_refl ltac:(lia)) as (a & Ha & Hidx).
  destruct (first_such (fun j => is_free (slot v st key (Z.of_nat j))) (Z.to_nat (size st)))
    as (a0 & Ha0 & Hfree & Hbusy).
  { exists a. split; [lia|]. unfold slot. rewrite Hidx, Hget. reflexivity. }
  assert (Hslot : slot v st key (Z.of_nat a0) = Null).
  { destruct (clean_entry st (probe_index v st key (Z.of_nat a0)))
      as [H|[k H]].
    - split; [exact Hsz|]. split; assumption.
    - apply probe_index_range. exact Hsz.
    - exact H.
    - unfold slot in Hfree. rewrite H in Hfree. discriminate. }
  exists a0. split; [lia|]. split; [exact Hbusy|]. split; [exact Hslot|].
  unfold directInsert. munfold.
  apply (directInsert_loop_fill v key (createContext v st key) st
           (Z.to_nat (size st)) a0 0); [lia| |exact Hslot].
  intros j Hj. apply Hbusy. exact Hj.
Qed.

Lemma filled_spec v st key (a : nat) :
  clean st ->
  Z.of_nat a < size st ->
  (forall j : nat, (j < a)%nat -> is_free (slot v st key (Z.of_nat j)) = false) ->
  slot v st key (Z.of_nat a) = Null ->
  let st' := filled st (probe_index v st key (Z.of_nat a)) key in
  clean st'
  /\ size st' = size st
  /\ count st' = count st + 1
  /\ tombstones st' = tombstones st
  /\ length (live_keys (table st')) = S (length (live_keys (table st)))
  /\ (forall k, In k (live_keys (table st')) <-> k = key \/ In k (live_keys (table st)))
  /\ findable v st' key
  /\ (forall k, findable v st k -> findable v st' k).
Proof.
  intros Hclean Ha Hbusy Hnull st'.
  destruct Hclean as (Hsz & Hlen & Hall).
  set (idx := probe_index v st key (Z.of_nat a)) in *.
  pose proof (probe_index_range v st key (Z.of_nat a) Hsz) as Hidx. fold idx in Hidx.
  assert (Hin : 0 <= idx < Z.of_nat (length (table st))) by lia.
  assert (Hslot' : forall k j,
            slot v st' k j
            = if decide (probe_index v st k j = idx) then Key key else slot v st k j).
  { intros k j. unfold slot.
    rewrite (probe_index_size v st st' k j eq_refl).
    pose proof (probe_index_range v st k j Hsz) as Hr.
    unfold st', filled. cbn [table].
    destruct (decide (probe_index v st k j = idx)) as [->|Hne].
    - apply arr_get_set_eq. exact Hin.
    - apply arr_get_set_ne; [exact Hin | lia | congruence]. }
  destruct (live_keys_fill (table st) idx key Hin Hnull) as (l1 & l2 & Hold & Hnew).
  split; [|split; [reflexivity|split; [reflexivity|split; [reflexivity|]]]].
  - split; [exact Hsz|]. unfold st', filled. cbn [size table].
    rewrite arr_set_in_range by exact Hin. split.
    + rewrite length_insert. exact Hlen.
    + apply Forall_insert; [exact Hall|]. right. eauto.
  - unfold st', filled. cbn [table]. rewrite Hnew, Hold. split; [|split; [|split]].
    + rewrite !length_app. simpl. lia.
    + intros k. rewrite !in_app_iff. simpl. intuition congruence.
    + exists a. split; [exact Ha|]. split.
      * intros j Hj. rewrite Hslot'. destruct (decide _); [discriminate|].
        intros E. specialize (Hbusy j Hj). rewrite E in Hbusy. discriminate.
      * rewrite Hslot'. fold idx. destruct (decide (idx = idx)); [|congruence].
        unfold is_key, jsstring_eqb. apply bool_decide_eq_true. reflexivity.
    + intros k (b & Hb & Hpre & Hkey). exists b. split; [exact Hb|]. split.
      * intros j Hj. rewrite Hslot'. destruct (decide _); [discriminate|]. apply Hpre, Hj.
      * rewrite Hslot'. destruct (decide (probe_index v st k (Z.of_nat b) = idx)) as [E|_];
          [|exact Hkey].
        assert (Hnull' : arr_get (table st) idx = Null) by exact Hnull.
        unfold slot in Hkey. rewrite E, Hnull' in Hkey. discriminate.
Qed.

Lemma forEach_directInsert v entries : forall st,
  clean st -> covers v (size st) ->
  (length (live_keys (table st)) + length entries <= length (table st))%nat ->
  exists st',
    forEach entries (directInsert v) st = (Ret tt, st')
    /\ clean st' /\ size st' = size st
    /\ count st' = count st + Z.of_nat (length entries)
    /\ tombstones st' = tombstones st
    /\ length (live_keys (table st'))
       = (length (live_keys (table st)) + length entries)%nat
    /\ (forall k, In k (live_keys (table st'))
                  <-> In k entries \/ In k (live_keys (table st)))
    /\ (forall k, findable v st k \/ In k entries -> findable v st' k).
Proof.
  induction entries as [|e entries IH]; intros st Hclean Hcov Hroom.
  - exists st. simpl. split; [reflexivity|]. split; [exact Hclean|].
    split; [reflexivity|]. split; [lia|]. split; [reflexivity|]. split; [lia|].
    split; intros k; tauto.
  - cbn [forEach length] in *. unfold bind.
    assert (Hnull : In Null (table st)).
    { destruct Hclean as (_ & _ & Hall). apply clean_table_has_null; [exact Hall|lia]. }
    destruct (directInsert_ok v st e Hclean Hcov Hnull) as (a & Ha & Hbusy & Hslot & Hrun).
    rewrite Hrun.
    destruct (filled_spec v st e a Hclean Ha Hbusy Hslot)
      as (Hclean1 & Hsz1 & Hc1 & Ht1 & Hlen1 & Hin1 & Hnew1 & Hold1).
    set (st1 := filled st (probe_index v st e (Z.of_nat a)) e) in *.
    assert (Hlen_t : length (table st1) = length (table st)).
    { destruct Hclean as (_ & Hl & _), Hclean1 as (_ & Hl1 & _). rewrite Hl, Hl1, Hsz1.
      reflexivity. }
    destruct (IH st1 Hclean1) as (st' & Hrun' & Hclean' & Hsz' & Hc' & Ht' & Hlen' & Hin' & Hf').
    { rewrite Hsz1. exact Hcov. }
    { rewrite Hlen1, Hlen_t. lia. }
    exists st'. rewrite Hrun'. split; [reflexivity|]. split; [exact Hclean'|].
    split; [congruence|]. split; [lia|]. split; [congruence|]. split; [lia|]. split.
    + intros k. rewrite Hin', Hin1. simpl. intuition congruence.
    + intros k [H|[<-|H]]; apply Hf'.
      * left. apply Hold1, H.
      * left. exact Hnew1.
      * right. exact H.
Qed.

Lemma init_clean sz :
  0 < sz ->
  clean (init sz) /\ live_keys (table (init sz)) = [].
Proof.
  intros Hsz.
  assert (Hnone : forall n, live_keys (replicate n Null) = []).
  { induction n as [|n IHn]; [reflexivity|]. cbn [replicate]. rewrite live_keys_cons.
    exact IHn. }
  split; [|apply Hnone].
  split; [exact Hsz|]. cbn [init size table]. split; [apply length_replicate|].
  apply Forall_forall. intros e He. apply elem_of_replicate in He. left. tauto.
Qed.

(** On a table without undefined slots rehash collects the keys. *)
Lemma collected_keys (t : list entry) :
  Forall (fun e => e <> Undefined) t -> collected t = map Key (live_keys t).
Proof.
  induction 1 as [|e t He Ht IH]; [reflexivity|].
  rewrite live_keys_cons. unfold collected in *. cbn [List.filter].
  destruct e; cbn [map]; rewrite ?IH; try reflexivity. congruence.
Qed.

Lemma forEach_reinsert_keys v (l : list jsstring) :
  forEach (map Key l) (reinsert v) = forEach l (directInsert v).
Proof.
  induction l as [|k l IH]; [reflexivity|].
  cbn [map forEach reinsert]. rewrite IH. reflexivity.
Qed.

Lemma rehash_without_undefined v newSize message st :
  Forall (fun e => e <> Undefined) (table st) ->
  rehash v newSize message st
  = (modify (fun _ => mkState newSize (replicate (Z.to_nat newSize) Null) 0 0) ;;;
     forEach (live_keys (table st)) (directInsert v) ;;;
     ret [message]) st.
Proof.
  intros Hdef. unfold rehash. unfold bind at 1. unfold get. cbv beta iota zeta.
  rewrite (collected_keys _ Hdef), forEach_reinsert_keys. reflexivity.
Qed.

(** A slot that reads as undefined is neither null nor the tombstone:
    rehash carries it over, stores it again and counts it. *)
Example rehash_carries_undefined_slot :
  rehash Linear 3 LSaturated (mkState 3 [Undefined; Key (str "a"); Null] 1 0)
  = (Ret [LSaturated], mkState 3 [Undefined; Key (str "a"); Null] 2 0).
Proof. vm_compute. reflexivity. Qed.

(** Where the table has no undefined slot, the probe sequence covers the
    new table and the live keys fit, a rehash succeeds, clears the
    tombstones, and leaves every live key findable. *)
Lemma rehash_ok v st newSize message :
  Forall (fun e => e <> Undefined) (table st) ->
  0 < newSize -> covers v newSize ->
  Z.of_nat (length (live_keys (table st))) <= newSize ->
  exists st',
    rehash v newSize message st = (Ret [message], st')
    /\ clean st' /\ size st' = newSize
    /\ tombstones st' = 0
    /\ count st' = Z.of_nat (length (live_keys (table st)))
    /\ length (live_keys (table st')) = length (live_keys (table st))
    /\ (forall k, In k (live_keys (table st')) <-> In k (live_keys (table st)))
    /\ (forall k, In k (live_keys (table st)) -> findable v st' k).
Proof.
  intros Hdef Hsz Hcov Hfit. rewrite (rehash_without_undefined v newSize message st Hdef).
  munfold.
  destruct (init_clean newSize Hsz) as [Hclean0 Hlive0].
  destruct (forEach_directInsert v (live_keys (table st)) (init newSize) Hclean0 Hcov)
    as (st' & Hrun & Hclean' & Hsz' & Hc' & Ht' & Hlen' & Hin' & Hf').
  { rewrite Hlive0. cbn [init table length]. rewrite length_replicate. lia. }
  exists st'. unfold init in Hrun. rewrite Hrun.
  split; [reflexivity|]. split; [exact Hclean'|]. split; [exact Hsz'|].
  split; [exact Ht'|]. split; [rewrite Hc'; cbn [init count]; lia|].
  split; [rewrite Hlen', Hlive0; reflexivity|]. split.
  - intros k. rewrite Hin', Hlive0. simpl. tauto.
  - intros k Hk. apply Hf'. right. exact Hk.
Qed.

(** A findable key is found. *)
Lemma findable_search v st rawKey :
  findable v st (normaliseKey rawKey) ->
  exists r, search v rawKey st = (Ret r, st) /\ res_status r = found.
Proof.
  intros (a & Ha & Hpre & Hkey). set (key := normaliseKey rawKey) in *.
  destruct (first_such (fun j => is_key (slot v st key (Z.of_nat j)) key) (S a))
    as (a0 & Ha0 & Hkey0 & Hmin).
  { exists a. split; [lia|exact Hkey]. }
  eexists. split.
  - apply (search_loop_found v key (createContext v st key) st (Z.to_nat (size st)) a0 0);
      [lia| |exact Hkey0].
    intros j Hj. split; [apply Hpre; lia|apply Hmin, Hj].
  - reflexivity.
Qed.

(** Linear probing covers a table of any size. *)
Lemma covers_linear n : 0 < n -> covers Linear n.
Proof.
  intros Hn st key j Hsz Hj.
  set (b := primaryIndex n key).
  exists (Z.to_nat ((j - b) mod n)).
  pose proof (Z.mod_pos_bound (j - b) n Hn) as Hm.
  split; [lia|].
  unfold probe_index, probeInfo, createContext. cbn [base]. rewrite Hsz. fold b.
  rewrite Z2Nat.id by lia.
  rewrite Z.add_mod_idemp_r by lia.
  replace (b + (j - b)) with j by lia. apply Z.mod_small. exact Hj.
Qed.

End OpenRehash.

(** * Open addressing: the saturated table *)

Section OpenSaturated.
Import Open OpenSpec.

Ltac munfold := unfold bind, get, modify, ret, throw in *.

Lemma saturated_b_spec st key : saturated_b st key = true -> saturated st key.
Proof.
  unfold saturated_b, saturated, MAX_TABLE_SIZE. intros H.
  apply andb_prop in H. destruct H as [H Hall].
  apply andb_prop in H. destruct H as [H Hc].
  apply andb_prop in H. destruct H as [Hs Hl].
  apply Z.eqb_eq in Hs, Hl, Hc.
  split; [exact Hs|]. split; [lia|]. split; [exact Hc|].
  apply Forall_forall. intros e He. rewrite forallb_forall in Hall.
  apply list_elem_of_In in He. specialize (Hall e He).
  destruct e as [| |k|]; try discriminate. exists k. split; [reflexivity|].
  intros ->. unfold jsstring_eqb in Hall. rewrite bool_decide_true in Hall by reflexivity.
  discriminate.
Qed.

Lemma In_live_keys t k : In k (live_keys t) <-> In (Key k) t.
Proof.
  induction t as [|e t IH]; [simpl; tauto|].
  rewrite live_keys_cons. destruct e; simpl; rewrite ?IH; intuition congruence.
Qed.

Lemma all_keys_live (t : list entry) :
  Forall (fun e => exists k, e = Key k) t -> length (live_keys t) = length t.
Proof.
  induction 1 as [|e t [k ->] Ht IH]; [reflexivity|].
  rewrite live_keys_cons. simpl. rewrite IH. reflexivity.
Qed.

(** On a saturated table one activation of insert visits every slot,
    finds neither the key, nor an empty slot, nor a tombstone, and
    reaches the saturated branch with the table as it was. *)
Lemma insert_attempt_saturated st key :
  saturated st key ->
  exists lg, insert_attempt Linear key st = (Ret (inr lg), st).
Proof.
  intros (Hsz & Hlen & Hc & Hall). unfold MAX_TABLE_SIZE in *.
  assert (Hpre : ensureCapacityBeforeInsert Linear st = (Ret [], st)).
  { unfold ensureCapacityBeforeInsert, load_gt, ratio_gt. munfold.
    rewrite Hsz, Hc.
    assert (Hnp : nextPrime (ceil_mul_1_6 199) = 199) by (vm_compute; reflexivity).
    rewrite Hnp. reflexivity. }
  rewrite (insert_attempt_after_capacity_check Linear key st [] st Hpre). cbv zeta.
  rewrite (insert_loop_exhausted Linear key (createContext Linear st key) st
             (Z.to_nat (size st)) 0 (-1)).
  - eexists. reflexivity.
  - intros j Hj.
    assert (Hpos : 0 < size st) by lia.
    pose proof (probeInfo_range Linear (createContext Linear st key) st (0 + Z.of_nat j)
                  Hpos) as Hr.
    assert (Hin : 0 <= probeInfo Linear st (createContext Linear st key) (0 + Z.of_nat j)
                  < Z.of_nat (length (table st))) by (rewrite Hlen; lia).
    pose proof (arr_get_in_range (table st) _ Hin) as Hl.
    rewrite Forall_forall in Hall.
    destruct (Hall _ (proj2 (list_elem_of_lookup _ _) (ex_intro _ _ Hl))) as (k & Hk & Hne).
    rewrite Hk. split; [split|]; try discriminate.
    unfold is_key, jsstring_eqb. apply bool_decide_eq_false. exact Hne.
Qed.

(** The rehash of the saturated branch rebuilds a saturated table. *)
Lemma rehash_saturated st key message :
  saturated st key ->
  exists st',
    rehash Linear (nextPrime (ceil_mul_1_6 (size st))) message st = (Ret [message], st')
    /\ saturated st' key.
Proof.
  intros (Hsz & Hlen & Hc & Hall). unfold MAX_TABLE_SIZE in *.
  rewrite Hsz.
  assert (Hnp : nextPrime (ceil_mul_1_6 199) = 199) by (vm_compute; reflexivity).
  rewrite Hnp.
  assert (Hlive : length (live_keys (table st)) = length (table st)).
  { apply all_keys_live. eapply Forall_impl; [exact Hall|].
    intros e (k & -> & _). eauto. }
  assert (Hdef : Forall (fun e => e <> Undefined) (table st)).
  { eapply Forall_impl; [exact Hall|]. intros e (k & -> & _). discriminate. }
  destruct (rehash_ok Linear st 199 message Hdef ltac:(lia) (covers_linear 199 ltac:(lia)))
    as (st' & Hrun & Hclean & Hsz' & _ & Hc' & Hlen' & Hin' & _).
  { rewrite Hlive, Hlen. lia. }
  exists st'. split; [exact Hrun|].
  destruct Hclean as (_ & Hl' & Hall').
  unfold saturated, MAX_TABLE_SIZE.
  split; [exact Hsz'|]. split; [rewrite Hl', Hsz'; reflexivity|].
  split; [rewrite Hc', Hlive, Hlen; reflexivity|].
  eapply Forall_impl.
  - apply clean_table_all_keys; [exact Hall'|].
    rewrite Hlen', Hlive, Hlen, Hl', Hsz'. reflexivity.
  - intros e (k & -> & Hk). exists k. split; [reflexivity|].
    apply Hin', In_live_keys in Hk.
    rewrite Forall_forall in Hall.
    destruct (Hall _ (proj2 (list_elem_of_In _ _) Hk)) as (k' & Hk' & Hne).
    inversion Hk'; subst k'. exact Hne.
Qed.

(** However deep the recursion is allowed to go, insert into a saturated
    table of the maximum size has not returned. *)
Lemma insert_saturated_pending key :
  normaliseKey key = key ->
  forall fuel rawKey st,
    normaliseKey rawKey = key -> saturated st key ->
    insert Linear fuel rawKey st = None.
Proof.
  intros Hnorm. induction fuel as [|fuel IH]; intros rawKey st Hraw Hsat; [reflexivity|].
  cbn [insert]. rewrite Hraw.
  destruct (insert_attempt_saturated st key Hsat) as (lg & Hattempt). rewrite Hattempt.
  destruct (rehash_saturated st key LSaturated Hsat) as (st' & Hrun & Hsat').
  rewrite Hrun. rewrite (IH key st' Hnorm Hsat'). reflexivity.
Qed.

End OpenSaturated.

(** C3 fails on the code: a linear-probing table of 199 slots filled
    with 199 keys is reachable; inserting a 200th key takes the
    saturated branch, whose rehash cannot grow the table, and the retry
    finds the table saturated again, at every depth. *)
Theorem C3_saturated_insert_never_returns :
  OpenController.run Open.Linear 2 Scenario.linear199_acts
    (Open.init (normaliseSizeForOpen 199)) = Some Scenario.linear199
  /\ Open.size Scenario.linear199 = 199
  /\ Open.count Scenario.linear199 = 199
  /\ forall fuel, Open.insert Open.Linear fuel (str "199") Scenario.linear199 = None.
Proof.
  split; [vm_compute; reflexivity|]. split; [reflexivity|]. split; [reflexivity|].
  intros fuel.
  apply (insert_saturated_pending (str "199")).
  - vm_compute. reflexivity.
  - vm_compute. reflexivity.
  - apply saturated_b_spec. vm_compute. reflexivity.
Qed.

(** * Open addressing: quadratic probing and the rehash *)

(** C2 fails on the code: the table below is reachable, holds 7 live
    keys in 11 slots, and its same-size rehash throws, because the
    quadratic probe of "35" visits only slots 0, 1, 3, 4, 5 and 9, which
    the six keys reinserted before it have taken. *)
Theorem C2_quadratic_rehash_throws :
  OpenController.run Open.Quadratic 2 Scenario.quadratic11_acts
    (Open.init (normaliseSizeForOpen 11)) = Some Scenario.quadratic11
  /\ (let st := OpenSpec.placed_at Scenario.quadratic11 7 (str "4") false in
      Z.of_nat (length (Open.live_keys (Open.table st))) = 7
      /\ Open.size st = 11
      /\ OpenSpec.probe_path Open.Quadratic st (str "35") 11
         = [0; 1; 4; 9; 5; 3; 3; 5; 9; 4; 1]
      /\ fst (Open.rehash Open.Quadratic (Open.size st) LHighTombstoneRatio st)
         = Throw RehashFailed)
  /\ exists st',
       Open.insert Open.Quadratic 2 (str "4") Scenario.quadratic11
       = Some (Throw RehashFailed, st').
Proof.
  split; [vm_compute; reflexivity|]. split.
  - cbv zeta. repeat split; vm_compute; reflexivity.
  - eexists. vm_compute. reflexivity.
Qed.

(** C1 fails on the code: "35" is live and found before the insert of
    "4"; that insert triggers a same-size compaction rehash, which
    throws part-way, and afterwards "35" is neither in the table nor
    found. *)
Theorem C1_quadratic_rehash_loses_key :
  OpenController.run Open.Quadratic 2 Scenario.quadratic11_acts
    (Open.init (normaliseSizeForOpen 11)) = Some Scenario.quadratic11
  /\ In (Open.Key (str "35")) (Open.table Scenario.quadratic11)
  /\ (exists r, Open.search Open.Quadratic (str "35") Scenario.quadratic11
                = (Ret r, Scenario.quadratic11) /\ res_status r = found)
  /\ exists st',
       Open.insert Open.Quadratic 2 (str "4") Scenario.quadratic11
       = Some (Throw RehashFailed, st')
       /\ ~ In (Open.Key (str "35")) (Open.table st')
       /\ Open.tombstones st' = 0
       /\ exists r, Open.search Open.Quadratic (str "35") st' = (Ret r, st')
                    /\ res_status r = missing.
Proof.
  split; [vm_compute; reflexivity|].
  split; [vm_compute; tauto|].
  split; [eexists; split; [vm_compute; reflexivity|reflexivity]|].
  eexists. split; [vm_compute; reflexivity|].
  split; [vm_compute; intuition discriminate|].
  split; [reflexivity|].
  eexists. split; [vm_compute; reflexivity|reflexivity].
Qed.

(** * Open addressing: where the rehash is safe *)

Section OpenCoverage.
Import Open OpenSpec.

Lemma coprime_step_covers n s b j :
  0 < n -> Z.gcd s n = 1 -> 0 <= j < n ->
  exists a : nat, Z.of_nat a < n /\ (b + Z.of_nat a * s) mod n = j.
Proof.
  intros Hn Hgcd Hj.
  destruct (Z.gcd_bezout s n 1 Hgcd) as (u & w & Huw).
  set (x := (j - b) * u).
  pose proof (Z.mod_pos_bound x n Hn) as Hm.
  pose proof (Z.div_mod x n ltac:(lia)) as Hdm.
  exists (Z.to_nat (x mod n)). split; [lia|].
  rewrite Z2Nat.id by lia.
  replace (b + x mod n * s) with (j + (- ((j - b) * w) - (x / n) * s) * n).
  - rewrite Z_mod_plus_full. apply Z.mod_small. exact Hj.
  - rewrite (Z.mod_eq x n) by lia.
    set (q := x / n). unfold x.
    assert (Hus : (j - b) * u * s = (j - b) - (j - b) * w * n).
    { replace ((j - b) * u * s) with ((j - b) * (u * s)) by ring.
      replace (u * s) with (1 - w * n) by lia. ring. }
    replace (b + ((j - b) * u - n * q) * s) with (b + (j - b) * u * s - n * q * s) by ring.
    rewrite Hus. ring.
Qed.

Lemma all_coprime_spec n s :
  all_coprime n = true -> 1 <= s < n -> Z.gcd s n = 1.
Proof.
  unfold all_coprime. rewrite forallb_forall. intros H Hs.
  specialize (H (Z.to_nat s)). rewrite Z2Nat.id in H by lia.
  apply Z.eqb_eq, H. apply in_seq. lia.
Qed.

Lemma table_prime_coprime n : table_prime n -> all_coprime n = true.
Proof.
  intros [Hr Hp]. unfold MIN_TABLE_SIZE, MAX_TABLE_SIZE in Hr.
  assert (Hall : forallb (fun m => implb (isPrime (Z.of_nat m)) (all_coprime (Z.of_nat m)))
                   (seq 3 197) = true) by (vm_compute; reflexivity).
  rewrite forallb_forall in Hall.
  specialize (Hall (Z.to_nat n)). rewrite Z2Nat.id in Hall by lia.
  rewrite Hp in Hall. apply Hall. apply in_seq. lia.
Qed.

(** Double hashing covers a table of prime size. *)
Lemma covers_double_hashing n : table_prime n -> covers DoubleHashing n.
Proof.
  intros Hp st key j Hsz Hj.
  pose proof (table_prime_coprime n Hp) as Hco.
  destruct Hp as [Hr _]. unfold MIN_TABLE_SIZE in Hr.
  assert (Hstep : 1 <= secondaryStep n key <= n - 1).
  { unfold secondaryStep.
    destruct (Z.leb_spec n 1) as [Hle|_]; [lia|].
    destruct (Z.eqb_spec (n - 1) 0) as [H0|_]; [lia|].
    pose proof (Z.mod_pos_bound (hashCode key) (n - 1) ltac:(lia)) as Hm.
    destruct (Z.eqb_spec (1 + hashCode key mod (n - 1)) 0); lia. }
  assert (Hn : 0 < n) by lia.
  assert (Hs : 1 <= secondaryStep n key < n) by lia.
  destruct (coprime_step_covers n (secondaryStep n key) (primaryIndex n key) j
              Hn (all_coprime_spec n (secondaryStep n key) Hco Hs) Hj) as (a & Ha & Heq).
  exists a. split; [exact Ha|].
  unfold probe_index, probeInfo, createContext. cbn [base step]. rewrite Hsz. exact Heq.
Qed.

(** With linear probing at any size, and with double hashing at a prime
    size, a rehash of a table without undefined slots whose target holds
    the live keys cannot throw; every key that was live is found
    afterwards and no tombstone remains. *)
Lemma rehash_keeps_keys_findable v st newSize message :
  Forall (fun e => e <> Undefined) (table st) ->
  (v = Linear /\ 0 < newSize) \/ (v = DoubleHashing /\ table_prime newSize) ->
  Z.of_nat (length (live_keys (table st))) <= newSize ->
  exists st',
    rehash v newSize message st = (Ret [message], st')
    /\ size st' = newSize
    /\ tombstones st' = 0
    /\ count st' = Z.of_nat (length (live_keys (table st)))
    /\ forall rawKey,
         In (normaliseKey rawKey) (live_keys (table st)) ->
         exists r, search v rawKey st' = (Ret r, st') /\ res_status r = found.
Proof.
  intros Hdef Hv Hfit.
  assert (Hpos : 0 < newSize /\ covers v newSize).
  { destruct Hv as [[-> Hn]|[-> Hp]].
    - split; [exact Hn|apply covers_linear, Hn].
    - split; [|apply covers_double_hashing, Hp].
      destruct Hp as [Hr _]. unfold MIN_TABLE_SIZE in Hr. lia. }
  destruct Hpos as [Hn Hcov].
  destruct (rehash_ok v st newSize message Hdef Hn Hcov Hfit)
    as (st' & Hrun & _ & Hsz & Ht & Hc & _ & _ & Hfind).
  exists st'. split; [exact Hrun|]. split; [exact Hsz|]. split; [exact Ht|].
  split; [exact Hc|].
  intros rawKey Hk. apply findable_search, Hfind, Hk.
Qed.

End OpenCoverage.

(** * Open addressing: the invariant of reachable tables *)

Section InvArrays.
Import Open OpenSpec OpenInv.

Lemma table_split (t : list entry) i :
  0 <= i < Z.of_nat (length t) ->
  t = take (Z.to_nat i) t ++ arr_get t i :: drop (S (Z.to_nat i)) t
  /\ forall e, arr_set t i e = take (Z.to_nat i) t ++ e :: drop (S (Z.to_nat i)) t.
Proof.
  intros Hi. pose proof (arr_get_in_range t i Hi) as Hl. split.
  - symmetry. apply take_drop_middle. exact Hl.
  - intros e. rewrite arr_set_in_range by exact Hi. apply insert_take_drop. lia.
Qed.

Lemma count_tombstones_app t1 t2 :
  count_tombstones (t1 ++ t2) = (count_tombstones t1 + count_tombstones t2)%nat.
Proof. unfold count_tombstones. rewrite List.filter_app, length_app. reflexivity. Qed.

Lemma count_tombstones_cons e t :
  count_tombstones (e :: t)
  = ((if is_tombstone e then 1 else 0) + count_tombstones t)%nat.
Proof. unfold count_tombstones. simpl. destruct (is_tombstone e); reflexivity. Qed.

Lemma live_keys_replicate_null n : live_keys (replicate n Null) = [].
Proof.
  induction n as [|n IH]; [reflexivity|]. cbn [replicate]. rewrite live_keys_cons. exact IH.
Qed.

Lemma count_tombstones_replicate_null n : count_tombstones (replicate n Null) = O.
Proof.
  induction n as [|n IH]; [reflexivity|]. cbn [replicate].
  rewrite count_tombstones_cons. exact IH.
Qed.

(** The effect of one array write on the live keys and on the number of
    tombstones. *)
Lemma write_effect (t : list entry) i e :
  0 <= i < Z.of_nat (length t) ->
  exists l1 l2 n1 n2,
    live_keys t
    = l1 ++ match arr_get t i with Key k => [k] | _ => [] end ++ l2
    /\ live_keys (arr_set t i e)
       = l1 ++ match e with Key k => [k] | _ => [] end ++ l2
    /\ count_tombstones t
       = (n1 + (if is_tombstone (arr_get t i) then 1 else 0) + n2)%nat
    /\ count_tombstones (arr_set t i e)
       = (n1 + (if is_tombstone e then 1 else 0) + n2)%nat.
Proof.
  intros Hi. destruct (table_split t i Hi) as [Hold Hnew].
  exists (live_keys (take (Z.to_nat i) t)), (live_keys (drop (S (Z.to_nat i)) t)),
         (count_tombstones (take (Z.to_nat i) t)),
         (count_tombstones (drop (S (Z.to_nat i)) t)).
  split; [|split; [|split]].
  - rewrite Hold at 1. rewrite live_keys_app, live_keys_cons.
    destruct (arr_get t i); reflexivity.
  - rewrite Hnew. rewrite live_keys_app, live_keys_cons. destruct e; reflexivity.
  - rewrite Hold at 1. rewrite count_tombstones_app, count_tombstones_cons. lia.
  - rewrite Hnew. rewrite count_tombstones_app, count_tombstones_cons. lia.
Qed.

Lemma write_length (t : list entry) i e :
  0 <= i < Z.of_nat (length t) -> length (arr_set t i e) = length t.
Proof. intros Hi. rewrite arr_set_in_range by exact Hi. apply length_insert. Qed.

Lemma write_defined (t : list entry) i e :
  0 <= i < Z.of_nat (length t) -> e <> Undefined ->
  Forall (fun e => e <> Undefined) t ->
  Forall (fun e => e <> Undefined) (arr_set t i e).
Proof.
  intros Hi He Ht. rewrite arr_set_in_range by exact Hi. apply Forall_insert; assumption.
Qed.

End InvArrays.

Section InvSteps.
Import Open OpenSpec OpenInv.

Ltac munfold := unfold bind, get, modify, ret, throw in *.

Lemma inv_size_pos v st : inv v st -> 3 <= size st <= 199.
Proof. intros H. destruct (inv_prime v st H) as [Hr _]. exact Hr. Qed.

Lemma inv_index_in_range v st i :
  inv v st -> 0 <= i < size st -> 0 <= i < Z.of_nat (length (table st)).
Proof. intros H Hi. rewrite (inv_length v st H). lia. Qed.

(** Reading a probe slot after one array write. *)
Lemma slot_after_write v st st' idx e :
  0 < size st -> length (table st) = Z.to_nat (size st) ->
  size st' = size st -> table st' = arr_set (table st) idx e ->
  0 <= idx < size st ->
  forall k j,
    slot v st' k j = if decide (probe_index v st k j = idx) then e else slot v st k j.
Proof.
  intros Hsz Hlen Hsz' Ht' Hidx k j. unfold slot.
  rewrite (probe_index_size v st st' k j Hsz'), Ht'.
  pose proof (probe_index_range v st k j Hsz) as Hr.
  destruct (decide (probe_index v st k j = idx)) as [->|Hne].
  - apply arr_get_set_eq. lia.
  - apply arr_get_set_ne; [lia | lia | congruence].
Qed.

Lemma is_key_live t i k :
  is_key (arr_get t i) k = true -> In k (live_keys t).
Proof.
  unfold is_key. destruct (arr_get t i) as [| |k'|] eqn:E; try discriminate.
  intros H. unfold jsstring_eqb in H. apply bool_decide_eq_true in H. subst k'.
  apply In_live_keys.
  unfold arr_get, arr_lookup in E. destruct (i <? 0); [discriminate|].
  destruct (t !! Z.to_nat i) as [e|] eqn:El; [|discriminate]. simpl in E. subst e.
  apply list_elem_of_In, list_elem_of_lookup. eauto.
Qed.

Lemma is_key_eq e k : is_key e k = true <-> e = Key k.
Proof.
  unfold is_key, jsstring_eqb. destruct e; try (split; [discriminate|congruence]).
  rewrite bool_decide_eq_true. split; congruence.
Qed.

(** Storing a new key in a free slot of its own probe, past no empty
    slot, keeps the invariant. *)
Lemma placed_inv v st key (a : nat) :
  inv v st ->
  ~ In key (live_keys (table st)) ->
  Z.of_nat a < size st ->
  (forall j : nat, (j < a)%nat -> slot v st key (Z.of_nat j) <> Null) ->
  is_free (slot v st key (Z.of_nat a)) = true ->
  let target := probe_index v st key (Z.of_nat a) in
  let st' := placed_at st target key (is_tombstone (arr_get (table st) target)) in
  inv v st'
  /\ size st' = size st
  /\ (forall k, In k (live_keys (table st')) <-> k = key \/ In k (live_keys (table st))).
Proof.
  intros Hinv Hfresh Ha Hpre Hfree target st'.
  pose proof (inv_size_pos v st Hinv) as Hsz.
  pose proof (probe_index_range v st key (Z.of_nat a) ltac:(lia)) as Htarget.
  fold target in Htarget.
  pose proof (inv_index_in_range v st target Hinv Htarget) as Hin.
  assert (Hslot : forall k j,
            slot v st' k j
            = if decide (probe_index v st k j = target) then Key key else slot v st k j).
  { apply slot_after_write; [lia|apply (inv_length v st Hinv)|reflexivity|reflexivity|lia]. }
  assert (Hold : arr_get (table st) target = slot v st key (Z.of_nat a)) by reflexivity.
  destruct (write_effect (table st) target (Key key) Hin) as (l1 & l2 & n1 & n2 & Hl & Hl' & Hn & Hn').
  assert (Hnokey : match arr_get (table st) target with Key k => [k] | _ => [] end = []).
  { rewrite Hold. destruct (slot v st key (Z.of_nat a)); try reflexivity; discriminate. }
  rewrite Hnokey in Hl. cbn [app] in Hl, Hl'.
  assert (Hkeys : forall k, In k (live_keys (table st')) <-> k = key \/ In k (live_keys (table st))).
  { intros k. unfold st', placed_at. cbn [table]. rewrite Hl', Hl, !in_app_iff. simpl.
    intuition congruence. }
  split; [|split; [reflexivity|exact Hkeys]].
  constructor.
  - exact (inv_prime v st Hinv).
  - unfold st', placed_at. cbn [table size]. rewrite write_length by exact Hin.
    apply (inv_length v st Hinv).
  - unfold st', placed_at. cbn [table]. apply write_defined; [exact Hin|discriminate|].
    apply (inv_defined v st Hinv).
  - unfold st', placed_at. cbn [table count]. rewrite Hl', (inv_count v st Hinv), Hl.
    rewrite !length_app. simpl. lia.
  - unfold st', placed_at. cbn [table tombstones]. rewrite Hn', (inv_tombstones v st Hinv), Hn.
    cbn [is_tombstone]. destruct (is_tombstone (arr_get (table st) target)); lia.
  - unfold st', placed_at. cbn [table]. rewrite Hl'.
    pose proof (inv_nodup v st Hinv) as Hnd. rewrite Hl in Hnd.
    rewrite Hl in Hfresh.
    apply (NoDup_Permutation_proper _ _ (Permutation_middle l1 l2 key)).
    apply NoDup_cons. split; [|exact Hnd].
    intros H. apply Hfresh. apply list_elem_of_In. exact H.
  - intros k Hk. apply Hkeys in Hk. destruct Hk as [->|Hk].
    + exists a. split; [exact Ha|]. split.
      * intros j Hj. rewrite Hslot. destruct (decide _); [discriminate|]. apply Hpre, Hj.
      * rewrite Hslot. fold target. destruct (decide (target = target)); [|congruence].
        apply is_key_eq. reflexivity.
    + destruct (inv_findable v st Hinv k Hk) as (b & Hb & Hbpre & Hbkey).
      exists b. split; [exact Hb|]. split.
      * intros j Hj. rewrite Hslot. destruct (decide _); [discriminate|]. apply Hbpre, Hj.
      * rewrite Hslot. destruct (decide (probe_index v st k (Z.of_nat b) = target)) as [E|_];
          [|exact Hbkey].
        exfalso. apply is_key_eq in Hbkey. unfold slot in Hbkey. rewrite E, Hold in Hbkey.
        rewrite Hbkey in Hfree. discriminate.
Qed.

(** Turning the slot that holds [key] into a tombstone keeps the
    invariant and removes exactly [key] from the live keys. *)
Lemma tombstoned_inv v st key (a : nat) :
  inv v st ->
  Z.of_nat a < size st ->
  is_key (slot v st key (Z.of_nat a)) key = true ->
  let st' := tombstoned st (probe_index v st key (Z.of_nat a)) in
  inv v st'
  /\ size st' = size st
  /\ (forall k, In k (live_keys (table st')) <-> k <> key /\ In k (live_keys (table st))).
Proof.
  intros Hinv Ha Hkey st'.
  set (idx := probe_index v st key (Z.of_nat a)) in *.
  pose proof (inv_size_pos v st Hinv) as Hsz.
  pose proof (probe_index_range v st key (Z.of_nat a) ltac:(lia)) as Hidx. fold idx in Hidx.
  pose proof (inv_index_in_range v st idx Hinv Hidx) as Hin.
  assert (Hslot : forall k j,
            slot v st' k j
            = if decide (probe_index v st k j = idx) then TOMBSTONE else slot v st k j).
  { apply slot_after_write; [lia|apply (inv_length v st Hinv)|reflexivity|reflexivity|lia]. }
  assert (Hold : arr_get (table st) idx = Key key) by (apply is_key_eq; exact Hkey).
  destruct (write_effect (table st) idx TOMBSTONE Hin) as (l1 & l2 & n1 & n2 & Hl & Hl' & Hn & Hn').
  rewrite Hold in Hl, Hn. cbn [app is_tombstone] in Hl, Hl', Hn, Hn'.
  pose proof (inv_nodup v st Hinv) as Hnd. rewrite Hl in Hnd.
  apply (NoDup_Permutation_proper _ _ (Permutation_middle l1 l2 key)) in Hnd.
  apply NoDup_cons in Hnd. destruct Hnd as [Hnotin Hnd].
  rewrite list_elem_of_In in Hnotin.
  assert (Hkeys : forall k, In k (live_keys (table st')) <-> k <> key /\ In k (live_keys (table st))).
  { intros k. unfold st', tombstoned. cbn [table]. rewrite Hl', Hl, !in_app_iff. simpl.
    rewrite in_app_iff in Hnotin. split.
    - intros H. split; [intros ->; tauto|tauto].
    - intros [Hne [H|[H|H]]]; [tauto|congruence|tauto]. }
  split; [|split; [reflexivity|exact Hkeys]].
  constructor.
  - exact (inv_prime v st Hinv).
  - unfold st', tombstoned. cbn [table size]. rewrite write_length by exact Hin.
    apply (inv_length v st Hinv).
  - unfold st', tombstoned. cbn [table]. apply write_defined; [exact Hin|discriminate|].
    apply (inv_defined v st Hinv).
  - unfold st', tombstoned. cbn [table count]. rewrite Hl', (inv_count v st Hinv), Hl.
    rewrite !length_app. simpl. lia.
  - unfold st', tombstoned. cbn [table tombstones].
    rewrite Hn', (inv_tombstones v st Hinv), Hn. lia.
  - unfold st', tombstoned. cbn [table]. rewrite Hl'. exact Hnd.
  - intros k Hk. apply Hkeys in Hk. destruct Hk as [Hne Hk].
    destruct (inv_findable v st Hinv k Hk) as (b & Hb & Hbpre & Hbkey).
    exists b. split; [exact Hb|]. split.
    + intros j Hj. rewrite Hslot. destruct (decide _); [discriminate|]. apply Hbpre, Hj.
    + rewrite Hslot. destruct (decide (probe_index v st k (Z.of_nat b) = idx)) as [E|_];
        [|exact Hbkey].
      exfalso. apply is_key_eq in Hbkey. unfold slot in Hbkey. rewrite E, Hold in Hbkey.
      congruence.
Qed.

End InvSteps.

Section InvRehash.
Import Open OpenSpec OpenInv.

Ltac munfold := unfold bind, get, modify, ret, throw in *.

(** directInsert stores the key in the first free slot of the probe,
    empty or tombstone. *)
Lemma directInsert_loop_take v key ctx st fuel : forall (a : nat) attempt,
  (a < fuel)%nat ->
  (forall j : nat, (j < a)%nat ->
     is_free (arr_get (table st) (probeInfo v st ctx (attempt + Z.of_nat j))) = false) ->
  is_free (arr_get (table st) (probeInfo v st ctx (attempt + Z.of_nat a))) = true ->
  directInsert_loop v key ctx fuel attempt st
  = (Ret tt,
     let index := probeInfo v st ctx (attempt + Z.of_nat a) in
     placed_at st index key (is_tombstone (arr_get (table st) index))).
Proof.
  induction fuel as [|fuel IH]; intros a attempt Ha Hbusy Hfree; [lia|].
  cbn [directInsert_loop]. munfold.
  destruct a as [|a].
  - rewrite Z.add_0_r in Hfree |- *. cbv zeta.
    destruct (arr_get (table st) (probeInfo v st ctx attempt)); try discriminate; reflexivity.
  - pose proof (Hbusy O ltac:(lia)) as H0. rewrite Z.add_0_r in H0.
    assert (Hgo : directInsert_loop v key ctx fuel (attempt + 1) st
                  = (Ret tt,
                     let index := probeInfo v st ctx (attempt + Z.of_nat (S a)) in
                     placed_at st index key (is_tombstone (arr_get (table st) index)))).
    { rewrite (IH a (attempt + 1)); [| lia | |].
      - replace (attempt + 1 + Z.of_nat a) with (attempt + Z.of_nat (S a)) by lia. reflexivity.
      - intros j Hj. replace (attempt + 1 + Z.of_nat j) with (attempt + Z.of_nat (S j)) by lia.
        apply Hbusy. lia.
      - replace (attempt + 1 + Z.of_nat a) with (attempt + Z.of_nat (S a)) by lia.
        exact Hfree. }
    destruct (arr_get (table st) (probeInfo v st ctx attempt)); try exact Hgo; discriminate.
Qed.

(** directInsert either takes the first free slot of the probe or, when
    the probe meets none, throws and leaves the table as it was. *)
Lemma directInsert_outcome v st key :
  (exists a : nat,
     Z.of_nat a < size st
     /\ (forall j : nat, (j < a)%nat -> is_free (slot v st key (Z.of_nat j)) = false)
     /\ is_free (slot v st key (Z.of_nat a)) = true
     /\ directInsert v key st
        = (Ret tt,
           placed_at st (probe_index v st key (Z.of_nat a)) key
             (is_tombstone (arr_get (table st) (probe_index v st key (Z.of_nat a))))))
  \/ ((forall j : nat, Z.of_nat j < size st -> is_free (slot v st key (Z.of_nat j)) = false)
      /\ directInsert v key st = (Throw RehashFailed, st)).
Proof.
  destruct (bounded_search (fun j => is_free (slot v st key (Z.of_nat j)))
              (Z.to_nat (size st))) as [Hsome|Hnone].
  - left. destruct (first_such _ _ Hsome) as (a & Ha & Hfree & Hbusy).
    exists a. split; [lia|]. split; [exact Hbusy|]. split; [exact Hfree|].
    unfold directInsert. munfold.
    apply (directInsert_loop_take v key (createContext v st key) st
             (Z.to_nat (size st)) a 0 Ha); [|exact Hfree].
    intros j Hj. apply Hbusy, Hj.
  - right. split; [intros j Hj; apply Hnone; lia|].
    unfold directInsert. munfold.
    apply (directInsert_loop_throw v key (createContext v st key) st (Z.to_nat (size st)) 0).
    intros j Hj. apply Hnone, Hj.
Qed.

Lemma not_free_not_null e : is_free e = false -> e <> Null.
Proof. intros H ->. discriminate. Qed.

Lemma directInsert_inv v st key o st' :
  inv v st -> ~ In key (live_keys (table st)) ->
  directInsert v key st = (o, st') ->
  inv v st' /\ size st' = size st
  /\ (returned o = true ->
      forall k, In k (live_keys (table st')) <-> k = key \/ In k (live_keys (table st)))
  /\ (returned o = false -> st' = st).
Proof.
  intros Hinv Hfresh Hrun.
  destruct (directInsert_outcome v st key) as [(a & Ha & Hbusy & Hfree & Heq)|[_ Heq]];
    rewrite Heq in Hrun; inversion Hrun; subst o st'.
  - destruct (placed_inv v st key a Hinv Hfresh Ha) as (Hinv' & Hsz & Hkeys);
      [intros j Hj; apply not_free_not_null, Hbusy, Hj|exact Hfree|].
    split; [exact Hinv'|]. split; [exact Hsz|]. split; [intros _; exact Hkeys|discriminate].
  - split; [exact Hinv|]. split; [reflexivity|]. split; [discriminate|reflexivity].
Qed.

Lemma forEach_directInsert_inv v entries : forall st o st',
  inv v st -> NoDup entries ->
  (forall k, In k entries -> ~ In k (live_keys (table st))) ->
  forEach entries (directInsert v) st = (o, st') ->
  inv v st' /\ size st' = size st
  /\ (forall k, In k (live_keys (table st)) -> In k (live_keys (table st')))
  /\ (forall k, In k (live_keys (table st')) -> In k entries \/ In k (live_keys (table st)))
  /\ (returned o = true ->
      forall k, In k entries -> In k (live_keys (table st'))).
Proof.
  induction entries as [|e entries IH]; intros st o st' Hinv Hnd Hdisj Hrun.
  - cbn [forEach] in Hrun. munfold. inversion Hrun; subst o st'.
    split; [exact Hinv|]. split; [reflexivity|]. split; [tauto|]. split; [tauto|].
    intros _ k [].
  - cbn [forEach] in Hrun. unfold bind in Hrun.
    apply NoDup_cons in Hnd. destruct Hnd as [He Hnd]. rewrite list_elem_of_In in He.
    destruct (directInsert v e st) as [o1 st1] eqn:E1.
    destruct (directInsert_inv v st e o1 st1 Hinv (Hdisj e (or_introl eq_refl)) E1)
      as (Hinv1 & Hsz1 & Hret1 & Hthrow1).
    destruct o1 as [[]|err].
    + specialize (Hret1 eq_refl).
      destruct (IH st1 o st' Hinv1 Hnd) as (Hinv' & Hsz' & Hmono & Hsub & Hall).
      { intros k Hk Hlive. apply Hret1 in Hlive. destruct Hlive as [->|Hlive]; [tauto|].
        apply (Hdisj k); [right; exact Hk|exact Hlive]. }
      { exact Hrun. }
      split; [exact Hinv'|]. split; [congruence|]. split; [|split].
      * intros k Hk. apply Hmono, Hret1. right. exact Hk.
      * intros k Hk. apply Hsub in Hk. destruct Hk as [Hk|Hk]; [left; right; exact Hk|].
        apply Hret1 in Hk. destruct Hk as [->|Hk]; [left; left; reflexivity|right; exact Hk].
      * intros Ho k [<-|Hk]; [apply Hmono, Hret1; left; reflexivity|apply Hall; assumption].
    + inversion Hrun; subst o st'. rewrite (Hthrow1 eq_refl) in *.
      split; [exact Hinv|]. split; [reflexivity|]. split; [tauto|]. split; [tauto|].
      discriminate.
Qed.

Lemma init_inv v n :
  table_prime n -> inv v (init n) /\ live_keys (table (init n)) = [].
Proof.
  intros Hp. split; [|apply live_keys_replicate_null].
  constructor; cbn [init size table count tombstones].
  - exact Hp.
  - apply length_replicate.
  - apply Forall_forall. intros e He. apply elem_of_replicate in He. destruct He as [-> _].
    discriminate.
  - rewrite live_keys_replicate_null. reflexivity.
  - rewrite count_tombstones_replicate_null. reflexivity.
  - rewrite live_keys_replicate_null. apply NoDup_nil_2.
  - rewrite live_keys_replicate_null. intros k [].
Qed.

(** Whatever the variant, a rehash to a prime size leaves a table that
    satisfies the invariant and holds only keys that were live; when it
    returns, it holds all of them. *)
Lemma rehash_inv v st newSize message :
  Forall (fun e => e <> Undefined) (table st) ->
  NoDup (live_keys (table st)) -> table_prime newSize ->
  exists o st',
    rehash v newSize message st = (o, st')
    /\ inv v st' /\ size st' = newSize
    /\ keys_within st' st
    /\ (returned o = true -> o = Ret [message] /\ same_keys st' st).
Proof.
  intros Hdef Hnd Hp. rewrite (rehash_without_undefined v newSize message st Hdef). munfold.
  destruct (init_inv v newSize Hp) as [Hinv0 Hlive0].
  destruct (forEach (live_keys (table st)) (directInsert v)
              (mkState newSize (replicate (Z.to_nat newSize) Null) 0 0)) as [o st'] eqn:E.
  destruct (forEach_directInsert_inv v (live_keys (table st)) (init newSize) o st'
              Hinv0 Hnd) as (Hinv' & Hsz' & _ & Hsub & Hall).
  { intros k _. rewrite Hlive0. intros []. }
  { exact E. }
  rewrite Hlive0 in Hsub.
  destruct o as [[]|err].
  - eexists. exists st'. split; [reflexivity|]. split; [exact Hinv'|]. split; [exact Hsz'|].
    split.
    + intros k Hk. destruct (Hsub k Hk) as [H|[]]. exact H.
    + intros _. split; [reflexivity|]. intros k. split.
      * intros Hk. destruct (Hsub k Hk) as [H|[]]. exact H.
      * apply Hall. reflexivity.
  - eexists. exists st'. split; [reflexivity|]. split; [exact Hinv'|]. split; [exact Hsz'|].
    split; [|discriminate].
    intros k Hk. destruct (Hsub k Hk) as [H|[]]. exact H.
Qed.

End InvRehash.

Section InvPolicy.
Import Open OpenSpec OpenInv.

Ltac munfold := unfold bind, get, modify, ret, throw in *.

Lemma sound_ret v : sound_step v (ret []).
Proof.
  intros st Hinv. exists (Ret []), st. split; [reflexivity|]. split; [exact Hinv|].
  split; [intros k; tauto|intros _ k; tauto].
Qed.

Lemma sound_rehash v newSize message :
  table_prime newSize -> sound_step v (rehash v newSize message).
Proof.
  intros Hp st Hinv.
  destruct (rehash_inv v st newSize message (inv_defined v st Hinv) (inv_nodup v st Hinv) Hp)
    as (o & st' & Hrun & Hinv' & _ & Hsub & Hret).
  exists o, st'. split; [exact Hrun|]. split; [exact Hinv'|]. split; [exact Hsub|].
  intros Ho. apply Hret, Ho.
Qed.

Lemma sound_ensureCapacityBeforeInsert v : sound_step v (ensureCapacityBeforeInsert v).
Proof.
  intros st Hinv. unfold ensureCapacityBeforeInsert. unfold bind at 1. unfold get.
  destruct (load_gt st 68 100).
  - destruct (negb _).
    + apply sound_rehash; [apply nextPrime_table_prime|exact Hinv].
    + apply sound_ret, Hinv.
  - destruct (_ && _).
    + apply sound_rehash; [apply (inv_prime v st Hinv)|exact Hinv].
    + apply sound_ret, Hinv.
Qed.

Lemma sound_compactAfterInsert v : sound_step v (compactAfterInsert v).
Proof.
  intros st Hinv. unfold compactAfterInsert. unfold bind at 1. unfold get.
  destruct (_ && _).
  - apply sound_rehash; [apply (inv_prime v st Hinv)|exact Hinv].
  - apply sound_ret, Hinv.
Qed.

Lemma sound_maintainAfterInsert v : sound_step v (maintainAfterInsert v).
Proof.
  intros st Hinv. unfold maintainAfterInsert. unfold bind at 1. unfold get.
  destruct (load_gt st 72 100).
  - destruct (negb _).
    + apply sound_rehash; [apply nextPrime_table_prime|exact Hinv].
    + apply sound_compactAfterInsert, Hinv.
  - apply sound_compactAfterInsert, Hinv.
Qed.

Lemma sound_compactAfterRemoval v : sound_step v (compactAfterRemoval v).
Proof.
  intros st Hinv. unfold compactAfterRemoval. unfold bind at 1. unfold get.
  destruct (_ && _).
  - apply sound_rehash; [apply (inv_prime v st Hinv)|exact Hinv].
  - apply sound_ret, Hinv.
Qed.

Lemma sound_maintainAfterRemoval v : sound_step v (maintainAfterRemoval v).
Proof.
  intros st Hinv. unfold maintainAfterRemoval. unfold bind at 1. unfold get.
  destruct (MIN_TABLE_SIZE <? size st); [|apply sound_ret, Hinv].
  destruct (_ && _).
  - destruct (_ <? size st).
    + apply sound_rehash; [apply previousPrime_table_prime|exact Hinv].
    + apply sound_compactAfterRemoval, Hinv.
  - apply sound_compactAfterRemoval, Hinv.
Qed.

End InvPolicy.

Section InvInsert.
Import Open OpenSpec OpenInv.

Ltac munfold := unfold bind, get, modify, ret, throw in *.

(** insert: a probe that passes every slot runs out of attempts
    remembering the first tombstone it saw. *)
Lemma insert_loop_exhausted_track v key ctx st fuel : forall attempt ft lg hl,
  0 < size st ->
  (forall j : nat, (j < fuel)%nat ->
     passes (arr_get (table st) (probeInfo v st ctx (attempt + Z.of_nat j))) key) ->
  insert_loop v key ctx fuel attempt ft lg hl st
  = (Ret (Exhausted
            (track ft (first_tombstone (table st) (path_from v st ctx attempt fuel)))
            (lg ++ notes_from v st ctx attempt fuel)
            (hl ++ as_probes (path_from v st ctx attempt fuel))), st).
Proof.
  induction fuel as [|fuel IH]; intros attempt ft lg hl Hsz Hpass.
  - cbn [insert_loop]. munfold.
    change (path_from v st ctx attempt 0) with (@nil Z).
    unfold first_tombstone. cbn [List.find]. rewrite track_none.
    unfold notes_from, as_probes. simpl. rewrite !app_nil_r. reflexivity.
  - cbn [insert_loop]. munfold.
    destruct (Hpass O ltac:(lia)) as [Hnn Hnk]. rewrite Z.add_0_r in Hnn, Hnk.
    rewrite Hnk.
    pose proof (probeInfo_range v ctx st attempt Hsz) as Hrange.
    set (index0 := probeInfo v st ctx attempt) in *.
    assert (Hgo : forall ft0,
              track ft0 (first_tombstone (table st) (path_from v st ctx (attempt + 1) fuel))
              = track ft (first_tombstone (table st) (path_from v st ctx attempt (S fuel))) ->
              insert_loop v key ctx fuel (attempt + 1) ft0
                (lg ++ [LProbe attempt index0]) (hl ++ [(index0, probe)]) st
              = (Ret (Exhausted
                   (track ft (first_tombstone (table st)
                                (path_from v st ctx attempt (S fuel))))
                   (lg ++ notes_from v st ctx attempt (S fuel))
                   (hl ++ as_probes (path_from v st ctx attempt (S fuel)))), st)).
    { intros ft0 Htrack. rewrite (IH (attempt + 1) ft0); [| exact Hsz |].
      - rewrite Htrack.
        rewrite (notes_from_S v ctx st attempt fuel), (path_from_S v ctx st attempt fuel).
        fold index0. simpl. rewrite <- !app_assoc. reflexivity.
      - intros j Hj. replace (attempt + 1 + Z.of_nat j) with (attempt + Z.of_nat (S j)) by lia.
        apply Hpass. lia. }
    assert (Hskip : is_tombstone (arr_get (table st) index0) = false ->
              track ft (first_tombstone (table st) (path_from v st ctx (attempt + 1) fuel))
              = track ft (first_tombstone (table st) (path_from v st ctx attempt (S fuel)))).
    { intros Hnt. rewrite (path_from_S v ctx st attempt fuel).
      unfold first_tombstone. cbn [List.find]. fold index0. rewrite Hnt. reflexivity. }
    destruct (arr_get (table st) index0) eqn:E; try (apply Hgo, Hskip; reflexivity).
    + congruence.
    + apply Hgo. rewrite (path_from_S v ctx st attempt fuel).
      unfold first_tombstone. cbn [List.find]. fold index0. rewrite E. cbn [is_tombstone].
      unfold track. destruct (Z.eqb_spec ft (-1)) as [->|Hft].
      * destruct (Z.eqb_spec index0 (-1)); [lia|]. reflexivity.
      * destruct (Z.eqb_spec ft (-1)); [congruence|]. reflexivity.
Qed.

(** The first tombstone of a stretch of the probe was seen at one of
    its attempts. *)
Lemma first_tombstone_attempt v st key n t :
  first_tombstone (table st) (probe_path v st key n) = Some t ->
  exists j : nat, (j < n)%nat /\ probe_index v st key (Z.of_nat j) = t
                  /\ arr_get (table st) t = TOMBSTONE.
Proof.
  intros H. unfold first_tombstone in H. apply find_some in H. destruct H as [Hin Ht].
  unfold probe_path in Hin. apply in_map_iff in Hin. destruct Hin as (j & Hj & Hseq).
  apply in_seq in Hseq. exists j. split; [lia|]. split; [exact Hj|].
  destruct (arr_get (table st) t); try discriminate. reflexivity.
Qed.

(** Under the invariant a key whose probe passes [n] slots and then
    stops at an empty one, or passes all [size] slots, is not stored. *)
Lemma passes_not_live v st key (n : nat) :
  inv v st ->
  (forall j : nat, (j < n)%nat -> passes (slot v st key (Z.of_nat j)) key) ->
  (slot v st key (Z.of_nat n) = Null \/ size st <= Z.of_nat n) ->
  ~ In key (live_keys (table st)).
Proof.
  intros Hinv Hpass Hend Hlive.
  destruct (inv_findable v st Hinv key Hlive) as (b & Hb & Hpre & Hkey).
  destruct (Nat.lt_trichotomy b n) as [Hlt|[->|Hgt]].
  - destruct (Hpass b Hlt) as [_ Hnk]. congruence.
  - destruct Hend as [Hnull|Hge]; [|lia]. rewrite Hnull in Hkey. discriminate.
  - destruct Hend as [Hnull|Hge]; [|lia]. exact (Hpre n Hgt Hnull).
Qed.

Lemma stop_or_pass (e : entry) key :
  (is_key e key || match e with Null => true | _ => false end) = false -> passes e key.
Proof.
  intros H. apply orb_false_elim in H. destruct H as [Hk Hn].
  split; [intros ->; discriminate|exact Hk].
Qed.

(** What one activation of insert does to a table satisfying the
    invariant: after the capacity check it reports a duplicate, or
    stores the key in a free slot of its probe and runs the post-insert
    maintenance, or finds every slot of the probe taken by another key. *)
Lemma insert_attempt_cases v key st :
  inv v st ->
  exists o1 st1,
    ensureCapacityBeforeInsert v st = (o1, st1)
    /\ inv v st1 /\ keys_within st1 st
    /\ (returned o1 = true -> same_keys st1 st)
    /\ match o1 with
       | Throw e => insert_attempt v key st = (Throw e, st1)
       | Ret pre =>
           (In key (live_keys (table st1))
            /\ exists r, insert_attempt v key st = (Ret (inl r), st1)
                         /\ res_status r = duplicate)
           \/ (~ In key (live_keys (table st1))
               /\ exists st2,
                    inv v st2 /\ size st2 = size st1 /\ count st2 = count st1 + 1
                    /\ (forall k, In k (live_keys (table st2))
                                  <-> k = key \/ In k (live_keys (table st1)))
                    /\ match maintainAfterInsert v st2 with
                       | (Ret more, st3) =>
                           exists r, insert_attempt v key st = (Ret (inl r), st3)
                                     /\ res_status r = inserted
                       | (Throw e, st3) => insert_attempt v key st = (Throw e, st3)
                       end)
           \/ (~ In key (live_keys (table st1))
               /\ (forall j : nat, Z.of_nat j < size st1 ->
                     exists k, slot v st1 key (Z.of_nat j) = Key k /\ k <> key)
               /\ exists lg, insert_attempt v key st = (Ret (inr lg), st1))
       end.
Proof.
  intros Hinv.
  destruct (sound_ensureCapacityBeforeInsert v st Hinv) as (o1 & st1 & Hpre & Hinv1 & Hsub & Hsame).
  exists o1, st1. split; [exact Hpre|]. split; [exact Hinv1|]. split; [exact Hsub|].
  split; [exact Hsame|].
  destruct o1 as [pre|e].
  2:{ unfold insert_attempt. unfold bind at 1. rewrite Hpre. reflexivity. }
  rewrite (insert_attempt_after_capacity_check v key st pre st1 Hpre). cbv zeta.
  set (ctx := createContext v st1 key).
  pose proof (inv_size_pos v st1 Hinv1) as Hsz.
  destruct (bounded_search
              (fun j => is_key (slot v st1 key (Z.of_nat j)) key
                        || match slot v st1 key (Z.of_nat j) with Null => true | _ => false end)
              (Z.to_nat (size st1))) as [Hsome|Hnone].
  - destruct (first_such _ _ Hsome) as (a & Ha & Hstop & Hbefore).
    assert (Hpass : forall j : nat, (j < a)%nat -> passes (slot v st1 key (Z.of_nat j)) key).
    { intros j Hj. apply stop_or_pass, Hbefore, Hj. }
    destruct (is_key (slot v st1 key (Z.of_nat a)) key) eqn:Ekey.
    + left. split; [eapply is_key_live; exact Ekey|].
      rewrite (insert_loop_duplicate v key ctx st1 (Z.to_nat (size st1)) a 0 (-1)
                 _ [] Ha Hpass Ekey).
      eexists. split; reflexivity.
    + right. left.
      assert (Hnull : slot v st1 key (Z.of_nat a) = Null).
      { cbn [orb] in Hstop. destruct (slot v st1 key (Z.of_nat a)); try discriminate.
        reflexivity. }
      assert (Hfresh : ~ In key (live_keys (table st1))).
      { apply (passes_not_live v st1 key a Hinv1 Hpass). left. exact Hnull. }
      split; [exact Hfresh|].
      rewrite (insert_loop_place v key ctx st1 (Z.to_nat (size st1)) a 0 (-1)
                 (pre ++ logContext v ctx key) [] Ha ltac:(lia) Hpass Hnull).
      cbv zeta.
      change (path_from v st1 ctx 0 a) with (probe_path v st1 key a).
      change (probeInfo v st1 ctx (0 + Z.of_nat a)) with (probe_index v st1 key (Z.of_nat a)).
      destruct (first_tombstone (table st1) (probe_path v st1 key a)) as [t|] eqn:Eseen.
      * destruct (first_tombstone_attempt v st1 key a t Eseen) as (jt & Hjt & Hidx & Htomb).
        pose proof (probe_index_range v st1 key (Z.of_nat jt) ltac:(lia)) as Hr.
        unfold track. cbn [Z.eqb Pos.eqb].
        destruct (Z.eqb_spec t (-1)); [lia|]. cbn [negb].
        destruct (placed_inv v st1 key jt Hinv1 Hfresh ltac:(lia)) as (Hinv2 & Hsz2 & Hkeys2).
        { intros j Hj. apply (Hpass j). lia. }
        { unfold slot. rewrite Hidx, Htomb. reflexivity. }
        rewrite Hidx in Hinv2, Hsz2, Hkeys2.
        eexists. split; [exact Hinv2|]. split; [exact Hsz2|]. split; [reflexivity|].
        split; [exact Hkeys2|].
        destruct (maintainAfterInsert v _) as [[more|e] st3]; [|reflexivity].
        eexists. split; reflexivity.
      * unfold track. cbn [Z.eqb Pos.eqb negb].
        destruct (placed_inv v st1 key a Hinv1 Hfresh ltac:(lia)) as (Hinv2 & Hsz2 & Hkeys2).
        { intros j Hj. apply (Hpass j Hj). }
        { rewrite Hnull. reflexivity. }
        eexists. split; [exact Hinv2|]. split; [exact Hsz2|]. split; [reflexivity|].
        split; [exact Hkeys2|].
        destruct (maintainAfterInsert v _) as [[more|e] st3]; [|reflexivity].
        eexists. split; reflexivity.
  - assert (Hpass : forall j : nat, (j < Z.to_nat (size st1))%nat ->
              passes (slot v st1 key (Z.of_nat j)) key).
    { intros j Hj. apply stop_or_pass, Hnone, Hj. }
    assert (Hfresh : ~ In key (live_keys (table st1))).
    { apply (passes_not_live v st1 key (Z.to_nat (size st1)) Hinv1 Hpass). right. lia. }
    rewrite (insert_loop_exhausted_track v key ctx st1 (Z.to_nat (size st1)) 0 (-1)
               (pre ++ logContext v ctx key) [] ltac:(lia) Hpass).
    change (path_from v st1 ctx 0 (Z.to_nat (size st1)))
      with (probe_path v st1 key (Z.to_nat (size st1))).
    destruct (first_tombstone (table st1) (probe_path v st1 key (Z.to_nat (size st1))))
      as [t|] eqn:Eseen.
    + right. left. split; [exact Hfresh|].
      destruct (first_tombstone_attempt v st1 key _ t Eseen) as (jt & Hjt & Hidx & Htomb).
      pose proof (probe_index_range v st1 key (Z.of_nat jt) ltac:(lia)) as Hr.
      unfold track. cbn [Z.eqb Pos.eqb].
      destruct (Z.eqb_spec t (-1)); [lia|]. cbn [negb].
      unfold bind, ret. cbv beta. rewrite !place_eq.
      destruct (placed_inv v st1 key jt Hinv1 Hfresh ltac:(lia)) as (Hinv2 & Hsz2 & Hkeys2).
      { intros j Hj. apply (Hpass j). lia. }
      { unfold slot. rewrite Hidx, Htomb. reflexivity. }
      rewrite Hidx in Hinv2, Hsz2, Hkeys2.
      eexists. split; [exact Hinv2|]. split; [exact Hsz2|]. split; [reflexivity|].
        split; [exact Hkeys2|].
      destruct (maintainAfterInsert v _) as [[more|e] st3]; [|reflexivity].
      eexists. split; reflexivity.
    + right. right. split; [exact Hfresh|]. split.
      * intros j Hj.
        destruct (Hpass j ltac:(lia)) as [Hnn Hnk].
        pose proof (find_none _ _ Eseen (probe_index v st1 key (Z.of_nat j))) as Hnt.
        assert (Hin : In (probe_index v st1 key (Z.of_nat j))
                         (probe_path v st1 key (Z.to_nat (size st1)))).
        { unfold probe_path. apply in_map_iff. exists j. split; [reflexivity|].
          apply in_seq. lia. }
        specialize (Hnt Hin).
        pose proof (probe_index_range v st1 key (Z.of_nat j) ltac:(lia)) as Hr.
        pose proof (arr_get_in_range (table st1) _ (inv_index_in_range v st1 _ Hinv1 Hr)) as Hl.
        pose proof (inv_defined v st1 Hinv1) as Hdef. rewrite Forall_lookup in Hdef.
        specialize (Hdef _ _ Hl).
        unfold slot in *. destruct (arr_get (table st1) (probe_index v st1 key (Z.of_nat j)))
          as [| |k|]; try congruence; try discriminate.
        exists k. split; [reflexivity|]. intros ->.
        unfold is_key, jsstring_eqb in Hnk. rewrite bool_decide_true in Hnk by reflexivity.
        discriminate.
      * unfold track. cbn [Z.eqb Pos.eqb negb]. unfold ret. eexists. reflexivity.
Qed.

End InvInsert.
(** * Key normalisation is idempotent *)

Section KeyIdempotence.

Lemma round_double_exact y q :
  2 ^ 53 <= y -> y < 2 ^ 1024 -> y = q * 2 ^ (Z.log2 y - 52) ->
  round_double y = Some y.
Proof.
  intros Hy Hmax Hq. unfold round_double.
  destruct (Z.ltb_spec y (2 ^ 53)) as [Hlt|_]; [lia|].
  set (L := Z.log2 y) in *. set (e := L - 52) in *.
  assert (HL : 53 <= L).
  { unfold L. rewrite <- (Z.log2_pow2 53) by lia. apply Z.log2_le_mono. exact Hy. }
  assert (He : 1 <= e) by (unfold e; lia).
  assert (H2e : 0 < 2 ^ e) by (apply Z.pow_pos_nonneg; lia).
  assert (Hshift : Z.shiftr y e = q).
  { rewrite Z.shiftr_div_pow2 by lia. rewrite Hq at 1. apply Z.div_mul. lia. }
  cbv zeta. rewrite Hshift.
  rewrite (Z.shiftl_mul_pow2 q e) by lia. rewrite <- Hq.
  replace (y - y) with 0 by lia.
  rewrite (Z.shiftl_mul_pow2 1 (e - 1)) by lia.
  assert (Hhalf : 0 < 1 * 2 ^ (e - 1)).
  { rewrite Z.mul_1_l. apply Z.pow_pos_nonneg; lia. }
  destruct (Z.ltb_spec (1 * 2 ^ (e - 1)) 0) as [?|_]; [lia|].
  destruct (Z.eqb_spec (1 * 2 ^ (e - 1)) 0) as [?|_]; [lia|].
  cbn [orb andb]. rewrite (Z.shiftl_mul_pow2 q e) by lia. rewrite <- Hq.
  destruct (Z.leb_spec (2 ^ 1024) y); [lia|reflexivity].
Qed.

Lemma round_double_fixed m y : round_double m = Some y -> round_double y = Some y.
Proof.
  intros H.
  destruct (Z.lt_ge_cases m (2 ^ 53)) as [Hm|Hm].
  { rewrite round_double_small in H by exact Hm. inversion H; subst y.
    apply round_double_small, Hm. }
  revert H. unfold round_double.
  destruct (Z.ltb_spec m (2 ^ 53)) as [Hlt|_]; [lia|].
  set (L := Z.log2 m). set (e := L - 52).
  assert (HL : 53 <= L).
  { unfold L. rewrite <- (Z.log2_pow2 53) by lia. apply Z.log2_le_mono. exact Hm. }
  assert (Hspec : 2 ^ L <= m < 2 ^ Z.succ L) by (apply Z.log2_spec; lia).
  assert (He : 1 <= e) by (unfold e; lia).
  assert (H2e : 0 < 2 ^ e) by (apply Z.pow_pos_nonneg; lia).
  assert (HLe : 2 ^ L = 2 ^ 52 * 2 ^ e).
  { rewrite <- Z.pow_add_r by lia. f_equal. unfold e. lia. }
  assert (HLe' : 2 ^ Z.succ L = 2 ^ 53 * 2 ^ e).
  { rewrite <- Z.pow_add_r by lia. f_equal. unfold e. lia. }
  assert (Hq : 2 ^ 52 <= Z.shiftr m e < 2 ^ 53).
  { rewrite Z.shiftr_div_pow2 by lia. split.
    - apply Z.div_le_lower_bound; lia.
    - apply Z.div_lt_upper_bound; lia. }
  set (q := Z.shiftr m e) in *.
  cbv zeta.
  match goal with |- context [Z.shiftl ?qq e] => set (q' := qq) end.
  assert (Hq' : 2 ^ 52 <= q' <= 2 ^ 53).
  { unfold q'. match goal with |- context [if ?b then _ else _] => destruct b end; lia. }
  rewrite Z.shiftl_mul_pow2 by lia.
  destruct (Z.leb_spec (2 ^ 1024) (q' * 2 ^ e)) as [|Hmax]; [discriminate|].
  intros Hy. inversion Hy; subst y. clear Hy.
  destruct (Z.eq_dec q' (2 ^ 53)) as [Htop|Hlow].
  - assert (Hlog : Z.log2 (q' * 2 ^ e) = Z.succ L).
    { rewrite Htop, <- HLe'. apply Z.log2_pow2. lia. }
    apply (round_double_exact _ (2 ^ 52)); [nia|exact Hmax|].
    rewrite Hlog, Htop. replace (Z.succ L - 52) with (Z.succ e) by (unfold e; lia).
    rewrite Z.pow_succ_r by lia. change (2 ^ 53) with (2 ^ 52 * 2). ring.
  - assert (Hlog : Z.log2 (q' * 2 ^ e) = L).
    { apply Z.log2_unique; [lia|]. rewrite HLe, HLe'. nia. }
    apply (round_double_exact _ q'); [nia|exact Hmax|].
    rewrite Hlog. reflexivity.
Qed.


(** Trimming *)

Lemma trim_start_clean s : is_js_space (hd 0 s) = false -> trim_start s = s.
Proof. destruct s as [|c s]; [reflexivity|]. simpl. intros ->. reflexivity. Qed.

Lemma trim_clean s :
  is_js_space (hd 0 s) = false -> is_js_space (hd 0 (rev s)) = false -> trim s = s.
Proof.
  intros Hfront Hback. unfold trim.
  rewrite (trim_start_clean s Hfront), (trim_start_clean (rev s) Hback).
  apply rev_involutive.
Qed.

Lemma trim_start_hd s : is_js_space (hd 0 (trim_start s)) = false.
Proof.
  induction s as [|c s IH]; [reflexivity|]. simpl.
  destruct (is_js_space c) eqn:E; [exact IH|exact E].
Qed.

Lemma trim_start_split s :
  exists sp, s = sp ++ trim_start s /\ forallb is_js_space sp = true.
Proof.
  induction s as [|c s (sp & Hs & Hsp)]; [exists []; split; reflexivity|].
  simpl. destruct (is_js_space c) eqn:E.
  - exists (c :: sp). split; [simpl; congruence|]. simpl. rewrite E. exact Hsp.
  - exists []. split; reflexivity.
Qed.

Lemma trim_hd s : is_js_space (hd 0 (trim s)) = false.
Proof.
  unfold trim. pose proof (trim_start_hd s) as Hfront.
  destruct (trim_start_split (rev (trim_start s))) as (sp & Hs & _).
  set (u := trim_start (rev (trim_start s))) in *.
  apply (f_equal (@rev Z)) in Hs. rewrite rev_involutive, rev_app_distr in Hs.
  destruct (rev u) as [|c w]; [reflexivity|].
  rewrite Hs in Hfront. exact Hfront.
Qed.

Lemma trim_idempotent s : trim (trim s) = trim s.
Proof.
  apply trim_clean; [apply trim_hd|].
  unfold trim. rewrite rev_involutive. apply trim_start_hd.
Qed.

(** Digit strings *)

Lemma digit_not_space c : is_digit c = true -> is_js_space c = false.
Proof.
  unfold is_digit. intros H. apply andb_prop in H. destruct H as [Hlo Hhi].
  apply Z.leb_le in Hlo, Hhi.
  assert (Hc : c = 48 \/ c = 49 \/ c = 50 \/ c = 51 \/ c = 52 \/ c = 53 \/ c = 54
               \/ c = 55 \/ c = 56 \/ c = 57) by lia.
  repeat (destruct Hc as [->|Hc]; [reflexivity|]). subst c. reflexivity.
Qed.

Lemma digit_not_minus c : is_digit c = true -> (c =? 45) = false.
Proof.
  unfold is_digit. intros H. apply andb_prop in H. destruct H as [Hlo _].
  apply Z.leb_le in Hlo. apply Z.eqb_neq. lia.
Qed.

Lemma digits_fuel_digits fuel : forall n acc,
  forallb is_digit acc = true -> forallb is_digit (digits_fuel fuel n acc) = true.
Proof.
  induction fuel as [|fuel IH]; intros n acc Hacc; [exact Hacc|].
  rewrite digits_fuel_S.
  assert (Hd : forallb is_digit ((48 + n mod 10) :: acc) = true).
  { simpl. rewrite Hacc, andb_true_r. unfold is_digit.
    pose proof (Z.mod_pos_bound n 10 ltac:(lia)).
    apply andb_true_intro. split; apply Z.leb_le; lia. }
  destruct (n <? 10); [exact Hd|apply IH, Hd].
Qed.

Lemma digits_all_digits n : forallb is_digit (digits n) = true.
Proof. apply digits_fuel_digits. reflexivity. Qed.

Lemma digits_front s : forallb is_digit s = true -> is_js_space (hd 0 s) = false.
Proof.
  destruct s as [|c s]; [reflexivity|]. simpl. intros H.
  apply andb_prop in H. apply digit_not_space, H.
Qed.

Lemma digits_back s : forallb is_digit s = true -> is_js_space (hd 0 (rev s)) = false.
Proof.
  intros H. apply digits_front. rewrite forallb_forall in *.
  intros c Hc. apply H. apply in_rev. exact Hc.
Qed.

Lemma back_app (l1 l2 : jsstring) : l2 <> [] -> hd 0 (rev (l1 ++ l2)) = hd 0 (rev l2).
Proof.
  intros Hne. rewrite rev_app_distr.
  destruct (rev l2) as [|c w] eqn:E; [|reflexivity].
  apply (f_equal (@rev Z)) in E. rewrite rev_involutive in E. contradiction.
Qed.

(** What [Number::toString] prints for a magnitude that is a double:
    either decimal digits that parse back to the same double, or an
    exponent form, which the integer test rejects and trimming leaves
    alone. *)
Lemma magnitude_to_string_cases m :
  0 <= m -> round_double m = Some m ->
  let s := magnitude_to_string m in
  (forallb is_digit s = true /\ s <> [] /\ round_double (digits_value s) = Some m)
  \/ (all_digits s = false
      /\ is_js_space (hd 0 s) = false /\ is_js_space (hd 0 (rev s)) = false
      /\ (hd 0 s =? 45) = false
      /\ all_digits (45 :: s) = false).
Proof.
  intros Hm Hfix. unfold magnitude_to_string.
  destruct (Z.eqb_spec m 0) as [->|Hnz].
  { left. split; [reflexivity|]. split; [discriminate|]. reflexivity. }
  set (v := shortest m).
  assert (Hv : round_double v = Some m).
  { unfold v, shortest.
    destruct (shortest_fuel_sound (Z.to_nat (num_digits m)) m (num_digits m - 1)) as [->|H].
    - exact Hfix.
    - unfold rounds_to in H.
      destruct (round_double (shortest_fuel _ m _)) as [y|]; [|discriminate].
      apply Z.eqb_eq in H. congruence. }
  assert (Hv0 : 0 <= v).
  { destruct (Z.lt_ge_cases v (2 ^ 53)) as [Hlt|Hge]; [|lia].
    rewrite round_double_small in Hv by exact Hlt. inversion Hv. lia. }
  cbv zeta.
  destruct (Z.leb_spec (num_digits v) 21) as [Hshort|Hlong].
  { left. destruct (digits_spec v Hv0) as (Hval & Hdig & Hne & _).
    split; [exact Hdig|]. split; [exact Hne|]. rewrite Hval. exact Hv. }
  right.
  pose proof (digits_all_digits (significand v)) as Hsig.
  pose proof (digits_all_digits (num_digits v - 1)) as Hexp.
  destruct (digits_spec (num_digits v - 1) ltac:(lia)) as (_ & _ & Hexp_ne & _).
  change (str "e+") with [101; 43]. change (str ".") with [46].
  destruct (digits (significand v)) as [|d [|d' ds]].
  - repeat split; reflexivity.
  - simpl in Hsig. rewrite andb_true_r in Hsig.
    split; [simpl; rewrite andb_false_r; reflexivity|].
    split; [apply digit_not_space, Hsig|].
    split.
    { change (d :: [101; 43] ++ digits (num_digits v - 1))
        with ([d; 101; 43] ++ digits (num_digits v - 1)).
      rewrite back_app by exact Hexp_ne. apply digits_back, Hexp. }
    split; [apply digit_not_minus, Hsig|].
    reflexivity.
  - simpl in Hsig. apply andb_prop in Hsig. destruct Hsig as [Hd _].
    split; [simpl; rewrite andb_false_r; reflexivity|].
    split; [apply digit_not_space, Hd|].
    split.
    { change (d :: [46] ++ (d' :: ds) ++ [101; 43] ++ digits (num_digits v - 1))
        with ([d; 46] ++ (d' :: ds) ++ [101; 43] ++ digits (num_digits v - 1)).
      rewrite back_app by (simpl; discriminate).
      rewrite back_app by (simpl; discriminate).
      rewrite back_app by exact Hexp_ne. apply digits_back, Hexp. }
    split; [apply digit_not_minus, Hd|].
    reflexivity.
Qed.

Lemma normaliseKey_fixed_text s :
  is_js_space (hd 0 s) = false -> is_js_space (hd 0 (rev s)) = false ->
  is_integer_literal s = false -> normaliseKey s = s.
Proof.
  intros Hfront Hback Hlit. unfold normaliseKey.
  rewrite (trim_clean s Hfront Hback), Hlit. reflexivity.
Qed.

Lemma number_to_string_fixed x :
  (forall neg m, x = Finite neg m -> 0 <= m /\ round_double m = Some m) ->
  normaliseKey (number_to_string x) = number_to_string x.
Proof.
  intros Hx. destruct x as [neg m|neg].
  2:{ destruct neg; vm_compute; reflexivity. }
  destruct (Hx neg m eq_refl) as [Hm Hfix].
  assert (Hprint : forall sign, number_to_string (Finite sign m)
                   = if sign && negb (m =? 0) then 45 :: magnitude_to_string m
                     else magnitude_to_string m) by reflexivity.
  rewrite Hprint.
  pose proof (magnitude_to_string_cases m Hm Hfix) as Hcases. cbv zeta in Hcases.
  remember (magnitude_to_string m) as s eqn:Es.
  destruct Hcases as [(Hdig & Hne & Hval)|(Hnd & Hf & Hb & Hnm & Hnd')].
  - assert (Hall : all_digits s = true) by (destruct s; [congruence|exact Hdig]).
    destruct (neg && negb (m =? 0)) eqn:Esign.
    + unfold normaliseKey. rewrite trim_clean.
      * cbn [is_integer_literal]. change (45 =? 45) with true. cbv iota. rewrite Hall.
        cbn [parseInt]. change (45 =? 45) with true. cbv iota.
        unfold to_number. rewrite Hval, Hprint.
        apply andb_prop in Esign. destruct Esign as [_ ->]. reflexivity.
      * reflexivity.
      * change (45 :: s) with ([45] ++ s). rewrite back_app by exact Hne.
        apply digits_back, Hdig.
    + unfold normaliseKey.
      rewrite trim_clean by first [apply digits_back; exact Hdig|apply digits_front; exact Hdig].
      destruct s as [|c s']; [congruence|].
      assert (Hc : (c =? 45) = false).
      { simpl in Hdig. apply andb_prop in Hdig. apply digit_not_minus, Hdig. }
      cbn [is_integer_literal parseInt]. rewrite Hc, Hall.
      unfold to_number. rewrite Hval, Hprint. reflexivity.
  - destruct (neg && negb (m =? 0)).
    + apply normaliseKey_fixed_text.
      * reflexivity.
      * destruct s as [|c s']; [reflexivity|].
        change (45 :: c :: s') with ([45] ++ c :: s').
        rewrite back_app by discriminate. exact Hb.
      * cbn [is_integer_literal]. change (45 =? 45) with true. cbv iota.
        destruct s; [reflexivity|]. exact Hnd.
    + apply normaliseKey_fixed_text; [exact Hf|exact Hb|].
      destruct s as [|c s']; [reflexivity|].
      cbn [is_integer_literal]. cbn [hd] in Hnm. rewrite Hnm. exact Hnd.
Qed.

Lemma to_number_double neg v neg' m' :
  0 <= v -> to_number neg v = Finite neg' m' ->
  0 <= m' /\ round_double m' = Some m'.
Proof.
  intros Hv. unfold to_number.
  destruct (round_double v) as [y|] eqn:E; [|discriminate].
  intros H. inversion H; subst. split; [|apply (round_double_fixed v), E].
  destruct (Z.lt_ge_cases v (2 ^ 53)) as [Hlt|Hge].
  - rewrite round_double_small in E by exact Hlt. inversion E. lia.
  - pose proof (round_double_large v m' Hge E). lia.
Qed.

Lemma normaliseKey_idempotent rawKey :
  normaliseKey (normaliseKey rawKey) = normaliseKey rawKey.
Proof.
  unfold normaliseKey at 2 3.
  destruct (is_integer_literal (trim rawKey)) eqn:Elit.
  - apply number_to_string_fixed. intros neg m.
    destruct (trim rawKey) as [|c rest]; [discriminate|].
    cbn [is_integer_literal parseInt] in *.
    destruct (c =? 45).
    + apply to_number_double, digits_value_nonneg, all_digits_forallb, Elit.
    + apply to_number_double, digits_value_nonneg, all_digits_forallb, Elit.
  - unfold normaliseKey. rewrite trim_idempotent, Elit. reflexivity.
Qed.

End KeyIdempotence.

(** * Open addressing: what the three operations do to a sound table *)

Section InvOperations.
Import Open OpenSpec OpenInv.

Ltac munfold := unfold bind, get, modify, ret, throw in *.

Lemma absent_not_key v st key j :
  ~ In key (live_keys (table st)) -> is_key (slot v st key j) key = false.
Proof.
  intros Habsent. destruct (is_key (slot v st key j) key) eqn:E; [|reflexivity].
  exfalso. apply Habsent. eapply is_key_live. exact E.
Qed.

Lemma search_loop_absent v key ctx st fuel : forall attempt lg hl,
  (forall i, is_key (arr_get (table st) i) key = false) ->
  exists r, search_loop v key ctx fuel attempt lg hl st = (Ret r, st)
            /\ res_status r = missing.
Proof.
  induction fuel as [|fuel IH]; intros attempt lg hl Habsent; cbn [search_loop]; munfold.
  - eexists. split; reflexivity.
  - rewrite Habsent.
    destruct (arr_get (table st) (probeInfo v st ctx attempt));
      try (apply IH; exact Habsent).
    eexists. split; reflexivity.
Qed.

Lemma remove_loop_absent v key ctx st fuel : forall attempt lg hl,
  (forall i, is_key (arr_get (table st) i) key = false) ->
  exists r, remove_loop v key ctx fuel attempt lg hl st = (Ret r, st)
            /\ res_status r = missing.
Proof.
  induction fuel as [|fuel IH]; intros attempt lg hl Habsent; cbn [remove_loop]; munfold.
  - eexists. split; reflexivity.
  - rewrite Habsent.
    destruct (arr_get (table st) (probeInfo v st ctx attempt));
      try (apply IH; exact Habsent).
    eexists. split; reflexivity.
Qed.

Lemma absent_everywhere st key :
  ~ In key (live_keys (table st)) -> forall i, is_key (arr_get (table st) i) key = false.
Proof.
  intros Habsent i. destruct (is_key (arr_get (table st) i) key) eqn:E; [|reflexivity].
  exfalso. apply Habsent. eapply is_key_live. exact E.
Qed.

(** search on a sound table: it changes nothing and reports [found]
    exactly for the live keys. *)
Lemma search_inv v rawKey st :
  inv v st ->
  exists r,
    search v rawKey st = (Ret r, st)
    /\ ((res_status r = found /\ In (normaliseKey rawKey) (live_keys (table st)))
        \/ (res_status r = missing /\ ~ In (normaliseKey rawKey) (live_keys (table st)))).
Proof.
  intros Hinv. set (key := normaliseKey rawKey).
  destruct (List.in_dec (List.list_eq_dec Z.eq_dec) key (live_keys (table st))) as [Hin|Hout].
  - destruct (findable_search v st rawKey (inv_findable v st Hinv key Hin)) as (r & Hr & Hs).
    exists r. split; [exact Hr|]. left. split; [exact Hs|exact Hin].
  - destruct (search_loop_absent v key (createContext v st key) st (Z.to_nat (size st)) 0
                (logContext v (createContext v st key) key) [] (absent_everywhere st key Hout))
      as (r & Hr & Hs).
    exists r. split; [exact Hr|]. right. split; [exact Hs|exact Hout].
Qed.

(** remove on a sound table. *)
Lemma remove_inv v rawKey st :
  inv v st ->
  let key := normaliseKey rawKey in
  exists o st',
    remove v rawKey st = (o, st')
    /\ inv v st'
    /\ (forall k, In k (live_keys (table st')) -> k <> key /\ In k (live_keys (table st)))
    /\ (forall r, o = Ret r ->
          (forall k, In k (live_keys (table st)) -> k <> key -> In k (live_keys (table st')))
          /\ ((res_status r = removed /\ In key (live_keys (table st)))
              \/ (res_status r = missing /\ ~ In key (live_keys (table st)) /\ st' = st))).
Proof.
  intros Hinv key.
  pose proof (inv_size_pos v st Hinv) as Hsz.
  destruct (List.in_dec (List.list_eq_dec Z.eq_dec) key (live_keys (table st))) as [Hin|Hout].
  - destruct (inv_findable v st Hinv key Hin) as (a & Ha & Hpre & Hkey).
    destruct (first_such (fun j => is_key (slot v st key (Z.of_nat j)) key) (S a))
      as (a0 & Ha0 & Hkey0 & Hmin).
    { exists a. split; [lia|exact Hkey]. }
    assert (Hrun : remove v rawKey st
                   = match maintainAfterRemoval v
                             (tombstoned st (probe_index v st key (Z.of_nat a0))) with
                     | (Ret more, st') =>
                         (Ret (mkResult
                                 (logContext v (createContext v st key) key
                                    ++ notes_from v st (createContext v st key) 0 (S a0)
                                    ++ [LMarkedTombstone (probe_index v st key (Z.of_nat a0))]
                                    ++ more)
                                 ([] ++ as_probes (path_from v st (createContext v st key) 0 (S a0))
                                    ++ [(probe_index v st key (Z.of_nat a0), placed)])
                                 removed), st')
                     | (Throw e, st') => (Throw e, st')
                     end).
    { apply (remove_loop_found v key (createContext v st key) st (Z.to_nat (size st)) a0 0);
        [lia| |exact Hkey0].
      intros j Hj. split; [apply Hpre; lia|apply Hmin, Hj]. }
    destruct (tombstoned_inv v st key a0 Hinv ltac:(lia) Hkey0) as (Hinv1 & Hsz1 & Hkeys1).
    destruct (sound_maintainAfterRemoval v _ Hinv1) as (o2 & st2 & Hm & Hinv2 & Hsub2 & Hsame2).
    rewrite Hm in Hrun.
    destruct o2 as [more|e].
    + eexists _, st2. split; [exact Hrun|]. split; [exact Hinv2|]. split.
      * intros k Hk. apply Hkeys1, Hsub2, Hk.
      * intros r Hr. inversion Hr; subst r. split.
        -- intros k Hk Hne. apply (Hsame2 eq_refl). apply Hkeys1. split; assumption.
        -- left. split; [reflexivity|exact Hin].
    + exists (Throw e), st2. split; [exact Hrun|]. split; [exact Hinv2|]. split.
      * intros k Hk. apply Hkeys1, Hsub2, Hk.
      * intros r Hr. discriminate.
  - destruct (remove_loop_absent v key (createContext v st key) st (Z.to_nat (size st)) 0
                (logContext v (createContext v st key) key) [] (absent_everywhere st key Hout))
      as (r & Hr & Hs).
    exists (Ret r), st. split; [exact Hr|]. split; [exact Hinv|]. split.
    + intros k Hk. split; [|exact Hk]. intros ->. contradiction.
    + intros r0 Hr0. inversion Hr0; subst r0. split; [tauto|].
      right. split; [exact Hs|]. split; [exact Hout|reflexivity].
Qed.

(** insert on a sound table, whatever the depth of its recursion. *)
Lemma insert_inv v fuel : forall rawKey st o st',
  inv v st ->
  insert v fuel rawKey st = Some (o, st') ->
  let key := normaliseKey rawKey in
  inv v st'
  /\ (forall k, In k (live_keys (table st')) -> k = key \/ In k (live_keys (table st)))
  /\ (forall r, o = Ret r ->
        In key (live_keys (table st'))
        /\ (forall k, In k (live_keys (table st)) -> In k (live_keys (table st')))
        /\ ((res_status r = duplicate /\ In key (live_keys (table st)))
            \/ (res_status r = inserted /\ ~ In key (live_keys (table st))))).
Proof.
  induction fuel as [|fuel IH]; intros rawKey st o st' Hinv Hrun key; [discriminate|].
  cbn [insert] in Hrun. fold key in Hrun.
  destruct (insert_attempt_cases v key st Hinv)
    as (o1 & st1 & Hpre & Hinv1 & Hsub1 & Hsame1 & Hcase).
  destruct o1 as [pre|e].
  2:{ rewrite Hcase in Hrun. inversion Hrun; subst o st'.
      split; [exact Hinv1|]. split; [intros k Hk; right; apply Hsub1, Hk|].
      intros r Hr. discriminate. }
  specialize (Hsame1 eq_refl).
  destruct Hcase as [(Hin & r & Heq & Hs)
                    |[(Hfresh & st2 & Hinv2 & Hsz2 & Hc2 & Hkeys2 & Hm)
                     |(Hfresh & Hall & lg & Heq)]].
  - rewrite Heq in Hrun. inversion Hrun; subst o st'.
    split; [exact Hinv1|]. split; [intros k Hk; right; apply Hsub1, Hk|].
    intros r0 Hr0. inversion Hr0; subst r0.
    split; [exact Hin|]. split; [intros k Hk; apply Hsame1, Hk|].
    left. split; [exact Hs|apply Hsame1, Hin].
  - destruct (sound_maintainAfterInsert v st2 Hinv2) as (o3 & st3 & Hm3 & Hinv3 & Hsub3 & Hsame3).
    rewrite Hm3 in Hm.
    assert (Hwithin : forall k, In k (live_keys (table st3)) ->
                                k = key \/ In k (live_keys (table st))).
    { intros k Hk. apply Hsub3, Hkeys2 in Hk. destruct Hk as [Hk|Hk]; [left; exact Hk|].
      right. apply Hsub1, Hk. }
    destruct o3 as [more|e].
    + destruct Hm as (r & Heq & Hs). rewrite Heq in Hrun. inversion Hrun; subst o st'.
      split; [exact Hinv3|]. split; [exact Hwithin|].
      intros r0 Hr0. inversion Hr0; subst r0.
      specialize (Hsame3 eq_refl).
      split; [apply Hsame3, Hkeys2; left; reflexivity|].
      split; [intros k Hk; apply Hsame3, Hkeys2; right; apply Hsame1, Hk|].
      right. split; [exact Hs|]. intros Hk. apply Hfresh, Hsame1, Hk.
    + rewrite Hm in Hrun. inversion Hrun; subst o st'.
      split; [exact Hinv3|]. split; [exact Hwithin|]. intros r Hr. discriminate.
  - rewrite Heq in Hrun.
    destruct (rehash_inv v st1 (nextPrime (ceil_mul_1_6 (size st1))) LSaturated
                (inv_defined v st1 Hinv1) (inv_nodup v st1 Hinv1) (nextPrime_table_prime _))
      as (o2 & st2 & Hre & Hinv2 & Hsz2 & Hsub2 & Hsame2).
    rewrite Hre in Hrun.
    destruct o2 as [growth|e].
    2:{ inversion Hrun; subst o st'.
        split; [exact Hinv2|]. split; [intros k Hk; right; apply Hsub1, Hsub2, Hk|].
        intros r Hr. discriminate. }
    destruct (Hsame2 eq_refl) as [_ Hsame2'].
    destruct (insert v fuel key st2) as [[o3 st3]|] eqn:Erec; [|discriminate].
    destruct (IH key st2 o3 st3 Hinv2 Erec) as (Hinv3 & Hwithin3 & Hret3).
    assert (Hidem : normaliseKey key = key) by apply normaliseKey_idempotent.
    rewrite Hidem in Hwithin3, Hret3.
    assert (Hwithin : forall k, In k (live_keys (table st3)) ->
                                k = key \/ In k (live_keys (table st))).
    { intros k Hk. destruct (Hwithin3 k Hk) as [Hk'|Hk']; [left; exact Hk'|].
      right. apply Hsub1, Hsub2, Hk'. }
    destruct o3 as [r3|e]; inversion Hrun; subst o st'.
    + split; [exact Hinv3|]. split; [exact Hwithin|].
      intros r0 Hr0. inversion Hr0; subst r0.
      destruct (Hret3 r3 eq_refl) as (Hin3 & Hkeep3 & Hstatus3).
      split; [exact Hin3|].
      split; [intros k Hk; apply Hkeep3, Hsame2', Hsame1, Hk|].
      cbn [res_status].
      destruct Hstatus3 as [[Hs Hk]|[Hs Hk]].
      * exfalso. apply Hfresh, Hsame2', Hk.
      * right. split; [exact Hs|]. intros Hk'. apply Hfresh, Hsame1, Hk'.
    + split; [exact Hinv3|]. split; [exact Hwithin|]. intros r Hr. discriminate.
Qed.

(** Every table the controller reaches is sound. *)
Lemma run_inv v fuel acts : forall st st',
  inv v st -> OpenController.run v fuel acts st = Some st' -> inv v st'.
Proof.
  induction acts as [|a acts IH]; intros st st' Hinv Hrun; cbn [OpenController.run] in Hrun.
  - inversion Hrun; subst st'. exact Hinv.
  - destruct (bool_decide (action_key a = [])); [apply (IH st st' Hinv Hrun)|].
    destruct (OpenController.handleAction v fuel a st) as [[o st1]|] eqn:Estep; [|discriminate].
    apply (IH st1 st'); [|exact Hrun].
    destruct a as [k|k|k]; cbn [OpenController.handleAction] in Estep.
    + apply (insert_inv v fuel (trim k) st o st1 Hinv Estep).
    + destruct (search_inv v (trim k) st Hinv) as (r & Hr & _).
      rewrite Hr in Estep. inversion Estep; subst. exact Hinv.
    + destruct (remove_inv v (trim k) st Hinv) as (o' & st2 & Hr & Hinv2 & _).
      rewrite Hr in Estep. inversion Estep; subst. exact Hinv2.
Qed.

Lemma reachable_inv v st : OpenController.reachable v st -> inv v st.
Proof.
  intros (sz & fuel & acts & Hrun).
  apply (run_inv v fuel acts (init (normaliseSizeForOpen sz)) st); [|exact Hrun].
  apply init_inv. unfold normaliseSizeForOpen. apply nextPrime_table_prime.
Qed.

End InvOperations.

(** * Linear probing and double hashing: no operation fails *)

Section Covering.
Import Open OpenSpec OpenInv.

Ltac munfold := unfold bind, get, modify, ret, throw in *.

Lemma covering_linear : covering Linear.
Proof. intros n [Hr _]. apply covers_linear. unfold MIN_TABLE_SIZE in Hr. lia. Qed.

Lemma covering_double_hashing : covering DoubleHashing.
Proof. intros n Hp. apply covers_double_hashing, Hp. Qed.

Lemma not_quadratic_covering v : v <> Quadratic -> covering v.
Proof.
  destruct v; [intros _; apply covering_linear|congruence|intros _; apply covering_double_hashing].
Qed.

(** A check over the sizes between 3 and 199. *)
Lemma for_table_sizes (P : Z -> bool) :
  forallb (fun c => P (Z.of_nat c)) (seq 3 197) = true ->
  forall s, 3 <= s <= 199 -> P s = true.
Proof.
  intros Hall s Hs. rewrite forallb_forall in Hall.
  specialize (Hall (Z.to_nat s)). rewrite Z2Nat.id in Hall by lia.
  apply Hall. apply in_seq. lia.
Qed.

(** Growth goes to a larger table, except at the maximum size. *)
Lemma growth_target_gt s :
  3 <= s <= 199 ->
  (s < nextPrime (ceil_mul_1_6 s) \/ s = 199)
  /\ s <= nextPrime (ceil_mul_1_6 s) /\ s <= nextPrime (ceil_mul_1_35 s).
Proof.
  intros Hs.
  pose proof (for_table_sizes
                (fun s => ((s <? nextPrime (ceil_mul_1_6 s)) || (s =? 199))
                          && (s <=? nextPrime (ceil_mul_1_6 s))
                          && (s <=? nextPrime (ceil_mul_1_35 s)))
                ltac:(vm_compute; reflexivity) s Hs) as H.
  cbv beta in H. apply andb_prop in H. destruct H as [H H3].
  apply andb_prop in H. destruct H as [H1 H2].
  apply Z.leb_le in H2, H3. split; [|split; assumption].
  apply orb_prop in H1. destruct H1 as [H1|H1]; [left; apply Z.ltb_lt, H1|right; apply Z.eqb_eq, H1].
Qed.

(** Below a load of 0.3 the keys fit the table that a shrink builds. *)
Lemma shrink_target_fits s c :
  3 <= s <= 199 -> 10 * c < 3 * s ->
  c <= previousPrime (Z.max MIN_TABLE_SIZE (floor_div_1_6 s)).
Proof.
  intros Hs Hc.
  pose proof (for_table_sizes
                (fun s => (3 * s - 1) / 10
                          <=? previousPrime (Z.max MIN_TABLE_SIZE (floor_div_1_6 s)))
                ltac:(vm_compute; reflexivity) s Hs) as H.
  cbv beta in H. apply Z.leb_le in H.
  assert (c <= (3 * s - 1) / 10) by (apply Z.div_le_lower_bound; lia).
  lia.
Qed.

Lemma inv_count_le v st : inv v st -> 0 <= count st <= size st.
Proof.
  intros Hinv. pose proof (inv_size_pos v st Hinv).
  rewrite (inv_count v st Hinv).
  pose proof (live_keys_length_le (table st)) as Hle.
  rewrite (inv_length v st Hinv) in Hle. lia.
Qed.

Lemma same_keys_count v st st' :
  inv v st -> inv v st' -> same_keys st' st -> count st' = count st.
Proof.
  intros Hinv Hinv' Hsame.
  rewrite (inv_count v st Hinv), (inv_count v st' Hinv'). f_equal.
  apply Permutation_length, NoDup_Permutation;
    [apply (inv_nodup v st' Hinv')|apply (inv_nodup v st Hinv)|].
  intros k. rewrite !list_elem_of_In. apply Hsame.
Qed.

(** With a probe that covers the new table, a rehash that has room for
    the keys returns and keeps them all. *)
Lemma rehash_sure v st n message :
  covering v -> inv v st -> table_prime n -> count st <= n ->
  exists st',
    rehash v n message st = (Ret [message], st')
    /\ inv v st' /\ same_keys st' st /\ count st' = count st /\ size st' = n.
Proof.
  intros Hcov Hinv Hp Hfit.
  assert (Hn : 0 < n) by (destruct Hp as [Hr _]; unfold MIN_TABLE_SIZE in Hr; lia).
  destruct (rehash_ok v st n message (inv_defined v st Hinv) Hn (Hcov n Hp))
    as (st' & Hrun & _).
  { rewrite <- (inv_count v st Hinv). exact Hfit. }
  destruct (rehash_inv v st n message (inv_defined v st Hinv) (inv_nodup v st Hinv) Hp)
    as (o & st'' & Hrun' & Hinv' & Hsz & _ & Hret).
  rewrite Hrun in Hrun'. inversion Hrun'; subst o st''.
  destruct (Hret eq_refl) as [_ Hsame].
  exists st'. split; [exact Hrun|]. split; [exact Hinv'|]. split; [exact Hsame|].
  split; [apply (same_keys_count v st st' Hinv Hinv' Hsame)|exact Hsz].
Qed.

Lemma sure_rehash v st n message :
  covering v -> inv v st -> table_prime n -> count st <= n ->
  exists lg st',
    rehash v n message st = (Ret lg, st')
    /\ inv v st' /\ same_keys st' st /\ count st' = count st.
Proof.
  intros Hcov Hinv Hp Hfit.
  destruct (rehash_sure v st n message Hcov Hinv Hp Hfit) as (st' & H1 & H2 & H3 & H4 & _).
  exists [message], st'. split; [exact H1|]. split; [exact H2|]. split; [exact H3|exact H4].
Qed.

Lemma sure_ret v st :
  inv v st ->
  exists lg st',
    ret (S := state) ([] : list log) st = (Ret lg, st')
    /\ inv v st' /\ same_keys st' st /\ count st' = count st.
Proof.
  intros Hinv. exists [], st. split; [reflexivity|]. split; [exact Hinv|].
  split; [intros k; tauto|reflexivity].
Qed.

Lemma sure_compaction v st message :
  covering v -> inv v st ->
  exists lg st',
    rehash v (size st) message st = (Ret lg, st')
    /\ inv v st' /\ same_keys st' st /\ count st' = count st.
Proof.
  intros Hcov Hinv. apply sure_rehash; [exact Hcov|exact Hinv|apply (inv_prime v st Hinv)|].
  apply (inv_count_le v st Hinv).
Qed.

Lemma sure_ensureCapacityBeforeInsert v :
  covering v -> sure_step v (ensureCapacityBeforeInsert v).
Proof.
  intros Hcov st Hinv. unfold ensureCapacityBeforeInsert. unfold bind at 1. unfold get.
  pose proof (inv_size_pos v st Hinv) as Hsz.
  pose proof (inv_count_le v st Hinv) as Hc.
  destruct (growth_target_gt (size st) Hsz) as (_ & Hge & _).
  destruct (load_gt st 68 100).
  - destruct (negb _).
    + apply sure_rehash; [exact Hcov|exact Hinv|apply nextPrime_table_prime|lia].
    + apply sure_ret, Hinv.
  - destruct (_ && _).
    + apply sure_compaction; assumption.
    + apply sure_ret, Hinv.
Qed.

Lemma sure_compactAfterInsert v : covering v -> sure_step v (compactAfterInsert v).
Proof.
  intros Hcov st Hinv. unfold compactAfterInsert. unfold bind at 1. unfold get.
  destruct (_ && _).
  - apply sure_compaction; assumption.
  - apply sure_ret, Hinv.
Qed.

Lemma sure_maintainAfterInsert v : covering v -> sure_step v (maintainAfterInsert v).
Proof.
  intros Hcov st Hinv. unfold maintainAfterInsert. unfold bind at 1. unfold get.
  pose proof (inv_size_pos v st Hinv) as Hsz.
  pose proof (inv_count_le v st Hinv) as Hc.
  destruct (growth_target_gt (size st) Hsz) as (_ & _ & Hge).
  destruct (load_gt st 72 100).
  - destruct (negb _).
    + apply sure_rehash; [exact Hcov|exact Hinv|apply nextPrime_table_prime|lia].
    + apply sure_compactAfterInsert; assumption.
  - apply sure_compactAfterInsert; assumption.
Qed.

Lemma sure_compactAfterRemoval v : covering v -> sure_step v (compactAfterRemoval v).
Proof.
  intros Hcov st Hinv. unfold compactAfterRemoval. unfold bind at 1. unfold get.
  destruct (_ && _).
  - apply sure_compaction; assumption.
  - apply sure_ret, Hinv.
Qed.

Lemma sure_maintainAfterRemoval v : covering v -> sure_step v (maintainAfterRemoval v).
Proof.
  intros Hcov st Hinv. unfold maintainAfterRemoval. unfold bind at 1. unfold get.
  pose proof (inv_size_pos v st Hinv) as Hsz.
  destruct (MIN_TABLE_SIZE <? size st); [|apply sure_ret, Hinv].
  destruct ((0 <? count st) && load_lt st 3 10) eqn:Elow.
  - destruct (_ <? size st).
    + apply sure_rehash; [exact Hcov|exact Hinv|apply previousPrime_table_prime|].
      apply andb_prop in Elow. destruct Elow as [_ Hload].
      unfold load_lt, ratio_lt in Hload.
      destruct (Z.eqb_spec (size st) 0) as [?|_]; [lia|].
      apply Z.ltb_lt in Hload. apply shrink_target_fits; [exact Hsz|lia].
    + apply sure_compactAfterRemoval; assumption.
  - apply sure_compactAfterRemoval; assumption.
Qed.

(** After the capacity check there is a free slot, unless the table has
    the maximum size. *)
Lemma ensureCapacity_room v st pre st1 :
  covering v -> inv v st ->
  ensureCapacityBeforeInsert v st = (Ret pre, st1) ->
  count st1 < size st1 \/ size st1 = MAX_TABLE_SIZE.
Proof.
  intros Hcov Hinv. unfold ensureCapacityBeforeInsert. unfold bind at 1. unfold get.
  pose proof (inv_size_pos v st Hinv) as Hsz.
  pose proof (inv_count_le v st Hinv) as Hc.
  destruct (growth_target_gt (size st) Hsz) as (Hgt & Hge & _).
  unfold MAX_TABLE_SIZE.
  destruct (load_gt st 68 100) eqn:Eload.
  - destruct (Z.eqb_spec (nextPrime (ceil_mul_1_6 (size st))) (size st)) as [Heq|Hne];
      cbn [negb].
    + unfold ret. intros H. inversion H; subst st1. right. lia.
    + destruct (rehash_sure v st (nextPrime (ceil_mul_1_6 (size st)))
                  (LPreemptiveGrowth (count st) (size st) (nextPrime (ceil_mul_1_6 (size st))))
                  Hcov Hinv (nextPrime_table_prime _) ltac:(lia))
        as (st' & Hrun & _ & _ & Hcount & Hsize).
      rewrite Hrun. intros H. inversion H; subst st1. left. lia.
  - assert (Hroom : count st < size st).
    { unfold load_gt, ratio_gt in Eload.
      destruct (Z.eqb_spec (size st) 0) as [?|_]; [lia|].
      apply Z.ltb_ge in Eload. lia. }
    destruct (_ && _).
    + destruct (rehash_sure v st (size st) LTombstonesBuildingUp
                  Hcov Hinv (inv_prime v st Hinv) ltac:(lia))
        as (st' & Hrun & _ & _ & Hcount & Hsize).
      rewrite Hrun. intros H. inversion H; subst st1. left. lia.
    + unfold ret. intros H. inversion H; subst st1. left. exact Hroom.
Qed.

(** A covering probe that meets only other keys has seen a full
    table. *)
Lemma covered_full v st key :
  covering v -> inv v st ->
  (forall j : nat, Z.of_nat j < size st ->
     exists k, slot v st key (Z.of_nat j) = Key k /\ k <> key) ->
  count st = size st.
Proof.
  intros Hcov Hinv Hall.
  pose proof (inv_size_pos v st Hinv) as Hsz.
  rewrite (inv_count v st Hinv), all_keys_live.
  - rewrite (inv_length v st Hinv). lia.
  - apply Forall_lookup. intros i e Hi.
    pose proof (lookup_lt_Some _ _ _ Hi) as Hlt. rewrite (inv_length v st Hinv) in Hlt.
    destruct (Hcov (size st) (inv_prime v st Hinv) st key (Z.of_nat i) eq_refl ltac:(lia))
      as (a & Ha & Hidx).
    destruct (Hall a Ha) as (k & Hk & _).
    exists k. rewrite <- Hk. unfold slot. rewrite Hidx.
    symmetry. apply arr_get_lookup; [lia|]. rewrite Nat2Z.id. exact Hi.
Qed.

(** One activation of insert never throws; it is left pending only on a
    full table of the maximum size. *)
Lemma insert_attempt_covering v key st :
  covering v -> inv v st ->
  exists x st1,
    insert_attempt v key st = (Ret x, st1)
    /\ forall lg, x = inr lg ->
         inv v st1 /\ same_keys st1 st
         /\ size st1 = MAX_TABLE_SIZE /\ count st1 = MAX_TABLE_SIZE
         /\ ~ In key (live_keys (table st)).
Proof.
  intros Hcov Hinv.
  destruct (insert_attempt_cases v key st Hinv)
    as (o1 & st1 & Hpre & Hinv1 & Hsub1 & Hsame1 & Hcase).
  destruct (sure_ensureCapacityBeforeInsert v Hcov st Hinv) as (pre & st1' & Hpre' & _).
  rewrite Hpre in Hpre'. inversion Hpre'; subst o1 st1'. clear Hpre'.
  specialize (Hsame1 eq_refl).
  destruct Hcase as [(Hin & r & Heq & Hs)
                    |[(Hfresh & st2 & Hinv2 & Hsz2 & Hc2 & Hkeys2 & Hm)
                     |(Hfresh & Hall & lg & Heq)]].
  - exists (inl r), st1. split; [exact Heq|]. intros lg Hlg. discriminate.
  - destruct (sure_maintainAfterInsert v Hcov st2 Hinv2) as (more & st3 & Hm3 & _).
    rewrite Hm3 in Hm. destruct Hm as (r & Heq & _).
    exists (inl r), st3. split; [exact Heq|]. intros lg Hlg. discriminate.
  - exists (inr lg), st1. split; [exact Heq|]. intros lg' _.
    pose proof (covered_full v st1 key Hcov Hinv1 Hall) as Hfull.
    destruct (ensureCapacity_room v st pre st1 Hcov Hinv Hpre) as [Hroom|Hmax]; [lia|].
    split; [exact Hinv1|]. split; [exact Hsame1|]. split; [exact Hmax|].
    split; [lia|]. intros Hk. apply Hfresh, Hsame1, Hk.
Qed.

(** insert returns at once when the table holds fewer than 199 keys or
    already holds the key. *)
Lemma insert_covering_returns v rawKey st :
  covering v -> inv v st ->
  count st < MAX_TABLE_SIZE \/ In (normaliseKey rawKey) (live_keys (table st)) ->
  exists r st', insert v 1 rawKey st = Some (Ret r, st').
Proof.
  intros Hcov Hinv Hroom. cbn [insert].
  destruct (insert_attempt_covering v (normaliseKey rawKey) st Hcov Hinv)
    as (x & st1 & Heq & Hpending).
  rewrite Heq. destruct x as [r|lg].
  - exists r, st1. reflexivity.
  - exfalso. destruct (Hpending lg eq_refl) as (Hinv1 & Hsame1 & _ & Hc1 & Hfresh).
    destruct Hroom as [Hlt|Hin]; [|contradiction].
    rewrite (same_keys_count v st st1 Hinv Hinv1 Hsame1) in Hc1. lia.
Qed.

(** On a table that holds 199 keys, inserting one more never returns. *)
Lemma insert_covering_full v :
  covering v ->
  forall fuel rawKey st,
    inv v st -> count st = MAX_TABLE_SIZE ->
    ~ In (normaliseKey rawKey) (live_keys (table st)) ->
    insert v fuel rawKey st = None.
Proof.
  intros Hcov. induction fuel as [|fuel IH]; intros rawKey st Hinv Hfull Hfresh; [reflexivity|].
  set (key := normaliseKey rawKey) in *.
  destruct (insert v (S fuel) rawKey st) as [[o st']|] eqn:Erun; [|reflexivity].
  exfalso.
  pose proof (insert_inv v (S fuel) rawKey st o st' Hinv Erun) as Hspec.
  cbn [insert] in Erun. fold key in Erun.
  destruct (insert_attempt_covering v key st Hcov Hinv) as (x & st1 & Heq & Hpending).
  rewrite Heq in Erun. destruct x as [r|lg].
  - inversion Erun; subst o st'. destruct Hspec as (Hinv' & _ & Hret).
    destruct (Hret r eq_refl) as (Hin & Hkeep & _). fold key in Hin.
    assert (Hlen : (length (key :: live_keys (table st)) <= length (live_keys (table st1)))%nat).
    { apply submseteq_length, NoDup_submseteq.
      - apply NoDup_cons. split; [rewrite list_elem_of_In; exact Hfresh|].
        apply (inv_nodup v st Hinv).
      - intros k Hk. apply list_elem_of_In. apply list_elem_of_In in Hk.
        destruct Hk as [<-|Hk]; [exact Hin|apply Hkeep, Hk]. }
    cbn [length] in Hlen.
    pose proof (inv_count_le v st1 Hinv') as Hle. rewrite (inv_count v st1 Hinv') in Hle.
    pose proof (inv_size_pos v st1 Hinv') as Hsz'.
    rewrite (inv_count v st Hinv) in Hfull. unfold MAX_TABLE_SIZE in Hfull. lia.
  - destruct (Hpending lg eq_refl) as (Hinv1 & Hsame1 & Hsz1 & Hc1 & _).
    assert (Htarget : nextPrime (ceil_mul_1_6 (size st1)) = MAX_TABLE_SIZE).
    { rewrite Hsz1. vm_compute. reflexivity. }
    rewrite Htarget in Erun.
    destruct (rehash_sure v st1 MAX_TABLE_SIZE LSaturated Hcov Hinv1)
      as (st2 & Hre & Hinv2 & Hsame2 & Hc2 & _).
    { rewrite <- Hsz1. apply (inv_prime v st1 Hinv1). }
    { lia. }
    rewrite Hre in Erun.
    rewrite (IH key st2 Hinv2) in Erun; [discriminate|lia|].
    assert (Hidem : normaliseKey key = key) by apply normaliseKey_idempotent.
    rewrite Hidem. intros Hk. apply Hfresh, Hsame1, Hsame2, Hk.
Qed.

(** insert never throws. *)
Lemma insert_covering_no_throw v :
  covering v ->
  forall fuel rawKey st o st',
    inv v st -> insert v fuel rawKey st = Some (o, st') -> returned o = true.
Proof.
  intros Hcov. induction fuel as [|fuel IH]; intros rawKey st o st' Hinv Hrun; [discriminate|].
  cbn [insert] in Hrun.
  destruct (insert_attempt_covering v (normaliseKey rawKey) st Hcov Hinv)
    as (x & st1 & Heq & Hpending).
  rewrite Heq in Hrun. destruct x as [r|lg].
  - inversion Hrun. reflexivity.
  - destruct (Hpending lg eq_refl) as (Hinv1 & _ & Hsz1 & Hc1 & _).
    assert (Htarget : nextPrime (ceil_mul_1_6 (size st1)) = MAX_TABLE_SIZE).
    { rewrite Hsz1. vm_compute. reflexivity. }
    rewrite Htarget in Hrun.
    destruct (rehash_sure v st1 MAX_TABLE_SIZE LSaturated Hcov Hinv1)
      as (st2 & Hre & Hinv2 & _).
    { rewrite <- Hsz1. apply (inv_prime v st1 Hinv1). }
    { lia. }
    rewrite Hre in Hrun.
    destruct (insert v fuel (normaliseKey rawKey) st2) as [[o3 st3]|] eqn:Erec; [|discriminate].
    pose proof (IH _ _ _ _ Hinv2 Erec) as Hret.
    destruct o3; [inversion Hrun; reflexivity|discriminate].
Qed.

(** remove never throws. *)
Lemma remove_covering v rawKey st :
  covering v -> inv v st -> exists r st', remove v rawKey st = (Ret r, st').
Proof.
  intros Hcov Hinv. set (key := normaliseKey rawKey).
  pose proof (inv_size_pos v st Hinv) as Hsz.
  destruct (List.in_dec (List.list_eq_dec Z.eq_dec) key (live_keys (table st))) as [Hin|Hout].
  - destruct (inv_findable v st Hinv key Hin) as (a & Ha & Hpre & Hkey).
    destruct (first_such (fun j => is_key (slot v st key (Z.of_nat j)) key) (S a))
      as (a0 & Ha0 & Hkey0 & Hmin).
    { exists a. split; [lia|exact Hkey]. }
    destruct (tombstoned_inv v st key a0 Hinv ltac:(lia) Hkey0) as (Hinv1 & _).
    destruct (sure_maintainAfterRemoval v Hcov _ Hinv1) as (more & st2 & Hm & _).
    unfold remove. unfold bind at 1. unfold get. fold key.
    rewrite (remove_loop_found v key (createContext v st key) st (Z.to_nat (size st)) a0 0);
      [| lia | | exact Hkey0].
    + cbv zeta.
      change (probeInfo v st (createContext v st key) (0 + Z.of_nat a0))
        with (probe_index v st key (Z.of_nat a0)).
      rewrite Hm. eexists _, _. reflexivity.
    + intros j Hj. split; [apply Hpre; lia|apply Hmin, Hj].
  - destruct (remove_loop_absent v key (createContext v st key) st (Z.to_nat (size st)) 0
                (logContext v (createContext v st key) key) [] (absent_everywhere st key Hout))
      as (r & Hr & _).
    exists r, st. exact Hr.
Qed.

End Covering.

(** * Separate chaining: what the operations do to a sound table *)

Section ChainingOperations.
Import Chaining ChainingSpec ChainingInv.

Ltac munfold := unfold bind, get, modify, ret, throw in *.

(** A list as long as a duplicate-free list whose elements it holds is
    duplicate-free. *)
Lemma nodup_transfer (l l' : list jsstring) :
  NoDup l -> length l' = length l -> (forall k, In k l -> In k l') -> NoDup l'.
Proof.
  intros Hnd Hlen Hin. apply NoDup_ListNoDup.
  apply (@List.NoDup_incl_NoDup _ l l'); [apply NoDup_ListNoDup, Hnd|lia|exact Hin].
Qed.

Lemma sound_count st : sound st -> count st = Z.of_nat (length (concat (table st))).
Proof. intros ((_ & _ & _ & Hc) & _). exact Hc. Qed.

Lemma rehash_sound st newSize message :
  sound st -> MIN_TABLE_SIZE <= newSize <= MAX_TABLE_SIZE ->
  exists st',
    rehash newSize message st = (Ret [message], st')
    /\ sound st' /\ size st' = newSize /\ count st' = count st
    /\ (forall k, stored st' k <-> stored st k).
Proof.
  intros Hs Hn. pose proof (sound_count st Hs) as Hc.
  destruct Hs as (Hwf & Hnd & Hsz).
  unfold MIN_TABLE_SIZE in Hn.
  destruct (rehash_spec st newSize message ltac:(lia)) as (st' & Hrun & Hwf' & Hsz' & Hc' & Hs').
  exists st'. split; [exact Hrun|]. split; [|split; [exact Hsz'|split; [lia|exact Hs']]].
  split; [exact Hwf'|]. split; [|rewrite Hsz'; exact Hn].
  apply (nodup_transfer (concat (table st))); [exact Hnd| |intros k Hk; apply Hs', Hk].
  destruct Hwf' as (_ & _ & _ & Hcount'). lia.
Qed.

Lemma maintainAfterInsert_sound st :
  sound st ->
  exists more st',
    maintainAfterInsert st = (Ret more, st')
    /\ sound st' /\ count st' = count st
    /\ (forall k, stored st' k <-> stored st k)
    /\ size st <= size st'.
Proof.
  intros Hs. unfold maintainAfterInsert. unfold bind at 1. unfold get.
  assert (Hsame : exists more st',
             ret (S := state) ([] : list log) st = (Ret more, st')
             /\ sound st' /\ count st' = count st
             /\ (forall k, stored st' k <-> stored st k)
             /\ size st <= size st').
  { exists [], st. split; [reflexivity|]. split; [exact Hs|]. split; [reflexivity|].
    split; [tauto|lia]. }
  destruct (growth_due st); [|exact Hsame].
  destruct (negb _); [|exact Hsame].
  match goal with |- context [rehash ?n ?m st] =>
    destruct (rehash_sound st n m Hs (nextPrime_range _)) as (st' & Hrun & Hs' & Hsz' & Hc' & Hk')
  end.
  eexists _, st'. split; [exact Hrun|]. split; [exact Hs'|]. split; [exact Hc'|].
  split; [exact Hk'|]. rewrite Hsz'.
  destruct Hs as (_ & _ & Hrange). unfold MIN_TABLE_SIZE, MAX_TABLE_SIZE in Hrange.
  destruct (growth_target_gt (size st) Hrange) as (_ & Hge & _). exact Hge.
Qed.

Lemma maintainAfterRemoval_sound st :
  sound st ->
  exists more st',
    maintainAfterRemoval st = (Ret more, st')
    /\ sound st' /\ count st' = count st
    /\ (forall k, stored st' k <-> stored st k)
    /\ size st' <= size st.
Proof.
  intros Hs. unfold maintainAfterRemoval. unfold bind at 1. unfold get.
  assert (Hsame : exists more st',
             ret (S := state) ([] : list log) st = (Ret more, st')
             /\ sound st' /\ count st' = count st
             /\ (forall k, stored st' k <-> stored st k)
             /\ size st' <= size st).
  { exists [], st. split; [reflexivity|]. split; [exact Hs|]. split; [reflexivity|].
    split; [tauto|lia]. }
  destruct (_ && _); [|exact Hsame].
  destruct (Z.ltb_spec (previousPrime (Z.max MIN_TABLE_SIZE (floor_div_1_5 (size st)))) (size st))
    as [Hlt|_]; [|exact Hsame].
  match goal with |- context [rehash ?n ?m st] =>
    destruct (rehash_sound st n m Hs) as (st' & Hrun & Hs' & Hsz' & Hc' & Hk')
  end.
  { destruct (previousPrime_table_prime (Z.max MIN_TABLE_SIZE (floor_div_1_5 (size st))))
      as [Hr _]. exact Hr. }
  eexists _, st'. split; [exact Hrun|]. split; [exact Hs'|]. split; [exact Hc'|].
  split; [exact Hk'|]. lia.
Qed.

Lemma appended_sound st key :
  sound st -> ~ stored st key -> sound (appended st key).
Proof.
  intros (Hwf & Hnd & Hsz) Hfresh.
  destruct (appended_wf st key Hwf) as (Hwf1 & Hsz1 & Hc1 & Hk1).
  split; [exact Hwf1|]. split; [|rewrite Hsz1; exact Hsz].
  apply (nodup_transfer (key :: concat (table st))).
  - apply NoDup_cons. split; [rewrite list_elem_of_In; exact Hfresh|exact Hnd].
  - destruct Hwf as (_ & _ & _ & Hc). destruct Hwf1 as (_ & _ & _ & Hc').
    cbn [length]. lia.
  - intros k Hk. apply Hk1. destruct Hk as [<-|Hk]; [left; reflexivity|right; exact Hk].
Qed.

(** insert never fails: it reports a duplicate and leaves the table as
    it is, or stores the key. *)
Lemma insert_sound st rawKey :
  sound st ->
  let key := normaliseKey rawKey in
  exists r st',
    insert rawKey st = (Ret r, st')
    /\ sound st'
    /\ (forall k, stored st' k <-> k = key \/ stored st k)
    /\ ((res_status r = duplicate /\ stored st key /\ st' = st)
        \/ (res_status r = inserted /\ ~ stored st key /\ count st' = count st + 1))
    /\ size st <= size st'.
Proof.
  intros Hs key. pose proof Hs as (Hwf & Hnd & Hsz).
  destruct (wf_bucket st key Hwf) as (bucket & Hb & Hb').
  pose proof (stored_bucket st key bucket Hwf Hb') as Hst.
  destruct (includes bucket key) eqn:Einc.
  - assert (Hin : stored st key) by (apply Hst, includes_In, Einc).
    unfold insert. fold key. unfold bind at 1. unfold get. rewrite Hb, Einc.
    eexists _, st. split; [reflexivity|]. split; [exact Hs|]. split; [|split; [|lia]].
    + intros k. split; [tauto|]. intros [->|Hk]; [exact Hin|exact Hk].
    + left. split; [reflexivity|]. split; [exact Hin|reflexivity].
  - assert (Hfresh : ~ stored st key).
    { intros H. apply Hst, includes_In in H. congruence. }
    destruct (insert_fresh_eq st rawKey Hwf Hfresh) as (lg & hl & _ & Hins). fold key in Hins.
    destruct (appended_wf st key Hwf) as (_ & Hsz1 & Hc1 & Hk1).
    destruct (maintainAfterInsert_sound _ (appended_sound st key Hs Hfresh))
      as (more & st' & Hm & Hs' & Hc' & Hk' & Hsz').
    rewrite Hm in Hins.
    eexists _, st'. split; [exact Hins|]. split; [exact Hs'|]. split; [|split; [|lia]].
    + intros k. rewrite Hk'. apply Hk1.
    + right. split; [reflexivity|]. split; [exact Hfresh|lia].
Qed.

Lemma indexOf_lookup bucket key : forall from,
  indexOf bucket key from <> -1 -> 0 <= from ->
  bucket !! Z.to_nat (indexOf bucket key from - from) = Some key.
Proof.
  induction bucket as [|k bucket IH]; intros from Hne Hfrom; cbn [indexOf] in *; [congruence|].
  unfold jsstring_eqb in *. destruct (bool_decide_reflect (k = key)) as [->|Hk].
  - replace (from - from) with 0 by lia. reflexivity.
  - pose proof (indexOf_range bucket key (from + 1) Hne ltac:(lia)) as Hr.
    specialize (IH (from + 1) Hne ltac:(lia)).
    replace (Z.to_nat (indexOf bucket key (from + 1) - from))
      with (S (Z.to_nat (indexOf bucket key (from + 1) - (from + 1)))) by lia.
    exact IH.
Qed.

(** Cutting one key out of its chain. *)
Lemma spliced_sound st key bucket :
  sound st ->
  table st !! Z.to_nat (primaryIndex (size st) key) = Some bucket ->
  indexOf bucket key 0 <> -1 ->
  let st1 := mkState (size st)
               (<[Z.to_nat (primaryIndex (size st) key)
                  := splice1 bucket (indexOf bucket key 0)]> (table st))
               (count st - 1) in
  sound st1 /\ (forall k, stored st1 k <-> k <> key /\ stored st k).
Proof.
  intros (Hwf & Hnd & Hsz) Hb Hne st1.
  set (idx := Z.to_nat (primaryIndex (size st) key)) in *.
  set (p := indexOf bucket key 0) in *.
  pose proof (indexOf_range bucket key 0 Hne ltac:(lia)) as Hr. fold p in Hr.
  pose proof (indexOf_lookup bucket key 0 Hne ltac:(lia)) as Hp. fold p in Hp.
  rewrite Z.sub_0_r in Hp.
  pose proof (lookup_lt_Some _ _ _ Hb) as Hidx.
  assert (Hold : concat (table st)
                 = (concat (take idx (table st)) ++ take (Z.to_nat p) bucket)
                     ++ key :: (drop (S (Z.to_nat p)) bucket
                                  ++ concat (drop (S idx) (table st)))).
  { rewrite <- (take_drop_middle (table st) idx bucket Hb) at 1.
    rewrite concat_app. cbn [concat].
    rewrite <- (take_drop_middle bucket (Z.to_nat p) key Hp) at 1.
    rewrite <- !app_assoc. reflexivity. }
  assert (Hnew : concat (table st1)
                 = (concat (take idx (table st)) ++ take (Z.to_nat p) bucket)
                     ++ (drop (S (Z.to_nat p)) bucket
                           ++ concat (drop (S idx) (table st)))).
  { unfold st1. cbn [table]. rewrite insert_take_drop by exact Hidx.
    rewrite concat_app. cbn [concat]. unfold splice1.
    rewrite <- !app_assoc. reflexivity. }
  assert (Hperm : concat (table st) ≡ₚ key :: concat (table st1)).
  { rewrite Hold, Hnew. symmetry. apply Permutation_middle. }
  assert (Hnd1 : NoDup (key :: concat (table st1))).
  { rewrite <- Hperm. exact Hnd. }
  apply NoDup_cons in Hnd1. destruct Hnd1 as [Hout Hnd1]. rewrite list_elem_of_In in Hout.
  assert (Hkeys : forall k, stored st1 k <-> k <> key /\ stored st k).
  { intros k. unfold stored. split.
    - intros Hk. split; [intros ->; contradiction|].
      apply list_elem_of_In. rewrite Hperm. apply list_elem_of_In. right. exact Hk.
    - intros [Hk Hin]. apply list_elem_of_In in Hin. rewrite Hperm in Hin.
      apply list_elem_of_In in Hin. destruct Hin as [<-|Hin]; [congruence|exact Hin]. }
  split; [|exact Hkeys].
  split; [|split; [exact Hnd1|exact Hsz]].
  destruct Hwf as (Hpos & Hl & Hhome & Hcount).
  split; [exact Hpos|]. unfold st1. cbn [size table count]. split; [|split].
  - rewrite length_insert. exact Hl.
  - intros i b k Hi Hk. destruct (decide (i = idx)) as [->|Hni].
    + rewrite list_lookup_insert_eq in Hi by exact Hidx.
      inversion Hi; subst b. eapply Hhome; [exact Hb|].
      destruct (splice1_spec bucket p ltac:(lia)) as [_ Hsub]. apply Hsub, Hk.
    + rewrite list_lookup_insert_ne in Hi by congruence. eapply Hhome; eassumption.
  - apply Permutation_length in Hperm. cbn [length] in Hperm.
    fold idx. change (<[idx:=splice1 bucket p]> (table st)) with (table st1).
    lia.
Qed.

(** remove never fails: it cuts the key out of its chain, or reports it
    missing and leaves the table as it is. *)
Lemma remove_sound st rawKey :
  sound st ->
  let key := normaliseKey rawKey in
  exists r st',
    remove rawKey st = (Ret r, st')
    /\ sound st'
    /\ (forall k, stored st' k <-> k <> key /\ stored st k)
    /\ ((res_status r = removed /\ stored st key /\ count st' = count st - 1)
        \/ (res_status r = missing /\ ~ stored st key /\ st' = st))
    /\ size st' <= size st.
Proof.
  intros Hs key. pose proof Hs as (Hwf & Hnd & Hsz).
  destruct (wf_bucket st key Hwf) as (bucket & Hb & Hb').
  pose proof (stored_bucket st key bucket Hwf Hb') as Hst.
  unfold remove. fold key. unfold bind at 1. unfold get. rewrite Hb.
  destruct (Z.eqb_spec (indexOf bucket key 0) (-1)) as [Heq|Hne].
  - assert (Hout : ~ stored st key).
    { rewrite Hst. apply (indexOf_In bucket key 0); [lia|exact Heq]. }
    eexists _, st. split; [reflexivity|]. split; [exact Hs|]. split; [|split; [|lia]].
    + intros k. split; [|tauto]. intros Hk. split; [intros ->; contradiction|exact Hk].
    + right. split; [reflexivity|]. split; [exact Hout|reflexivity].
  - assert (Hin : stored st key).
    { rewrite Hst. destruct (List.in_dec (List.list_eq_dec Z.eq_dec) key bucket) as [H|H];
        [exact H|]. exfalso. apply Hne. apply (indexOf_In bucket key 0); [lia|exact H]. }
    destruct (spliced_sound st key bucket Hs Hb' Hne) as (Hs1 & Hk1).
    destruct (maintainAfterRemoval_sound _ Hs1) as (more & st' & Hm & Hs' & Hc' & Hk' & Hsz').
    munfold. unfold set_table, set_count. cbn [size table count].
    cbn [size table count] in Hm, Hsz'. rewrite Hm.
    eexists _, st'. split; [reflexivity|]. split; [exact Hs'|]. split; [|split; [|exact Hsz']].
    + intros k. rewrite Hk'. apply Hk1.
    + left. split; [reflexivity|]. split; [exact Hin|].
      rewrite Hc'. reflexivity.
Qed.

Lemma init_sound sz :
  MIN_TABLE_SIZE <= sz <= MAX_TABLE_SIZE -> sound (init sz).
Proof.
  intros Hsz. unfold MIN_TABLE_SIZE in Hsz.
  destruct (init_wf sz ltac:(lia)) as [Hwf Hnone].
  split; [exact Hwf|]. split; [|exact Hsz].
  destruct (concat (table (init sz))) as [|k l] eqn:E; [apply NoDup_nil_2|].
  exfalso. apply (Hnone k). unfold stored. rewrite E. left. reflexivity.
Qed.

Lemma run_sound acts : forall st, sound st -> sound (ChainingController.run acts st).
Proof.
  induction acts as [|a acts IH]; intros st Hs; [exact Hs|].
  cbn [ChainingController.run]. destruct (bool_decide _); [apply IH, Hs|].
  apply IH. destruct a as [k|k|k]; cbn [ChainingController.handleAction].
  - destruct (insert_sound st (trim k) Hs) as (r & st' & Hr & Hs' & _). rewrite Hr. exact Hs'.
  - destruct (search_spec st (trim k) (proj1 Hs)) as (r & Hr & _). rewrite Hr. exact Hs.
  - destruct (remove_sound st (trim k) Hs) as (r & st' & Hr & Hs' & _). rewrite Hr. exact Hs'.
Qed.

Lemma reachable_sound st : ChainingController.reachable st -> sound st.
Proof.
  intros (sz & acts & <-). apply run_sound, init_sound.
  unfold normaliseSizeForChaining, clampTableSize, MIN_TABLE_SIZE, MAX_TABLE_SIZE. lia.
Qed.

End ChainingOperations.

(** * The prime utilities *)

Section Primes.

(** The trial division by 6k - 1 and 6k + 1. *)
Lemma isPrime_loop_true fuel : forall i n,
  5 <= i -> n - i < Z.of_nat fuel ->
  isPrime_loop fuel i n = true ->
  forall k, 0 <= k -> (i + 6 * k) * (i + 6 * k) <= n ->
    n mod (i + 6 * k) <> 0 /\ n mod (i + 6 * k + 2) <> 0.
Proof.
  induction fuel as [|fuel IH]; intros i n Hi Hfuel Hrun k Hk Hsq.
  - exfalso. change (Z.of_nat 0) with 0 in Hfuel. nia.
  - cbn [isPrime_loop] in Hrun.
    destruct (Z.leb_spec (i * i) n) as [Hle|Hgt]; [|nia].
    destruct ((n mod i =? 0) || (n mod (i + 2) =? 0)) eqn:Ediv; [discriminate|].
    apply orb_false_elim in Ediv. destruct Ediv as [E1 E2].
    apply Z.eqb_neq in E1, E2.
    destruct (Z.eq_dec k 0) as [->|Hk0].
    + replace (i + 6 * 0) with i by lia. split; assumption.
    + specialize (IH (i + 6) n ltac:(lia) ltac:(lia) Hrun (k - 1) ltac:(lia)).
      replace (i + 6 + 6 * (k - 1)) with (i + 6 * k) in IH by lia.
      apply IH, Hsq.
Qed.

Lemma isPrime_loop_complete fuel : forall i n,
  5 <= i ->
  (forall d, 1 < d < n -> n mod d <> 0) ->
  isPrime_loop fuel i n = true.
Proof.
  induction fuel as [|fuel IH]; intros i n Hi Hnone; [reflexivity|].
  cbn [isPrime_loop].
  destruct (Z.leb_spec (i * i) n) as [Hle|Hgt]; [|reflexivity].
  assert (H1 : n mod i <> 0) by (apply Hnone; nia).
  assert (H2 : n mod (i + 2) <> 0) by (apply Hnone; nia).
  apply Z.eqb_neq in H1, H2. rewrite H1, H2. cbn [orb].
  apply IH; [lia|exact Hnone].
Qed.

Lemma mod_divisor n d m : 0 < d -> 0 < m -> n mod d = 0 -> d mod m = 0 -> n mod m = 0.
Proof.
  intros Hd Hm Hn Hdm.
  apply Z.mod_divide in Hn; [|lia]. apply Z.mod_divide in Hdm; [|lia].
  apply Z.mod_divide; [lia|]. eapply Z.divide_trans; eassumption.
Qed.

(** isPrime decides primality. *)
Lemma isPrime_spec n : isPrime n = true <-> Z.prime n.
Proof.
  unfold Z.prime. split.
  - intros Hrun. unfold isPrime in Hrun.
    destruct (Z.leb_spec n 1) as [|Hn1]; [discriminate|]. split; [lia|].
    intros d Hd Hdiv.
    destruct (Z.leb_spec n 3) as [Hn3|Hn3].
    { destruct Hdiv as [q Hq]. assert (d = 2) by lia. assert (n = 3) by lia. subst. lia. }
    destruct ((n mod 2 =? 0) || (n mod 3 =? 0)) eqn:Esmall; [discriminate|].
    apply orb_false_elim in Esmall. destruct Esmall as [E2 E3]. apply Z.eqb_neq in E2, E3.
    (* a divisor no larger than its cofactor *)
    assert (Hsmall : exists e, 1 < e /\ e * e <= n /\ n mod e = 0).
    { destruct Hdiv as [q Hq].
      assert (Hq1 : 1 < q) by nia.
      destruct (Z.le_gt_cases d q).
      - exists d. split; [lia|]. split; [nia|]. apply Z.mod_divide; [lia|]. exists q. exact Hq.
      - exists q. split; [lia|]. split; [nia|]. apply Z.mod_divide; [lia|]. exists d. lia. }
    destruct Hsmall as (e & He1 & Hesq & Hediv).
    assert (He2 : e mod 2 <> 0).
    { intros H. apply E2. apply (mod_divisor n e 2); lia. }
    assert (He3 : e mod 3 <> 0).
    { intros H. apply E3. apply (mod_divisor n e 3); lia. }
    pose proof (Z.div_mod e 6 ltac:(lia)) as Hdm.
    pose proof (Z.mod_pos_bound e 6 ltac:(lia)) as Hr.
    assert (Hcases : e mod 6 = 1 \/ e mod 6 = 5).
    { assert (Hm2 : e mod 2 = (e mod 6) mod 2).
      { rewrite Hdm at 1. replace (6 * (e / 6) + e mod 6) with (e mod 6 + (3 * (e / 6)) * 2) by ring.
        apply Z_mod_plus_full. }
      assert (Hm3 : e mod 3 = (e mod 6) mod 3).
      { rewrite Hdm at 1. replace (6 * (e / 6) + e mod 6) with (e mod 6 + (2 * (e / 6)) * 3) by ring.
        apply Z_mod_plus_full. }
      assert (Hsix : e mod 6 = 0 \/ e mod 6 = 1 \/ e mod 6 = 2 \/ e mod 6 = 3
                     \/ e mod 6 = 4 \/ e mod 6 = 5) by lia.
      destruct Hsix as [H|[H|[H|[H|[H|H]]]]]; rewrite H in Hm2, Hm3;
        try (left; exact H); try (right; exact H); exfalso;
        first [apply He2; rewrite Hm2; reflexivity|apply He3; rewrite Hm3; reflexivity]. }
    assert (Hloop := isPrime_loop_true (Z.to_nat n) 5 n ltac:(lia) ltac:(lia) Hrun).
    destruct Hcases as [H1|H5].
    + assert (He7 : 7 <= e).
      { destruct (Z.eq_dec (e / 6) 0) as [H0|H0]; [lia|].
        assert (0 <= e / 6) by (apply Z.div_pos; lia). lia. }
      destruct (Hloop (e / 6 - 1) ltac:(lia)) as [_ Hno]; [nia|].
      apply Hno. replace (5 + 6 * (e / 6 - 1) + 2) with e by lia. exact Hediv.
    + assert (0 <= e / 6) by (apply Z.div_pos; lia).
      destruct (Hloop (e / 6) ltac:(lia)) as [Hno _]; [nia|].
      apply Hno. replace (5 + 6 * (e / 6)) with e by lia. exact Hediv.
  - intros [Hn Hnone]. unfold isPrime.
    destruct (Z.leb_spec n 1) as [|_]; [lia|].
    destruct (Z.leb_spec n 3) as [|Hn3]; [reflexivity|].
    assert (Hmod : forall d, 1 < d < n -> n mod d <> 0).
    { intros d Hd H. apply (Hnone d Hd). apply Z.mod_divide; [lia|exact H]. }
    pose proof (Hmod 2 ltac:(lia)) as H2. pose proof (Hmod 3 ltac:(lia)) as H3.
    apply Z.eqb_neq in H2, H3. rewrite H2, H3. cbn [orb].
    apply isPrime_loop_complete; [lia|exact Hmod].
Qed.

Lemma clampTableSize_range x : 3 <= clampTableSize x <= 199.
Proof. unfold clampTableSize, MIN_TABLE_SIZE, MAX_TABLE_SIZE. lia. Qed.

Lemma clampTableSize_fixed x : 3 <= x <= 199 -> clampTableSize x = x.
Proof. unfold clampTableSize, MIN_TABLE_SIZE, MAX_TABLE_SIZE. lia. Qed.

Lemma nextPrime_clamp x : nextPrime x = nextPrime (clampTableSize x).
Proof.
  unfold nextPrime. rewrite (clampTableSize_fixed (clampTableSize x)); [reflexivity|].
  apply clampTableSize_range.
Qed.

Lemma previousPrime_clamp x : previousPrime x = previousPrime (clampTableSize x).
Proof.
  unfold previousPrime. rewrite (clampTableSize_fixed (clampTableSize x)); [reflexivity|].
  apply clampTableSize_range.
Qed.

(** The numbers from [a] up to, not including, [b]. *)
Lemma in_between a b m :
  0 <= a -> a <= m < b -> In m (map Z.of_nat (seq (Z.to_nat a) (Z.to_nat (b - a)))).
Proof.
  intros Ha Hm. apply in_map_iff. exists (Z.to_nat m). split; [lia|]. apply in_seq. lia.
Qed.

Lemma nextPrime_least_checked c :
  3 <= c <= 199 ->
  isPrime (nextPrime c) = true /\ c <= nextPrime c
  /\ forall m, c <= m < nextPrime c -> isPrime m = false.
Proof.
  intros Hc.
  pose proof (for_table_sizes
                (fun c => isPrime (nextPrime c) && (c <=? nextPrime c)
                          && forallb (fun m => negb (isPrime m))
                               (map Z.of_nat (seq (Z.to_nat c) (Z.to_nat (nextPrime c - c)))))
                ltac:(vm_compute; reflexivity) c Hc) as H.
  cbv beta in H. apply andb_prop in H. destruct H as [H H3].
  apply andb_prop in H. destruct H as [H1 H2]. apply Z.leb_le in H2.
  split; [exact H1|]. split; [exact H2|].
  intros m Hm. rewrite forallb_forall in H3.
  apply negb_true_iff, H3, in_between; lia.
Qed.

Lemma previousPrime_greatest_checked c :
  3 <= c <= 199 ->
  isPrime (previousPrime c) = true /\ 3 <= previousPrime c <= c
  /\ forall m, previousPrime c < m <= c -> isPrime m = false.
Proof.
  intros Hc.
  pose proof (for_table_sizes
                (fun c => isPrime (previousPrime c)
                          && (3 <=? previousPrime c) && (previousPrime c <=? c)
                          && forallb (fun m => negb (isPrime m))
                               (map Z.of_nat (seq (Z.to_nat (previousPrime c + 1))
                                                  (Z.to_nat (c + 1 - (previousPrime c + 1))))))
                ltac:(vm_compute; reflexivity) c Hc) as H.
  cbv beta in H. apply andb_prop in H. destruct H as [H H4].
  apply andb_prop in H. destruct H as [H H3].
  apply andb_prop in H. destruct H as [H1 H2]. apply Z.leb_le in H2, H3.
  split; [exact H1|]. split; [lia|].
  intros m Hm. rewrite forallb_forall in H4.
  apply negb_true_iff, H4, in_between; lia.
Qed.

End Primes.

(** * The hash function *)

Section Hash.
Import HashSpec.

Lemma lxor_mod_pow2 x y n :
  0 <= n -> Z.lxor x y mod 2 ^ n = Z.lxor (x mod 2 ^ n) (y mod 2 ^ n).
Proof.
  intros Hn. apply Z.bits_inj'. intros i Hi.
  rewrite Z.lxor_spec.
  destruct (Z.lt_ge_cases i n) as [Hlt|Hge].
  - rewrite !Z.mod_pow2_bits_low by lia. apply Z.lxor_spec.
  - rewrite !Z.mod_pow2_bits_high by lia. reflexivity.
Qed.

Lemma to_int32_mod x : to_int32 x mod 2 ^ 32 = x mod 2 ^ 32.
Proof.
  unfold to_int32.
  rewrite Zminus_mod_idemp_l. f_equal. lia.
Qed.

Lemma hash_step_unsigned h c :
  0 <= c < 2 ^ 32 -> to_uint32 (hash_step h c) = fnv1a_step (to_uint32 h) c.
Proof.
  intros Hc. unfold hash_step, imul, fnv1a_step, to_uint32.
  rewrite to_int32_mod.
  rewrite Z.mul_mod by lia. rewrite !to_int32_mod.
  rewrite lxor_mod_pow2 by lia. rewrite !to_int32_mod.
  rewrite (Z.mod_small c) by lia.
  rewrite Z.mul_mod_idemp_r by lia. reflexivity.
Qed.

Lemma fold_hash_unsigned key : forall h,
  Forall code_unit key ->
  to_uint32 (fold_left hash_step key h) = fold_left fnv1a_step key (to_uint32 h).
Proof.
  induction key as [|c key IH]; intros h Hkey; [reflexivity|].
  apply Forall_cons in Hkey. destruct Hkey as [Hc Hkey].
  cbn [fold_left]. rewrite (IH _ Hkey). f_equal.
  apply hash_step_unsigned. unfold code_unit in Hc. lia.
Qed.


(** Code units stay code units under normalisation. *)
Lemma trim_start_units s : Forall code_unit s -> Forall code_unit (trim_start s).
Proof.
  induction 1 as [|c s Hc Hs IH]; [constructor|]. simpl.
  destruct (is_js_space c); [exact IH|constructor; assumption].
Qed.

Lemma trim_units s : Forall code_unit s -> Forall code_unit (trim s).
Proof.
  intros H. unfold trim. apply Forall_rev, trim_start_units, Forall_rev, trim_start_units, H.
Qed.

Lemma digits_units s : forallb is_digit s = true -> Forall code_unit s.
Proof.
  intros H. apply Forall_forall. intros c Hc. apply list_elem_of_In in Hc.
  rewrite forallb_forall in H. specialize (H c Hc). unfold is_digit in H.
  apply andb_prop in H. destruct H as [H1 H2]. apply Z.leb_le in H1, H2.
  unfold code_unit. lia.
Qed.

Lemma literal_units (s : string) :
  forallb (fun c => (0 <=? c) && (c <? 65536)) (str s) = true -> Forall code_unit (str s).
Proof.
  intros H. apply Forall_forall. intros c Hc. apply list_elem_of_In in Hc.
  rewrite forallb_forall in H. specialize (H c Hc).
  apply andb_prop in H. destruct H as [H1 H2]. apply Z.leb_le in H1. apply Z.ltb_lt in H2.
  unfold code_unit. lia.
Qed.

Lemma magnitude_to_string_units m : Forall code_unit (magnitude_to_string m).
Proof.
  unfold magnitude_to_string.
  destruct (m =? 0); [apply literal_units; reflexivity|]. cbv zeta.
  destruct (_ <=? 21); [apply digits_units, digits_all_digits|].
  pose proof (digits_units _ (digits_all_digits (significand (shortest m)))) as Hsig.
  pose proof (digits_units _ (digits_all_digits (num_digits (shortest m) - 1))) as Hexp.
  destruct (digits (significand (shortest m))) as [|d [|d' ds]]; [constructor| |].
  - apply Forall_cons in Hsig. destruct Hsig as [Hd _].
    constructor; [exact Hd|]. apply Forall_app. split; [apply literal_units; reflexivity|exact Hexp].
  - apply Forall_cons in Hsig. destruct Hsig as [Hd Hds].
    constructor; [exact Hd|]. apply Forall_app. split; [apply literal_units; reflexivity|].
    apply Forall_app. split; [exact Hds|].
    apply Forall_app. split; [apply literal_units; reflexivity|exact Hexp].
Qed.

Lemma normaliseKey_units rawKey :
  Forall code_unit rawKey -> Forall code_unit (normaliseKey rawKey).
Proof.
  intros H. unfold normaliseKey.
  destruct (is_integer_literal (trim rawKey)); [|apply trim_units, H].
  destruct (parseInt (trim rawKey)) as [neg m|neg]; cbn [number_to_string].
  - destruct (neg && negb (m =? 0)); [constructor; [unfold code_unit; lia|]|];
      apply magnitude_to_string_units.
  - destruct neg; apply literal_units; reflexivity.
Qed.

(** hashCode is the 32-bit FNV-1a hash of the normalised key. *)
Lemma hashCode_fnv1a rawKey :
  Forall code_unit rawKey -> hashCode rawKey = fnv1a (normaliseKey rawKey).
Proof.
  intros H. unfold hashCode, fnv1a.
  rewrite (fold_hash_unsigned _ _ (normaliseKey_units rawKey H)). reflexivity.
Qed.

End Hash.

(** * Quadratic probing, the renderer's views, and the first closure *)

Section QuadraticProbe.
Import Open OpenSpec.

(** Attempts [a] and [size - a] of a quadratic probe visit the same
    slot. *)
Lemma quadratic_mirror st key a :
  probe_index Quadratic st key (size st - a) = probe_index Quadratic st key a.
Proof.
  unfold probe_index, probeInfo, createContext. cbn [base].
  set (b := primaryIndex (size st) key). set (n := size st).
  replace (b + (n - a) * (n - a)) with (b + a * a + (n - 2 * a) * n) by ring.
  apply Z_mod_plus_full.
Qed.

Lemma quadratic_half st key (a : nat) :
  Z.of_nat a < size st ->
  exists a' : nat,
    2 * Z.of_nat a' <= size st
    /\ probe_index Quadratic st key (Z.of_nat a) = probe_index Quadratic st key (Z.of_nat a').
Proof.
  intros Ha. destruct (Z.le_gt_cases (2 * Z.of_nat a) (size st)) as [Hlow|Hhigh].
  - exists a. split; [exact Hlow|reflexivity].
  - exists (Z.to_nat (size st - Z.of_nat a)). split; [lia|].
    rewrite Z2Nat.id by lia. symmetry. apply quadratic_mirror.
Qed.

End QuadraticProbe.

Section Views.
Import OpenInv.

Lemma open_labels (t : list Open.entry) : forall (g : nat -> Open.entry -> Z * OpenView.cell),
  (forall i e, snd (g i e) = OpenView.cell_of e) ->
  OpenView.labels (imap g t) = Open.live_keys t.
Proof.
  induction t as [|e t IH]; intros g Hg; [reflexivity|].
  rewrite imap_cons, live_keys_cons. unfold OpenView.labels in *.
  cbn [omap list_omap]. rewrite (IH (g ∘ S)) by (intros i x; apply Hg).
  rewrite Hg. destruct e; reflexivity.
Qed.

Lemma open_tombstone_cells (t : list Open.entry) :
  forall (g : nat -> Open.entry -> Z * OpenView.cell),
  (forall i e, snd (g i e) = OpenView.cell_of e) ->
  length (List.filter OpenView.is_tombstone_cell (imap g t)) = count_tombstones t.
Proof.
  unfold count_tombstones.
  induction t as [|e t IH]; intros g Hg; [reflexivity|].
  rewrite imap_cons. cbn [List.filter].
  specialize (IH (g ∘ S) ltac:(intros i x; apply Hg)).
  unfold OpenView.is_tombstone_cell at 1. rewrite Hg.
  destruct e; cbn; rewrite IH; reflexivity.
Qed.

Lemma imap_indices {A B} (h : B -> Z) (t : list A) : forall (n : nat) (g : nat -> A -> B),
  (forall i e, h (g i e) = Z.of_nat (n + i)) ->
  map h (imap g t) = map Z.of_nat (seq n (length t)).
Proof.
  induction t as [|e t IH]; intros n g Hg; [reflexivity|].
  rewrite imap_cons. cbn [map length seq]. rewrite Hg, Nat.add_0_r. f_equal.
  apply (IH (S n)). intros i x. cbn. rewrite Hg. f_equal. lia.
Qed.

Lemma chaining_tally (t : list (list jsstring)) : forall acc,
  fold_left ChainingView.tally_step t acc
  = ChainingView.mkTally
      (fold_left (fun m (bucket : list jsstring) =>
                    if m <? Z.of_nat (length bucket) then Z.of_nat (length bucket) else m)
                 t (ChainingView.longest acc))
      (ChainingView.chainTotal acc + Z.of_nat (length (concat t)))
      (ChainingView.nonEmpty acc
       + Z.of_nat (length (List.filter (fun b : list jsstring => negb (Z.of_nat (length b) =? 0)) t))).
Proof.
  induction t as [|b t IH]; intros acc.
  - cbn. destruct acc. cbn. f_equal; lia.
  - cbn [fold_left concat List.filter]. rewrite IH. unfold ChainingView.tally_step.
    rewrite length_app.
    destruct (Z.ltb_spec 0 (Z.of_nat (length b))) as [Hpos|Hzero];
      destruct (Z.eqb_spec (Z.of_nat (length b)) 0) as [H0|H0]; try lia;
      cbn [ChainingView.longest ChainingView.chainTotal ChainingView.nonEmpty negb length];
      f_equal; lia.
Qed.

Lemma chaining_items (t : list (list jsstring)) :
  forall (g : nat -> list jsstring -> ChainingView.bucket_view),
  (forall i b, ChainingView.items (g i b) = b) ->
  concat (map ChainingView.items (imap g t)) = concat t.
Proof.
  induction t as [|b t IH]; intros g Hg; [reflexivity|].
  rewrite imap_cons. cbn [map concat]. rewrite Hg. f_equal.
  apply (IH (g ∘ S)). intros i x. apply Hg.
Qed.

End Views.

Section LegacySizes.

Lemma legacy_nextPrime_loop_more fuel : forall fuel' c p,
  Legacy.nextPrime_loop fuel c = Some p -> (fuel <= fuel')%nat ->
  Legacy.nextPrime_loop fuel' c = Some p.
Proof.
  induction fuel as [|fuel IH]; intros fuel' c p Hrun Hle; [discriminate|].
  destruct fuel' as [|fuel']; [lia|]. cbn [Legacy.nextPrime_loop] in *.
  destruct (isPrime c); [exact Hrun|]. apply (IH fuel' (c + 1) p Hrun). lia.
Qed.

Lemma legacy_nextPrime_clamped c :
  3 <= c <= 199 -> Legacy.nextPrime 14 c = Some (nextPrime c).
Proof.
  intros Hc.
  pose proof (for_table_sizes
                (fun c => match Legacy.nextPrime 14 c with
                          | Some p => p =? nextPrime c
                          | None => false
                          end)
                ltac:(vm_compute; reflexivity) c Hc) as H.
  cbv beta in H. destruct (Legacy.nextPrime 14 c) as [p|]; [|discriminate].
  apply Z.eqb_eq in H. congruence.
Qed.

End LegacySizes.

(** * Open addressing: which way the table size moves *)

Section OpenSizes.
Import Open OpenSpec OpenInv.

Ltac munfold := unfold bind, get, modify, ret, throw in *.

Lemma rehash_size v st n message :
  inv v st -> table_prime n -> size (snd (rehash v n message st)) = n.
Proof.
  intros Hinv Hp.
  destruct (rehash_inv v st n message (inv_defined v st Hinv) (inv_nodup v st Hinv) Hp)
    as (o & st' & Hrun & _ & Hsz & _).
  rewrite Hrun. exact Hsz.
Qed.

Lemma compaction_size v st message :
  inv v st -> size (snd (rehash v (size st) message st)) = size st.
Proof. intros Hinv. apply rehash_size; [exact Hinv|apply (inv_prime v st Hinv)]. Qed.

Lemma ensureCapacityBeforeInsert_size v st :
  inv v st -> size st <= size (snd (ensureCapacityBeforeInsert v st)).
Proof.
  intros Hinv. pose proof (inv_size_pos v st Hinv) as Hsz.
  destruct (growth_target_gt (size st) Hsz) as (_ & Hge & _).
  unfold ensureCapacityBeforeInsert. unfold bind at 1. unfold get.
  destruct (load_gt st 68 100).
  - destruct (negb _).
    + rewrite rehash_size; [exact Hge|exact Hinv|apply nextPrime_table_prime].
    + unfold ret. cbn [snd]. lia.
  - destruct (_ && _).
    + rewrite compaction_size by exact Hinv. lia.
    + unfold ret. cbn [snd]. lia.
Qed.

Lemma compactAfterInsert_size v st :
  inv v st -> size (snd (compactAfterInsert v st)) = size st.
Proof.
  intros Hinv. unfold compactAfterInsert. unfold bind at 1. unfold get.
  destruct (_ && _); [apply compaction_size, Hinv|reflexivity].
Qed.

Lemma maintainAfterInsert_size v st :
  inv v st -> size st <= size (snd (maintainAfterInsert v st)).
Proof.
  intros Hinv. pose proof (inv_size_pos v st Hinv) as Hsz.
  destruct (growth_target_gt (size st) Hsz) as (_ & _ & Hge).
  pose proof (compactAfterInsert_size v st Hinv) as Hcompact.
  unfold maintainAfterInsert. unfold bind at 1. unfold get.
  destruct (load_gt st 72 100); [|lia].
  destruct (negb _); [|lia].
  rewrite rehash_size; [exact Hge|exact Hinv|apply nextPrime_table_prime].
Qed.

Lemma compactAfterRemoval_size v st :
  inv v st -> size (snd (compactAfterRemoval v st)) = size st.
Proof.
  intros Hinv. unfold compactAfterRemoval. unfold bind at 1. unfold get.
  destruct (_ && _); [apply compaction_size, Hinv|reflexivity].
Qed.

Lemma maintainAfterRemoval_size v st :
  inv v st -> size (snd (maintainAfterRemoval v st)) <= size st.
Proof.
  intros Hinv. pose proof (compactAfterRemoval_size v st Hinv) as Hcompact.
  unfold maintainAfterRemoval. unfold bind at 1. unfold get.
  destruct (MIN_TABLE_SIZE <? size st); [|unfold ret; cbn [snd]; lia].
  destruct (_ && _); [|lia].
  destruct (Z.ltb_spec (previousPrime (Z.max MIN_TABLE_SIZE (floor_div_1_6 (size st))))
              (size st)) as [Hlt|_]; [|lia].
  rewrite rehash_size; [lia|exact Hinv|apply previousPrime_table_prime].
Qed.

(** insert never leaves a smaller table. *)
Lemma insert_size v fuel : forall rawKey st o st',
  inv v st -> insert v fuel rawKey st = Some (o, st') -> size st <= size st'.
Proof.
  induction fuel as [|fuel IH]; intros rawKey st o st' Hinv Hrun; [discriminate|].
  cbn [insert] in Hrun. set (key := normaliseKey rawKey) in *.
  destruct (insert_attempt_cases v key st Hinv)
    as (o1 & st1 & Hpre & Hinv1 & _ & _ & Hcase).
  pose proof (ensureCapacityBeforeInsert_size v st Hinv) as Hsz1.
  rewrite Hpre in Hsz1. cbn [snd] in Hsz1.
  destruct o1 as [pre|e].
  2:{ rewrite Hcase in Hrun. inversion Hrun; subst o st'. exact Hsz1. }
  destruct Hcase as [(_ & r & Heq & _)
                    |[(_ & st2 & Hinv2 & Hsz2 & _ & _ & Hm)
                     |(_ & _ & lg & Heq)]].
  - rewrite Heq in Hrun. inversion Hrun; subst o st'. exact Hsz1.
  - pose proof (maintainAfterInsert_size v st2 Hinv2) as Hsz3.
    destruct (maintainAfterInsert v st2) as [[more|e] st3]; cbn [snd] in Hsz3.
    + destruct Hm as (r & Heq & _). rewrite Heq in Hrun. inversion Hrun; subst o st'. lia.
    + rewrite Hm in Hrun. inversion Hrun; subst o st'. lia.
  - rewrite Heq in Hrun.
    pose proof (inv_size_pos v st1 Hinv1) as Hrange.
    destruct (growth_target_gt (size st1) Hrange) as (_ & Hge & _).
    destruct (rehash_inv v st1 (nextPrime (ceil_mul_1_6 (size st1))) LSaturated
                (inv_defined v st1 Hinv1) (inv_nodup v st1 Hinv1) (nextPrime_table_prime _))
      as (o2 & st2 & Hre & Hinv2 & Hsz2 & _).
    rewrite Hre in Hrun.
    destruct o2 as [growth|e]; [|inversion Hrun; subst o st'; lia].
    destruct (insert v fuel key st2) as [[o3 st3]|] eqn:Erec; [|discriminate].
    pose proof (IH key st2 o3 st3 Hinv2 Erec) as Hsz3.
    destruct o3; inversion Hrun; subst o st'; lia.
Qed.

(** remove never leaves a larger table. *)
Lemma remove_size v rawKey st :
  inv v st -> size (snd (remove v rawKey st)) <= size st.
Proof.
  intros Hinv. set (key := normaliseKey rawKey).
  pose proof (inv_size_pos v st Hinv) as Hsz.
  destruct (List.in_dec (List.list_eq_dec Z.eq_dec) key (live_keys (table st))) as [Hin|Hout].
  - destruct (inv_findable v st Hinv key Hin) as (a & Ha & Hpre & Hkey).
    destruct (first_such (fun j => is_key (slot v st key (Z.of_nat j)) key) (S a))
      as (a0 & Ha0 & Hkey0 & Hmin).
    { exists a. split; [lia|exact Hkey]. }
    destruct (tombstoned_inv v st key a0 Hinv ltac:(lia) Hkey0) as (Hinv1 & Hsz1 & _).
    pose proof (maintainAfterRemoval_size v _ Hinv1) as Hsz2.
    unfold remove. unfold bind at 1. unfold get. fold key.
    rewrite (remove_loop_found v key (createContext v st key) st (Z.to_nat (size st)) a0 0);
      [| lia | | exact Hkey0].
    + cbv zeta.
      change (probeInfo v st (createContext v st key) (0 + Z.of_nat a0))
        with (probe_index v st key (Z.of_nat a0)).
      destruct (maintainAfterRemoval v _) as [[more|e] st2]; cbn [snd] in *; lia.
    + intros j Hj. split; [apply Hpre; lia|apply Hmin, Hj].
  - destruct (remove_loop_absent v key (createContext v st key) st (Z.to_nat (size st)) 0
                (logContext v (createContext v st key) key) [] (absent_everywhere st key Hout))
      as (r & Hr & _).
    unfold remove. unfold bind at 1. unfold get. fold key. rewrite Hr. cbn [snd]. lia.
Qed.

End OpenSizes.

(** * The load that the resize policies keep *)

Section OpenLoad.
Import Open OpenSpec OpenInv.

Ltac munfold := unfold bind, get, modify, ret, throw in *.

Lemma keys_within_count v st st' :
  inv v st -> inv v st' -> keys_within st' st -> count st' <= count st.
Proof.
  intros Hinv Hinv' Hsub.
  rewrite (inv_count v st Hinv), (inv_count v st' Hinv').
  apply inj_le, submseteq_length, NoDup_submseteq; [apply (inv_nodup v st' Hinv')|].
  intros k Hk. apply list_elem_of_In. apply list_elem_of_In in Hk. apply Hsub, Hk.
Qed.

(** A rehash holds no more keys than the table it started from. *)
Lemma rehash_count v st n message :
  inv v st -> table_prime n ->
  let st' := snd (rehash v n message st) in
  inv v st' /\ size st' = n /\ count st' <= count st.
Proof.
  intros Hinv Hp.
  destruct (rehash_inv v st n message (inv_defined v st Hinv) (inv_nodup v st Hinv) Hp)
    as (o & st' & Hrun & Hinv' & Hsz & Hsub & _).
  rewrite Hrun. cbn [snd]. split; [exact Hinv'|]. split; [exact Hsz|].
  apply (keys_within_count v st st' Hinv Hinv' Hsub).
Qed.

(** The arithmetic of the three resizes, checked over the sizes. *)
Lemma growth_load s :
  3 <= s <= 199 ->
  (100 * s <= 68 * nextPrime (ceil_mul_1_6 s) \/ nextPrime (ceil_mul_1_6 s) = 199)
  /\ (100 * (68 * s / 100 + 1) <= 72 * nextPrime (ceil_mul_1_35 s)
      \/ nextPrime (ceil_mul_1_35 s) = 199)
  /\ (nextPrime (ceil_mul_1_35 s) = s -> s = 199)
  /\ 100 * ((3 * s - 1) / 10)
     <= 72 * previousPrime (Z.max MIN_TABLE_SIZE (floor_div_1_6 s)).
Proof.
  intros Hs.
  pose proof (for_table_sizes
                (fun s => ((100 * s <=? 68 * nextPrime (ceil_mul_1_6 s))
                           || (nextPrime (ceil_mul_1_6 s) =? 199))
                          && ((100 * (68 * s / 100 + 1) <=? 72 * nextPrime (ceil_mul_1_35 s))
                              || (nextPrime (ceil_mul_1_35 s) =? 199))
                          && (negb (nextPrime (ceil_mul_1_35 s) =? s) || (s =? 199))
                          && (100 * ((3 * s - 1) / 10)
                              <=? 72 * previousPrime (Z.max MIN_TABLE_SIZE (floor_div_1_6 s))))
                ltac:(vm_compute; reflexivity) s Hs) as H.
  cbv beta in H.
  apply andb_prop in H. destruct H as [H H4].
  apply andb_prop in H. destruct H as [H H3].
  apply andb_prop in H. destruct H as [H1 H2].
  apply Z.leb_le in H4.
  split; [|split; [|split; [|exact H4]]].
  - apply orb_prop in H1. destruct H1 as [H1|H1];
      [left; apply Z.leb_le, H1|right; apply Z.eqb_eq, H1].
  - apply orb_prop in H2. destruct H2 as [H2|H2];
      [left; apply Z.leb_le, H2|right; apply Z.eqb_eq, H2].
  - intros Heq. apply orb_prop in H3. destruct H3 as [H3|H3].
    + apply negb_true_iff, Z.eqb_neq in H3. contradiction.
    + apply Z.eqb_eq, H3.
Qed.

(** After the capacity check the load is at most 0.68, except at the
    maximum size. *)
Lemma ensureCapacityBeforeInsert_load v st :
  inv v st ->
  let st1 := snd (ensureCapacityBeforeInsert v st) in
  100 * count st1 <= 68 * size st1 \/ size st1 = MAX_TABLE_SIZE.
Proof.
  intros Hinv. cbv zeta. pose proof (inv_size_pos v st Hinv) as Hsz.
  pose proof (inv_count_le v st Hinv) as Hc.
  destruct (growth_load (size st) Hsz) as (Hgrow & _).
  destruct (growth_target_gt (size st) Hsz) as (Hgt & _).
  unfold ensureCapacityBeforeInsert, bind, get, MAX_TABLE_SIZE. cbv beta iota zeta.
  destruct (load_gt st 68 100) eqn:Eload.
  - destruct (Z.eqb_spec (nextPrime (ceil_mul_1_6 (size st))) (size st)) as [Heq|Hne];
      cbn [negb].
    + unfold ret. cbn [snd]. right. lia.
    + destruct (rehash_count v st (nextPrime (ceil_mul_1_6 (size st)))
                  (LPreemptiveGrowth (count st) (size st) (nextPrime (ceil_mul_1_6 (size st))))
                  Hinv (nextPrime_table_prime _)) as (_ & Hsz' & Hc').
      rewrite Hsz'. destruct Hgrow as [Hle|Hmax]; [left; lia|right; exact Hmax].
  - assert (Hlow : 100 * count st <= 68 * size st).
    { unfold load_gt, ratio_gt in Eload.
      destruct (Z.eqb_spec (size st) 0) as [?|_]; [lia|].
      apply Z.ltb_ge in Eload. lia. }
    destruct (_ && _).
    + destruct (rehash_count v st (size st) LTombstonesBuildingUp Hinv (inv_prime v st Hinv))
        as (_ & Hsz' & Hc').
      rewrite Hsz'. left. lia.
    + unfold ret. cbn [snd]. left. exact Hlow.
Qed.

Lemma compactAfterInsert_load v st :
  inv v st -> load_bounded st -> load_bounded (snd (compactAfterInsert v st)).
Proof.
  intros Hinv Hload. unfold compactAfterInsert, bind, get. cbv beta iota zeta.
  destruct (_ && _); [|exact Hload].
  destruct (rehash_count v st (size st) LHighTombstoneRatio Hinv (inv_prime v st Hinv))
    as (_ & Hsz' & Hc').
  unfold load_bounded in *. rewrite Hsz'. destruct Hload as [Hle|Hmax]; [left; lia|right; exact Hmax].
Qed.

(** After the maintenance that follows a placement the load is at most
    0.72, except at the maximum size. *)
Lemma maintainAfterInsert_load v st :
  inv v st ->
  100 * (count st - 1) <= 68 * size st \/ size st = MAX_TABLE_SIZE ->
  load_bounded (snd (maintainAfterInsert v st)).
Proof.
  intros Hinv Hbefore. pose proof (inv_size_pos v st Hinv) as Hsz.
  destruct (growth_load (size st) Hsz) as (_ & Hgrow & Hsame & _).
  unfold maintainAfterInsert, bind, get. cbv beta iota zeta.
  destruct (load_gt st 72 100) eqn:Eload.
  - destruct (Z.eqb_spec (nextPrime (ceil_mul_1_35 (size st))) (size st)) as [Heq|Hne];
      cbn [negb].
    + apply compactAfterInsert_load; [exact Hinv|]. right. apply Hsame, Heq.
    + destruct (rehash_count v st (nextPrime (ceil_mul_1_35 (size st)))
                  (LPostInsertGrowth (count st) (size st) (nextPrime (ceil_mul_1_35 (size st))))
                  Hinv (nextPrime_table_prime _)) as (_ & Hsz' & Hc').
      unfold load_bounded, MAX_TABLE_SIZE in *. rewrite Hsz'.
      destruct Hgrow as [Hle|Hmax]; [|right; exact Hmax].
      destruct Hbefore as [Hlow|Hmax].
      * left. assert (count st - 1 <= 68 * size st / 100)
          by (apply Z.div_le_lower_bound; lia). lia.
      * exfalso. rewrite Hmax in Hne. apply Hne. reflexivity.
  - apply compactAfterInsert_load; [exact Hinv|]. left.
    unfold load_gt, ratio_gt in Eload.
    destruct (Z.eqb_spec (size st) 0) as [?|_]; [lia|].
    apply Z.ltb_ge in Eload. lia.
Qed.

Lemma insert_load v fuel : forall rawKey st o st',
  inv v st -> insert v fuel rawKey st = Some (o, st') -> load_bounded st'.
Proof.
  induction fuel as [|fuel IH]; intros rawKey st o st' Hinv Hrun; [discriminate|].
  cbn [insert] in Hrun. set (key := normaliseKey rawKey) in *.
  destruct (insert_attempt_cases v key st Hinv)
    as (o1 & st1 & Hpre & Hinv1 & _ & _ & Hcase).
  pose proof (ensureCapacityBeforeInsert_load v st Hinv) as Hload1.
  cbv zeta in Hload1. rewrite Hpre in Hload1. cbn [snd] in Hload1.
  assert (Hbounded1 : load_bounded st1).
  { destruct Hload1 as [Hle|Hmax]; [left|right; exact Hmax].
    pose proof (inv_size_pos v st1 Hinv1). lia. }
  destruct o1 as [pre|e].
  2:{ rewrite Hcase in Hrun. inversion Hrun; subst o st'. exact Hbounded1. }
  destruct Hcase as [(_ & r & Heq & _)
                    |[(_ & st2 & Hinv2 & Hsz2 & Hc2 & _ & Hm)
                     |(_ & _ & lg & Heq)]].
  - rewrite Heq in Hrun. inversion Hrun; subst o st'. exact Hbounded1.
  - pose proof (maintainAfterInsert_load v st2 Hinv2) as Hload3.
    rewrite Hsz2, Hc2 in Hload3. replace (count st1 + 1 - 1) with (count st1) in Hload3 by lia.
    specialize (Hload3 Hload1).
    destruct (maintainAfterInsert v st2) as [[more|e] st3]; cbn [snd] in Hload3.
    + destruct Hm as (r & Heq & _). rewrite Heq in Hrun. inversion Hrun; subst o st'.
      exact Hload3.
    + rewrite Hm in Hrun. inversion Hrun; subst o st'. exact Hload3.
  - rewrite Heq in Hrun.
    destruct (rehash_inv v st1 (nextPrime (ceil_mul_1_6 (size st1))) LSaturated
                (inv_defined v st1 Hinv1) (inv_nodup v st1 Hinv1) (nextPrime_table_prime _))
      as (o2 & st2 & Hre & Hinv2 & Hsz2 & Hsub2 & _).
    rewrite Hre in Hrun.
    destruct o2 as [growth|e].
    + destruct (insert v fuel key st2) as [[o3 st3]|] eqn:Erec; [|discriminate].
      pose proof (IH key st2 o3 st3 Hinv2 Erec) as Hload3.
      destruct o3; inversion Hrun; subst o st'; exact Hload3.
    + inversion Hrun; subst o st'.
      pose proof (keys_within_count v st1 st2 Hinv1 Hinv2 Hsub2) as Hc2.
      pose proof (inv_size_pos v st1 Hinv1) as Hrange.
      destruct (growth_target_gt (size st1) Hrange) as (_ & Hge & _).
      unfold load_bounded in *. rewrite Hsz2.
      destruct Hbounded1 as [Hle|Hmax]; [left; lia|].
      right. rewrite Hmax. reflexivity.
Qed.

Lemma compactAfterRemoval_load v st :
  inv v st -> load_bounded st -> load_bounded (snd (compactAfterRemoval v st)).
Proof.
  intros Hinv Hload. unfold compactAfterRemoval, bind, get. cbv beta iota zeta.
  destruct (_ && _); [|exact Hload].
  destruct (rehash_count v st (size st) LManyTombstones Hinv (inv_prime v st Hinv))
    as (_ & Hsz' & Hc').
  unfold load_bounded in *. rewrite Hsz'. destruct Hload as [Hle|Hmax]; [left; lia|right; exact Hmax].
Qed.

Lemma maintainAfterRemoval_load v st :
  inv v st -> load_bounded st -> load_bounded (snd (maintainAfterRemoval v st)).
Proof.
  intros Hinv Hload. pose proof (inv_size_pos v st Hinv) as Hsz.
  destruct (growth_load (size st) Hsz) as (_ & _ & _ & Hshrink).
  unfold maintainAfterRemoval, bind, get. cbv beta iota zeta.
  destruct (MIN_TABLE_SIZE <? size st); [|exact Hload].
  destruct ((0 <? count st) && load_lt st 3 10) eqn:Elow;
    [|apply compactAfterRemoval_load; assumption].
  destruct (previousPrime (Z.max MIN_TABLE_SIZE (floor_div_1_6 (size st))) <? size st);
    [|apply compactAfterRemoval_load; assumption].
  destruct (rehash_count v st (previousPrime (Z.max MIN_TABLE_SIZE (floor_div_1_6 (size st))))
              (LShrunk (count st) (size st)
                 (previousPrime (Z.max MIN_TABLE_SIZE (floor_div_1_6 (size st)))))
              Hinv (previousPrime_table_prime _)) as (_ & Hsz' & Hc').
  unfold load_bounded. rewrite Hsz'. left.
  apply andb_prop in Elow. destruct Elow as [_ Hlt].
  unfold load_lt, ratio_lt in Hlt.
  destruct (Z.eqb_spec (size st) 0) as [?|_]; [lia|].
  apply Z.ltb_lt in Hlt.
  assert (count st <= (3 * size st - 1) / 10) by (apply Z.div_le_lower_bound; lia).
  lia.
Qed.

Lemma remove_load v rawKey st :
  inv v st -> load_bounded st -> load_bounded (snd (remove v rawKey st)).
Proof.
  intros Hinv Hload. set (key := normaliseKey rawKey).
  pose proof (inv_size_pos v st Hinv) as Hsz.
  destruct (List.in_dec (List.list_eq_dec Z.eq_dec) key (live_keys (table st))) as [Hin|Hout].
  - destruct (inv_findable v st Hinv key Hin) as (a & Ha & Hpre & Hkey).
    destruct (first_such (fun j => is_key (slot v st key (Z.of_nat j)) key) (S a))
      as (a0 & Ha0 & Hkey0 & Hmin).
    { exists a. split; [lia|exact Hkey]. }
    destruct (tombstoned_inv v st key a0 Hinv ltac:(lia) Hkey0) as (Hinv1 & Hsz1 & _).
    assert (Hload1 : load_bounded (tombstoned st (probe_index v st key (Z.of_nat a0)))).
    { unfold load_bounded in *. cbn [tombstoned size count].
      destruct Hload as [Hle|Hmax]; [left; lia|right; exact Hmax]. }
    pose proof (maintainAfterRemoval_load v _ Hinv1 Hload1) as Hload2.
    unfold remove. unfold bind at 1. unfold get. fold key.
    rewrite (remove_loop_found v key (createContext v st key) st (Z.to_nat (size st)) a0 0);
      [| lia | | exact Hkey0].
    + cbv zeta.
      change (probeInfo v st (createContext v st key) (0 + Z.of_nat a0))
        with (probe_index v st key (Z.of_nat a0)).
      destruct (maintainAfterRemoval v _) as [[more|e] st2]; exact Hload2.
    + intros j Hj. split; [apply Hpre; lia|apply Hmin, Hj].
  - destruct (remove_loop_absent v key (createContext v st key) st (Z.to_nat (size st)) 0
                (logContext v (createContext v st key) key) [] (absent_everywhere st key Hout))
      as (r & Hr & _).
    unfold remove. unfold bind at 1. unfold get. fold key. rewrite Hr. exact Hload.
Qed.

Lemma run_load v fuel acts : forall st st',
  inv v st -> load_bounded st ->
  OpenController.run v fuel acts st = Some st' -> load_bounded st'.
Proof.
  induction acts as [|a acts IH]; intros st st' Hinv Hload Hrun;
    cbn [OpenController.run] in Hrun.
  - inversion Hrun; subst st'. exact Hload.
  - destruct (bool_decide (action_key a = [])); [apply (IH st st' Hinv Hload Hrun)|].
    destruct (OpenController.handleAction v fuel a st) as [[o st1]|] eqn:Estep; [|discriminate].
    destruct a as [k|k|k]; cbn [OpenController.handleAction] in Estep.
    + apply (IH st1 st'); [| |exact Hrun].
      * apply (insert_inv v fuel (trim k) st o st1 Hinv Estep).
      * apply (insert_load v fuel (trim k) st o st1 Hinv Estep).
    + destruct (search_inv v (trim k) st Hinv) as (r & Hr & _).
      rewrite Hr in Estep. inversion Estep; subst o st1.
      apply (IH st st' Hinv Hload Hrun).
    + destruct (remove_inv v (trim k) st Hinv) as (o' & st2 & Hr & Hinv2 & _).
      pose proof (remove_load v (trim k) st Hinv Hload) as Hload2.
      rewrite Hr in Estep, Hload2. cbn [snd] in Hload2. inversion Estep; subst o st1.
      apply (IH st2 st' Hinv2 Hload2 Hrun).
Qed.

Lemma reachable_load v st : OpenController.reachable v st -> load_bounded st.
Proof.
  intros (sz & fuel & acts & Hrun).
  apply (run_load v fuel acts (init (normaliseSizeForOpen sz)) st); [| |exact Hrun].
  - apply init_inv. unfold normaliseSizeForOpen. apply nextPrime_table_prime.
  - left. cbn [init count size].
    pose proof (nextPrime_range (clampTableSize sz)). unfold normaliseSizeForOpen. lia.
Qed.

End OpenLoad.

Section ChainingLoad.
Import Chaining ChainingSpec ChainingInv.

Ltac munfold := unfold bind, get, modify, ret, throw in *.

Lemma chaining_resize_load s :
  3 <= s <= 199 ->
  (100 * (115 * s / 100 + 1) <= 115 * nextPrime (ceil_mul_1_6 s)
   \/ nextPrime (ceil_mul_1_6 s) = 199)
  /\ 100 * ((45 * s - 1) / 100)
     <= 115 * previousPrime (Z.max MIN_TABLE_SIZE (floor_div_1_5 s)).
Proof.
  intros Hs.
  pose proof (for_table_sizes
                (fun s => ((100 * (115 * s / 100 + 1) <=? 115 * nextPrime (ceil_mul_1_6 s))
                           || (nextPrime (ceil_mul_1_6 s) =? 199))
                          && (100 * ((45 * s - 1) / 100)
                              <=? 115 * previousPrime (Z.max MIN_TABLE_SIZE (floor_div_1_5 s))))
                ltac:(vm_compute; reflexivity) s Hs) as H.
  cbv beta in H. apply andb_prop in H. destruct H as [H1 H2]. apply Z.leb_le in H2.
  split; [|exact H2].
  apply orb_prop in H1. destruct H1 as [H1|H1];
    [left; apply Z.leb_le, H1|right; apply Z.eqb_eq, H1].
Qed.

Lemma chaining_maintainAfterInsert_load st :
  sound st ->
  100 * (count st - 1) <= 115 * size st \/ size st = MAX_TABLE_SIZE ->
  load_bounded (snd (maintainAfterInsert st)).
Proof.
  intros Hs Hbefore. pose proof Hs as (_ & _ & Hrange).
  unfold MIN_TABLE_SIZE, MAX_TABLE_SIZE in Hrange.
  destruct (chaining_resize_load (size st) Hrange) as (Hgrow & _).
  destruct (growth_target_gt (size st) Hrange) as (Hgt & _).
  unfold maintainAfterInsert, bind, get. cbv beta iota zeta.
  unfold load_bounded, MAX_TABLE_SIZE in *.
  destruct (growth_due st) eqn:Edue.
  - destruct (Z.eqb_spec (nextPrime (ceil_mul_1_6 (size st))) (size st)) as [Heq|Hne];
      cbn [negb].
    + unfold ret. cbn [snd]. right. lia.
    + destruct (rehash_sound st (nextPrime (ceil_mul_1_6 (size st)))
                  (LChainGrowth (count st) (size st) (maxChain (table st))
                     (nextPrime (ceil_mul_1_6 (size st)))) Hs (nextPrime_range _))
        as (st' & Hrun & _ & Hsz' & Hc' & _).
      rewrite Hrun. cbn [snd]. rewrite Hsz', Hc'.
      destruct Hgrow as [Hle|Hmax]; [|right; exact Hmax].
      destruct Hbefore as [Hlow|Hmax].
      * left. assert (count st - 1 <= 115 * size st / 100)
          by (apply Z.div_le_lower_bound; lia). lia.
      * exfalso. rewrite Hmax in Hne. apply Hne. reflexivity.
  - unfold ret. cbn [snd]. left.
    unfold growth_due in Edue. apply orb_false_elim in Edue. destruct Edue as [Eload _].
    unfold ratio_gt in Eload. apply Z.ltb_ge in Eload. lia.
Qed.

Lemma chaining_maintainAfterRemoval_load st :
  sound st -> load_bounded st -> load_bounded (snd (maintainAfterRemoval st)).
Proof.
  intros Hs Hload. pose proof Hs as (_ & _ & Hrange).
  unfold MIN_TABLE_SIZE, MAX_TABLE_SIZE in Hrange.
  destruct (chaining_resize_load (size st) Hrange) as (_ & Hshrink).
  unfold maintainAfterRemoval, bind, get. cbv beta iota zeta.
  destruct ((MIN_TABLE_SIZE <? size st) && ratio_lt (count st) (size st) 45 100) eqn:Elow;
    [|exact Hload].
  destruct (previousPrime (Z.max MIN_TABLE_SIZE (floor_div_1_5 (size st))) <? size st);
    [|exact Hload].
  destruct (rehash_sound st (previousPrime (Z.max MIN_TABLE_SIZE (floor_div_1_5 (size st))))
              (LShrunk (count st) (size st)
                 (previousPrime (Z.max MIN_TABLE_SIZE (floor_div_1_5 (size st))))) Hs)
    as (st' & Hrun & _ & Hsz' & Hc' & _).
  { destruct (previousPrime_table_prime (Z.max MIN_TABLE_SIZE (floor_div_1_5 (size st))))
      as [Hr _]. exact Hr. }
  rewrite Hrun. cbn [snd]. unfold load_bounded. rewrite Hsz', Hc'. left.
  apply andb_prop in Elow. destruct Elow as [_ Hlt].
  unfold ratio_lt in Hlt. apply Z.ltb_lt in Hlt.
  assert (count st <= (45 * size st - 1) / 100) by (apply Z.div_le_lower_bound; lia).
  lia.
Qed.

Lemma chaining_insert_load st rawKey :
  sound st -> load_bounded st -> load_bounded (snd (insert rawKey st)).
Proof.
  intros Hs Hload. set (key := normaliseKey rawKey).
  pose proof Hs as (Hwf & _ & _).
  destruct (wf_bucket st key Hwf) as (bucket & Hb & Hb').
  pose proof (stored_bucket st key bucket Hwf Hb') as Hst.
  destruct (includes bucket key) eqn:Einc.
  - unfold insert. fold key. unfold bind at 1. unfold get. rewrite Hb, Einc. exact Hload.
  - assert (Hfresh : ~ stored st key).
    { intros H. apply Hst, includes_In in H. congruence. }
    destruct (insert_fresh_eq st rawKey Hwf Hfresh) as (lg & hl & _ & Hins). fold key in Hins.
    destruct (appended_wf st key Hwf) as (_ & Hsz1 & Hc1 & _).
    pose proof (chaining_maintainAfterInsert_load _ (appended_sound st key Hs Hfresh)) as Hm.
    rewrite Hsz1, Hc1 in Hm. replace (count st + 1 - 1) with (count st) in Hm by lia.
    specialize (Hm Hload). rewrite Hins.
    destruct (maintainAfterInsert (appended st key)) as [[more|e] st']; exact Hm.
Qed.

Lemma chaining_remove_load st rawKey :
  sound st -> load_bounded st -> load_bounded (snd (remove rawKey st)).
Proof.
  intros Hs Hload. set (key := normaliseKey rawKey).
  pose proof Hs as (Hwf & _ & _).
  destruct (wf_bucket st key Hwf) as (bucket & Hb & Hb').
  unfold remove. fold key. unfold bind at 1. unfold get. rewrite Hb.
  destruct (Z.eqb_spec (indexOf bucket key 0) (-1)) as [Heq|Hne]; [exact Hload|].
  destruct (spliced_sound st key bucket Hs Hb' Hne) as (Hs1 & _).
  pose proof (chaining_maintainAfterRemoval_load _ Hs1) as Hm.
  munfold. unfold set_table, set_count. cbn [size table count].
  cbn [size table count] in Hm.
  assert (Hload1 : load_bounded
            (mkState (size st)
               (<[Z.to_nat (primaryIndex (size st) key) := splice1 bucket (indexOf bucket key 0)]>
                  (table st))
               (count st - 1))).
  { unfold load_bounded in *. cbn [size count].
    destruct Hload as [Hle|Hmax]; [left; lia|right; exact Hmax]. }
  specialize (Hm Hload1).
  destruct (maintainAfterRemoval _) as [[more|e] st']; exact Hm.
Qed.

Lemma chaining_run_load acts : forall st,
  sound st -> load_bounded st -> load_bounded (ChainingController.run acts st).
Proof.
  induction acts as [|a acts IH]; intros st Hs Hload; [exact Hload|].
  cbn [ChainingController.run]. destruct (bool_decide _); [apply IH; assumption|].
  destruct a as [k|k|k]; cbn [ChainingController.handleAction].
  - apply IH; [|apply chaining_insert_load; assumption].
    destruct (insert_sound st (trim k) Hs) as (r & st' & Hr & Hs' & _). rewrite Hr. exact Hs'.
  - destruct (search_spec st (trim k) (proj1 Hs)) as (r & Hr & _). rewrite Hr.
    apply IH; assumption.
  - apply IH; [|apply chaining_remove_load; assumption].
    destruct (remove_sound st (trim k) Hs) as (r & st' & Hr & Hs' & _). rewrite Hr. exact Hs'.
Qed.

Lemma chaining_reachable_load st : ChainingController.reachable st -> load_bounded st.
Proof.
  intros (sz & acts & <-).
  assert (Hrange : MIN_TABLE_SIZE <= normaliseSizeForChaining sz <= MAX_TABLE_SIZE).
  { unfold normaliseSizeForChaining, clampTableSize, MIN_TABLE_SIZE, MAX_TABLE_SIZE. lia. }
  apply chaining_run_load; [apply init_sound, Hrange|].
  left. cbn [init count size]. unfold MIN_TABLE_SIZE in Hrange. lia.
Qed.

End ChainingLoad.

(** * Properties of the open-addressing strategies on reachable tables *)

Section OpenProperties.
Import Open OpenSpec OpenInv.

(** X1: every table that the controller can bring an open-addressing
    strategy to (any variant, any sequence of inserts, searches and
    removals from a fresh table, failed rehashes included) has a prime
    number of slots between 3 and 199, an array of exactly that length
    without holes, counters [count] and [tombstones] equal to the number
    of keys and of tombstones in the array, no key stored twice, and
    every stored key met by its own probe sequence before any empty
    slot. *)
Theorem open_reachable_invariant (v : variant) (st : state) :
  OpenController.reachable v st -> inv v st.
Proof. apply reachable_inv. Qed.

Lemma open_reachable_invariant_witness : inv Quadratic Scenario.quadratic11.
Proof.
  apply open_reachable_invariant.
  exists 11, 2%nat, Scenario.quadratic11_acts. vm_compute. reflexivity.
Defined.

(** X2: on a reachable table, search returns, leaves the table as it
    is, and reports [found] exactly when the normalised key is stored
    and [missing] exactly when it is not. *)
Theorem open_search_reports_membership (v : variant) (rawKey : jsstring) (st : state) :
  OpenController.reachable v st ->
  exists r,
    search v rawKey st = (Ret r, st)
    /\ (res_status r = found <-> In (normaliseKey rawKey) (live_keys (table st)))
    /\ (res_status r = missing <-> ~ In (normaliseKey rawKey) (live_keys (table st))).
Proof.
  intros Hreach.
  destruct (search_inv v rawKey st (reachable_inv v st Hreach)) as (r & Hr & [[Hs Hin]|[Hs Hout]]);
    exists r; (split; [exact Hr|]); rewrite Hs; split; split; try tauto; try discriminate.
Qed.

Lemma open_search_reports_membership_witness :
  exists r,
    search Linear (str " 024 ") Scenario.linear11 = (Ret r, Scenario.linear11)
    /\ (res_status r = found
        <-> In (normaliseKey (str " 024 ")) (live_keys (table Scenario.linear11)))
    /\ (res_status r = missing
        <-> ~ In (normaliseKey (str " 024 ")) (live_keys (table Scenario.linear11))).
Proof.
  apply open_search_reports_membership.
  exists 11, 2%nat, Scenario.linear11_acts. vm_compute. reflexivity.
Defined.

(** X3: when insert returns on a reachable table, its status is
    [duplicate] if the normalised key was stored and [inserted] if it
    was not; afterwards the table holds the old keys and the key, and
    nothing else, and a search for the same text reports [found].
    Whatever the outcome, an exception included, the table holds no key
    other than the old ones and the key. *)
Theorem open_insert_then_search (v : variant) (fuel : nat) (rawKey : jsstring)
    (st : state) (o : outcome result) (st' : state) :
  OpenController.reachable v st ->
  insert v fuel rawKey st = Some (o, st') ->
  let key := normaliseKey rawKey in
  (forall k, In k (live_keys (table st')) -> k = key \/ In k (live_keys (table st)))
  /\ (forall r, o = Ret r ->
        (res_status r = duplicate <-> In key (live_keys (table st)))
        /\ (res_status r = inserted <-> ~ In key (live_keys (table st)))
        /\ (forall k, In k (live_keys (table st')) <-> k = key \/ In k (live_keys (table st)))
        /\ exists r', search v rawKey st' = (Ret r', st') /\ res_status r' = found).
Proof.
  intros Hreach Hrun key.
  destruct (insert_inv v fuel rawKey st o st' (reachable_inv v st Hreach) Hrun)
    as (Hinv' & Hwithin & Hret).
  split; [exact Hwithin|].
  intros r Hr. destruct (Hret r Hr) as (Hin & Hkeep & Hstatus).
  split; [|split; [|split]].
  - destruct Hstatus as [[Hs Hk]|[Hs Hk]]; rewrite Hs; split; try tauto; discriminate.
  - destruct Hstatus as [[Hs Hk]|[Hs Hk]]; rewrite Hs; split; try tauto; discriminate.
  - intros k. split; [apply Hwithin|]. intros [->|Hk]; [exact Hin|apply Hkeep, Hk].
  - apply findable_search. apply (inv_findable v st' Hinv'). exact Hin.
Qed.

Lemma open_insert_then_search_witness :
  exists r st',
    insert Linear 2 (str "29") Scenario.linear11 = Some (Ret r, st')
    /\ res_status r = inserted
    /\ exists r', search Linear (str "29") st' = (Ret r', st') /\ res_status r' = found.
Proof.
  eassert (E : insert Linear 2 (str "29") Scenario.linear11 = Some (Ret _, _))
    by (vm_compute; reflexivity).
  eexists _, _. split; [exact E|].
  assert (Hreach : OpenController.reachable Linear Scenario.linear11).
  { exists 11, 2%nat, Scenario.linear11_acts. vm_compute. reflexivity. }
  pose proof (fun o st' => open_insert_then_search Linear 2 (str "29") Scenario.linear11
                             o st' Hreach) as H.
  specialize (H _ _ E). destruct H as (_ & Hret).
  destruct (Hret _ eq_refl) as (_ & _ & _ & Hsearch).
  split; [reflexivity|exact Hsearch].
Defined.

(** X4: remove on a reachable table leaves a table that does not hold
    the normalised key and holds no key that was not there, so that a
    search for the same text reports [missing]; when remove returns, its
    status is [removed] if the key was stored and [missing] if it was
    not, and every other key is still stored. *)
Theorem open_remove_then_search (v : variant) (rawKey : jsstring) (st : state) :
  OpenController.reachable v st ->
  let key := normaliseKey rawKey in
  exists o st',
    remove v rawKey st = (o, st')
    /\ ~ In key (live_keys (table st'))
    /\ (forall k, In k (live_keys (table st')) -> In k (live_keys (table st)))
    /\ (exists r', search v rawKey st' = (Ret r', st') /\ res_status r' = missing)
    /\ (forall r, o = Ret r ->
          (res_status r = removed <-> In key (live_keys (table st)))
          /\ (res_status r = missing <-> ~ In key (live_keys (table st)))
          /\ (forall k, In k (live_keys (table st')) <-> k <> key /\ In k (live_keys (table st)))).
Proof.
  intros Hreach key.
  destruct (remove_inv v rawKey st (reachable_inv v st Hreach))
    as (o & st' & Hrun & Hinv' & Hwithin & Hret).
  fold key in Hwithin, Hret.
  assert (Hgone : ~ In key (live_keys (table st'))).
  { intros Hk. destruct (Hwithin key Hk) as [Hne _]. congruence. }
  exists o, st'. split; [exact Hrun|]. split; [exact Hgone|].
  split; [intros k Hk; apply (Hwithin k Hk)|]. split.
  - destruct (search_inv v rawKey st' Hinv') as (r' & Hr' & [[_ Hin]|[Hs _]]).
    + contradiction.
    + exists r'. split; [exact Hr'|exact Hs].
  - intros r Hr. destruct (Hret r Hr) as (Hkeep & Hstatus).
    split; [|split].
    + destruct Hstatus as [[Hs Hk]|(Hs & Hk & _)]; rewrite Hs; split; try tauto; discriminate.
    + destruct Hstatus as [[Hs Hk]|(Hs & Hk & _)]; rewrite Hs; split; try tauto; discriminate.
    + intros k. split; [apply Hwithin|]. intros [Hne Hk]. apply Hkeep; assumption.
Qed.

Lemma open_remove_then_search_witness :
  exists o st',
    remove Linear (str "16") Scenario.linear11 = (o, st')
    /\ ~ In (str "16") (live_keys (table st'))
    /\ exists r', search Linear (str "16") st' = (Ret r', st') /\ res_status r' = missing.
Proof.
  assert (Hreach : OpenController.reachable Linear Scenario.linear11).
  { exists 11, 2%nat, Scenario.linear11_acts. vm_compute. reflexivity. }
  destruct (open_remove_then_search Linear (str "16") Scenario.linear11 Hreach)
    as (o & st' & Hrun & Hgone & _ & Hsearch & _).
  exists o, st'. split; [exact Hrun|]. split; [exact Hgone|exact Hsearch].
Defined.

(** X5: with linear probing or double hashing, no action on a reachable
    table ends in an exception: search and remove return, and insert
    returns whenever its recursion ends. *)
Theorem open_covering_never_throws (v : variant) (fuel : nat) (a : action)
    (st : state) (o : outcome result) (st' : state) :
  v <> Quadratic ->
  OpenController.reachable v st ->
  OpenController.handleAction v fuel a st = Some (o, st') ->
  returned o = true.
Proof.
  intros Hv Hreach Hrun.
  pose proof (not_quadratic_covering v Hv) as Hcov.
  pose proof (reachable_inv v st Hreach) as Hinv.
  destruct a as [k|k|k]; cbn [OpenController.handleAction] in Hrun.
  - apply (insert_covering_no_throw v Hcov fuel (trim k) st o st' Hinv Hrun).
  - destruct (search_inv v (trim k) st Hinv) as (r & Hr & _).
    rewrite Hr in Hrun. inversion Hrun. reflexivity.
  - destruct (remove_covering v (trim k) st Hcov Hinv) as (r & st2 & Hr).
    rewrite Hr in Hrun. inversion Hrun. reflexivity.
Qed.

Lemma open_covering_never_throws_witness :
  exists o st',
    OpenController.handleAction DoubleHashing 1 (Remove (str "24")) Tables.double11
    = Some (o, st')
    /\ returned o = true.
Proof.
  eassert (E : OpenController.handleAction DoubleHashing 1 (Remove (str "24")) Tables.double11
               = Some (_, _)) by (vm_compute; reflexivity).
  eexists _, _. split; [exact E|].
  refine (open_covering_never_throws DoubleHashing 1 (Remove (str "24")) Tables.double11 _ _
            _ _ E).
  - discriminate.
  - exists 11, 2%nat, Tables.double11_acts. vm_compute. reflexivity.
Defined.

(** X6: with linear probing or double hashing, insert on a reachable
    table that holds fewer than 199 keys, or already holds the key,
    returns without calling itself. *)
Theorem open_covering_insert_returns (v : variant) (rawKey : jsstring) (st : state) :
  v <> Quadratic ->
  OpenController.reachable v st ->
  count st < MAX_TABLE_SIZE \/ In (normaliseKey rawKey) (live_keys (table st)) ->
  exists r st', insert v 1 rawKey st = Some (Ret r, st').
Proof.
  intros Hv Hreach Hroom.
  apply (insert_covering_returns v rawKey st (not_quadratic_covering v Hv)
           (reachable_inv v st Hreach) Hroom).
Qed.

Lemma open_covering_insert_returns_witness :
  exists r st', insert DoubleHashing 1 (str "35") Tables.double11 = Some (Ret r, st').
Proof.
  apply open_covering_insert_returns.
  - discriminate.
  - exists 11, 2%nat, Tables.double11_acts. vm_compute. reflexivity.
  - left. vm_compute. reflexivity.
Defined.

(** X7: with linear probing or double hashing, insert of a key that is
    not stored into a reachable table that holds 199 keys never returns,
    whatever the depth allowed to its recursion. *)
Theorem open_covering_full_table_insert_pending (v : variant) (fuel : nat)
    (rawKey : jsstring) (st : state) :
  v <> Quadratic ->
  OpenController.reachable v st ->
  count st = MAX_TABLE_SIZE ->
  ~ In (normaliseKey rawKey) (live_keys (table st)) ->
  insert v fuel rawKey st = None.
Proof.
  intros Hv Hreach Hfull Hfresh.
  apply (insert_covering_full v (not_quadratic_covering v Hv) fuel rawKey st
           (reachable_inv v st Hreach) Hfull Hfresh).
Qed.

Lemma open_covering_full_table_insert_pending_witness :
  insert Linear 50 (str "apple") Scenario.linear199 = None.
Proof.
  apply open_covering_full_table_insert_pending.
  - discriminate.
  - exists 199, 2%nat, Scenario.linear199_acts. vm_compute. reflexivity.
  - reflexivity.
  - rewrite <- list_elem_of_In. apply (bool_decide_unpack _). vm_compute. exact I.
Defined.



(** X9: directInsert, on any table, either stores the key in the first
    slot of its probe sequence that is empty or a tombstone (lowering
    the tombstone counter in the latter case), or, when none of the
    first [size] probes meets such a slot, throws and leaves the table
    as it found it. *)
Theorem open_directInsert_outcome (v : variant) (st : state) (key : jsstring) :
  (exists a : nat,
     Z.of_nat a < size st
     /\ (forall j : nat, (j < a)%nat -> is_free (slot v st key (Z.of_nat j)) = false)
     /\ is_free (slot v st key (Z.of_nat a)) = true
     /\ directInsert v key st
        = (Ret tt,
           placed_at st (probe_index v st key (Z.of_nat a)) key
             (is_tombstone (arr_get (table st) (probe_index v st key (Z.of_nat a))))))
  \/ ((forall j : nat, Z.of_nat j < size st -> is_free (slot v st key (Z.of_nat j)) = false)
      /\ directInsert v key st = (Throw RehashFailed, st)).
Proof. apply directInsert_outcome. Qed.

Lemma open_directInsert_outcome_witness :
  (exists a : nat,
     directInsert Quadratic (str "4") Scenario.quadratic11
     = (Ret tt,
        placed_at Scenario.quadratic11
          (probe_index Quadratic Scenario.quadratic11 (str "4") (Z.of_nat a)) (str "4")
          (is_tombstone
             (arr_get (table Scenario.quadratic11)
                (probe_index Quadratic Scenario.quadratic11 (str "4") (Z.of_nat a))))))
  \/ directInsert Quadratic (str "4") Scenario.quadratic11
     = (Throw RehashFailed, Scenario.quadratic11).
Proof.
  destruct (open_directInsert_outcome Quadratic Scenario.quadratic11 (str "4"))
    as [(a & _ & _ & _ & Hrun)|[_ Hrun]].
  - left. exists a. exact Hrun.
  - right. exact Hrun.
Defined.

(** X10: a quadratic probe sequence returns to slots it has visited:
    attempt [a] visits the slot of attempt [size - a], so that the
    attempts below [size] visit no slot beyond those of the attempts up
    to [size / 2]. *)
Theorem quadratic_probe_folds_back (st : state) (key : jsstring) (a : nat) :
  Z.of_nat a < size st ->
  probe_index Quadratic st key (size st - Z.of_nat a)
  = probe_index Quadratic st key (Z.of_nat a)
  /\ exists a' : nat,
       2 * Z.of_nat a' <= size st
       /\ probe_index Quadratic st key (Z.of_nat a)
          = probe_index Quadratic st key (Z.of_nat a').
Proof.
  intros Ha. split; [apply quadratic_mirror|apply quadratic_half, Ha].
Qed.

Lemma quadratic_probe_folds_back_witness :
  probe_index Quadratic Scenario.quadratic11 (str "16") (11 - 7)
  = probe_index Quadratic Scenario.quadratic11 (str "16") 7.
Proof.
  destruct (quadratic_probe_folds_back Scenario.quadratic11 (str "16") 7) as [H _].
  - vm_compute. reflexivity.
  - exact H.
Defined.

(** X11: the probe sequences of linear probing and of double hashing
    reach every slot of a table of prime size within [size] attempts. *)
Theorem covering_probes_reach_every_slot (v : variant) (st : state) (key : jsstring) (j : Z) :
  v <> Quadratic ->
  table_prime (size st) ->
  0 <= j < size st ->
  exists a : nat, Z.of_nat a < size st /\ probe_index v st key (Z.of_nat a) = j.
Proof.
  intros Hv Hp Hj.
  apply (not_quadratic_covering v Hv (size st) Hp st key j eq_refl Hj).
Qed.

Lemma covering_probes_reach_every_slot_witness :
  exists a : nat,
    Z.of_nat a < size Tables.double11
    /\ probe_index DoubleHashing Tables.double11 (str "16") (Z.of_nat a) = 5.
Proof.
  apply covering_probes_reach_every_slot.
  - discriminate.
  - split; [vm_compute; split; discriminate|reflexivity].
  - vm_compute. split; [discriminate|reflexivity].
Defined.

(** X12: on a reachable table, insert never leaves a table with fewer
    slots, remove never leaves one with more, and search leaves the
    state as it is. *)
Theorem open_sizes_move_one_way (v : variant) (st : state) :
  OpenController.reachable v st ->
  (forall fuel rawKey o st',
     insert v fuel rawKey st = Some (o, st') -> size st <= size st')
  /\ (forall rawKey, size (snd (remove v rawKey st)) <= size st)
  /\ (forall rawKey, snd (search v rawKey st) = st).
Proof.
  intros Hreach. pose proof (reachable_inv v st Hreach) as Hinv.
  split; [|split].
  - intros fuel rawKey o st' Hrun. apply (insert_size v fuel rawKey st o st' Hinv Hrun).
  - intros rawKey. apply remove_size, Hinv.
  - intros rawKey. destruct (search_inv v rawKey st Hinv) as (r & Hr & _).
    rewrite Hr. reflexivity.
Qed.

Lemma open_sizes_move_one_way_witness :
  size (snd (remove Linear (str "24") Scenario.linear11)) <= size Scenario.linear11.
Proof.
  destruct (open_sizes_move_one_way Linear Scenario.linear11) as (_ & Hremove & _).
  - exists 11, 2%nat, Scenario.linear11_acts. vm_compute. reflexivity.
  - apply Hremove.
Defined.

(** X13: on a reachable table, what snapshot() hands to the renderer
    agrees with the counters of stats(): one cell per slot, numbered
    from 0; the value cells carry the stored keys, as many as [keys];
    the tombstone cells are as many as [tombstones]; no cell carries an
    undefined label. *)
Theorem open_snapshot_agrees_with_stats (v : variant) (st : state) :
  OpenController.reachable v st ->
  let cells := OpenView.snapshot st in
  let s := OpenView.stats st in
  map fst cells = map Z.of_nat (seq 0 (Z.to_nat (OpenView.stat_size s)))
  /\ OpenView.labels cells = live_keys (table st)
  /\ Z.of_nat (length (OpenView.labels cells)) = OpenView.stat_keys s
  /\ Z.of_nat (length (List.filter OpenView.is_tombstone_cell cells))
     = OpenView.stat_tombstones s
  /\ Forall (fun c => snd c <> OpenView.ValueCell None) cells.
Proof.
  intros Hreach cells s. pose proof (reachable_inv v st Hreach) as Hinv.
  unfold cells, s, OpenView.snapshot, OpenView.stats.
  cbn [OpenView.stat_size OpenView.stat_keys OpenView.stat_tombstones].
  split; [|split; [|split; [|split]]].
  - rewrite <- (inv_length v st Hinv). apply (imap_indices fst (table st) 0). reflexivity.
  - apply open_labels. reflexivity.
  - rewrite open_labels by reflexivity. symmetry. apply (inv_count v st Hinv).
  - rewrite open_tombstone_cells by reflexivity. symmetry. apply (inv_tombstones v st Hinv).
  - apply Forall_forall. intros c Hc. apply elem_of_lookup_imap in Hc.
    destruct Hc as (i & e & -> & Hi). cbn [snd].
    pose proof (inv_defined v st Hinv) as Hdef. rewrite Forall_lookup in Hdef.
    specialize (Hdef i e Hi). destruct e; cbn; congruence.
Qed.

Lemma open_snapshot_agrees_with_stats_witness :
  Z.of_nat (length (OpenView.labels (OpenView.snapshot Scenario.quadratic11)))
  = OpenView.stat_keys (OpenView.stats Scenario.quadratic11)
  /\ Z.of_nat (length (List.filter OpenView.is_tombstone_cell
                         (OpenView.snapshot Scenario.quadratic11)))
     = OpenView.stat_tombstones (OpenView.stats Scenario.quadratic11).
Proof.
  destruct (open_snapshot_agrees_with_stats Quadratic Scenario.quadratic11)
    as (_ & _ & Hkeys & Htombs & _).
  - exists 11, 2%nat, Scenario.quadratic11_acts. vm_compute. reflexivity.
  - split; [exact Hkeys|exact Htombs].
Defined.

(** X27: when, on the table left by the capacity check, the probe
    cycle of insert completes its [size] attempts without meeting the
    key or an empty slot, and met a tombstone, insert stores the key in
    the first tombstone that the cycle met, incrementing [count] and
    decrementing [tombstones], logs that the cycle wrapped, and runs the
    post-insert maintenance; it does not take the saturated branch. *)
Theorem open_insert_wraps_into_tombstone (v : variant) (rawKey : jsstring)
    (st : state) (pre : list log) (st1 : state) (t : Z) :
  let key := normaliseKey rawKey in
  let ctx := createContext v st1 key in
  let n := Z.to_nat (size st1) in
  ensureCapacityBeforeInsert v st = (Ret pre, st1) ->
  0 < size st1 ->
  (forall j : nat, Z.of_nat j < size st1 -> passes (slot v st1 key (Z.of_nat j)) key) ->
  first_tombstone (table st1) (probe_path v st1 key n) = Some t ->
  insert v 1 rawKey st
  = match maintainAfterInsert v (placed_at st1 t key true) with
    | (Ret more, st') =>
        Some (Ret (mkResult
                     (((pre ++ logContext v ctx key) ++ notes_from v st1 ctx 0 n)
                        ++ [LWrappedIntoTombstone key t] ++ more)
                     (([] ++ as_probes (probe_path v st1 key n)) ++ [(t, placed)])
                     inserted), st')
    | (Throw e, st') => Some (Throw e, st')
    end.
Proof.
  intros key ctx n Hpre Hsz Hpass Hseen.
  destruct (first_tombstone_some v st1 ctx 0 n t Hsz Hseen) as [Htomb Hrange].
  cbn [insert]. fold key.
  rewrite (insert_attempt_after_capacity_check v key st pre st1 Hpre). cbv zeta. fold ctx n.
  rewrite (insert_loop_exhausted_track v key ctx st1 n 0 (-1)
             (pre ++ logContext v ctx key) [] Hsz).
  2:{ intros j Hj. apply (Hpass j). unfold n in Hj. lia. }
  change (path_from v st1 ctx 0 n) with (probe_path v st1 key n).
  rewrite Hseen. unfold track. cbn [Z.eqb Pos.eqb].
  destruct (Z.eqb_spec t (-1)) as [?|_]; [lia|]. cbn [negb].
  unfold bind, ret. cbv beta. rewrite !place_eq, Htomb.
  destruct (maintainAfterInsert v (placed_at st1 t key true)) as [[more|e] st']; reflexivity.
Qed.

Lemma open_insert_wraps_into_tombstone_witness :
  exists r st',
    insert Quadratic 1 (str "36") Scenario.quadratic11 = Some (Ret r, st')
    /\ res_status r = inserted
    /\ arr_get (table st') 8 = Key (str "36").
Proof.
  pose proof (open_insert_wraps_into_tombstone Quadratic (str "36") Scenario.quadratic11
                [] Scenario.quadratic11 8) as H.
  cbv zeta in H.
  assert (H1 : ensureCapacityBeforeInsert Quadratic Scenario.quadratic11
               = (Ret [], Scenario.quadratic11)) by (vm_compute; reflexivity).
  assert (H2 : 0 < size Scenario.quadratic11) by (vm_compute; reflexivity).
  assert (H3 : forall j : nat, Z.of_nat j < size Scenario.quadratic11 ->
            passes (slot Quadratic Scenario.quadratic11 (normaliseKey (str "36")) (Z.of_nat j))
              (normaliseKey (str "36"))).
  { intros j Hj. change (size Scenario.quadratic11) with 11 in Hj.
    assert (Hcases : (j < 11)%nat) by lia.
    do 11 (destruct j as [|j]; [split; vm_compute; [discriminate|reflexivity]|]).
    lia. }
  assert (H4 : first_tombstone (table Scenario.quadratic11)
                 (probe_path Quadratic Scenario.quadratic11 (normaliseKey (str "36"))
                    (Z.to_nat (size Scenario.quadratic11))) = Some 8)
    by (vm_compute; reflexivity).
  specialize (H H1 H2 H3 H4).
  compute_scrutinee H.
  eexists _, _. split; [exact H|]. split; vm_compute; reflexivity.
Defined.

(** X28: the resize policy keeps the load of every reachable
    open-addressing table at or below 0.72, except in a table of the
    maximum size 199: between two actions, [count / size <= 0.72] or
    [size = 199]. *)
Theorem open_load_stays_bounded (v : variant) (st : state) :
  OpenController.reachable v st -> load_bounded st.
Proof. apply reachable_load. Qed.

Lemma open_load_stays_bounded_witness : load_bounded Scenario.linear7.
Proof.
  apply (open_load_stays_bounded Linear).
  exists 7, 2%nat, Scenario.linear7_acts. vm_compute. reflexivity.
Defined.

End OpenProperties.

(** * Properties of the chaining strategy on reachable tables *)

Section ChainingProperties.
Import Chaining ChainingSpec ChainingInv.

(** X14: every table that the controller can bring the chaining
    strategy to has between 3 and 199 chains, exactly [size] of them,
    holds every key in the chain that its hash selects, holds no key
    twice, and has [count] equal to the number of keys. *)
Theorem chaining_reachable_sound (st : state) :
  ChainingController.reachable st -> sound st.
Proof. apply reachable_sound. Qed.

Lemma chaining_reachable_sound_witness : sound Tables.chaining5.
Proof.
  apply chaining_reachable_sound.
  exists 5, Tables.chaining5_acts. vm_compute. reflexivity.
Defined.

(** X15: on a reachable chaining table, search returns, leaves the
    table as it is, and reports [found] exactly when the normalised key
    is stored and [missing] exactly when it is not. *)
Theorem chaining_search_reports_membership (rawKey : jsstring) (st : state) :
  ChainingController.reachable st ->
  exists r,
    search rawKey st = (Ret r, st)
    /\ (res_status r = found <-> stored st (normaliseKey rawKey))
    /\ (res_status r = missing <-> ~ stored st (normaliseKey rawKey)).
Proof.
  intros Hreach. destruct (reachable_sound st Hreach) as (Hwf & _).
  destruct (search_spec st rawKey Hwf) as (r & Hr & Hfound & Hmissing).
  exists r. split; [exact Hr|].
  destruct (List.in_dec (List.list_eq_dec Z.eq_dec) (normaliseKey rawKey) (concat (table st)))
    as [Hin|Hout].
  - rewrite (Hfound Hin). split; split; try tauto; try discriminate.
  - rewrite (Hmissing Hout). split; split; try tauto; discriminate.
Qed.

Lemma chaining_search_reports_membership_witness :
  exists r,
    search (str "015") Tables.chaining5 = (Ret r, Tables.chaining5)
    /\ (res_status r = found <-> stored Tables.chaining5 (normaliseKey (str "015")))
    /\ (res_status r = missing <-> ~ stored Tables.chaining5 (normaliseKey (str "015"))).
Proof.
  apply chaining_search_reports_membership.
  exists 5, Tables.chaining5_acts. vm_compute. reflexivity.
Defined.

(** X16: on a reachable chaining table insert always returns; its
    status is [duplicate] if the normalised key was stored, and then the
    table is left exactly as it was, or [inserted] if it was not, and
    then [count] grows by one; afterwards the table holds the old keys
    and the key, has no fewer chains than before, and a search for the
    same text reports [found]. *)
Theorem chaining_insert_then_search (rawKey : jsstring) (st : state) :
  ChainingController.reachable st ->
  let key := normaliseKey rawKey in
  exists r st',
    insert rawKey st = (Ret r, st')
    /\ (res_status r = duplicate <-> stored st key)
    /\ (res_status r = inserted <-> ~ stored st key)
    /\ (res_status r = duplicate -> st' = st)
    /\ (res_status r = inserted -> count st' = count st + 1)
    /\ (forall k, stored st' k <-> k = key \/ stored st k)
    /\ size st <= size st'
    /\ exists r', search rawKey st' = (Ret r', st') /\ res_status r' = found.
Proof.
  intros Hreach key.
  destruct (insert_sound st rawKey (reachable_sound st Hreach))
    as (r & st' & Hrun & Hs' & Hkeys & Hstatus & Hsz).
  fold key in Hkeys, Hstatus.
  exists r, st'. split; [exact Hrun|].
  assert (Hfind : exists r', search rawKey st' = (Ret r', st') /\ res_status r' = found).
  { destruct (search_spec st' rawKey (proj1 Hs')) as (r' & Hr' & Hfound & _).
    exists r'. split; [exact Hr'|]. apply Hfound, Hkeys. left. reflexivity. }
  destruct Hstatus as [(Hs & Hin & Heq)|(Hs & Hout & Hc)]; rewrite Hs.
  - split; [tauto|]. split; [split; [discriminate|contradiction]|].
    split; [intros _; exact Heq|]. split; [discriminate|].
    split; [exact Hkeys|]. split; [exact Hsz|exact Hfind].
  - split; [split; [discriminate|contradiction]|]. split; [tauto|].
    split; [discriminate|]. split; [intros _; exact Hc|].
    split; [exact Hkeys|]. split; [exact Hsz|exact Hfind].
Qed.

Lemma chaining_insert_then_search_witness :
  exists r st',
    insert (str "apple") Tables.chaining5 = (Ret r, st')
    /\ size Tables.chaining5 <= size st'
    /\ exists r', search (str "apple") st' = (Ret r', st') /\ res_status r' = found.
Proof.
  destruct (chaining_insert_then_search (str "apple") Tables.chaining5)
    as (r & st' & Hrun & _ & _ & _ & _ & _ & Hsz & Hfind).
  - exists 5, Tables.chaining5_acts. vm_compute. reflexivity.
  - exists r, st'. split; [exact Hrun|]. split; [exact Hsz|exact Hfind].
Defined.

(** X17: on a reachable chaining table remove always returns; its
    status is [removed] if the normalised key was stored, and then
    [count] drops by one, or [missing] if it was not, and then the table
    is left exactly as it was; afterwards the table holds the old keys
    other than the key, has no more chains than before, and a search for
    the same text reports [missing]. *)
Theorem chaining_remove_then_search (rawKey : jsstring) (st : state) :
  ChainingController.reachable st ->
  let key := normaliseKey rawKey in
  exists r st',
    remove rawKey st = (Ret r, st')
    /\ (res_status r = removed <-> stored st key)
    /\ (res_status r = missing <-> ~ stored st key)
    /\ (res_status r = removed -> count st' = count st - 1)
    /\ (res_status r = missing -> st' = st)
    /\ (forall k, stored st' k <-> k <> key /\ stored st k)
    /\ size st' <= size st
    /\ exists r', search rawKey st' = (Ret r', st') /\ res_status r' = missing.
Proof.
  intros Hreach key.
  destruct (remove_sound st rawKey (reachable_sound st Hreach))
    as (r & st' & Hrun & Hs' & Hkeys & Hstatus & Hsz).
  fold key in Hkeys, Hstatus.
  exists r, st'. split; [exact Hrun|].
  assert (Hfind : exists r', search rawKey st' = (Ret r', st') /\ res_status r' = missing).
  { destruct (search_spec st' rawKey (proj1 Hs')) as (r' & Hr' & _ & Hmissing).
    exists r'. split; [exact Hr'|]. apply Hmissing. fold key. rewrite Hkeys. tauto. }
  destruct Hstatus as [(Hs & Hin & Hc)|(Hs & Hout & Heq)]; rewrite Hs.
  - split; [tauto|]. split; [split; [discriminate|contradiction]|].
    split; [intros _; exact Hc|]. split; [discriminate|].
    split; [exact Hkeys|]. split; [exact Hsz|exact Hfind].
  - split; [split; [discriminate|contradiction]|]. split; [tauto|].
    split; [discriminate|]. split; [intros _; exact Heq|].
    split; [exact Hkeys|]. split; [exact Hsz|exact Hfind].
Qed.

Lemma chaining_remove_then_search_witness :
  exists r st',
    remove (str "15") Tables.chaining5 = (Ret r, st')
    /\ size st' <= size Tables.chaining5
    /\ exists r', search (str "15") st' = (Ret r', st') /\ res_status r' = missing.
Proof.
  destruct (chaining_remove_then_search (str "15") Tables.chaining5)
    as (r & st' & Hrun & _ & _ & _ & _ & _ & Hsz & Hfind).
  - exists 5, Tables.chaining5_acts. vm_compute. reflexivity.
  - exists r, st'. split; [exact Hrun|]. split; [exact Hsz|exact Hfind].
Defined.



(** X19: on a reachable chaining table, what snapshot() hands to the
    renderer agrees with stats(): one bucket per chain, numbered from 0;
    the items of the buckets are the stored keys; the total that
    stats() accumulates over the non-empty chains equals [keys]; its
    longest chain is the one the growth policy measures; and it counts
    at most [size] non-empty chains. *)
Theorem chaining_snapshot_agrees_with_stats (st : state) :
  ChainingController.reachable st ->
  let buckets := ChainingView.snapshot st in
  let s := ChainingView.stats st in
  map ChainingView.bucket_index buckets
  = map Z.of_nat (seq 0 (Z.to_nat (ChainingView.stat_size s)))
  /\ concat (map ChainingView.items buckets) = concat (table st)
  /\ ChainingView.chainTotal (ChainingView.stat_tally s) = ChainingView.stat_keys s
  /\ ChainingView.longest (ChainingView.stat_tally s) = maxChain (table st)
  /\ 0 <= ChainingView.nonEmpty (ChainingView.stat_tally s) <= ChainingView.stat_size s.
Proof.
  intros Hreach buckets s.
  destruct (reachable_sound st Hreach) as ((Hpos & Hlen & _ & Hcount) & _ & _).
  unfold buckets, s, ChainingView.snapshot, ChainingView.stats.
  cbn [ChainingView.stat_size ChainingView.stat_keys ChainingView.stat_tally].
  rewrite chaining_tally.
  cbn [ChainingView.longest ChainingView.chainTotal ChainingView.nonEmpty].
  split; [|split; [|split; [|split]]].
  - rewrite <- Hlen. apply (imap_indices ChainingView.bucket_index (table st) 0). reflexivity.
  - apply chaining_items. reflexivity.
  - rewrite Hcount. lia.
  - reflexivity.
  - pose proof (List.filter_length_le
                  (fun b : list jsstring => negb (Z.of_nat (length b) =? 0)) (table st)) as Hle.
    rewrite Hlen in Hle. lia.
Qed.

Lemma chaining_snapshot_agrees_with_stats_witness :
  concat (map ChainingView.items (ChainingView.snapshot Tables.chaining5))
  = concat (table Tables.chaining5)
  /\ ChainingView.chainTotal (ChainingView.stat_tally (ChainingView.stats Tables.chaining5))
     = ChainingView.stat_keys (ChainingView.stats Tables.chaining5).
Proof.
  destruct (chaining_snapshot_agrees_with_stats Tables.chaining5)
    as (_ & Hitems & Htotal & _).
  - exists 5, Tables.chaining5_acts. vm_compute. reflexivity.
  - split; [exact Hitems|exact Htotal].
Defined.

(** X29: the resize policy keeps the load of every reachable chaining
    table at or below 1.15, except in a table of the maximum size 199:
    between two actions, [count / size <= 1.15] or [size = 199]. *)
Theorem chaining_load_stays_bounded (st : state) :
  ChainingController.reachable st -> load_bounded st.
Proof. apply chaining_reachable_load. Qed.

Lemma chaining_load_stays_bounded_witness : load_bounded Tables.chaining5.
Proof.
  apply chaining_load_stays_bounded.
  exists 5, Tables.chaining5_acts. vm_compute. reflexivity.
Defined.

End ChainingProperties.

(** * Properties of the key, hash and size helpers *)

Section HelperProperties.
Import HashSpec.

(** X20: normaliseKey is idempotent, and hashCode, primaryIndex and
    secondaryStep give the same result on a key and on its normalised
    form. *)
Theorem normaliseKey_idempotent_for_hashing (rawKey : jsstring) :
  normaliseKey (normaliseKey rawKey) = normaliseKey rawKey
  /\ hashCode (normaliseKey rawKey) = hashCode rawKey
  /\ (forall size, primaryIndex size (normaliseKey rawKey) = primaryIndex size rawKey)
  /\ (forall size, secondaryStep size (normaliseKey rawKey) = secondaryStep size rawKey).
Proof.
  pose proof (normaliseKey_idempotent rawKey) as Hidem.
  assert (Hhash : hashCode (normaliseKey rawKey) = hashCode rawKey).
  { unfold hashCode. rewrite Hidem. reflexivity. }
  split; [exact Hidem|]. split; [exact Hhash|]. split.
  - intros size. unfold primaryIndex. rewrite Hhash. reflexivity.
  - intros size. unfold secondaryStep. rewrite Hhash. reflexivity.
Qed.

(** X21: on a string of UTF-16 code units, hashCode is the 32-bit
    FNV-1a hash of the normalised key (the signed 32-bit arithmetic of
    the code and the unsigned formulation agree); the hash lies in
    [0, 2^32) and, for a positive table size, primaryIndex lies in
    [0, size). *)
Theorem hashCode_is_fnv1a (rawKey : jsstring) :
  Forall code_unit rawKey ->
  hashCode rawKey = fnv1a (normaliseKey rawKey)
  /\ 0 <= hashCode rawKey < 2 ^ 32
  /\ (forall size, 0 < size -> 0 <= primaryIndex size rawKey < size).
Proof.
  intros Hunits. split; [apply hashCode_fnv1a, Hunits|].
  split; [apply hashCode_nonneg|]. intros size Hsize. apply primaryIndex_range, Hsize.
Qed.

Lemma hashCode_is_fnv1a_witness :
  hashCode (str " 007 ") = fnv1a (str "7")
  /\ 0 <= primaryIndex 11 (str " 007 ") < 11.
Proof.
  destruct (hashCode_is_fnv1a (str " 007 ")) as (Hfnv & _ & Hindex).
  - change (str " 007 ") with [32; 48; 48; 55; 32].
    repeat (apply List.Forall_cons; [unfold code_unit; lia|]). apply List.Forall_nil.
  - split; [exact Hfnv|]. apply Hindex. lia.
Defined.

(** X22: isPrime decides primality: it returns true exactly on the
    integers greater than 1 that no integer strictly between 1 and
    themselves divides. *)
Theorem isPrime_decides_primality (n : Z) : isPrime n = true <-> Z.prime n.
Proof. apply isPrime_spec. Qed.

(** X23: nextPrime returns the least prime that is at least its
    argument clamped to [3, 199]; that prime is at most 199. *)
Theorem nextPrime_least_prime (x : Z) :
  let c := clampTableSize x in
  Z.prime (nextPrime x)
  /\ c <= nextPrime x <= MAX_TABLE_SIZE
  /\ forall p, Z.prime p -> c <= p -> nextPrime x <= p.
Proof.
  intros c. rewrite (nextPrime_clamp x). fold c.
  pose proof (clampTableSize_range x) as Hc. fold c in Hc.
  destruct (nextPrime_least_checked c Hc) as (Hprime & Hge & Hleast).
  pose proof (nextPrime_range c) as Hr. unfold MAX_TABLE_SIZE.
  split; [apply isPrime_spec, Hprime|]. split; [lia|].
  intros p Hp Hcp. destruct (Z.le_gt_cases (nextPrime c) p) as [Hle|Hgt]; [exact Hle|].
  apply isPrime_spec in Hp. rewrite (Hleast p ltac:(lia)) in Hp. discriminate.
Qed.

Lemma nextPrime_least_prime_witness : nextPrime 24 <= 29.
Proof.
  destruct (nextPrime_least_prime 24) as (_ & _ & Hleast).
  apply Hleast; [apply isPrime_spec; reflexivity|vm_compute; discriminate].
Defined.

(** X24: previousPrime returns the greatest prime that is at most its
    argument clamped to [3, 199]; that prime is at least 3. *)
Theorem previousPrime_greatest_prime (x : Z) :
  let c := clampTableSize x in
  Z.prime (previousPrime x)
  /\ MIN_TABLE_SIZE <= previousPrime x <= c
  /\ forall p, Z.prime p -> p <= c -> p <= previousPrime x.
Proof.
  intros c. rewrite (previousPrime_clamp x). fold c.
  pose proof (clampTableSize_range x) as Hc. fold c in Hc.
  destruct (previousPrime_greatest_checked c Hc) as (Hprime & Hr & Hgreatest).
  unfold MIN_TABLE_SIZE.
  split; [apply isPrime_spec, Hprime|]. split; [lia|].
  intros p Hp Hpc. destruct (Z.le_gt_cases p (previousPrime c)) as [Hle|Hgt]; [exact Hle|].
  apply isPrime_spec in Hp. rewrite (Hgreatest p ltac:(lia)) in Hp. discriminate.
Qed.

Lemma previousPrime_greatest_prime_witness : 23 <= previousPrime 28.
Proof.
  destruct (previousPrime_greatest_prime 28) as (_ & _ & Hgreatest).
  apply Hgreatest; [apply isPrime_spec; reflexivity|vm_compute; discriminate].
Defined.

(** X25: normaliseSizeForStrategy is idempotent for both kinds of
    strategy; for the open-addressing strategies it returns a prime
    between 3 and 199, and returns its argument unchanged exactly when
    the argument is such a prime; for chaining it returns a size
    between 3 and 199. *)
Theorem normaliseSizeForStrategy_fixed_points (sz : Z) :
  table_prime (normaliseSizeForOpen sz)
  /\ normaliseSizeForOpen (normaliseSizeForOpen sz) = normaliseSizeForOpen sz
  /\ (normaliseSizeForOpen sz = sz <-> table_prime sz)
  /\ MIN_TABLE_SIZE <= normaliseSizeForChaining sz <= MAX_TABLE_SIZE
  /\ normaliseSizeForChaining (normaliseSizeForChaining sz) = normaliseSizeForChaining sz.
Proof.
  assert (Hopen : forall x, normaliseSizeForOpen x = nextPrime x).
  { intros x. unfold normaliseSizeForOpen. symmetry. apply nextPrime_clamp. }
  assert (Hfix : forall p, table_prime p -> nextPrime p = p).
  { intros p [Hr Hp]. unfold MIN_TABLE_SIZE, MAX_TABLE_SIZE in Hr.
    destruct (nextPrime_least_checked p Hr) as (_ & Hge & Hleast).
    destruct (Z.eq_dec (nextPrime p) p) as [Heq|Hne]; [exact Heq|].
    rewrite (Hleast p ltac:(lia)) in Hp. discriminate. }
  rewrite !Hopen.
  split; [apply nextPrime_table_prime|].
  split; [apply Hfix, nextPrime_table_prime|].
  split; [split; [intros <-; apply nextPrime_table_prime|apply Hfix]|].
  pose proof (clampTableSize_range sz) as Hc.
  unfold normaliseSizeForChaining, MIN_TABLE_SIZE, MAX_TABLE_SIZE.
  split; [exact Hc|apply clampTableSize_fixed, Hc].
Qed.

Lemma normaliseSizeForStrategy_fixed_points_witness : normaliseSizeForOpen 13 = 13.
Proof.
  destruct (normaliseSizeForStrategy_fixed_points 13) as (_ & _ & Hiff & _).
  apply Hiff. split; [vm_compute; split; discriminate|reflexivity].
Defined.

(** X26: the size helpers of the first closure of the file agree with
    those of the second: for double hashing its unbounded upward search
    for a prime ends within 14 candidates on every clamped size and
    returns the size that the second closure computes for the
    open-addressing strategies; for the other strategies it returns the
    clamped size. *)
Theorem legacy_sizes_agree (fuel : nat) (sz : Z) :
  (14 <= fuel)%nat ->
  Legacy.normaliseSizeForStrategy fuel sz true = Some (normaliseSizeForOpen sz)
  /\ Legacy.normaliseSizeForStrategy fuel sz false = Some (normaliseSizeForChaining sz).
Proof.
  intros Hfuel. split; [|reflexivity].
  unfold Legacy.normaliseSizeForStrategy, normaliseSizeForOpen. cbv zeta.
  pose proof (legacy_nextPrime_clamped (clampTableSize sz) (clampTableSize_range sz)) as Hrun.
  unfold Legacy.nextPrime in *.
  apply (legacy_nextPrime_loop_more 14 fuel _ _ Hrun Hfuel).
Qed.

Lemma legacy_sizes_agree_witness :
  Legacy.normaliseSizeForStrategy 20 114 true = Some 127.
Proof.
  destruct (legacy_sizes_agree 20 114) as [H _]; [lia|]. exact H.
Defined.

End HelperProperties.
